(** * statsd: metric engine and on-disk time-series store

    A shallow embedding of the Go sources of the statsd server
    (wire parser, quantile timer, file-system datastore, server read API)
    together with the properties checked against them.

    Conventions used throughout.
    - Go [int64]/[int] values are integers in [Z]; arithmetic that the code
      performs on [int64] is written with the wrap-around operations of
      module [Go] ([add64], [sub64], [mul64]); [/] and [%] are Go's
      truncating division and remainder ([Z.quot], [Z.rem]).
    - A Go call that can fail returns [result A]: [Ok a] for [(a, nil)],
      [Err e] for [(_, e)], and [Panic] for a run-time panic (index or slice
      out of range, nil dereference).
    - A [float64] is modelled as its value: a rational, an infinity or NaN.
      Every arithmetic operation rounds its exact result to the nearest
      binary64 number, ties to even, and overflows to an infinity
      ([round64]); the sign of zero is not modelled.  The datastore, which
      only stores and returns values, carries a [float64] as its 64-bit
      pattern.
    - Files are byte lists; input and output fail only where the contents
      decide it (a short read, a bad size), never for reasons of the
      operating system.
    - Locks, condition variables and goroutines are not modelled: every
      operation is the sequential function it computes while holding its
      locks. *)

From Stdlib Require Import ZArith QArith Qround Qabs Qpower List Lia Lqa Bool.
From Stdlib Require Import Permutation Sorted.
From Stdlib Require Import Strings.Byte Strings.String Strings.Ascii.
From stdpp Require Import base gmap strings list.
Import ListNotations.

Open Scope Z_scope.

(** ** Go primitives *)

Module Go.

(** [type Error string]: an error value is its message. *)
Definition Error := string.

Inductive result (A : Type) : Type :=
| Ok (a : A)
| Err (e : Error)
| Panic.
Arguments Ok {A} a.
Arguments Err {A} e.
Arguments Panic {A}.

#[global] Instance result_ret : MRet result := fun A a => Ok a.
#[global] Instance result_bind : MBind result := fun A B k r =>
  match r with
  | Ok a => k a
  | Err e => Err e
  | Panic => Panic
  end.

(** Two's complement reduction of an integer to the [int64] range. *)
Definition wrap64 (z : Z) : Z := (z + 2 ^ 63) mod 2 ^ 64 - 2 ^ 63.

Definition add64 (a b : Z) : Z := wrap64 (a + b).
Definition sub64 (a b : Z) : Z := wrap64 (a - b).
Definition mul64 (a b : Z) : Z := wrap64 (a * b).

Definition MinInt64 : Z := - 2 ^ 63.
Definition MaxInt64 : Z := 2 ^ 63 - 1.

Definition int64_range (z : Z) : Prop := MinInt64 <= z <= MaxInt64.

(** [len(s)] *)
Definition len {A : Type} (s : list A) : Z := Z.of_nat (length s).

(** [s[i]]: panics out of range. *)
Definition index {A : Type} (s : list A) (i : Z) : result A :=
  if 0 <=? i then
    match nth_error s (Z.to_nat i) with
    | Some a => Ok a
    | None => Panic
    end
  else Panic.

(** [s[:n]] and [s[n:]]: panic unless [0 <= n <= len(s)]. *)
Definition slice_to {A : Type} (s : list A) (n : Z) : result (list A) :=
  if (0 <=? n) && (n <=? len s) then Ok (firstn (Z.to_nat n) s) else Panic.

Definition slice_from {A : Type} (s : list A) (n : Z) : result (list A) :=
  if (0 <=? n) && (n <=? len s) then Ok (skipn (Z.to_nat n) s) else Panic.

(** The values of [i] in [for i := lo; i < hi; i++]. *)
Fixpoint countFrom (lo : Z) (n : nat) : list Z :=
  match n with
  | O => []
  | S n' => lo :: countFrom (lo + 1) n'
  end.

Definition loop (lo hi : Z) : list Z := countFrom lo (Z.to_nat (hi - lo)).

(** *** float64 *)

Inductive float64 : Type :=
| FNum (q : Q)
| FInf (neg : bool)
| FNaN.

Definition Qltb (a b : Q) : bool := negb (Qle_bool b a).

(** [x <= y], [x < y], [x >= y] on floats: false whenever a NaN is involved. *)
Definition fle (x y : float64) : bool :=
  match x, y with
  | FNaN, _ | _, FNaN => false
  | FNum a, FNum b => Qle_bool a b
  | FInf true, _ => true
  | _, FInf false => true
  | FInf false, _ => false
  | _, FInf true => false
  end.

Definition flt (x y : float64) : bool :=
  match x, y with
  | FNaN, _ | _, FNaN => false
  | FNum a, FNum b => Qltb a b
  | FInf true, FInf true => false
  | FInf false, FInf false => false
  | FInf true, _ => true
  | _, FInf false => true
  | FInf false, _ => false
  | _, FInf true => false
  end.

Definition fge (x y : float64) : bool := fle y x.

Definition Qsign_neg (a : Q) : bool := Qltb a 0.
Definition Qis_zero (a : Q) : bool := Qeq_bool a 0.

(** *** Rounding to binary64 *)

(** For [0 < a], the exponent [l] with [2^l <= a < 2^(l+1)]. *)
Definition Qlog2 (a : Q) : Z :=
  let l := Z.log2 (Qnum a) - Z.log2 (Zpos (Qden a)) in
  if Qle_bool (2 ^ l) a then l else l - 1.

(** The integer nearest to [x], the even one of two that are equally near. *)
Definition rne (x : Q) : Z :=
  let f := Qfloor x in
  match (x - inject_Z f ?= 1 # 2)%Q with
  | Lt => f
  | Gt => f + 1
  | Eq => if Z.even f then f else f + 1
  end.

(** The binary64 number nearest to [q] (IEEE 754 round to nearest, ties to
    even).  A number of magnitude [a] in [2^l, 2^(l+1)) is rounded to a
    multiple of [2^(l-52)] (53 significant bits), and to a multiple of
    [2^-1074] in the subnormal range; a result of magnitude [2^1024] or more
    is an infinity. *)
Definition round64 (q : Q) : float64 :=
  let q := Qred q in
  if Qeq_bool q 0 then FNum 0
  else
    let a := Qabs q in
    let e := Z.max (Qlog2 a - 52) (-1074) in
    let r := (inject_Z (rne (a / 2 ^ e)) * 2 ^ e)%Q in
    if Qle_bool (2 ^ 1024) r then FInf (Qsign_neg q)
    else FNum (Qred (if Qsign_neg q then - r else r)).

(** [x + y], [x * y] and [x / y] on [float64]. *)
Definition fadd (x y : float64) : float64 :=
  match x, y with
  | FNaN, _ | _, FNaN => FNaN
  | FNum a, FNum b => round64 (a + b)
  | FInf s, FNum _ => FInf s
  | FNum _, FInf s => FInf s
  | FInf s, FInf t => if Bool.eqb s t then FInf s else FNaN
  end.

Definition fmul (x y : float64) : float64 :=
  match x, y with
  | FNaN, _ | _, FNaN => FNaN
  | FNum a, FNum b => round64 (a * b)
  | FInf s, FNum b | FNum b, FInf s =>
      if Qis_zero b then FNaN else FInf (xorb s (Qsign_neg b))
  | FInf s, FInf t => FInf (xorb s t)
  end.

Definition fdiv (x y : float64) : float64 :=
  match x, y with
  | FNaN, _ | _, FNaN => FNaN
  | FNum a, FNum b =>
      if Qis_zero b then (if Qis_zero a then FNaN else FInf (Qsign_neg a))
      else round64 (a / b)
  | FNum _, FInf _ => FNum 0
  | FInf s, FNum b => FInf (xorb s (Qsign_neg b))
  | FInf _, FInf _ => FNaN
  end.

Definition f0 : float64 := FNum 0.
Definition f1 : float64 := FNum 1.

(** [Record{Ts int64; Value float64}] of the [Datastore] interface; [V] is
    the representation chosen for the value. *)
Record Record_ (V : Type) : Type := mkRecord { Ts : Z; Value : V }.
Arguments mkRecord {V} Ts Value.
Arguments Ts {V} r.
Arguments Value {V} r.

(** State passing with errors: a Go method on a mutable receiver of type
    [S] that returns [(A, error)]. *)
Definition M (S A : Type) : Type := S -> S * result A.

#[global] Instance M_ret (S : Type) : MRet (M S) := fun A a s => (s, Ok a).
#[global] Instance M_bind (S : Type) : MBind (M S) := fun A B k m s =>
  match m s with
  | (s', Ok a) => k a s'
  | (s', Err e) => (s', Err e)
  | (s', Panic) => (s', Panic)
  end.

Definition fail {S A : Type} (e : Error) : M S A := fun s => (s, Err e).
Definition panic {S A : Type} : M S A := fun s => (s, Panic).
Definition lift {S A : Type} (r : result A) : M S A := fun s => (s, r).
Definition gets {S A : Type} (f : S -> A) : M S A := fun s => (s, Ok (f s)).
Definition modify {S : Type} (f : S -> S) : M S unit := fun s => (f s, Ok tt).

End Go.
Export Go.

(** ** Wire format: [Metric], error values and [ParseMetric] *)

Module Wire.

(** The closed set of metric kinds ([Counter], [Gauge], [Avg], [Timer]).
    The code's sentinel [MetricType(-1)] is [None : option MetricType]. *)
Inductive MetricType : Type := Counter | Gauge | Avg | Timer.

#[global] Instance MetricType_eq_dec : EqDecision MetricType.
Proof. solve_decision. Defined.

Record Metric : Type := mkMetric {
  Name : string;
  Type_ : MetricType;
  Value : float64;
  SampleRate : float64
}.

Definition ErrNoName : Error := "Name missing".
Definition ErrNoType : Error := "Type missing".
Definition ErrNoValue : Error := "Value missing".
Definition ErrNoSampling : Error := "Sample rate missing".
Definition ErrNameInvalid : Error := "Invalid characters in name".
Definition ErrTypeInvalid : Error := "Invalid type".
Definition ErrValueInvalid : Error := "Invalid value".
Definition ErrSamplingInvalid : Error := "Invalid sample rate".
Definition ErrNoData : Error := "No data".
Definition ErrChannelInvalid : Error := "No such channel".
Definition ErrMixingTypes : Error := "Cannot mix different metric types".
Definition ErrInvalid : Error := "Invalid paramter".
Definition ErrNoChannels : Error := "No channels specified".
Definition ErrNonunique : Error := "Channel names must be unique".

(** The eight errors [ParseMetric] can return. *)
Definition parseErrors : list Error :=
  [ErrNoName; ErrNoType; ErrNoValue; ErrNoSampling;
   ErrNameInvalid; ErrTypeInvalid; ErrValueInvalid; ErrSamplingInvalid].

Definition byte_is (c ch : byte) : bool := Byte.eqb ch c.

Definition colon : byte := ":"%byte.
Definition slash : byte := "/"%byte.
Definition nul : byte := "000"%byte.
Definition bar : byte := "|"%byte.
Definition at_sign : byte := "@"%byte.

(** First loop of [ParseMetric]: position of the first [':'] counted from
    [i], [-1] when there is none, or [ErrNameInvalid] when a ['/'] or a NUL
    comes first. *)
Fixpoint scanName (m : list byte) (i : Z) : Error + Z :=
  match m with
  | [] => inr (-1)
  | ch :: m' =>
      if byte_is colon ch then inr i
      else if byte_is slash ch || byte_is nul ch then inl ErrNameInvalid
      else scanName m' (i + 1)
  end.

(** Second and third loop: position of the first ['|'] counted from [i],
    [-1] when there is none. *)
Fixpoint scanBar (m : list byte) (i : Z) : Z :=
  match m with
  | [] => -1
  | ch :: m' => if byte_is bar ch then i else scanBar m' (i + 1)
  end.

Section Parse.

(** [strconv.ParseFloat(s, 64)] of the Go library: [None] stands for a
    non-nil error. *)
Variable ParseFloat : list byte -> option float64.

(** The [switch] on the type letters. *)
Definition parseType (m : list byte) (n : Z) : result (option MetricType) :=
  if n =? 1 then
    c ← index m 0;
    mret (if byte_is "c"%byte c then Some Counter
          else if byte_is "g"%byte c then Some Gauge
          else if byte_is "a"%byte c then Some Avg
          else None)
  else if n =? 2 then
    c0 ← index m 0;
    if byte_is "m"%byte c0 then
      c1 ← index m 1;
      mret (if byte_is "s"%byte c1 then Some Timer else None)
    else mret None
  else mret None.

(** The optional ['|@' SAMPLE_RATE] suffix; [n] is the position of the
    second ['|'] or [len m] when there is none. *)
Definition parseRate (m : list byte) (n : Z) : result float64 :=
  if n =? len m then mret f1
  else if n =? len m - 1 then Err ErrNoSampling
  else
    c ← index m (n + 1);
    if negb (byte_is at_sign c) then Err ErrSamplingInvalid
    else
      rs ← slice_from m (n + 2);
      match ParseFloat rs with
      | None => Err ErrSamplingInvalid
      | Some s => if fle s f0 then Err ErrSamplingInvalid else mret s
      end.

Definition ParseMetric (m : list byte) : result Metric :=
  if len m =? 0 then Err ErrNoName
  else
    match scanName m 0 with
    | inl e => Err e
    | inr n =>
        if n =? 0 then Err ErrNoName
        else if (n =? -1) || (n =? len m - 1) then Err ErrNoValue
        else
          name ← slice_to m n;
          m1 ← slice_from m (n + 1);
          let n1 := scanBar m1 0 in
          if n1 =? 0 then Err ErrNoValue
          else if (n1 =? -1) || (n1 =? len m1 - 1) then Err ErrNoType
          else
            vs ← slice_to m1 n1;
            match ParseFloat vs with
            | None => Err ErrValueInvalid
            | Some value =>
                m2 ← slice_from m1 (n1 + 1);
                let n2 := scanBar m2 0 in
                let n2 := if n2 =? -1 then len m2 else n2 in
                typ ← parseType m2 n2;
                match typ with
                | None => Err ErrTypeInvalid
                | Some typ =>
                    sr ← parseRate m2 n2;
                    mret (mkMetric (string_of_list_byte name) typ value sr)
                end
            end
    end.

End Parse.

(** A stand-in for [strconv.ParseFloat] on unsigned decimal integers,
    used to run [ParseMetric] on concrete lines. *)
Definition digitVal (b : byte) : option Z :=
  let n := Z.of_N (Byte.to_N b) in
  if (48 <=? n) && (n <=? 57) then Some (n - 48) else None.

Fixpoint parseDigits (s : list byte) (acc : Z) : option Z :=
  match s with
  | [] => Some acc
  | b :: s' =>
      match digitVal b with
      | Some d => parseDigits s' (10 * acc + d)
      | None => None
      end
  end.

Definition parseUint (s : list byte) : option float64 :=
  match s with
  | [] => None
  | _ => match parseDigits s 0 with
         | Some z => Some (FNum (inject_Z z))
         | None => None
         end
  end.

End Wire.
Export Wire.

(** ** Quantile timer ([timerMetric], [timerStats]) *)

Module Timer.

(** [timerSorter.Less(i, j)]: [data[i] < data[j]]; the weights ride along. *)
Definition Less (a b : float64 * float64) : bool := flt (fst a) (fst b).

(** [sort.Sort] of the Go library, as its insertion sort: the element at
    position [i] is swapped leftwards while it is [Less] than its left
    neighbour.  [bubble x rl] takes the already sorted prefix in reverse
    order and returns the extended prefix, again in reverse order. *)
Fixpoint bubble (x : float64 * float64) (rl : list (float64 * float64))
  : list (float64 * float64) :=
  match rl with
  | [] => [x]
  | y :: rl' => if Less x y then y :: bubble x rl' else x :: rl
  end.

Definition sortSort (l : list (float64 * float64)) : list (float64 * float64) :=
  rev (fold_left (fun rl x => bubble x rl) l []).

Definition q25 : float64 := FNum (1 # 4).
Definition q50 : float64 := FNum (1 # 2).
Definition q75 : float64 := FNum (3 # 4).

(** [for _, v := range cnt { n += v }] *)
Definition totalWeight (cnt : list float64) : float64 :=
  fold_left fadd cnt f0.

(** One quantile test of the loop body:
    [if m+cnt[i] >= n*q && m < n*q { quart = data[i] }]. *)
Definition pick (n q m d c old : float64) : float64 :=
  if fge (fadd m c) (fmul n q) && flt m (fmul n q) then d else old.

(** The loop over the sorted observations; [m] is the running weight. *)
Fixpoint statsLoop (s : list (float64 * float64)) (n m : float64)
    (qs : float64 * float64 * float64) : float64 * float64 * float64 :=
  match s with
  | [] => qs
  | (d, c) :: s' =>
      let '(quart1, median, quart3) := qs in
      statsLoop s' n (fadd m c)
        (pick n q25 m d c quart1, pick n q50 m d c median, pick n q75 m d c quart3)
  end.

(** [timerStats(data, cnt)].  The two slices are sorted in place, so the
    function returns them next to the statistics vector.  [cnt[i]] panics
    when [cnt] is shorter than [data]. *)
Definition timerStats (data cnt : list float64)
  : result (list float64 * list float64 * list float64) :=
  if len data =? 0 then
    Ok ([FNaN; FNaN; FNaN; FNaN; FNaN; f0], data, cnt)
  else if len cnt <? len data then Panic
  else
    let n := totalWeight cnt in
    let s := sortSort (combine data cnt) in
    let '(quart1, median, quart3) := statsLoop s n f0 (f0, f0, f0) in
    d0 ← index (map fst s) 0;
    dl ← index (map fst s) (len data - 1);
    Ok ([d0; quart1; median; quart3; dl; n],
        map fst s, map snd s ++ skipn (length data) cnt).

Record timerMetric : Type := mkTimer {
  tickData : list float64;
  data : list float64;
  tickCnt : list float64;
  cnt : list float64
}.

(** [create: func() metric { return &timerMetric{} }] *)
Definition create : timerMetric := mkTimer [] [] [] [].

Definition inject (m : timerMetric) (metric : Metric) : timerMetric :=
  mkTimer (tickData m ++ [Value metric]) (data m)
          (tickCnt m ++ [fdiv f1 (SampleRate metric)]) (cnt m).

Definition tick (m : timerMetric) : result (list float64 * timerMetric) :=
  '(stats, td, tc) ← timerStats (tickData m) (tickCnt m);
  Ok (stats, mkTimer [] (data m ++ td) [] (cnt m ++ tc)).

Definition flush (m : timerMetric) : result (list float64 * timerMetric) :=
  '(stats, _, _) ← timerStats (data m) (cnt m);
  Ok (stats, mkTimer (tickData m) [] (tickCnt m) []).

(** *** The quantile rule in the words of the specification *)

(** The rule is stated on observations [(value, weight)] with rational
    values and weights, in exact arithmetic. *)

(** Sorting ascending by value: insertion sort, an observation is moved in
    front of the observations with a greater value. *)
Definition LessQ (a b : Q * Q) : bool := Qltb (fst a) (fst b).

Fixpoint bubbleQ (x : Q * Q) (rl : list (Q * Q)) : list (Q * Q) :=
  match rl with
  | [] => [x]
  | y :: rl' => if LessQ x y then y :: bubbleQ x rl' else x :: rl
  end.

Definition sortQ (l : list (Q * Q)) : list (Q * Q) :=
  rev (fold_left (fun rl x => bubbleQ x rl) l []).

(** The total weight [N]. *)
Definition sumQ (ws : list Q) : Q := fold_right Qplus 0%Q ws.

(** The first value whose cumulative weight reaches or crosses [thr]; [acc]
    is the weight accumulated before the head of [s]. *)
Fixpoint firstReaching (thr acc : Q) (s : list (Q * Q)) : option Q :=
  match s with
  | [] => None
  | (v, w) :: s' =>
      if Qle_bool thr (acc + w) then Some v else firstReaching thr (acc + w)%Q s'
  end.

Definition quantile (q : Q) (obs : list (Q * Q)) : option Q :=
  firstReaching (sumQ (map snd obs) * q) 0 (sortQ obs).

(** *** Runs without rounding *)

(** The exact result [q] of an operation is a binary64 number: rounding
    returns it. *)
Definition exact (q : Q) : bool :=
  match round64 q with
  | FNum c => Qeq_bool c q
  | _ => false
  end.

(** Adding the weights [ws] one after the other to [acc] never rounds. *)
Fixpoint exactSums (acc : Q) (ws : list Q) : bool :=
  match ws with
  | [] => true
  | w :: ws' => exact (acc + w) && exactSums (acc + w)%Q ws'
  end.

(** No operation of [timerStats] on the values [vs] with the weights [ws]
    rounds: the sum [n] of the weights in the order of arrival, the running
    weight [m] in the order of the sorted values and the three products
    [n*0.25], [n*0.50] and [n*0.75]. *)
Definition exactRun (vs ws : list Q) : bool :=
  exactSums 0 ws
  && exactSums 0 (map snd (sortQ (combine vs ws)))
  && exact (sumQ ws * (1 # 4))
  && exact (sumQ ws * (1 # 2))
  && exact (sumQ ws * (3 # 4)).

(** A weight that is a whole number, as for the sample rates 1, 0.5, 0.25,
    0.2 or 0.1. *)
Definition whole (w : Q) : Prop := exists k : Z, 0 < k /\ (w == inject_Z k)%Q.

(** Ascending order on values (left neighbour not above right neighbour). *)
Definition ascending (a b : float64 * float64) : Prop := fle (fst a) (fst b) = true.

End Timer.

(** ** File-system datastore ([FsDatastore]) *)

Module FsDs.

(** In the datastore a [float64] is only stored and returned; it is carried
    as its 64-bit IEEE-754 pattern ([math.Float64bits]), an integer in
    [0, 2^64). *)
Definition float64bits := Z.

Record fsDsRecord : Type := mkRec { ts : Z; value : float64bits }.

Definition fsDsPartitions : Z := 4.
Definition fsDsISize : Z := 16.
Definition fsDsDSize : Z := 8.

(** *** [encoding/binary], little endian *)

Definition byte_of_Z (z : Z) : byte :=
  match Byte.of_N (Z.to_N (z mod 256)) with
  | Some b => b
  | None => "000"%byte
  end.

Definition Z_of_byte (b : byte) : Z := Z.of_N (Byte.to_N b).

Fixpoint le_bytes (n : nat) (z : Z) : list byte :=
  match n with
  | O => []
  | S n' => byte_of_Z z :: le_bytes n' (z / 256)
  end.

Fixpoint le_value (bs : list byte) : Z :=
  match bs with
  | [] => 0
  | b :: bs' => Z_of_byte b + 256 * le_value bs'
  end.

(** [binary.Write(w, le, x)] for a 64-bit integer or float. *)
Definition put64 (z : Z) : list byte := le_bytes 8 z.

(** [binary.Read(r, le, &x)] for [x int64] on exactly eight bytes. *)
Definition getInt64 (bs : list byte) : Z := wrap64 (le_value bs).
Definition getUint64 (bs : list byte) : Z := le_value bs.

(** Reads [n] bytes at offset [off] of a file, as [Seek(off, SEEK_SET)]
    followed by [io.ReadFull]: an error for a negative offset or when fewer
    than [n] bytes remain. *)
Definition ErrEOF : Error := "unexpected EOF".
Definition ErrSeek : Error := "invalid argument".

Definition readAt (f : list byte) (off : Z) (n : nat) : result (list byte) :=
  if off <? 0 then Err ErrSeek
  else
    let bs := firstn n (skipn (Z.to_nat off) f) in
    if (length bs =? n)%nat then Ok bs else Err ErrEOF.

(** *** Streams and their files *)

Record fsDsStream : Type := mkStream {
  name : string;
  tail : list fsDsRecord;
  valid : bool;
  lastWr : Z;
  dsize : Z;
  isize : Z
}.

Record fsDsSnapshot : Type := mkSnapshot {
  s_tail : list fsDsRecord;
  s_dat : list byte;
  s_idx : list byte;
  s_lastWr : Z;
  s_dsize : Z;
  s_isize : Z
}.

(** The datastore directory: file name to contents. *)
Abbreviation files := (gmap string (list byte)).

Definition datFile (n : string) : string := n +:+ ".dat".
Definition idxFile (n : string) : string := n +:+ ".idx".
Definition tailFile : string := "tail_data".

Definition contents (fs : files) (f : string) : list byte := default [] (fs !! f).

(** [os.OpenFile(.., O_CREATE|O_RDWR, ..)]: creates an empty file when
    there is none. *)
Definition openCreate (f : string) (fs : files) : files :=
  match fs !! f with
  | Some _ => fs
  | None => <[f := []]> fs
  end.

(** [lastWr] of a stream without index entries:
    [-1<<63 - (-1<<63)%60]. *)
Definition lastWrEmpty : Z := MinInt64 - Z.rem MinInt64 60.

Definition ErrInvalidSize (n : string) : Error := "Invalid file size: " +:+ n.

(** [fsDsStream.openFiles]: opens both files; unless the stream is
    [valid], re-reads the sizes, checks them and recomputes [lastWr] from
    the last index entry. *)
Definition openFiles (st : fsDsStream) (fs : files)
  : fsDsStream * files * option Error :=
  let fs := openCreate (idxFile (name st)) (openCreate (datFile (name st)) fs) in
  if valid st then (st, fs, None)
  else
    let dsz := len (contents fs (datFile (name st))) in
    let isz := len (contents fs (idxFile (name st))) in
    let st1 := mkStream (name st) (tail st) false (lastWr st) dsz isz in
    if negb (Z.rem isz fsDsISize =? 0) || negb (Z.rem dsz fsDsDSize =? 0) then
      (st1, fs, Some (ErrInvalidSize (name st)))
    else if isz =? 0 then
      (mkStream (name st) (tail st) true lastWrEmpty dsz isz, fs, None)
    else
      match readAt (contents fs (idxFile (name st))) (isz - fsDsISize) 16 with
      | Ok d =>
          let t := getInt64 (firstn 8 d) in
          let pos := getInt64 (skipn 8 d) in
          let lw := add64 t (mul64 60 (sub64 (Z.quot (sub64 dsz pos) fsDsDSize) 1)) in
          (mkStream (name st) (tail st) true lw dsz isz, fs, None)
      | Err e => (st1, fs, Some e)
      | Panic => (st1, fs, Some ErrEOF)
      end.

(** The loop of [writeTail] over the tail.  [dbuff] collects the values
    and [ibuff] the index entries [(ts, pos)] written to the two buffers. *)
Fixpoint tailLoop (tl : list fsDsRecord) (dsz isz lw : Z)
    (dbuff : list float64bits) (ibuff : list (Z * Z))
  : Z * Z * Z * list float64bits * list (Z * Z) :=
  match tl with
  | [] => (dsz, isz, lw, dbuff, ibuff)
  | r :: tl' =>
      if negb (Z.rem (ts r) 60 =? 0) then tailLoop tl' dsz isz lw dbuff ibuff
      else if lw >=? ts r then tailLoop tl' dsz isz lw dbuff ibuff
      else
        let dbuff := dbuff ++ [value r] in
        let dsz := add64 dsz fsDsDSize in
        let lw := add64 lw 60 in
        if ts r >? lw then
          tailLoop tl' dsz (add64 isz fsDsISize) (ts r) dbuff
                   (ibuff ++ [(ts r, sub64 dsz fsDsDSize)])
        else tailLoop tl' dsz isz lw dbuff ibuff
  end.

Definition encodeData (vs : list float64bits) : list byte :=
  flat_map put64 vs.

Definition encodeIdx (es : list (Z * Z)) : list byte :=
  flat_map (fun e => put64 (fst e) ++ put64 (snd e)) es.

(** [fsDsStream.writeTail]: appends the buffers at the end of the files
    and commits the new sizes and [lastWr]. *)
Definition writeTail (st : fsDsStream) (fs : files)
  : fsDsStream * files * option Error :=
  match openFiles st fs with
  | (st1, fs1, Some e) => (st1, fs1, Some e)
  | (st1, fs1, None) =>
      let '(dsz, isz, lw, dbuff, ibuff) :=
        tailLoop (tail st1) (dsize st1) (isize st1) (lastWr st1) [] [] in
      let dat := contents fs1 (datFile (name st1)) ++ encodeData dbuff in
      let idx := contents fs1 (idxFile (name st1)) ++ encodeIdx ibuff in
      (mkStream (name st1) (tail st1) (valid st1) lw dsz isz,
       <[idxFile (name st1) := idx]> (<[datFile (name st1) := dat]> fs1),
       None)
  end.

(** [fsDsStream.makeSnapshot] *)
Definition makeSnapshotSt (st : fsDsStream) (fs : files)
  : fsDsStream * files * result fsDsSnapshot :=
  match openFiles st fs with
  | (st1, fs1, Some e) => (st1, fs1, Err e)
  | (st1, fs1, None) =>
      (st1, fs1,
       Ok (mkSnapshot (tail st1)
                      (contents fs1 (datFile (name st1)))
                      (contents fs1 (idxFile (name st1)))
                      (lastWr st1) (dsize st1) (isize st1)))
  end.

Definition ErrInvalidIndex : Error := "Invalid index data".

(** [fsDsSnapshot.readIdxEntry] *)
Definition readIdxEntry (s : fsDsSnapshot) (n : Z) : result (Z * Z) :=
  d ← readAt (s_idx s) (mul64 n fsDsISize) 16;
  let d0 := getInt64 (firstn 8 d) in
  let d1 := getInt64 (skipn 8 d) in
  if negb (Z.rem d0 60 =? 0) || negb (Z.rem d1 fsDsDSize =? 0)
  then Err ErrInvalidIndex
  else Ok (d0, d1).

(** The binary search of [findIdx]; every iteration shrinks [j - i], so
    [fuel] iterations with [fuel > j - i] are enough.  Running out of fuel
    is reported as a panic, which the code cannot produce here. *)
Fixpoint findIdxLoop (fuel : nat) (s : fsDsSnapshot) (t0 i j : Z) : result Z :=
  if i <? j then
    match fuel with
    | O => Panic
    | S fuel' =>
        let k := Z.quot (add64 i j) 2 in
        '(t, _) ← readIdxEntry s k;
        if t =? t0 then findIdxLoop fuel' s t0 k k
        else if t >? t0 then findIdxLoop fuel' s t0 i (sub64 k 1)
        else if negb (i =? k) then findIdxLoop fuel' s t0 k j
        else
          '(x, _) ← readIdxEntry s j;
          if x >? t0 then findIdxLoop fuel' s t0 i i
          else findIdxLoop fuel' s t0 j j
    end
  else Ok i.

(** [fsDsSnapshot.findIdx]: the last index entry whose timestamp is at most
    [t0], or [-1]. *)
Definition findIdx (s : fsDsSnapshot) (t0 : Z) : result Z :=
  if s_isize s =? 0 then Ok (-1)
  else
    '(first, _) ← readIdxEntry s 0;
    if first >? t0 then Ok (-1)
    else
      let j := sub64 (Z.quot (s_isize s) fsDsISize) 1 in
      findIdxLoop (S (Z.to_nat j)) s t0 0 j.

(** The loop of [findTail]: [i] is the position of the head of [tl]. *)
Fixpoint findTailLoop (tl : list fsDsRecord) (t0 last k i : Z) : Z :=
  match tl with
  | [] => k
  | r :: tl' =>
      if negb (Z.rem (ts r) 60 =? 0) || (last >=? ts r)
      then findTailLoop tl' t0 last k (i + 1)
      else if ts r <=? t0 then findTailLoop tl' t0 (ts r) i (i + 1)
      else k
  end.

(** [fsDsSnapshot.findTail] *)
Definition findTail (s : fsDsSnapshot) (t0 : Z) : Z :=
  findTailLoop (s_tail s) t0 (s_lastWr s) (-1) 0.

(** *** The datastore *)

Record FsDatastore : Type := mkDs {
  isDir : bool;      (** [ds.Dir] is a directory *)
  disk : files;      (** the files of the directory *)
  streams : gmap string fsDsStream;   (** the partition maps, by stream name *)
  queue : list string;                (** the writers' queues, by stream name *)
  running : bool
}.

Definition ErrNotRunning : Error := "Datastore not running".
Definition ErrAlreadyRunning : Error := "Datastore already running".
Definition ErrNotDir : Error := "Not a directory: ".

(** [FsDatastore.createStream] *)
Definition createStream (ds : FsDatastore) (n : string) (tl : list fsDsRecord)
  : FsDatastore :=
  mkDs (isDir ds) (disk ds)
       (<[n := mkStream n tl false 0 0 0]> (streams ds))
       (queue ds ++ [n]) (running ds).

(** [FsDatastore.getStream]: [None] is the nil stream of a datastore that
    is not running; a stream that is not loaded is created. *)
Definition getStream (ds : FsDatastore) (n : string)
  : FsDatastore * option fsDsStream :=
  if negb (running ds) then (ds, None)
  else
    let ds1 := match streams ds !! n with
               | Some _ => ds
               | None => createStream ds n []
               end in
    (ds1, streams ds1 !! n).

Definition putStream (ds : FsDatastore) (st : fsDsStream) (fs : files)
  : FsDatastore :=
  mkDs (isDir ds) fs (<[name st := st]> (streams ds)) (queue ds) (running ds).

(** [FsDatastore.makeSnapshot] *)
Definition makeSnapshot (ds : FsDatastore) (n : string)
  : FsDatastore * result fsDsSnapshot :=
  match getStream ds n with
  | (ds1, None) => (ds1, Err ErrNotRunning)
  | (ds1, Some st) =>
      let '(st1, fs1, r) := makeSnapshotSt st (disk ds1) in
      (putStream ds1 st1 fs1, r)
  end.

(** [FsDatastore.Insert] *)
Definition Insert (ds : FsDatastore) (n : string) (r : Record_ float64bits)
  : FsDatastore * option Error :=
  match getStream ds n with
  | (ds1, None) => (ds1, Some ErrNotRunning)
  | (ds1, Some st) =>
      let st1 := mkStream (name st) (tail st ++ [mkRec (Go.Ts r) (Go.Value r)])
                          (valid st) (lastWr st) (dsize st) (isize st) in
      (putStream ds1 st1 (disk ds1), None)
  end.

(** [FsDatastore.Query].  With a snapshot at hand ([s != nil]) the function
    returns the empty slice at once; without one, the deferred [s.close()]
    dereferences the nil snapshot. *)
Definition Query (ds : FsDatastore) (n : string) (from until : Z)
  : FsDatastore * result (list (Record_ float64bits)) :=
  match makeSnapshot ds n with
  | (ds1, Ok s) => (ds1, Ok [])
  | (ds1, _) => (ds1, Panic)
  end.

(** [FsDatastore.LatestBefore] *)
Definition LatestBefore (ds : FsDatastore) (n : string) (t : Z)
  : FsDatastore * result (Record_ float64bits) :=
  match makeSnapshot ds n with
  | (ds1, Ok s) =>
      (ds1,
       let t0 := sub64 t (Z.rem t 60) in
       let k := findTail s t0 in
       if negb (k =? -1) then
         r ← index (s_tail s) k;
         Ok (mkRecord (ts r) (value r))
       else
         n ← findIdx s t0;
         if n =? -1 then Err ErrNoData
         else
           '(t1, pos) ← readIdxEntry s n;
           lastPos ← (if n =? sub64 (Z.quot (s_isize s) fsDsISize) 1
                      then Ok (sub64 (s_dsize s) fsDsDSize)
                      else '(_, p) ← readIdxEntry s (add64 n 1);
                           Ok (sub64 p fsDsDSize));
           v ← readAt (s_dat s) lastPos 8;
           Ok (mkRecord
                 (add64 t1 (mul64 60 (Z.quot (sub64 lastPos pos) fsDsDSize)))
                 (getUint64 v)))
  | (ds1, Err e) => (ds1, Err e)
  | (ds1, Panic) => (ds1, Panic)
  end.

(** *** Tail checkpoint ([tail_data]) *)

Definition encodeTail (tl : list fsDsRecord) : list byte :=
  flat_map (fun r => put64 (ts r) ++ put64 (value r)) tl.

(** [uint64 nameLen; uint64 tailLen; name; tail] for one stream. *)
Definition encodeStream (st : string * fsDsStream) : list byte :=
  let nm := list_byte_of_string (fst st) in
  put64 (len nm) ++ put64 (len (tail (snd st))) ++ nm ++ encodeTail (tail (snd st)).

(** [FsDatastore.saveTails]: the streams are written in the iteration order
    of the map. *)
Definition saveTails (ds : FsDatastore) : FsDatastore :=
  let sts := map_to_list (streams ds) in
  let bytes := put64 (len sts) ++ flat_map encodeStream sts in
  mkDs (isDir ds) (<[tailFile := bytes]> (disk ds)) (streams ds) (queue ds)
       (running ds).

(** [io.EOF]: the error of a read that finds no byte left; a read that
    ends part-way fails with [ErrEOF] ([io.ErrUnexpectedEOF]). *)
Definition EOF : Error := "EOF".

(** Sequential reads from the checkpoint: [take_bytes n bs] is the
    [io.ReadFull] of [n] bytes that [binary.Read] performs on the remaining
    input [bs].  A read of no bytes succeeds, also at the end of the file. *)
Definition take_bytes (n : Z) (bs : list byte) : result (list byte * list byte) :=
  if n <=? 0 then Ok ([], bs)
  else if n <=? len bs then Ok (firstn (Z.to_nat n) bs, skipn (Z.to_nat n) bs)
  else if len bs =? 0 then Err EOF
  else Err ErrEOF.

(** The largest size in bytes that [make] accepts (64-bit Linux); whether
    the machine has the memory for a smaller allocation is not modelled. *)
Definition maxAlloc : Z := 2 ^ 48.

(** [make([]T, n)] for elements of [size] bytes: panics on a negative
    length and on a size above [maxAlloc]. *)
Definition makeOk (size n : Z) : bool := (0 <=? n) && (size * n <=? maxAlloc).

(** The loop of [loadTails] with [n] streams left to read.  The tail is read
    with [binary.Read(rd, le, &tail)] into a [[]fsDsRecord]: once the
    [16 * ltail] bytes are there, decoding the first record panics, because
    the fields [ts] and [value] of [fsDsRecord] are not exported and cannot
    be set by reflection.  Only an empty tail is read back. *)
Fixpoint loadLoop (n : nat) (ds : FsDatastore) (bs : list byte)
  : FsDatastore * result unit :=
  match n with
  | O => (ds, Ok tt)
  | S n' =>
      match
        ('(b, bs) ← take_bytes 8 bs; let lname := getInt64 b in
         '(b, bs) ← take_bytes 8 bs; let ltail := getInt64 b in
         if negb (makeOk 1 lname) then Panic else
         '(nm, bs) ← take_bytes lname bs;
         if negb (makeOk 16 ltail) then Panic else
         '(_, bs) ← take_bytes (16 * ltail) bs;
         if 0 <? ltail then Panic else
         Ok (string_of_list_byte nm, bs))
      with
      | Ok (nm, bs') => loadLoop n' (createStream ds nm []) bs'
      | Err e => (ds, Err e)
      | Panic => (ds, Panic)
      end
  end.

(** [FsDatastore.loadTails]: no checkpoint file is not an error. *)
Definition loadTails (ds : FsDatastore) : FsDatastore * result unit :=
  match disk ds !! tailFile with
  | None => (ds, Ok tt)
  | Some bs =>
      match take_bytes 8 bs with
      | Ok (b, bs') => loadLoop (Z.to_nat (getInt64 b)) ds bs'
      | Err e => (ds, Err e)
      | Panic => (ds, Panic)
      end
  end.

(** [FsDatastore.Open] *)
Definition Open (ds : FsDatastore) : FsDatastore * result unit :=
  if running ds then (ds, Err ErrAlreadyRunning)
  else if negb (isDir ds) then (ds, Err ErrNotDir)
  else
    let ds1 := mkDs (isDir ds) (disk ds) ∅ (queue ds) (running ds) in
    match loadTails ds1 with
    | (ds2, Ok _) =>
        (mkDs (isDir ds2) (disk ds2) (streams ds2) (queue ds2) true, Ok tt)
    | (ds2, r) => (ds2, r)
    end.

(** [FsDatastore.Close] *)
Definition Close (ds : FsDatastore) : FsDatastore * option Error :=
  if negb (running ds) then (ds, Some ErrNotRunning)
  else
    let ds1 := saveTails ds in
    (mkDs (isDir ds1) (disk ds1) ∅ [] false, None).

(** One iteration of the writer loop [FsDatastore.write] with cursor [n];
    [None] when the writer blocks on an empty queue or exits. *)
Definition writeStep (ds : FsDatastore) (n : Z) : option (FsDatastore * Z) :=
  if negb (running ds) then None
  else
    let l := len (queue ds) in
    if l =? 0 then None
    else
      let n := if n + 1 >=? l then 0 else n + 1 in
      nm ← queue ds !! Z.to_nat n;
      st ← streams ds !! nm;
      if len (tail st) =? 0 then
        lst ← queue ds !! Z.to_nat (l - 1);
        let q := firstn (Z.to_nat (l - 1)) (<[Z.to_nat n := lst]> (queue ds)) in
        Some (mkDs (isDir ds) (disk ds) (delete (name st) (streams ds)) q
                   (running ds), n)
      else
        let '(st1, fs1, err) := writeTail st (disk ds) in
        let v := match err with Some _ => false | None => valid st1 end in
        let st2 := mkStream (name st1) [] v (lastWr st1) (dsize st1) (isize st1) in
        Some (putStream ds st2 fs1, n).

(** The writer running until it blocks, for at most [fuel] iterations. *)
Fixpoint drain (fuel : nat) (ds : FsDatastore) (n : Z) : FsDatastore :=
  match fuel with
  | O => ds
  | S fuel' =>
      match writeStep ds n with
      | Some (ds', n') => drain fuel' ds' n'
      | None => ds
      end
  end.

(** A new datastore on an existing, empty directory
    ([NewFsDatastore(dir)]). *)
Definition NewFsDatastore : FsDatastore := mkDs true ∅ ∅ [] false.

(** *** The write rules in the words of the specification *)

(** The tail records that are written: a record is skipped when its
    timestamp is not a multiple of 60 or is not strictly greater than the
    last written timestamp [lw]. *)
Fixpoint kept (lw : Z) (tl : list fsDsRecord) : list fsDsRecord :=
  match tl with
  | [] => []
  | r :: tl' =>
      if (Z.rem (ts r) 60 =? 0) && (lw <? ts r) then r :: kept (ts r) tl'
      else kept lw tl'
  end.

(** The index entries for written records [rs], the first of which lands at
    offset [pos] of the data file: one entry [(ts, offset)] exactly for the
    records whose timestamp skips ahead of the expected next minute. *)
Fixpoint gaps (lw pos : Z) (rs : list fsDsRecord) : list (Z * Z) :=
  match rs with
  | [] => []
  | r :: rs' =>
      (if ts r >? lw + 60 then [(ts r, pos)] else [])
        ++ gaps (ts r) (pos + fsDsDSize) rs'
  end.

(** The bookkeeping of an opened stream agrees with its files: the sizes
    are the file sizes, multiples of the entry sizes, and [lastWr] is a
    minute. *)
Definition consistent (st : fsDsStream) (fs : files) : Prop :=
  dsize st = len (contents fs (datFile (name st))) /\
  isize st = len (contents fs (idxFile (name st))) /\
  Z.rem (dsize st) fsDsDSize = 0 /\
  Z.rem (isize st) fsDsISize = 0 /\
  Z.rem (lastWr st) 60 = 0 /\
  int64_range (lastWr st).

End FsDs.

(** ** Server: metric entries and the read API *)

Module Srv.

Definition LiveLogSize : Z := 600.

Abbreviation Rec := (Record_ float64).

(** The [Datastore] interface the server is written against. *)
Class Datastore (D : Type) : Type := {
  Insert : D -> string -> Rec -> D * option Error;
  Query : D -> string -> Z -> Z -> D * result (list Rec);
  LatestBefore : D -> string -> Z -> D * result Rec
}.

(** The file-system datastore implements the interface, given
    [math.Float64bits] and [math.Float64frombits]. *)
Definition fsDatastore (bits : float64 -> Z) (frombits : Z -> float64)
  : Datastore FsDs.FsDatastore := {|
  Insert ds n r := FsDs.Insert ds n (mkRecord (Go.Ts r) (bits (Go.Value r)));
  Query ds n from until :=
    let '(ds', r) := FsDs.Query ds n from until in
    (ds', l ← r; Ok (map (fun x => mkRecord (Go.Ts x) (frombits (Go.Value x))) l));
  LatestBefore ds n t :=
    let '(ds', r) := FsDs.LatestBefore ds n t in
    (ds', x ← r; Ok (mkRecord (Go.Ts x) (frombits (Go.Value x))))
|}.

(** The registry of metric kinds ([metricTypes]) with the [metric] and
    [aggregator] interfaces of the kinds.  Only the quantile timer is among
    the sources, so the registry is a parameter of the server. *)
Class Kinds : Type := {
  metric : Type;
  aggregator : Type;
  metric_init : metric -> list float64 -> metric;
  aggr_channels : aggregator -> list Z;
  aggr_init : aggregator -> list float64 -> aggregator;
  aggr_put : aggregator -> list float64 -> aggregator;
  aggr_get : aggregator -> list float64;
  mt_create : MetricType -> metric;
  mt_channels : MetricType -> list string;
  mt_defaults : MetricType -> list float64;
  mt_persist : MetricType -> list bool;
  mt_aggregator : MetricType -> list string -> aggregator
}.

Section Server.

Context {D : Type} `{DS : Datastore D} `{K : Kinds}.

Record Watcher : Type := mkWatcher {
  w_Ts : Z;
  w_chs : list Z;
  w_aggr : option aggregator;
  w_gran : Z;
  w_offs : Z
}.

Record metricEntry : Type := mkEntry {
  me_metric : metric;
  typ : MetricType;
  name : string;
  recvdInput : bool;
  recvdInputTick : bool;
  idleTicks : Z;
  liveLog : list (list float64);
  livePtr : Z;
  lastTick : Z;
  watchers : list Watcher
}.

Record Server : Type := mkServer {
  Ds : D;
  Prefix : string;
  metrics : MetricType -> gmap string metricEntry;
  running : bool;
  stopping : bool;
  srvLastTick : Z
}.

Definition ErrSrvNotRunning : Error := "Server not running".
Definition ErrFrom60 : Error := "From must be divisable by 60".
Definition ErrGranPositive : Error := "Granularity must be positive".
Definition ErrGran60 : Error := "Granularity must be divisable by 60".
Definition ErrLengthNegative : Error := "Length must not be negative".
Definition ErrOffset60 : Error := "Offset must be divisable by 60".

Definition allTypes : list MetricType := [Counter; Gauge; Avg; Timer].

(** Modelled from the spec: [getChannelIndex] (the registry helpers are not
    among the sources).  Given a kind and a channel name it returns the
    channel index, [-1] for a name the kind does not have. *)
Fixpoint indexOf (n : string) (l : list string) (i : Z) : Z :=
  match l with
  | [] => -1
  | x :: l' => if String.eqb x n then i else indexOf n l' (i + 1)
  end.

Definition getChannelIndex (t : MetricType) (n : string) : Z :=
  indexOf n (mt_channels t) 0.

Definition hasChannel (t : MetricType) (n : string) : bool :=
  negb (getChannelIndex t n =? -1).

Fixpoint unique (l : list string) : bool :=
  match l with
  | [] => true
  | x :: l' => negb (existsb (String.eqb x) l') && unique l'
  end.

(** Modelled from the spec: [metricTypeByChannels] (not among the
    sources).  The channel set must be non-empty and unique; the result is
    the kind that contains all the names; otherwise the call fails with
    "no such channel" when some name belongs to no kind and with "mixed
    types" when the names belong to different kinds. *)
Definition metricTypeByChannels (chs : list string) : result MetricType :=
  if len chs =? 0 then Err ErrNoChannels
  else if negb (unique chs) then Err ErrNonunique
  else
    match List.find (fun t => forallb (hasChannel t) chs) allTypes with
    | Some t => Ok t
    | None =>
        if forallb (fun n => existsb (fun t => hasChannel t n) allTypes) chs
        then Err ErrMixingTypes
        else Err ErrChannelInvalid
    end.

(** Modelled from the spec: [CheckMetricName] (not among the sources).  A
    name must be non-empty and contain none of [':'], ['/'] and NUL. *)
Definition badNameByte (b : byte) : bool :=
  byte_is colon b || byte_is slash b || byte_is nul b.

Definition CheckMetricName (n : string) : option Error :=
  let bs := list_byte_of_string n in
  if len bs =? 0 then Some ErrNoName
  else if existsb badNameByte bs then Some ErrNameInvalid
  else None.

Definition setDs (d : D) (s : Server) : Server :=
  mkServer d (Prefix s) (metrics s) (running s) (stopping s) (srvLastTick s).

(** A call into the datastore from a server method. *)
Definition callDs {A : Type} (f : D -> D * A) : M Server A :=
  fun s => let '(d, a) := f (Ds s) in (setDs d s, Ok a).

(** [Server.getChannelDefault] *)
Definition getChannelDefault (t : MetricType) (n : string) (i : Z) (ts : Z)
  : M Server float64 :=
  def ← lift (index (mt_defaults t) i);
  p ← lift (index (mt_persist t) i);
  if p : bool then
    ch ← lift (index (mt_channels t) i);
    pre ← gets Prefix;
    r ← callDs (fun d => LatestBefore d (pre +:+ n +:+ ":" +:+ ch) ts);
    match r with
    | Ok rec => mret (Go.Value rec)
    | Err _ => mret def
    | Panic => panic
    end
  else mret def.

(** The channel loop of [createMetricEntry]: the default of every channel
    position in [idxs]. *)
Fixpoint channelDefaults (t : MetricType) (n : string) (idxs : list Z) (ts : Z)
  : M Server (list float64) :=
  match idxs with
  | [] => mret []
  | i :: idxs' =>
      def ← getChannelDefault t n i ts;
      defs ← channelDefaults t n idxs' ts;
      mret (def :: defs)
  end.

(** The channel default in the words of the specification.  The default of
    the channel [c] of the metric [n] of kind [t] is the static default of
    the kind; for a channel that persists it is the value of the latest
    persisted record of the stream [prefix + n + ":" + c], when the
    datastore has one and the read does not fail.  [ans key] is the answer
    of the datastore for the stream [key]. *)
Definition defaultOf (ans : string -> result Rec) (pre : string)
    (t : MetricType) (n c : string) : result float64 :=
  let i := getChannelIndex t c in
  def ← index (mt_defaults t) i;
  p ← index (mt_persist t) i;
  if p : bool then
    match ans (pre +:+ n +:+ ":" +:+ c) with
    | Ok rec => Ok (Go.Value rec)
    | Err _ => Ok def
    | Panic => Panic
    end
  else Ok def.

(** [Server.createMetricEntry] *)
Definition createMetricEntry (t : MetricType) (n : string) : M Server metricEntry :=
  lt ← gets srvLastTick;
  initData ← channelDefaults t n (loop 0 (len (mt_channels t))) lt;
  mret (mkEntry (metric_init (mt_create t) initData) t n false false 0
                (map (fun def => replicate (Z.to_nat LiveLogSize) def) initData)
                0 lt []).

Definition setEntry (me : metricEntry) (s : Server) : Server :=
  mkServer (Ds s) (Prefix s)
           (fun t => if decide (t = typ me)
                     then <[name me := me]> (metrics s t) else metrics s t)
           (running s) (stopping s) (srvLastTick s).

(** [Server.getMetricEntry] *)
Definition getMetricEntry (t : MetricType) (n : string) : M Server metricEntry :=
  match CheckMetricName n with
  | Some e => fail e
  | None =>
      r ← gets running;
      if negb r then fail ErrSrvNotRunning
      else
        ms ← gets metrics;
        match ms t !! n with
        | Some me => mret me
        | None =>
            me ← createMetricEntry t n;
            _ ← modify (setEntry me);
            mret me
        end
  end.

(** [metricEntry.updateLiveLog], with [data] the vector returned by the
    kind's [tick()]; the fan-out to the watchers' channels is not
    modelled.  [live[me.livePtr]] and [data[ch]] panic out of range. *)
Definition updateLiveLog (me : metricEntry) (data : list float64) (ts : Z)
  : result metricEntry :=
  if (len data <? len (liveLog me))
     || (negb (len (liveLog me) =? 0)
         && ((livePtr me <? 0) || (livePtr me >=? LiveLogSize)))
  then Panic
  else
    Ok (mkEntry (me_metric me) (typ me) (name me) (recvdInput me)
                (recvdInputTick me) (idleTicks me)
                (zip_with (fun live d => <[Z.to_nat (livePtr me) := d]> live)
                          (liveLog me) data)
                (Z.rem (add64 (livePtr me) 1) LiveLogSize) ts (watchers me)).

(** One row of [LiveLog]: [row[j] = logs[j][i]]. *)
Definition liveRow (logs : list (list float64)) (i : Z) : list float64 :=
  map (fun log => nth (Z.to_nat i) log f0) logs.

(** [logs[i] = me.liveLog[getChannelIndex(typ, n)]] for every requested
    channel. *)
Fixpoint selectLogs (me : metricEntry) (t : MetricType) (chs : list string)
  : result (list (list float64)) :=
  match chs with
  | [] => Ok []
  | n :: chs' =>
      log ← index (liveLog me) (getChannelIndex t n);
      logs ← selectLogs me t chs';
      Ok (log :: logs)
  end.

(** [Server.LiveLog].  The two copy loops fill [result[0 .. 600-ptr)] from
    ring positions [ptr .. 600) and [result[600-ptr .. 600)] from ring
    positions [0 .. ptr); a cursor outside [0, 600] runs off the ring. *)
Definition LiveLog (n : string) (chs : list string)
  : M Server (list (list float64) * Z) :=
  t ← lift (metricTypeByChannels chs);
  me ← getMetricEntry t n;
  logs ← lift (selectLogs me t chs);
  let ptr := livePtr me in
  if (ptr <? 0) || (ptr >? LiveLogSize) then panic
  else
    mret (map (liveRow logs) (loop ptr LiveLogSize)
          ++ map (liveRow logs) (loop 0 ptr),
          sub64 (lastTick me) LiveLogSize).

(** [in[k] = in[k][1:]] while the head is older than [ts]. *)
Fixpoint dropOlder (l : list Rec) (ts : Z) : list Rec :=
  match l with
  | r :: l' => if Go.Ts r <? ts then dropOlder l' ts else l
  | [] => []
  end.

(** The loop over the channels in [feedAggregator]: trims every input,
    copies the value found at minute [ts] into [tmp] and reports whether a
    channel has no record at that minute. *)
Fixpoint feedChannels (ins : list (list Rec)) (tmp : list float64) (ts : Z)
  : list (list Rec) * list float64 * bool :=
  match ins, tmp with
  | l :: ins', x :: tmp' =>
      let l1 := dropOlder l ts in
      let '(ins1, tmp1, missing) := feedChannels ins' tmp' ts in
      match l1 with
      | r :: _ =>
          if Go.Ts r =? ts then (l1 :: ins1, Go.Value r :: tmp1, missing)
          else (l1 :: ins1, x :: tmp1, true)
      | [] => (l1 :: ins1, x :: tmp1, true)
      end
  | _, _ => (ins, tmp, false)
  end.

(** The loop [for j := 0; j < gran; j += 60] of [feedAggregator], with
    [n] iterations left. *)
Fixpoint feedMinutes (n : nat) (aggr : aggregator) (ins : list (list Rec))
    (tmp : list float64) (ts : Z) : aggregator * list (list Rec) :=
  match n with
  | O => (aggr, ins)
  | S n' =>
      let ts := add64 ts 60 in
      let '(ins1, tmp1, missing) := feedChannels ins tmp ts in
      feedMinutes n' (if missing then aggr else aggr_put aggr tmp1) ins1 tmp1 ts
  end.

(** Number of iterations of [for j := 0; j < gran; j += 60]. *)
Definition minutes (gran : Z) : nat := Z.to_nat ((gran + 59) / 60).

(** [feedAggregator]; the inputs are trimmed in place, so they are
    returned. *)
Definition feedAggregator (aggr : aggregator) (ins : list (list Rec)) (ts gran : Z)
  : aggregator * list (list Rec) :=
  feedMinutes (minutes gran) aggr ins (replicate (length ins) f0) ts.

(** The channel loop of [initAggregator]. *)
Fixpoint initInputs (n : string) (t : MetricType) (inChs : list Z) (from until : Z)
  : M Server (list (list Rec) * list float64) :=
  match inChs with
  | [] => mret ([], [])
  | j :: inChs' =>
      ch ← lift (index (mt_channels t) j);
      pre ← gets Prefix;
      r ← callDs (fun d => Query d (pre +:+ n +:+ ":" +:+ ch) (add64 from 60) until);
      inp ← lift r;
      def ← getChannelDefault t n j from;
      '(ins, tmp) ← initInputs n t inChs' from until;
      mret (inp :: ins, def :: tmp)
  end.

(** [Server.initAggregator] *)
Definition initAggregator (aggr : aggregator) (n : string) (t : MetricType)
    (from until : Z) : M Server (aggregator * list (list Rec)) :=
  '(ins, tmp) ← initInputs n t (aggr_channels aggr) from until;
  mret (aggr_init aggr tmp, ins).

(** The output loop of [Log] with [n] rows left. *)
Fixpoint logRows (n : nat) (aggr : aggregator) (ins : list (list Rec)) (ts gran : Z)
  : list (list float64) :=
  match n with
  | O => []
  | S n' =>
      let '(aggr1, ins1) := feedAggregator aggr ins ts gran in
      aggr_get aggr1 :: logRows n' aggr1 ins1 (add64 ts gran) gran
  end.

(** The clamp of [Log]: [if length > maxLength { length = maxLength }]. *)
Definition clampLength (lastTick from length gran : Z) : Z :=
  let maxLength := Z.quot (sub64 lastTick from) gran in
  if length >? maxLength then maxLength else length.

(** [Server.Log] *)
Definition Log (n : string) (chs : list string) (from length gran : Z)
  : M Server (list (list float64)) :=
  if negb (Z.rem from 60 =? 0) then fail ErrFrom60
  else if gran <? 1 then fail ErrGranPositive
  else if negb (Z.rem gran 60 =? 0) then fail ErrGran60
  else if length <? 0 then fail ErrLengthNegative
  else
    t ← lift (metricTypeByChannels chs);
    me ← getMetricEntry t n;
    let length := clampLength (lastTick me) from length gran in
    if length <=? 0 then mret []
    else
      '(aggr, ins) ← initAggregator (mt_aggregator t chs) n t from
                        (add64 from (mul64 gran length));
      mret (logRows (Z.to_nat length) aggr ins from gran).

(** The initial timestamp of an aggregating watcher:
    [me.lastTick - ((me.lastTick-offs)%gran+gran)%gran]. *)
Definition watchTs (lastTick offs gran : Z) : Z :=
  sub64 lastTick (Z.rem (add64 (Z.rem (sub64 lastTick offs) gran) gran) gran).

(** [Server.Watch]; the watcher's channels and its goroutine are not
    modelled. *)
Definition Watch (n : string) (chs : list string) (offs gran : Z)
  : M Server Watcher :=
  if negb (Z.rem offs 60 =? 0) then fail ErrOffset60
  else if gran <? 1 then fail ErrGranPositive
  else if negb (Z.rem gran 60 =? 0) then fail ErrGran60
  else
    t ← lift (metricTypeByChannels chs);
    let aggr := mt_aggregator t chs in
    me ← getMetricEntry t n;
    let wts := watchTs (lastTick me) offs gran in
    '(aggr1, ins) ← initAggregator aggr n t wts (add64 wts gran);
    let '(aggr2, _) := feedAggregator aggr1 ins wts gran in
    let w := mkWatcher wts (aggr_channels aggr) (Some aggr2) gran offs in
    _ ← modify (setEntry
                  (mkEntry (me_metric me) (typ me) (name me) (recvdInput me)
                           (recvdInputTick me) (idleTicks me) (liveLog me)
                           (livePtr me) (lastTick me) (watchers me ++ [w])));
    mret w.

End Server.

Arguments Watcher {K}.
Arguments metricEntry {K}.
Arguments Server D {K}.

End Srv.

(** ** Instances used to run the server on concrete inputs *)

Module Inst.
Import Srv.

(** A datastore without records that logs the calls made to it. *)
Inductive DsCall : Type :=
| CallInsert (n : string)
| CallQuery (n : string) (from until : Z)
| CallLatestBefore (n : string) (t : Z).

#[global] Instance recordingDs : Datastore (list DsCall) := {|
  Insert d n r := (d ++ [CallInsert n], None);
  Query d n from until := (d ++ [CallQuery n from until], Ok []);
  LatestBefore d n t := (d ++ [CallLatestBefore n t], Err ErrNoData)
|}.

(** A datastore that is only read: a table with the latest record of
    every stream it has. *)
Definition latestIn (d : list (string * Rec)) (n : string) : result Rec :=
  match List.find (fun p => String.eqb (fst p) n) d with
  | Some p => Ok (snd p)
  | None => Err ErrNoData
  end.

#[global] Instance tableDs : Datastore (list (string * Rec)) := {|
  Insert d n r := (d, None);
  Query d n from until := (d, Ok []);
  LatestBefore d n t := (d, latestIn d n)
|}.

Definition isQuery (c : DsCall) : bool :=
  match c with CallQuery _ _ _ => true | _ => false end.

(** Modelled from the spec: the channel tables of the registry
    ([metricTypes]; only the timer's table is among the sources).  Counter
    has the persisted channel [count] with default 0, Gauge the persisted
    channel [value] with default 0, Avg the channels [mean] and [count],
    Timer six channels that are not persisted, with default NaN except for
    the count.  The spec gives neither defaults nor persist flags for Avg:
    zero and [false] are placeholders.  The kinds' state and aggregators
    are stand-ins: the state keeps the initial vector, the aggregator
    returns the last vector it was given. *)
#[global] Instance specKinds : Kinds := {|
  metric := list float64;
  aggregator := list Z * list float64;
  metric_init _ v := v;
  aggr_channels a := fst a;
  aggr_init a v := (fst a, v);
  aggr_put a v := (fst a, v);
  aggr_get a := snd a;
  mt_create _ := [];
  mt_channels t :=
    match t with
    | Counter => ["count"]
    | Gauge => ["value"]
    | Avg => ["mean"; "count"]
    | Timer => ["timer-min"; "timer-quart1"; "timer-median"; "timer-quart3";
                "timer-max"; "timer-cnt"]
    end%string;
  mt_defaults t :=
    match t with
    | Counter => [f0]
    | Gauge => [f0]
    | Avg => [f0; f0]
    | Timer => [FNaN; FNaN; FNaN; FNaN; FNaN; f0]
    end;
  mt_persist t :=
    match t with
    | Counter => [true]
    | Gauge => [true]
    | Avg => [false; false]
    | Timer => [false; false; false; false; false; false]
    end;
  mt_aggregator t chs :=
    (map (fun n => indexOf n
            (match t with
             | Counter => ["count"]
             | Gauge => ["value"]
             | Avg => ["mean"; "count"]
             | Timer => ["timer-min"; "timer-quart1"; "timer-median";
                         "timer-quart3"; "timer-max"; "timer-cnt"]
             end%string) 0) chs, [])
|}.

(** A running server at tick [lt] without entries, on the recording
    datastore. *)
Definition emptyServer (lt : Z) : Server (list DsCall) :=
  mkServer [] "" (fun _ => ∅) true false lt.

(** A running server at tick [lt] without entries, on a table of latest
    records. *)
Definition serverOn (d : list (string * Rec)) (lt : Z)
  : Server (list (string * Rec)) :=
  mkServer d "" (fun _ => ∅) true false lt.

End Inst.

(** ** Splitting a datagram into lines ([InjectBytes], [processMsg]) *)

Module Lines.

Definition newline : byte := "010"%byte.

(** [msg[lo:hi]]: panics unless [0 <= lo <= hi <= len(msg)]. *)
Definition slice (msg : list byte) (lo hi : Z) : result (list byte) :=
  if (0 <=? lo) && (lo <=? hi) && (hi <=? len msg)
  then Ok (firstn (Z.to_nat (hi - lo)) (skipn (Z.to_nat lo) msg))
  else Panic.

(** The loop [for i, j := 0, -1; i <= len(msg); i++] of [InjectBytes]:
    [rest] is [msg[i:]], and the result lists the slices [msg[j+1:i]] handed
    to [ParseMetric], in order.  The loop goes on without moving [j] when
    [i != len(msg) && msg[i] != '\n' || i == j+1]. *)
Fixpoint scan (msg rest : list byte) (i j : Z) : result (list (list byte)) :=
  match rest with
  | [] =>
      if i =? j + 1 then Ok []
      else seg ← slice msg (j + 1) i; Ok [seg]
  | ch :: rest' =>
      if negb (byte_is newline ch) || (i =? j + 1) then scan msg rest' (i + 1) j
      else
        seg ← slice msg (j + 1) i;
        segs ← scan msg rest' (i + 1) i;
        Ok (seg :: segs)
  end.

Definition lines (msg : list byte) : result (list (list byte)) :=
  scan msg msg 0 (-1).

(** Lines joined by single newlines. *)
Fixpoint joinLines (ls : list (list byte)) : list byte :=
  match ls with
  | [] => []
  | [l] => l
  | l :: ls' => l ++ newline :: joinLines ls'
  end.

End Lines.

(** ** Server: injection, the clock and the watchers *)

Module SrvOps.
Import Srv.

(** The methods [inject], [tick] and [flush] of the [metric] interface,
    for the kinds of a registry. *)
Class MetricOps (K : Kinds) : Type := {
  metric_inject : metric -> Metric -> metric;
  metric_tick : metric -> list float64 * metric;
  metric_flush : metric -> list float64 * metric
}.

Section Ops.

Context {D : Type} `{DS : Datastore D} `{K : Kinds} `{MO : !MetricOps K}.

Definition ErrRateInvalid : Error := "Sample rate invalid".

Definition setMetric (me : metricEntry) (m : metric) : metricEntry :=
  mkEntry m (typ me) (name me) (recvdInput me) (recvdInputTick me) (idleTicks me)
          (liveLog me) (livePtr me) (lastTick me) (watchers me).

Definition setWatchers (me : metricEntry) (ws : list Watcher) : metricEntry :=
  mkEntry (me_metric me) (typ me) (name me) (recvdInput me) (recvdInputTick me)
          (idleTicks me) (liveLog me) (livePtr me) (lastTick me) ws.

(** [Server.Inject].  The test of the type against [NMetricTypes] cannot
    fail on the closed set of kinds. *)
Definition Inject (m : Metric) : M (Server D) unit :=
  if fle (SampleRate m) f0 then fail ErrRateInvalid
  else
    match CheckMetricName (Name m) with
    | Some e => fail e
    | None =>
        me ← getMetricEntry (Type_ m) (Name m);
        modify (setEntry
                  (mkEntry (metric_inject (me_metric me) m) (typ me) (name me)
                           true true (idleTicks me) (liveLog me) (livePtr me)
                           (lastTick me) (watchers me)))
    end.

Section Bytes.

Variable ParseFloat : list byte -> option float64.

(** The body of the loop of [InjectBytes] on the slices of the datagram:
    a slice that does not parse, or a metric that is refused, is logged and
    skipped. *)
Fixpoint injectLines (segs : list (list byte)) : M (Server D) unit :=
  match segs with
  | [] => mret tt
  | seg :: segs' =>
      match ParseMetric ParseFloat seg with
      | Ok m =>
          fun s => match Inject m s with
                   | (s', Panic) => (s', Panic)
                   | (s', _) => injectLines segs' s'
                   end
      | Err _ => injectLines segs'
      | Panic => panic
      end
  end.

(** [Server.InjectBytes]; the slices are those of [Lines.lines]. *)
Definition InjectBytes (msg : list byte) : M (Server D) unit :=
  segs ← lift (Lines.lines msg);
  injectLines segs.

End Bytes.

(** [Server.LiveWatch]; the watcher's channels and its goroutine are not
    modelled. *)
Definition LiveWatch (n : string) (chs : list string) : M (Server D) Watcher :=
  t ← lift (metricTypeByChannels chs);
  me ← getMetricEntry t n;
  let w := mkWatcher (lastTick me) (map (getChannelIndex t) chs) None 0 0 in
  _ ← modify (setEntry (setWatchers me (watchers me ++ [w])));
  mret w.

(** [metricEntry.updateIdle] *)
Definition updateIdle (me : metricEntry) : metricEntry :=
  if recvdInputTick me then
    mkEntry (me_metric me) (typ me) (name me) (recvdInput me) false 0
            (liveLog me) (livePtr me) (lastTick me) (watchers me)
  else
    mkEntry (me_metric me) (typ me) (name me) (recvdInput me) (recvdInputTick me)
            (add64 (idleTicks me) 1) (liveLog me) (livePtr me) (lastTick me)
            (watchers me).

(** The loop over the watchers in [updateLiveLog]: a watcher without an
    aggregator is sent the channels it reads, and [data[j]] panics out of
    range.  The send itself is not modelled. *)
Definition liveData (data : list float64) (w : Watcher) : result (list float64) :=
  match w_aggr w with
  | Some _ => Ok []
  | None => mapM (index data) (w_chs w)
  end.

(** [metricEntry.updateLiveLog(ts)]: the kind's [tick()], the write into
    the rings, then the loop over the watchers. *)
Definition tickLiveLog (me : metricEntry) (ts : Z) : result metricEntry :=
  let '(data, m) := metric_tick (me_metric me) in
  me' ← updateLiveLog (setMetric me m) data ts;
  _ ← mapM (liveData data) (watchers me);
  Ok me'.

(** [Server.tickMetric] *)
Definition tickMetric (me : metricEntry) : M (Server D) unit :=
  lt ← gets srvLastTick;
  me' ← lift (tickLiveLog (updateIdle me) lt);
  modify (setEntry me').

(** The loop over the channels in [flushMetric]: one [Insert] per channel,
    whose error is only logged. *)
Fixpoint insertChannels (pre nm : string) (chs : list string) (data : list float64)
    (i ts : Z) : M (Server D) unit :=
  match chs with
  | [] => mret tt
  | c :: chs' =>
      v ← lift (index data i);
      _ ← callDs (fun d => Insert d (pre +:+ nm +:+ ":" +:+ c) (mkRecord ts v));
      insertChannels pre nm chs' data (i + 1) ts
  end.

(** What [flushMetric] does to one watcher: an aggregating watcher is fed
    the channels it reads; [(me.lastTick-w.offs)%w.gran] panics for a zero
    granularity.  The send to the watcher's goroutine is not modelled. *)
Definition feedWatcher (data : list float64) (w : Watcher) : result Watcher :=
  match w_aggr w with
  | None => Ok w
  | Some a =>
      wdata ← mapM (index data) (w_chs w);
      if w_gran w =? 0 then Panic
      else Ok (mkWatcher (w_Ts w) (w_chs w) (Some (aggr_put a wdata))
                         (w_gran w) (w_offs w))
  end.

(** [Server.flushMetric] *)
Definition flushMetric (me : metricEntry) : M (Server D) unit :=
  lt ← gets srvLastTick;
  me1 ← lift (tickLiveLog me lt);
  let '(data, m) := metric_flush (me_metric me1) in
  _ ← (if recvdInput me1 then
         pre ← gets Prefix;
         insertChannels pre (name me1) (mt_channels (typ me1)) data 0 lt
       else mret tt);
  ws ← lift (mapM (feedWatcher data) (watchers me1));
  modify (setEntry
            (mkEntry m (typ me1) (name me1) false (recvdInputTick me1)
                     (idleTicks me1) (liveLog me1) (livePtr me1) (lastTick me1) ws)).

Definition deleteEntry (me : metricEntry) (s : Server D) : Server D :=
  mkServer (Ds s) (Prefix s)
           (fun t => if decide (t = typ me)
                     then delete (name me) (metrics s t) else metrics s t)
           (running s) (stopping s) (srvLastTick s).

(** [Server.flushOrDelete]; the flush it starts is run at once. *)
Definition flushOrDelete (me : metricEntry) : M (Server D) unit :=
  let me1 := updateIdle me in
  if recvdInput me1 || negb (len (watchers me1) =? 0) then flushMetric me1
  else if idleTicks me1 >? LiveLogSize then modify (deleteEntry me1)
  else modify (setEntry me1).

(** The entries of all kinds. *)
Definition entries (s : Server D) : list metricEntry :=
  flat_map (fun t => map snd (map_to_list (metrics s t))) allTypes.

Fixpoint forEach (f : metricEntry -> M (Server D) unit) (l : list metricEntry)
  : M (Server D) unit :=
  match l with
  | [] => mret tt
  | me :: l' => _ ← f me; forEach f l'
  end.

Section Clock.

(** The order in which [range] walks a map is not specified: [walk] gives
    the entries in the order in which the loops meet them. *)
Variable walk : Server D -> list metricEntry.

(** [Server.tickMetrics] and [Server.flushMetrics]; the goroutines they
    start work on one entry each and are run one after the other. *)
Definition tickMetrics : M (Server D) unit :=
  fun s => forEach tickMetric (walk s) s.

Definition flushMetrics : M (Server D) unit :=
  fun s => forEach flushOrDelete (walk s) s.

Definition setLastTick (lt : Z) (s : Server D) : Server D :=
  mkServer (Ds s) (Prefix s) (metrics s) (running s) (stopping s) lt.

(** The loop [for srv.lastTick < ts] of [handleTick], with [fuel]
    iterations left; [ts - srv.lastTick] iterations are enough. *)
Fixpoint handleLoop (fuel : nat) (ts : Z) : M (Server D) bool :=
  lt ← gets srvLastTick;
  if lt <? ts then
    match fuel with
    | O => panic
    | S fuel' =>
        let lt1 := add64 lt 1 in
        _ ← modify (setLastTick lt1);
        if negb (Z.rem lt1 60 =? 0) then
          _ ← tickMetrics; handleLoop fuel' ts
        else
          _ ← flushMetrics;
          st ← gets stopping;
          if st : bool then mret true else handleLoop fuel' ts
    end
  else mret false.

(** [Server.handleTick] *)
Definition handleTick (ts : Z) : M (Server D) bool :=
  fun s => handleLoop (Z.to_nat (ts - srvLastTick s)) ts s.

End Clock.

End Ops.

End SrvOps.

(** ** The goroutine of a watcher ([Watcher.run]) *)

Module Run.

(** The state of the loop: whether [w.in] is still there ([w.in != nil]),
    the buffer, and whether [w.out] has been closed. *)
Record state : Type := mkRun {
  inOpen : bool;
  buff : list (list float64);
  outClosed : bool
}.

(** What the goroutine does with its two channels. *)
Inductive event : Type :=
| Recv (data : list float64)   (** [data, ok := <-w.in] with [ok] *)
| RecvClosed                   (** [<-w.in] on the closed channel *)
| Send (data : list float64)   (** [out <- data] *)
| CloseOut.                    (** the deferred [close(w.out)] *)

(** One turn of the loop through its [select], and the exit.  The send is
    offered only while the buffer is not empty, the receive only while
    [w.in] is not nil; the loop ends when [w.in] is nil and the buffer
    empty. *)
Inductive step : state -> event -> state -> Prop :=
| step_send (io : bool) (d : list float64) (b : list (list float64)) :
    step (mkRun io (d :: b) false) (Send d) (mkRun io b false)
| step_recv (d : list float64) (b : list (list float64)) :
    step (mkRun true b false) (Recv d) (mkRun true (b ++ [d]) false)
| step_recv_closed (b : list (list float64)) :
    step (mkRun true b false) RecvClosed (mkRun false b false)
| step_exit :
    step (mkRun false [] false) CloseOut (mkRun false [] true).

(** A run of the goroutine from its start. *)
Inductive run : list event -> state -> Prop :=
| run_start : run [] (mkRun true [] false)
| run_step (tr : list event) (s s' : state) (e : event) :
    run tr s -> step s e s' -> run (tr ++ [e]) s'.

Definition received (tr : list event) : list (list float64) :=
  flat_map (fun e => match e with Recv d => [d] | _ => [] end) tr.

Definition sent (tr : list event) : list (list float64) :=
  flat_map (fun e => match e with Send d => [d] | _ => [] end) tr.

End Run.

(** ** A gauge-like kind to run the clock on concrete inputs *)

Module InstOps.
Import Srv SrvOps Inst.

(** Stand-ins for the state methods of the kinds: the state is the vector
    of channel values, [inject] stores the value in every channel, [tick]
    and [flush] report the vector. *)
#[global] Instance specOps : MetricOps specKinds := {|
  metric_inject m x := map (fun _ => Wire.Value x) m;
  metric_tick m := (m, m);
  metric_flush m := (m, m)
|}.

(** The states of a kind: one value per channel. *)
Definition sized (t : MetricType) (m : @metric specKinds) : Prop :=
  length (m : list float64) = length (mt_channels t).

(** A counter sample, and the server at clock [lt] after it was injected. *)
Definition hits : Metric := mkMetric "hits" Counter (FNum 5) f1.

Definition injected (lt : Z) : Server (list DsCall) :=
  fst (Inject hits (emptyServer lt)).

End InstOps.

(** * Properties *)

(** ** Facts about the Go primitives *)

Module GoFacts.

Lemma wrap64_id (z : Z) : int64_range z -> wrap64 z = z.
Proof.
  unfold int64_range, MinInt64, MaxInt64, wrap64. intros H.
  rewrite Z.mod_small; lia.
Qed.

Lemma wrap64_range (z : Z) : int64_range (wrap64 z).
Proof.
  unfold int64_range, MinInt64, MaxInt64, wrap64.
  pose proof (Z.mod_pos_bound (z + 2 ^ 63) (2 ^ 64)). lia.
Qed.

Lemma wrap64_mod (z k : Z) : (k | 2 ^ 64) -> wrap64 z mod k = z mod k.
Proof.
  intros [c Hc]. unfold wrap64.
  rewrite (Z.mod_eq (z + 2 ^ 63) (2 ^ 64)) by lia.
  replace (z + 2 ^ 63 - 2 ^ 64 * ((z + 2 ^ 63) / 2 ^ 64) - 2 ^ 63)
    with (z + (- c * ((z + 2 ^ 63) / 2 ^ 64)) * k) by (rewrite Hc; ring).
  destruct (Z.eq_dec k 0) as [->|Hk]; [f_equal; lia|].
  apply Z.mod_add; exact Hk.
Qed.

Lemma len_nonneg {A : Type} (s : list A) : 0 <= len s.
Proof. unfold len. lia. Qed.

Lemma len_app {A : Type} (s t : list A) : len (s ++ t) = len s + len t.
Proof. unfold len. rewrite length_app. lia. Qed.

Lemma len_cons {A : Type} (a : A) (s : list A) : len (a :: s) = 1 + len s.
Proof. unfold len. simpl length. lia. Qed.

Lemma len_nil {A : Type} : len (@nil A) = 0.
Proof. reflexivity. Qed.

Lemma index_in_range {A : Type} (s : list A) (i : Z) :
  0 <= i < len s -> exists a, index s i = Ok a /\ nth_error s (Z.to_nat i) = Some a.
Proof.
  intros H. unfold index.
  destruct (Z.leb_spec 0 i); [|lia].
  destruct (nth_error s (Z.to_nat i)) eqn:E; eauto.
  apply nth_error_None in E. unfold len in H. lia.
Qed.

Lemma index_Ok {A : Type} (s : list A) (i : Z) (a : A) :
  index s i = Ok a -> 0 <= i < len s /\ nth_error s (Z.to_nat i) = Some a.
Proof.
  unfold index. destruct (Z.leb_spec 0 i); [|discriminate].
  destruct (nth_error s (Z.to_nat i)) eqn:E; [|discriminate].
  intros [= ->]. split; [|reflexivity].
  assert (Z.to_nat i < length s)%nat by (apply nth_error_Some; congruence).
  unfold len. lia.
Qed.

Lemma slice_to_in_range {A : Type} (s : list A) (n : Z) :
  0 <= n <= len s -> slice_to s n = Ok (firstn (Z.to_nat n) s).
Proof.
  intros H. unfold slice_to.
  destruct (Z.leb_spec 0 n), (Z.leb_spec n (len s)); simpl; try lia; reflexivity.
Qed.

Lemma slice_from_in_range {A : Type} (s : list A) (n : Z) :
  0 <= n <= len s -> slice_from s n = Ok (skipn (Z.to_nat n) s).
Proof.
  intros H. unfold slice_from.
  destruct (Z.leb_spec 0 n), (Z.leb_spec n (len s)); simpl; try lia; reflexivity.
Qed.

(** The rounding of [float64] arithmetic at a few inputs: one third; the
    sum [0.1 + 0.2], which is [0.30000000000000004]; the halfway cases
    above [2^53], which go to the even neighbour; the largest finite number
    and the overflow beyond it; the smallest subnormal number and the
    underflow below it. *)
Lemma round64_examples :
  round64 (1 # 3) = FNum (6004799503160661 # 18014398509481984) /\
  fdiv f1 (FNum 10) = FNum (3602879701896397 # 36028797018963968) /\
  fadd (fdiv f1 (FNum 10)) (fdiv (FNum 2) (FNum 10))
    = FNum (1351079888211149 # 4503599627370496) /\
  round64 (3 # 10) = FNum (5404319552844595 # 18014398509481984) /\
  round64 (inject_Z (2 ^ 53 + 1)) = FNum (inject_Z (2 ^ 53)) /\
  round64 (inject_Z (2 ^ 53 + 3)) = FNum (inject_Z (2 ^ 53 + 4)) /\
  round64 (inject_Z ((2 ^ 53 - 1) * 2 ^ 971)) = FNum (inject_Z ((2 ^ 53 - 1) * 2 ^ 971)) /\
  round64 (inject_Z ((2 ^ 54 - 1) * 2 ^ 970)) = FInf false /\
  round64 (- inject_Z (2 ^ 1024)) = FInf true /\
  round64 (1 # 2 ^ 1074) = FNum (1 # 2 ^ 1074) /\
  round64 (1 # 2 ^ 1075) = FNum 0 /\
  round64 (3 # 2 ^ 1075) = FNum (1 # 2 ^ 1073).
Proof. vm_compute. repeat split. Qed.

End GoFacts.

(** ** The wire parser *)

Module WireFacts.
Import GoFacts.

(** A byte allowed in a metric name. *)
Definition nameByte (b : byte) : Prop := b <> colon /\ b <> slash /\ b <> nul.

(** The type letters of the wire grammar. *)
Definition typeLetters (t : MetricType) : list byte :=
  match t with
  | Counter => ["c"%byte]
  | Gauge => ["g"%byte]
  | Avg => ["a"%byte]
  | Timer => ["m"%byte; "s"%byte]
  end.

Lemma byte_is_true (c b : byte) : byte_is c b = true <-> b = c.
Proof.
  unfold byte_is. split.
  - apply Byte.byte_dec_bl.
  - apply Byte.byte_dec_lb.
Qed.

Lemma byte_is_false (c b : byte) : byte_is c b = false <-> b <> c.
Proof.
  rewrite <- byte_is_true. destruct (byte_is c b); split; congruence.
Qed.

Lemma bind_Ok {A B : Type} (a : A) (k : A -> result B) : (x ← Ok a; k x) = k a.
Proof. reflexivity. Qed.

Lemma scanName_inl (m : list byte) (i : Z) (e : Error) :
  scanName m i = inl e -> e = ErrNameInvalid.
Proof.
  revert i. induction m as [|ch m IH]; intros i; simpl; [discriminate|].
  destruct (byte_is colon ch); [discriminate|].
  destruct (byte_is slash ch || byte_is nul ch); [congruence|]. apply IH.
Qed.

Lemma scanName_inr (m : list byte) (i n : Z) :
  scanName m i = inr n ->
  n = -1 \/ (i <= n < i + len m /\ Forall nameByte (firstn (Z.to_nat (n - i)) m)).
Proof.
  revert i. induction m as [|ch m IH]; intros i; simpl.
  - intros [= <-]. now left.
  - destruct (byte_is colon ch) eqn:Hc.
    + intros [= <-]. right. rewrite len_cons. pose proof (len_nonneg m).
      replace (i - i) with 0 by lia. simpl. split; [lia|constructor].
    + destruct (byte_is slash ch || byte_is nul ch) eqn:Hs; [discriminate|].
      intros H. apply IH in H as [->|[Hr Hf]]; [now left|right].
      rewrite len_cons. split; [lia|].
      replace (Z.to_nat (n - i)) with (S (Z.to_nat (n - (i + 1)))) by lia.
      simpl. constructor; [|exact Hf].
      apply orb_false_iff in Hs as [Hs Hn].
      repeat split; now apply byte_is_false.
Qed.

Lemma scanBar_range (m : list byte) (i : Z) :
  scanBar m i = -1 \/ i <= scanBar m i < i + len m.
Proof.
  revert i. induction m as [|ch m IH]; intros i; simpl; [now left|].
  rewrite len_cons. pose proof (len_nonneg m).
  destruct (byte_is bar ch); [right; lia|].
  destruct (IH (i + 1)) as [->|?]; [now left|right; lia].
Qed.

Lemma scanName_app (nm rest : list byte) (i : Z) :
  Forall nameByte nm -> scanName (nm ++ colon :: rest) i = inr (i + len nm).
Proof.
  intros H. revert i. induction H as [|b nm [Hc [Hs Hn]] _ IH]; intros i; simpl.
  - rewrite len_nil. f_equal. lia.
  - apply byte_is_false in Hc, Hs, Hn. rewrite Hc, Hs, Hn. simpl.
    rewrite IH, len_cons. f_equal. lia.
Qed.

Lemma scanBar_app (v rest : list byte) (i : Z) :
  ~ In bar v -> scanBar (v ++ bar :: rest) i = i + len v.
Proof.
  revert i. induction v as [|b v IH]; intros i Hn; simpl.
  - rewrite len_nil. lia.
  - assert (Hb : byte_is bar b = false).
    { apply byte_is_false. intros ->. apply Hn. now left. }
    rewrite Hb, IH, len_cons; [lia|]. intros Hin. apply Hn. now right.
Qed.

Lemma scanBar_none (v : list byte) (i : Z) : ~ In bar v -> scanBar v i = -1.
Proof.
  revert i. induction v as [|b v IH]; intros i Hn; simpl; [reflexivity|].
  assert (Hb : byte_is bar b = false).
  { apply byte_is_false. intros ->. apply Hn. now left. }
  rewrite Hb. apply IH. intros Hin. apply Hn. now right.
Qed.

Lemma parseType_no_panic (m : list byte) (n : Z) :
  0 < len m -> (n = 2 -> 2 <= len m) -> exists o, parseType m n = Ok o.
Proof.
  intros Hm H2. unfold parseType.
  destruct (n =? 1).
  - destruct (index_in_range m 0) as [c [-> _]]; [lia|]. rewrite bind_Ok. eauto.
  - destruct (Z.eqb_spec n 2) as [->|_]; [|eauto].
    destruct (index_in_range m 0) as [c0 [-> _]]; [lia|]. rewrite bind_Ok.
    destruct (byte_is "m" c0); [|eauto].
    destruct (index_in_range m 1) as [c1 [-> _]]; [lia|]. rewrite bind_Ok. eauto.
Qed.

Section WithParseFloat.

Variable ParseFloat : list byte -> option float64.

Lemma parseRate_outcome (m : list byte) (n : Z) :
  0 <= n <= len m ->
  (exists sr, parseRate ParseFloat m n = Ok sr) \/
  parseRate ParseFloat m n = Err ErrNoSampling \/
  parseRate ParseFloat m n = Err ErrSamplingInvalid.
Proof.
  intros Hn. unfold parseRate.
  destruct (Z.eqb_spec n (len m)); [left; eauto|].
  destruct (Z.eqb_spec n (len m - 1)); [right; now left|].
  destruct (index_in_range m (n + 1)) as [c [-> _]]; [lia|]. rewrite bind_Ok.
  destruct (byte_is at_sign c); simpl; [|right; now right].
  rewrite slice_from_in_range by lia. rewrite bind_Ok.
  destruct (ParseFloat _) as [s|]; [|right; now right].
  destruct (fle s f0); [right; now right|left; eauto].
Qed.

(** C10.  [ParseMetric] is total and never panics: on every input it
    returns either one of the eight parse errors or a [Metric] whose name is
    non-empty, free of [':'], ['/'] and NUL, and whose type is one of the
    four kinds. *)
Theorem ParseMetric_total_safe (m : list byte) :
  (exists e, ParseMetric ParseFloat m = Err e /\ In e parseErrors) \/
  (exists mt, ParseMetric ParseFloat m = Ok mt /\
     list_byte_of_string (Name mt) <> [] /\
     Forall nameByte (list_byte_of_string (Name mt)) /\
     In (Type_ mt) [Counter; Gauge; Avg; Timer]).
Proof.
  unfold ParseMetric, parseErrors.
  destruct (Z.eqb_spec (len m) 0) as [|Hlen]; [left; eexists; split; [reflexivity|simpl; tauto]|].
  destruct (scanName m 0) as [e|n] eqn:Hscan.
  { apply scanName_inl in Hscan as ->. left; eexists; split; [reflexivity|simpl; tauto]. }
  destruct (Z.eqb_spec n 0) as [|Hn0]; [left; eexists; split; [reflexivity|simpl; tauto]|].
  destruct (Z.eqb_spec n (-1)) as [|Hn1]; [left; eexists; split; [reflexivity|simpl; tauto]|].
  destruct (Z.eqb_spec n (len m - 1)) as [|Hn2]; [left; eexists; split; [reflexivity|simpl; tauto]|].
  simpl orb. cbv iota.
  apply scanName_inr in Hscan as [?|[Hr Hname]]; [contradiction|].
  rewrite Z.sub_0_r in Hname.
  rewrite slice_to_in_range, bind_Ok by lia.
  rewrite slice_from_in_range, bind_Ok by lia.
  set (m1 := skipn (Z.to_nat (n + 1)) m).
  assert (Hm1 : len m1 = len m - (n + 1)).
  { unfold m1, len. rewrite length_skipn. unfold len in Hr. lia. }
  destruct (scanBar_range m1 0) as [Hb|Hb].
  { rewrite Hb. simpl. left; eexists; split; [reflexivity|simpl; tauto]. }
  set (n1 := scanBar m1 0) in *.
  destruct (Z.eqb_spec n1 0) as [|Hn10]; [left; eexists; split; [reflexivity|simpl; tauto]|].
  destruct (Z.eqb_spec n1 (-1)) as [|_]; [lia|].
  destruct (Z.eqb_spec n1 (len m1 - 1)) as [|Hn12]; [left; eexists; split; [reflexivity|simpl; tauto]|].
  simpl orb. cbv iota.
  rewrite slice_to_in_range, bind_Ok by lia.
  destruct (ParseFloat (firstn (Z.to_nat n1) m1)) as [value|];
    [|left; eexists; split; [reflexivity|simpl; tauto]].
  rewrite slice_from_in_range, bind_Ok by lia.
  set (m2 := skipn (Z.to_nat (n1 + 1)) m1).
  assert (Hm2 : len m2 = len m1 - (n1 + 1)).
  { unfold m2, len. rewrite length_skipn. unfold len in Hb. lia. }
  set (n2 := if scanBar m2 0 =? -1 then len m2 else scanBar m2 0).
  assert (Hn2r : 0 <= n2 <= len m2).
  { unfold n2. destruct (scanBar_range m2 0) as [->|?]; simpl; [lia|].
    destruct (Z.eqb_spec (scanBar m2 0) (-1)); lia. }
  destruct (parseType_no_panic m2 n2) as [o Ho]; [lia|lia|].
  cbv zeta. fold m2. fold n2. rewrite Ho, bind_Ok.
  destruct o as [t|]; [|left; eexists; split; [reflexivity|simpl; tauto]].
  destruct (parseRate_outcome m2 n2 Hn2r) as [[sr Hsr]|[Hsr|Hsr]]; rewrite Hsr.
  - rewrite bind_Ok. right. eexists; split; [reflexivity|]. simpl.
    rewrite list_byte_of_string_of_list_byte. repeat split.
    + intros Hnil. apply (f_equal (@length byte)) in Hnil.
      rewrite length_firstn in Hnil. simpl in Hnil. unfold len in Hr. lia.
    + exact Hname.
    + destruct t; simpl; tauto.
  - left; eexists; split; [reflexivity|simpl; tauto].
  - left; eexists; split; [reflexivity|simpl; tauto].
Qed.

End WithParseFloat.

Lemma positive_not_le0 (r : float64) : flt f0 r = true -> fle r f0 = false.
Proof.
  destruct r as [q|[|]|]; simpl; try discriminate; try reflexivity.
  unfold Qltb. now destruct (Qle_bool q 0).
Qed.

Lemma typeLetters_no_bar (t : MetricType) : ~ In bar (typeLetters t).
Proof. destruct t; simpl; intuition discriminate. Qed.

Lemma firstn_len_app {A : Type} (s r : list A) :
  firstn (Z.to_nat (len s)) (s ++ r) = s.
Proof.
  unfold len. rewrite Nat2Z.id, firstn_app, Nat.sub_diag, firstn_all.
  simpl. apply app_nil_r.
Qed.

Lemma skipn_len_app {A : Type} (s r : list A) (a : A) :
  skipn (Z.to_nat (len s + 1)) (s ++ a :: r) = r.
Proof.
  unfold len. replace (Z.to_nat (Z.of_nat (length s) + 1)) with (length s + 1)%nat by lia.
  rewrite skipn_app. rewrite skipn_all2 by lia.
  replace (length s + 1 - length s)%nat with 1%nat by lia. reflexivity.
Qed.

Section Grammar.

Variable ParseFloat : list byte -> option float64.

(** What [strconv.ParseFloat] accepts is never empty and holds no ['|']. *)
Hypothesis ParseFloat_syntax :
  forall s x, ParseFloat s = Some x -> s <> [] /\ ~ In bar s.

Lemma parse_plain_suffix (t : MetricType) :
  scanBar (typeLetters t) 0 = -1 /\
  parseType (typeLetters t) (len (typeLetters t)) = Ok (Some t) /\
  parseRate ParseFloat (typeLetters t) (len (typeLetters t)) = Ok f1.
Proof. destruct t; repeat split; reflexivity. Qed.

Lemma parse_rate_suffix (t : MetricType) (RATE : list byte) (r : float64) :
  ParseFloat RATE = Some r -> flt f0 r = true ->
  let m2 := typeLetters t ++ bar :: at_sign :: RATE in
  scanBar m2 0 = len (typeLetters t) /\
  parseType m2 (len (typeLetters t)) = Ok (Some t) /\
  parseRate ParseFloat m2 (len (typeLetters t)) = Ok r.
Proof.
  intros HR Hpos m2. split; [|split].
  - unfold m2. rewrite scanBar_app by apply typeLetters_no_bar. lia.
  - destruct t; reflexivity.
  - unfold parseRate.
    assert (Hl : len m2 = len (typeLetters t) + 2 + len RATE).
    { unfold m2. rewrite len_app, !len_cons. lia. }
    pose proof (len_nonneg RATE). pose proof (len_nonneg (typeLetters t)).
    destruct (Z.eqb_spec (len (typeLetters t)) (len m2)); [lia|].
    destruct (Z.eqb_spec (len (typeLetters t)) (len m2 - 1)); [lia|].
    assert (Hi : index m2 (len (typeLetters t) + 1) = Ok at_sign)
      by (destruct t; reflexivity).
    rewrite Hi, bind_Ok. simpl negb. cbv iota.
    assert (Hs : slice_from m2 (len (typeLetters t) + 2) = Ok RATE).
    { rewrite slice_from_in_range by lia. destruct t; reflexivity. }
    rewrite Hs, bind_Ok, HR, (positive_not_le0 r Hpos). reflexivity.
Qed.

(** The first two stages of [ParseMetric] on [NAME ':' VALUE '|' rest]. *)
Lemma ParseMetric_stages (NAME VALUE rest : list byte) (v : float64) :
  NAME <> [] -> Forall nameByte NAME -> ParseFloat VALUE = Some v -> rest <> [] ->
  ParseMetric ParseFloat (NAME ++ colon :: VALUE ++ bar :: rest) =
  (let n2 := scanBar rest 0 in
   let n2 := if n2 =? -1 then len rest else n2 in
   typ ← parseType rest n2;
   match typ with
   | None => Err ErrTypeInvalid
   | Some typ =>
       sr ← parseRate ParseFloat rest n2;
       mret (mkMetric (string_of_list_byte NAME) typ v sr)
   end).
Proof.
  intros Hne Hname Hv Hrest.
  destruct (ParseFloat_syntax _ _ Hv) as [Hvne Hvbar].
  assert (0 < len NAME) by (destruct NAME; [congruence|rewrite len_cons; pose proof (len_nonneg NAME); lia]).
  assert (0 < len VALUE) by (destruct VALUE; [congruence|rewrite len_cons; pose proof (len_nonneg VALUE); lia]).
  assert (0 < len rest) by (destruct rest; [congruence|rewrite len_cons; pose proof (len_nonneg rest); lia]).
  unfold ParseMetric.
  set (m := NAME ++ colon :: VALUE ++ bar :: rest).
  assert (Hm : len m = len NAME + 1 + (len VALUE + 1 + len rest)).
  { unfold m. rewrite len_app, len_cons, len_app, len_cons. lia. }
  destruct (Z.eqb_spec (len m) 0); [lia|].
  unfold m at 1. rewrite scanName_app by exact Hname. rewrite Z.add_0_l.
  destruct (Z.eqb_spec (len NAME) 0); [lia|].
  destruct (Z.eqb_spec (len NAME) (-1)); [lia|].
  destruct (Z.eqb_spec (len NAME) (len m - 1)); [lia|].
  simpl orb. cbv iota.
  rewrite slice_to_in_range, bind_Ok by lia.
  rewrite slice_from_in_range, bind_Ok by lia.
  unfold m. rewrite firstn_len_app, skipn_len_app.
  rewrite scanBar_app by exact Hvbar. rewrite Z.add_0_l.
  set (m1 := VALUE ++ bar :: rest).
  assert (Hm1 : len m1 = len VALUE + 1 + len rest).
  { unfold m1. rewrite len_app, len_cons. lia. }
  destruct (Z.eqb_spec (len VALUE) 0); [lia|].
  destruct (Z.eqb_spec (len VALUE) (-1)); [lia|].
  destruct (Z.eqb_spec (len VALUE) (len m1 - 1)); [lia|].
  simpl orb. cbv iota.
  rewrite slice_to_in_range, bind_Ok by lia.
  unfold m1. rewrite firstn_len_app, Hv.
  rewrite slice_from_in_range, bind_Ok by (fold m1; lia).
  rewrite skipn_len_app. reflexivity.
Qed.

(** C4.  A line [NAME ':' VALUE '|' TYPE] with an optional ['|@' RATE],
    where NAME is non-empty and free of [':'], ['/'] and NUL, VALUE parses as
    a float, TYPE is the letter code of a kind and RATE parses as a strictly
    positive float, is parsed into the [Metric] with exactly these fields;
    the sample rate is 1 when the rate part is absent.  In particular
    ["foo:3|c"] yields [Metric{"foo", Counter, 3, 1}]. *)
Theorem ParseMetric_grammar :
  (forall (NAME VALUE : list byte) (t : MetricType) (v : float64),
     NAME <> [] -> Forall nameByte NAME -> ParseFloat VALUE = Some v ->
     ParseMetric ParseFloat (NAME ++ colon :: VALUE ++ bar :: typeLetters t)
       = Ok (mkMetric (string_of_list_byte NAME) t v f1) /\
     forall (RATE : list byte) (r : float64),
       ParseFloat RATE = Some r -> flt f0 r = true ->
       ParseMetric ParseFloat
         (NAME ++ colon :: VALUE ++ bar :: typeLetters t ++ bar :: at_sign :: RATE)
       = Ok (mkMetric (string_of_list_byte NAME) t v r)) /\
  (ParseFloat (list_byte_of_string "3") = Some (FNum 3) ->
   ParseMetric ParseFloat (list_byte_of_string "foo:3|c")
     = Ok (mkMetric "foo" Counter (FNum 3) (FNum 1))).
Proof.
  assert (General : forall (NAME VALUE : list byte) (t : MetricType) (v : float64),
     NAME <> [] -> Forall nameByte NAME -> ParseFloat VALUE = Some v ->
     ParseMetric ParseFloat (NAME ++ colon :: VALUE ++ bar :: typeLetters t)
       = Ok (mkMetric (string_of_list_byte NAME) t v f1) /\
     forall (RATE : list byte) (r : float64),
       ParseFloat RATE = Some r -> flt f0 r = true ->
       ParseMetric ParseFloat
         (NAME ++ colon :: VALUE ++ bar :: typeLetters t ++ bar :: at_sign :: RATE)
       = Ok (mkMetric (string_of_list_byte NAME) t v r)).
  { intros NAME VALUE t v Hne Hname Hv. split.
    - rewrite (ParseMetric_stages NAME VALUE (typeLetters t) v) by
        (auto; destruct t; discriminate).
      destruct (parse_plain_suffix t) as [Hs [Ht Hr]].
      cbv zeta. rewrite Hs. simpl Z.eqb. cbv iota. rewrite Ht, bind_Ok, Hr.
      reflexivity.
    - intros RATE r HR Hpos.
      rewrite (ParseMetric_stages NAME VALUE _ v) by
        (auto; destruct t; discriminate).
      destruct (parse_rate_suffix t RATE r HR Hpos) as [Hs [Ht Hr]].
      cbv zeta. rewrite Hs.
      assert (Hl : (len (typeLetters t) =? -1) = false) by (destruct t; reflexivity).
      rewrite Hl, Ht, bind_Ok, Hr. reflexivity. }
  split; [exact General|].
  intros H3.
  destruct (General (list_byte_of_string "foo") (list_byte_of_string "3")
                    Counter (FNum 3)) as [H _].
  - discriminate.
  - repeat constructor; discriminate.
  - exact H3.
  - exact H.
Qed.

End Grammar.

(** The decimal stand-in satisfies the syntactic assumption. *)
Lemma parseDigits_no_bar (s : list byte) (acc z : Z) :
  parseDigits s acc = Some z -> ~ In bar s.
Proof.
  revert acc. induction s as [|b s IH]; intros acc; simpl; [tauto|].
  destruct (digitVal b) eqn:Hd; [|discriminate].
  intros H [Heq|Hin]; [subst b; vm_compute in Hd; discriminate|]. eapply IH; eauto.
Qed.

Lemma parseUint_syntax (s : list byte) (x : float64) :
  parseUint s = Some x -> s <> [] /\ ~ In bar s.
Proof.
  unfold parseUint. destruct s as [|b s]; [discriminate|].
  destruct (parseDigits (b :: s) 0) eqn:Hd; [|discriminate].
  intros _. split; [discriminate|]. eapply parseDigits_no_bar; eauto.
Qed.

(** The grammar theorem at the lines ["foo:3|c"] and ["bar:250|ms|@2"]. *)
Lemma ParseMetric_grammar_witness :
  ParseMetric parseUint (list_byte_of_string "foo:3|c")
    = Ok (mkMetric "foo" Counter (FNum 3) (FNum 1)) /\
  ParseMetric parseUint (list_byte_of_string "bar:250|ms|@2")
    = Ok (mkMetric "bar" Timer (FNum 250) (FNum 2)).
Proof.
  destruct (ParseMetric_grammar parseUint parseUint_syntax) as [G E].
  split.
  - apply E. reflexivity.
  - destruct (G (list_byte_of_string "bar") (list_byte_of_string "250")
                Timer (FNum 250)) as [_ R].
    + discriminate.
    + repeat constructor; discriminate.
    + reflexivity.
    + apply (R (list_byte_of_string "2") (FNum 2)); reflexivity.
Defined.

End WireFacts.

(** ** The quantile timer *)

Module TimerFacts.
Import GoFacts Timer.

#[local] Open Scope Q_scope.

(** *** Comparisons on rationals *)

Lemma Qltb_lt (a b : Q) : Qltb a b = true <-> a < b.
Proof.
  unfold Qltb. rewrite negb_true_iff. split.
  - intros H. apply Qnot_le_lt. intros Hle. apply Qle_bool_iff in Hle. congruence.
  - intros H. destruct (Qle_bool b a) eqn:E; [|reflexivity].
    apply Qle_bool_iff in E. exfalso. eapply Qlt_not_le; eauto.
Qed.

Lemma Qltb_ge (a b : Q) : Qltb a b = false <-> b <= a.
Proof.
  unfold Qltb. rewrite negb_false_iff. apply Qle_bool_iff.
Qed.

Lemma Qle_bool_false (a b : Q) : Qle_bool a b = false <-> b < a.
Proof.
  rewrite <- Qltb_lt. unfold Qltb. now rewrite negb_true_iff.
Qed.

Lemma Qltb_comp (a a' b b' : Q) : a == a' -> b == b' -> Qltb a b = Qltb a' b'.
Proof. intros Ha Hb. unfold Qltb. now rewrite Ha, Hb. Qed.

(** *** Rounding *)

(** Rounding looks at the value of a rational, not at its representation. *)
Lemma round64_Qeq (a b : Q) : a == b -> round64 a = round64 b.
Proof. intros H. unfold round64. now rewrite (Qred_complete a b H). Qed.

Lemma exact_round (q : Q) :
  exact q = true -> exists c, round64 q = FNum c /\ c == q.
Proof.
  unfold exact. destruct (round64 q) as [c| |]; try discriminate.
  intros H. exists c. split; [reflexivity|now apply Qeq_bool_iff].
Qed.

Lemma exact_Qeq (a b : Q) : a == b -> exact a = exact b.
Proof.
  intros H. unfold exact. rewrite (round64_Qeq a b H).
  destruct (round64 b) as [c| |]; try reflexivity. now rewrite H.
Qed.

Lemma fadd_FNum (a b : Q) : fadd (FNum a) (FNum b) = round64 (a + b).
Proof. reflexivity. Qed.

Lemma fmul_FNum (a b : Q) : fmul (FNum a) (FNum b) = round64 (a * b).
Proof. reflexivity. Qed.

(** *** Numbers that are not rounded *)

Lemma two_neq_0 : ~ 2 == 0.
Proof. discriminate. Qed.

Lemma Qpow2_pos (z : Z) : 0 < 2 ^ z.
Proof. apply Qpower_0_lt. reflexivity. Qed.

Lemma Qpow2_plus (a b : Z) : 2 ^ (a + b) == 2 ^ a * 2 ^ b.
Proof. apply Qpower_plus, two_neq_0. Qed.

Lemma Qpow2_Z (k : Z) : (0 <= k)%Z -> inject_Z (2 ^ k) == 2 ^ k.
Proof. intros H. now rewrite Zpower_Qpower. Qed.

Lemma Qpow2_le (a b : Z) : (a <= b)%Z -> 2 ^ a <= 2 ^ b.
Proof. intros H. apply Qpower_le_compat_l; [exact H|discriminate]. Qed.

Lemma Qpow2_lt_inv (a b : Z) : 2 ^ a < 2 ^ b -> (a < b)%Z.
Proof. intros H. apply (Qpower_lt_compat_l_inv 2); [exact H|reflexivity]. Qed.

Lemma inject_Z_le (a b : Z) : (a <= b)%Z -> inject_Z a <= inject_Z b.
Proof. intros H. now rewrite <- Zle_Qle. Qed.

Lemma inject_Z_lt (a b : Z) : (a < b)%Z -> inject_Z a < inject_Z b.
Proof. intros H. now rewrite <- Zlt_Qlt. Qed.

(** A positive integer between two powers of two, as a rational. *)
Lemma Zlog2_Q (n : Z) :
  (0 < n)%Z -> 2 ^ Z.log2 n <= inject_Z n /\ inject_Z n < 2 ^ (Z.log2 n + 1).
Proof.
  intros Hn. destruct (Z.log2_spec n Hn) as [H1 H2].
  pose proof (Z.log2_nonneg n) as H0.
  split.
  - rewrite <- Qpow2_Z by exact H0. now apply inject_Z_le.
  - rewrite <- Qpow2_Z by lia. apply inject_Z_lt. rewrite <- Z.add_1_r in H2. exact H2.
Qed.

Lemma Qlog2_spec (a : Q) : 0 < a -> 2 ^ Qlog2 a <= a /\ a < 2 ^ (Qlog2 a + 1).
Proof.
  intros Ha. destruct a as [n d].
  assert (Hn : (0 < n)%Z).
  { unfold Qlt in Ha. simpl in Ha. lia. }
  unfold Qlog2. cbn [Qnum Qden].
  set (ln := Z.log2 n). set (ld := Z.log2 (Z.pos d)).
  destruct (Zlog2_Q n Hn) as [N1 N2]. fold ln in N1, N2.
  destruct (Zlog2_Q (Z.pos d) ltac:(lia)) as [D1 D2]. fold ld in D1, D2.
  assert (Ead : (n # d) * inject_Z (Z.pos d) == inject_Z n).
  { unfold Qeq, Qmult, inject_Z. simpl. lia. }
  assert (HD : 0 < inject_Z (Z.pos d)) by reflexivity.
  assert (Hlow : 2 ^ (ln - ld - 1) <= n # d).
  { apply (Qmult_le_r _ _ (inject_Z (Z.pos d)) HD). rewrite Ead.
    eapply Qle_trans; [|exact N1].
    replace ln with ((ln - ld - 1) + (ld + 1))%Z at 2 by lia.
    rewrite Qpow2_plus. apply Qmult_le_l; [apply Qpow2_pos|].
    now apply Qlt_le_weak. }
  assert (Hhigh : n # d < 2 ^ (ln - ld + 1)).
  { apply (Qmult_lt_r _ _ (inject_Z (Z.pos d)) HD). rewrite Ead.
    eapply Qlt_le_trans; [exact N2|].
    replace (ln + 1)%Z with ((ln - ld + 1) + ld)%Z by lia.
    rewrite Qpow2_plus. apply Qmult_le_l; [apply Qpow2_pos|exact D1]. }
  destruct (Qle_bool (2 ^ (ln - ld)) (n # d)) eqn:E.
  - apply Qle_bool_iff in E. split; [exact E|exact Hhigh].
  - apply Qle_bool_false in E. split; [exact Hlow|].
    replace (ln - ld - 1 + 1)%Z with (ln - ld)%Z by lia. exact E.
Qed.

Lemma Qlog2_unique (a : Q) (l : Z) :
  2 ^ l <= a -> a < 2 ^ (l + 1) -> Qlog2 a = l.
Proof.
  intros H1 H2.
  assert (Ha : 0 < a) by (eapply Qlt_le_trans; [apply (Qpow2_pos l)|exact H1]).
  destruct (Qlog2_spec a Ha) as [L1 L2].
  assert (l < Qlog2 a + 1)%Z by (apply Qpow2_lt_inv; eapply Qle_lt_trans; eauto).
  assert (Qlog2 a < l + 1)%Z by (apply Qpow2_lt_inv; eapply Qle_lt_trans; eauto).
  lia.
Qed.

Lemma rne_whole (x : Q) (m : Z) : x == inject_Z m -> rne x = m.
Proof.
  intros H. unfold rne.
  assert (Hf : Qfloor x = m) by (rewrite H; apply Qfloor_Z).
  rewrite Hf.
  assert (Hc : (x - inject_Z m ?= 1 # 2) = Lt).
  { apply Qlt_alt. rewrite H. unfold Qminus. rewrite Qplus_opp_r. reflexivity. }
  rewrite Hc. reflexivity.
Qed.

(** A number with at most 53 significant bits and an exponent in the range
    of binary64 is a binary64 number. *)
Lemma exact_dyadic (z e : Z) :
  (0 <= z < 2 ^ 53)%Z -> (-1074 <= e <= 971)%Z -> exact (inject_Z z * 2 ^ e) = true.
Proof.
  intros Hz He. set (q := inject_Z z * 2 ^ e).
  destruct (Z.eq_dec z 0%Z) as [->|Hz0].
  { unfold exact. rewrite (round64_Qeq q 0) by (unfold q; apply Qmult_0_l).
    change (round64 0) with (FNum 0). apply Qeq_bool_iff. unfold q. now rewrite Qmult_0_l. }
  assert (Hq : 0 < q).
  { unfold q. apply Qmult_lt_0_compat; [|apply Qpow2_pos].
    change 0 with (inject_Z 0). apply inject_Z_lt. lia. }
  set (k := Z.log2 z).
  assert (Hk : (0 <= k <= 52)%Z).
  { split; [apply Z.log2_nonneg|]. unfold k.
    assert (Z.log2 z < 53)%Z; [|lia]. apply Z.log2_lt_pow2; lia. }
  destruct (Zlog2_Q z ltac:(lia)) as [K1 K2]. fold k in K1, K2.
  assert (Hred : Qred q == q) by apply Qred_correct.
  assert (Hl : Qlog2 (Qabs (Qred q)) = (k + e)%Z).
  { apply Qlog2_unique.
    - rewrite Qabs_pos by (rewrite Hred; now apply Qlt_le_weak). rewrite Hred.
      unfold q. rewrite Qpow2_plus. apply Qmult_le_r; [apply Qpow2_pos|exact K1].
    - rewrite Qabs_pos by (rewrite Hred; now apply Qlt_le_weak). rewrite Hred.
      unfold q. replace (k + e + 1)%Z with ((k + 1) + e)%Z by lia.
      rewrite Qpow2_plus. apply Qmult_lt_r; [apply Qpow2_pos|exact K2]. }
  unfold exact, round64.
  assert (Hnz : Qeq_bool (Qred q) 0 = false).
  { destruct (Qeq_bool (Qred q) 0) eqn:E; [|reflexivity].
    apply Qeq_bool_iff in E. rewrite Hred in E. rewrite E in Hq. discriminate Hq. }
  rewrite Hnz, Hl.
  set (e' := Z.max (k + e - 52) (-1074)).
  assert (He' : (e' <= e)%Z) by (unfold e'; lia).
  set (M := (z * 2 ^ (e - e'))%Z).
  assert (HM : Qabs (Qred q) / 2 ^ e' == inject_Z M).
  { rewrite Qabs_pos by (rewrite Hred; now apply Qlt_le_weak). rewrite Hred.
    unfold q, M. rewrite inject_Z_mult, Qpow2_Z by lia.
    replace e with ((e - e') + e')%Z at 1 by lia. rewrite Qpow2_plus.
    field. apply Qpower_not_0, two_neq_0. }
  rewrite (rne_whole _ M HM).
  assert (Hr : inject_Z M * 2 ^ e' == q).
  { unfold q, M. rewrite inject_Z_mult, Qpow2_Z by lia.
    replace e with ((e - e') + e')%Z at 2 by lia. rewrite Qpow2_plus. ring. }
  assert (Hov : Qle_bool (2 ^ 1024) (inject_Z M * 2 ^ e') = false).
  { apply Qle_bool_false. rewrite Hr. unfold q.
    eapply Qlt_le_trans; [apply Qmult_lt_r; [apply Qpow2_pos|exact K2]|].
    rewrite <- Qpow2_plus. apply Qpow2_le. lia. }
  rewrite Hov.
  assert (Hs : Qsign_neg (Qred q) = false).
  { unfold Qsign_neg. apply Qltb_ge. rewrite Hred. now apply Qlt_le_weak. }
  rewrite Hs. apply Qeq_bool_iff. rewrite Qred_correct. exact Hr.
Qed.

(** *** Observations with finite values and weights *)

Definition liftP (p : Q * Q) : float64 * float64 := (FNum (fst p), FNum (snd p)).

Lemma combine_lift (vs ws : list Q) :
  combine (map FNum vs) (map FNum ws) = map liftP (combine vs ws).
Proof.
  revert ws. induction vs as [|v vs IH]; intros [|w ws]; simpl; try reflexivity.
  now rewrite IH.
Qed.

(** *** The sort *)

Lemma bubble_lift (x : Q * Q) (rl : list (Q * Q)) :
  bubble (liftP x) (map liftP rl) = map liftP (bubbleQ x rl).
Proof.
  induction rl as [|y rl IH]; simpl; [reflexivity|].
  change (Less (liftP x) (liftP y)) with (LessQ x y).
  destruct (LessQ x y); simpl; [now rewrite IH|reflexivity].
Qed.

Lemma sortSort_lift (l : list (Q * Q)) : sortSort (map liftP l) = map liftP (sortQ l).
Proof.
  unfold sortSort, sortQ. rewrite map_rev. f_equal.
  change (@nil (float64 * float64)) with (map liftP []).
  generalize (@nil (Q * Q)) as acc.
  induction l as [|x l IH]; intros acc; simpl; [reflexivity|].
  rewrite bubble_lift. apply IH.
Qed.

(** Descending order of the reversed prefix, ascending order of the result. *)
Definition descQ (a b : Q * Q) : Prop := fst b <= fst a.
Definition ascQ (a b : Q * Q) : Prop := fst a <= fst b.

Lemma bubbleQ_perm (x : Q * Q) (rl : list (Q * Q)) : Permutation (bubbleQ x rl) (x :: rl).
Proof.
  induction rl as [|y rl IH]; simpl; [reflexivity|].
  destruct (LessQ x y); [|reflexivity].
  rewrite IH. apply perm_swap.
Qed.

Lemma bubbleQ_sorted (x : Q * Q) (rl : list (Q * Q)) :
  StronglySorted descQ rl -> StronglySorted descQ (bubbleQ x rl).
Proof.
  induction 1 as [|y rl Hs IH Hall]; simpl; [repeat constructor|].
  destruct (LessQ x y) eqn:Hlt; unfold LessQ in Hlt.
  - constructor; [exact IH|].
    eapply Permutation_Forall; [symmetry; apply bubbleQ_perm|].
    constructor; [|exact Hall].
    apply Qltb_lt in Hlt. unfold descQ. now apply Qlt_le_weak.
  - apply Qltb_ge in Hlt.
    constructor; [now constructor|].
    constructor; [exact Hlt|].
    eapply Forall_impl; [exact Hall|]. unfold descQ. simpl. intros z Hz.
    eapply Qle_trans; eauto.
Qed.

Lemma fold_bubbleQ (l acc : list (Q * Q)) :
  StronglySorted descQ acc ->
  StronglySorted descQ (fold_left (fun rl x => bubbleQ x rl) l acc) /\
  Permutation (fold_left (fun rl x => bubbleQ x rl) l acc) (rev l ++ acc).
Proof.
  revert acc. induction l as [|x l IH]; intros acc Hacc; simpl; [auto|].
  destruct (IH (bubbleQ x acc) (bubbleQ_sorted x acc Hacc)) as [Hs Hp].
  split; [exact Hs|]. rewrite Hp, bubbleQ_perm, <- app_assoc. simpl.
  apply Permutation_app_head. reflexivity.
Qed.

Lemma StronglySorted_snoc {A : Type} (R : A -> A -> Prop) (l : list A) (a : A) :
  StronglySorted R l -> Forall (fun x => R x a) l -> StronglySorted R (l ++ [a]).
Proof.
  induction 1 as [|b l Hs IH Hall]; intros Hf; simpl; [repeat constructor|].
  apply Forall_cons_iff in Hf as [Hb Hf].
  constructor; [now apply IH|].
  apply Forall_app. split; [exact Hall|now repeat constructor].
Qed.

Lemma StronglySorted_rev_desc (l : list (Q * Q)) :
  StronglySorted descQ l -> StronglySorted ascQ (rev l).
Proof.
  induction 1 as [|a l Hs IH Hall]; simpl; [constructor|].
  apply StronglySorted_snoc; [exact IH|].
  apply Forall_rev. exact Hall.
Qed.

Lemma sortQ_spec (l : list (Q * Q)) :
  StronglySorted ascQ (sortQ l) /\ Permutation (sortQ l) l.
Proof.
  unfold sortQ.
  destruct (fold_bubbleQ l [] ltac:(constructor)) as [Hs Hp].
  split; [now apply StronglySorted_rev_desc|].
  rewrite <- Permutation_rev, Hp, app_nil_r. symmetry. apply Permutation_rev.
Qed.


(** *** Sums of weights *)

Lemma fold_left_sumQ (ws : list Q) (a : Q) : fold_left Qplus ws a == a + sumQ ws.
Proof.
  revert a. induction ws as [|w ws IH]; intros a; simpl.
  - now rewrite Qplus_0_r.
  - rewrite IH. now rewrite Qplus_assoc.
Qed.

Lemma sumQ_perm (l1 l2 : list Q) : Permutation l1 l2 -> sumQ l1 == sumQ l2.
Proof.
  induction 1 as [|x l1 l2 _ IH|x y l|l1 l2 l3 _ IH1 _ IH2]; simpl.
  - reflexivity.
  - now rewrite IH.
  - rewrite !Qplus_assoc. now rewrite (Qplus_comm y x).
  - now rewrite IH1.
Qed.

Lemma sumQ_nonneg (ws : list Q) : Forall (fun w => 0 < w) ws -> 0 <= sumQ ws.
Proof.
  induction 1 as [|w ws Hw _ IH]; simpl; [apply Qle_refl|].
  replace 0 with (0 + 0) by reflexivity. apply Qplus_le_compat; [now apply Qlt_le_weak|exact IH].
Qed.

Lemma sumQ_pos (ws : list Q) : ws <> [] -> Forall (fun w => 0 < w) ws -> 0 < sumQ ws.
Proof.
  intros Hne Hpos. destruct Hpos as [|w ws Hw Hws]; [congruence|]. simpl.
  replace 0 with (0 + 0) by reflexivity.
  apply Qplus_lt_le_compat; [exact Hw|now apply sumQ_nonneg].
Qed.

(** The sum [n] of the weights: when no addition rounds, it is the exact
    sum. *)
Lemma totalWeight_exact (ws : list Q) :
  forall c a : Q, c == a -> exactSums a ws = true ->
    exists c', fold_left fadd (map FNum ws) (FNum c) = FNum c' /\
               c' == a + sumQ ws.
Proof.
  induction ws as [|w ws IH]; intros c a Hc He; simpl in He.
  - exists c. split; [reflexivity|]. simpl. now rewrite Qplus_0_r.
  - apply andb_prop in He as [He1 He2].
    destruct (exact_round _ He1) as (c1 & Hr & Hc1).
    destruct (IH c1 (a + w) Hc1 He2) as (c' & Hf & Hc').
    exists c'. split.
    + cbn [map fold_left]. rewrite fadd_FNum.
      rewrite (round64_Qeq (c + w) (a + w)) by now rewrite Hc.
      rewrite Hr. exact Hf.
    + rewrite Hc'. simpl. now rewrite Qplus_assoc.
Qed.

(** *** The loop, one quantile at a time *)

Fixpoint pickLoop (q : float64) (s : list (float64 * float64)) (n m old : float64)
  : float64 :=
  match s with
  | [] => old
  | (d, c) :: s' => pickLoop q s' n (fadd m c) (pick n q m d c old)
  end.

Lemma statsLoop_pick (s : list (float64 * float64)) (n m a b c : float64) :
  statsLoop s n m (a, b, c)
  = (pickLoop q25 s n m a, pickLoop q50 s n m b, pickLoop q75 s n m c).
Proof.
  revert m a b c. induction s as [|[d w] s IH]; intros m a b c; simpl; [reflexivity|].
  apply IH.
Qed.

(** The loop in exact arithmetic, for the threshold [t] and the running
    weight [m]. *)
Fixpoint pickQ (t : Q) (s : list (Q * Q)) (m : Q) (old : float64) : float64 :=
  match s with
  | [] => old
  | (d, c) :: s' =>
      pickQ t s' (m + c) (if Qle_bool t (m + c) && Qltb m t then FNum d else old)
  end.

(** When no addition of the running weight rounds, the loop of the code is
    the loop in exact arithmetic, for the threshold the code computed. *)
Lemma pickLoop_exact (q nf t : Q) (s : list (Q * Q)) :
  round64 (nf * q) = FNum t ->
  forall (mf M : Q) (old : float64),
    mf == M -> exactSums M (map snd s) = true ->
    pickLoop (FNum q) (map liftP s) (FNum nf) (FNum mf) old = pickQ t s M old.
Proof.
  intros Ht. induction s as [|[d c] s IH]; intros mf M old Hm He; [reflexivity|].
  simpl in He. apply andb_prop in He as [He1 He2].
  destruct (exact_round _ He1) as (m1 & Hr & Hm1).
  change (map liftP ((d, c) :: s)) with ((FNum d, FNum c) :: map liftP s).
  cbn [pickLoop pickQ]. unfold pick.
  rewrite fadd_FNum, fmul_FNum, Ht.
  rewrite (round64_Qeq (mf + c) (M + c)) by now rewrite Hm.
  rewrite Hr.
  change (fge (FNum m1) (FNum t)) with (Qle_bool t m1).
  change (flt (FNum mf) (FNum t)) with (Qltb mf t).
  rewrite (IH m1 (M + c)) by assumption.
  f_equal. rewrite Hm1, (Qltb_comp mf M t t Hm (Qeq_refl t)). reflexivity.
Qed.

Lemma Qle_plus_pos (m c : Q) : 0 < c -> m <= m + c.
Proof.
  intros Hc. rewrite <- (Qplus_0_r m) at 1.
  apply Qplus_le_compat; [apply Qle_refl|now apply Qlt_le_weak].
Qed.

(** Once the running weight has reached the threshold nothing changes. *)
Lemma pickQ_reached (t : Q) (s : list (Q * Q)) :
  Forall (fun p => 0 < snd p) s ->
  forall (m : Q) (old : float64), t <= m -> pickQ t s m old = old.
Proof.
  induction 1 as [|[d c] s Hc _ IH]; intros m old Hm; [reflexivity|].
  cbn [pickQ]. rewrite (proj2 (Qltb_ge m t) Hm), andb_false_r.
  apply IH. eapply Qle_trans; [exact Hm|]. now apply Qle_plus_pos.
Qed.

(** Below the threshold the loop picks the first value whose cumulative
    weight reaches it. *)
Lemma pickQ_first (t : Q) (s : list (Q * Q)) :
  Forall (fun p => 0 < snd p) s ->
  forall (m : Q) (old : float64), m < t ->
    pickQ t s m old
    = match firstReaching t m s with
      | Some v => FNum v
      | None => old
      end.
Proof.
  induction 1 as [|[d c] s Hc Hs IH]; intros m old Hm; [reflexivity|].
  cbn [pickQ firstReaching].
  destruct (Qle_bool t (m + c)) eqn:E.
  - rewrite (proj2 (Qltb_lt m t) Hm). simpl andb.
    apply pickQ_reached; [exact Hs|]. now apply Qle_bool_iff.
  - simpl andb. apply IH. now apply Qle_bool_false.
Qed.

(** The threshold is reached when the total weight covers it. *)
Lemma firstReaching_total (t : Q) (s : list (Q * Q)) :
  forall m : Q, m < t -> t <= m + sumQ (map snd s) ->
    exists v, firstReaching t m s = Some v.
Proof.
  induction s as [|[d c] s IH]; intros m Hm Ht.
  - simpl in Ht. rewrite Qplus_0_r in Ht. exfalso. eapply Qlt_not_le; eauto.
  - cbn [firstReaching].
    destruct (Qle_bool t (m + c)) eqn:E; [eauto|].
    apply IH; [now apply Qle_bool_false|].
    simpl in Ht. now rewrite <- Qplus_assoc.
Qed.

(** The scan depends on the values of the threshold and of the weight
    accumulated so far only. *)
Lemma firstReaching_Qeq (s : list (Q * Q)) :
  forall t t' m m' : Q, t == t' -> m == m' ->
    firstReaching t m s = firstReaching t' m' s.
Proof.
  induction s as [|[d c] s IH]; intros t t' m m' Ht Hm; [reflexivity|].
  cbn [firstReaching]. rewrite Ht, Hm.
  destruct (Qle_bool t' (m' + c)); [reflexivity|].
  apply IH; [exact Ht|now rewrite Hm].
Qed.

(** *** Minimum and maximum of a sorted slice *)

Lemma StronglySorted_nth {A : Type} (R : A -> A -> Prop) (l : list A) :
  StronglySorted R l ->
  forall (i j : nat) (a b : A), (i < j)%nat ->
    nth_error l i = Some a -> nth_error l j = Some b -> R a b.
Proof.
  induction 1 as [|x l Hs IH Hall]; intros i j a b Hij Hi Hj.
  - destruct i; discriminate.
  - destruct j as [|j]; [lia|]. simpl in Hj.
    destruct i as [|i]; simpl in Hi.
    + injection Hi as <-. rewrite Forall_forall in Hall. apply Hall.
      apply list_elem_of_In. eapply nth_error_In; eauto.
    + eapply IH; [|exact Hi|exact Hj]. lia.
Qed.

Lemma sorted_bounds (l vs : list Q) (i : nat) (a : Q) :
  StronglySorted Qle l -> Permutation l vs -> nth_error l i = Some a ->
  In a vs /\
  (i = 0%nat -> Forall (fun x => a <= x) vs) /\
  (i = (length vs - 1)%nat -> Forall (fun x => x <= a) vs).
Proof.
  intros Hs Hp Hi. split; [|split].
  - eapply Permutation_in; [exact Hp|]. eapply nth_error_In; eauto.
  - intros ->. apply Forall_forall. intros v Hv. apply list_elem_of_In in Hv.
    apply (Permutation_in _ (Permutation_sym Hp)) in Hv.
    apply In_nth_error in Hv as [j Hj].
    destruct j as [|j].
    + rewrite Hi in Hj. injection Hj as <-. apply Qle_refl.
    + eapply (StronglySorted_nth Qle l Hs 0 (S j)); eauto. lia.
  - intros ->. apply Forall_forall. intros v Hv. apply list_elem_of_In in Hv.
    apply (Permutation_in _ (Permutation_sym Hp)) in Hv.
    apply In_nth_error in Hv as [j Hj].
    assert (Hlen : length l = length vs) by now apply Permutation_length.
    assert (j < length l)%nat by (apply nth_error_Some; congruence).
    destruct (Nat.eq_dec j (length vs - 1)%nat) as [->|Hne].
    + rewrite Hi in Hj. injection Hj as <-. apply Qle_refl.
    + eapply (StronglySorted_nth Qle l Hs j (length vs - 1)%nat); eauto. lia.
Qed.

Lemma ascQ_fst (sq : list (Q * Q)) :
  StronglySorted ascQ sq -> StronglySorted Qle (map fst sq).
Proof.
  induction 1 as [|x l Hs IH Hall]; simpl; constructor; [exact IH|].
  apply Forall_map. exact Hall.
Qed.

Lemma ascending_lift (sq : list (Q * Q)) :
  StronglySorted ascQ sq -> Sorted ascending (map liftP sq).
Proof.
  intros Hs. apply StronglySorted_Sorted.
  induction Hs as [|x l Hs IH Hall]; simpl; constructor; [exact IH|].
  apply Forall_map. eapply Forall_impl; [exact Hall|].
  intros y Hy. unfold ascending. simpl. now apply Qle_bool_iff.
Qed.

Lemma map_fst_lift (sq : list (Q * Q)) : map fst (map liftP sq) = map FNum (map fst sq).
Proof. rewrite !map_map. reflexivity. Qed.

Lemma map_snd_lift (sq : list (Q * Q)) : map snd (map liftP sq) = map FNum (map snd sq).
Proof. rewrite !map_map. reflexivity. Qed.

Lemma map_fst_combine {A B : Type} (l : list A) (l' : list B) :
  length l = length l' -> map fst (combine l l') = l.
Proof.
  revert l'. induction l as [|a l IH]; intros [|b l'] H; simpl in *; try congruence.
  f_equal. apply IH. lia.
Qed.

Lemma map_snd_combine {A B : Type} (l : list A) (l' : list B) :
  length l = length l' -> map snd (combine l l') = l'.
Proof.
  revert l'. induction l as [|a l IH]; intros [|b l'] H; simpl in *; try congruence.
  f_equal. apply IH. lia.
Qed.

(** *** Whole weights *)

Lemma whole_pos (w : Q) : whole w -> 0 < w.
Proof.
  intros (k & Hk & ->). change 0 with (inject_Z 0). now apply inject_Z_lt.
Qed.

Lemma sumQ_whole (ws : list Q) :
  Forall whole ws -> exists S : Z, (0 <= S)%Z /\ sumQ ws == inject_Z S.
Proof.
  induction 1 as [|w ws (k & Hk & Hw) _ (S & HS & IH)].
  - exists 0%Z. split; [lia|reflexivity].
  - exists (k + S)%Z. split; [lia|]. simpl. rewrite Hw, IH, inject_Z_plus. reflexivity.
Qed.

Lemma exact_whole (a : Q) (A : Z) :
  a == inject_Z A -> (0 <= A < 2 ^ 53)%Z -> exact a = true.
Proof.
  intros Ha HA. rewrite (exact_Qeq a (inject_Z A * 2 ^ 0)).
  - apply exact_dyadic; lia.
  - rewrite Ha, Qpower_0_r, Qmult_1_r. reflexivity.
Qed.

Lemma exactSums_whole (ws : list Q) :
  forall (acc : Q) (A : Z),
    (0 <= A)%Z -> acc == inject_Z A -> Forall whole ws ->
    acc + sumQ ws < inject_Z (2 ^ 53) -> exactSums acc ws = true.
Proof.
  induction ws as [|w ws IH]; intros acc A HA Hacc Hws Hb; [reflexivity|].
  apply Forall_cons_iff in Hws as [(k & Hk & Hw) Hws].
  destruct (sumQ_whole ws Hws) as (S & HS & HsumS).
  assert (Hsum : acc + w == inject_Z (A + k)).
  { rewrite Hacc, Hw, inject_Z_plus. reflexivity. }
  assert (Hlt : (A + k + S < 2 ^ 53)%Z).
  { rewrite Zlt_Qlt. rewrite !inject_Z_plus, <- Hacc, <- Hw, <- HsumS.
    simpl in Hb. rewrite <- Qplus_assoc. exact Hb. }
  cbn [exactSums]. apply andb_true_intro. split.
  - apply (exact_whole _ (A + k)%Z Hsum). lia.
  - apply (IH _ (A + k)%Z); [lia|exact Hsum|exact Hws|].
    simpl in Hb. rewrite <- Qplus_assoc. exact Hb.
Qed.

(** Whole weights of a total up to [2^51] are added and scaled without
    rounding. *)
Lemma exactRun_whole (vs ws : list Q) :
  length vs = length ws -> Forall whole ws -> sumQ ws <= inject_Z (2 ^ 51) ->
  exactRun vs ws = true.
Proof.
  intros Hl Hws Hb.
  destruct (sumQ_whole ws Hws) as (S & HS & HsumS).
  assert (HS51 : (S <= 2 ^ 51)%Z) by (rewrite Zle_Qle; now rewrite <- HsumS).
  destruct (sortQ_spec (combine vs ws)) as [_ Hperm].
  assert (Hp : Permutation (map snd (sortQ (combine vs ws))) ws).
  { rewrite <- (map_snd_combine vs ws Hl) at 2. now apply Permutation_map. }
  unfold exactRun. repeat (apply andb_true_intro; split).
  - apply (exactSums_whole ws 0 0%Z); [lia|reflexivity|exact Hws|].
    rewrite Qplus_0_l, HsumS. apply inject_Z_lt. lia.
  - apply (exactSums_whole _ 0 0%Z); [lia|reflexivity| |].
    + eapply Permutation_Forall; [symmetry; exact Hp|exact Hws].
    + rewrite Qplus_0_l, (sumQ_perm _ _ Hp), HsumS. apply inject_Z_lt. lia.
  - rewrite (exact_Qeq _ (inject_Z S * 2 ^ (-2))).
    + apply exact_dyadic; lia.
    + rewrite HsumS. reflexivity.
  - rewrite (exact_Qeq _ (inject_Z S * 2 ^ (-1))).
    + apply exact_dyadic; lia.
    + rewrite HsumS. reflexivity.
  - rewrite (exact_Qeq _ (inject_Z (3 * S) * 2 ^ (-2))).
    + apply exact_dyadic; lia.
    + rewrite HsumS, inject_Z_mult. change (2 ^ (-2)) with (1 # 4).
      change (inject_Z 3) with 3. unfold Qeq; simpl; lia.
Qed.

(** The quantile the exact loop computes on the sorted observations [sq] is
    the one of the specification. *)
Lemma loop_quantile (q N t : Q) (obs sq : list (Q * Q)) (old : float64) :
  Permutation sq obs -> sq = sortQ obs ->
  Forall (fun p => 0 < snd p) sq ->
  0 < q -> q <= 1 -> 0 < N -> N == sumQ (map snd obs) -> t == N * q ->
  exists v, quantile q obs = Some v /\ pickQ t sq 0 old = FNum v.
Proof.
  intros Hperm Hsq Hpos Hq0 Hq1 Hn Hsum Ht.
  assert (Hsum' : N == sumQ (map snd sq)).
  { rewrite Hsum. apply sumQ_perm, Permutation_map. now symmetry. }
  assert (Ht0 : 0 < t).
  { rewrite Ht, <- (Qmult_0_l q). apply Qmult_lt_compat_r; assumption. }
  destruct (firstReaching_total t sq 0 Ht0) as [v Hv].
  { rewrite Qplus_0_l, <- Hsum', Ht. rewrite <- (Qmult_1_r N) at 2.
    rewrite !(Qmult_comm N). apply Qmult_le_compat_r; [exact Hq1|now apply Qlt_le_weak]. }
  exists v. split.
  - unfold quantile. rewrite <- Hsq, <- Hv.
    apply firstReaching_Qeq; [|reflexivity]. rewrite Ht, Hsum. reflexivity.
  - rewrite (pickQ_first t sq Hpos 0 old Ht0), Hv. reflexivity.
Qed.

Lemma combine_pos (vs ws : list Q) :
  Forall (fun w => 0 < w) ws -> Forall (fun p : Q * Q => 0 < snd p) (combine vs ws).
Proof.
  intros Hw. revert vs. induction Hw as [|w ws Hw _ IH]; intros [|v vs]; simpl;
    constructor; [exact Hw|apply IH].
Qed.

(** [timerStats] on a non-empty list of observations with finite values and
    strictly positive weights, in a run that does not round. *)
Lemma timerStats_observations (vs ws : list Q) :
  vs <> [] -> length vs = length ws ->
  Forall (fun w => 0 < w) ws -> exactRun vs ws = true ->
  let data := map FNum vs in
  let cnt := map FNum ws in
  let obs := combine vs ws in
  let s := sortSort (combine data cnt) in
  exists mn q1 med q3 mx N,
    timerStats data cnt
      = Ok ([FNum mn; FNum q1; FNum med; FNum q3; FNum mx; FNum N],
            map fst s, map snd s) /\
    Permutation s (combine data cnt) /\ Sorted ascending s /\
    In mn vs /\ Forall (fun x => mn <= x) vs /\
    In mx vs /\ Forall (fun x => x <= mx) vs /\
    N == sumQ ws /\
    quantile (1 # 4) obs = Some q1 /\
    quantile (1 # 2) obs = Some med /\
    quantile (3 # 4) obs = Some q3.
Proof.
  intros Hvne Hlq Hwpos Hex data cnt obs s.
  unfold exactRun in Hex.
  apply andb_prop in Hex as [Hex E75]. apply andb_prop in Hex as [Hex E50].
  apply andb_prop in Hex as [Hex E25]. apply andb_prop in Hex as [Earr Esrt].
  assert (Hwne : ws <> []) by (intros ->; destruct vs; [congruence|discriminate]).
  set (sq := sortQ obs).
  assert (Hs : s = map liftP sq).
  { unfold s, sq, data, cnt, obs. rewrite combine_lift. apply sortSort_lift. }
  destruct (sortQ_spec obs) as [Hsorted Hperm]. fold sq in Hsorted, Hperm, Esrt.
  destruct (totalWeight_exact ws 0 0 (Qeq_refl 0) Earr) as (nf & HN & Hnf).
  rewrite Qplus_0_l in Hnf.
  assert (Hnpos : 0 < nf) by (rewrite Hnf; now apply sumQ_pos).
  assert (Hsum : nf == sumQ (map snd obs)).
  { rewrite Hnf. unfold obs. now rewrite map_snd_combine. }
  assert (Hsqpos : Forall (fun p => 0 < snd p) sq).
  { eapply Permutation_Forall; [symmetry; exact Hperm|]. now apply combine_pos. }
  assert (Hthr : forall q, exact (sumQ ws * q) = true ->
            exists t, round64 (nf * q) = FNum t /\ t == nf * q).
  { intros q Hq. rewrite (exact_Qeq (sumQ ws * q) (nf * q)) in Hq by now rewrite Hnf.
    now apply exact_round. }
  destruct (Hthr _ E25) as (t1 & Hr1 & Ht1).
  destruct (Hthr _ E50) as (t2 & Hr2 & Ht2).
  destruct (Hthr _ E75) as (t3 & Hr3 & Ht3).
  destruct (loop_quantile (1 # 4) nf t1 obs sq f0 Hperm eq_refl Hsqpos) as (q1 & Hq1 & Hp1);
    [reflexivity|discriminate|exact Hnpos|exact Hsum|exact Ht1|].
  destruct (loop_quantile (1 # 2) nf t2 obs sq f0 Hperm eq_refl Hsqpos) as (med & Hq2 & Hp2);
    [reflexivity|discriminate|exact Hnpos|exact Hsum|exact Ht2|].
  destruct (loop_quantile (3 # 4) nf t3 obs sq f0 Hperm eq_refl Hsqpos) as (q3 & Hq3 & Hp3);
    [reflexivity|discriminate|exact Hnpos|exact Hsum|exact Ht3|].
  (* first and last element of the sorted values *)
  assert (Hls : length (map fst sq) = length vs).
  { rewrite length_map. rewrite (Permutation_length Hperm). unfold obs.
    rewrite length_combine. lia. }
  assert (Hvpos : (0 < length vs)%nat) by (destruct vs; [congruence|simpl; lia]).
  destruct (nth_error (map fst sq) 0) as [a|] eqn:Ha;
    [|apply nth_error_None in Ha; lia].
  destruct (nth_error (map fst sq) (length vs - 1)) as [b|] eqn:Hb;
    [|apply nth_error_None in Hb; lia].
  assert (Hpv : Permutation (map fst sq) vs).
  { rewrite <- (map_fst_combine vs ws Hlq). fold obs. now apply Permutation_map. }
  pose proof (ascQ_fst sq Hsorted) as Hsv.
  destruct (sorted_bounds (map fst sq) vs 0 a Hsv Hpv Ha) as (Hain & Hamin & _).
  destruct (sorted_bounds (map fst sq) vs (length vs - 1) b Hsv Hpv Hb) as (Hbin & _ & Hbmax).
  exists a, q1, med, q3, b, nf.
  split; [|split; [|split; [|split; [|split; [|split; [|split; [|split; [|split; [|split]]]]]]]]].
  - unfold timerStats.
    assert (Hld : len data = Z.of_nat (length vs)) by (unfold len, data; now rewrite length_map).
    assert (Hlc : len cnt = Z.of_nat (length vs))
      by (unfold len, cnt; now rewrite length_map, <- Hlq).
    rewrite Hld, Hlc.
    destruct (Z.eqb_spec (Z.of_nat (length vs)) 0); [lia|].
    rewrite Z.ltb_irrefl.
    fold s. unfold totalWeight, f0. fold cnt in HN. rewrite HN.
    rewrite Hs. rewrite statsLoop_pick.
    change q25 with (FNum (1 # 4)). change q50 with (FNum (1 # 2)).
    change q75 with (FNum (3 # 4)).
    rewrite (pickLoop_exact (1 # 4) nf t1 sq Hr1 0 0 (FNum 0) (Qeq_refl 0) Esrt).
    rewrite (pickLoop_exact (1 # 2) nf t2 sq Hr2 0 0 (FNum 0) (Qeq_refl 0) Esrt).
    rewrite (pickLoop_exact (3 # 4) nf t3 sq Hr3 0 0 (FNum 0) (Qeq_refl 0) Esrt).
    unfold f0 in Hp1, Hp2, Hp3. rewrite Hp1, Hp2, Hp3.
    rewrite map_fst_lift.
    assert (Hi0 : index (map FNum (map fst sq)) 0 = Ok (FNum a)).
    { unfold index. simpl Z.leb. cbv iota. change (Z.to_nat 0) with 0%nat.
      rewrite nth_error_map, Ha. reflexivity. }
    assert (Hil : index (map FNum (map fst sq)) (Z.of_nat (length vs) - 1) = Ok (FNum b)).
    { unfold index. destruct (Z.leb_spec 0 (Z.of_nat (length vs) - 1)); [|lia].
      replace (Z.to_nat (Z.of_nat (length vs) - 1)) with (length vs - 1)%nat by lia.
      rewrite nth_error_map, Hb. reflexivity. }
    rewrite Hi0. simpl mbind. rewrite Hil. simpl mbind.
    assert (Hskip : skipn (length data) cnt = []).
    { apply skipn_all2. unfold data, cnt. rewrite !length_map. lia. }
    rewrite Hskip, app_nil_r. reflexivity.
  - rewrite Hs. unfold data, cnt. rewrite combine_lift. now apply Permutation_map.
  - rewrite Hs. now apply ascending_lift.
  - exact Hain.
  - now apply Hamin.
  - exact Hbin.
  - now apply Hbmax.
  - exact Hnf.
  - exact Hq1.
  - exact Hq2.
  - exact Hq3.
Qed.

(** The buffers of a timer hold the samples in the order of arrival, each
    with the weight [1 / sample_rate]. *)
Lemma inject_observations (ms : list Metric) (m0 : timerMetric) :
  tickData (fold_left inject ms m0) = tickData m0 ++ map Value ms /\
  tickCnt (fold_left inject ms m0)
    = tickCnt m0 ++ map (fun x => fdiv f1 (SampleRate x)) ms.
Proof.
  revert m0. induction ms as [|x ms IH]; intros m0; simpl.
  - now rewrite !app_nil_r.
  - destruct (IH (inject m0 x)) as [-> ->]. simpl. now rewrite <- !app_assoc.
Qed.

(** Counterexample to C2 as stated.  A sample with sample rate 3 has the
    weight 1/3 rounded to binary64, [w = 6004799503160661 * 2^-54].  On the
    observations (1, w) and (2, 1) the code adds [w + 1] with rounding and
    finds [n * 0.25 = w], so that the first observation reaches the first
    quartile: [quart1 = 1].  The total weight is [w + 1], a quarter of which
    is more than [w]: by the rule the first quartile is 2.  Moreover a NaN
    among the values is not moved by the sort (the minimum 2 is then above
    the maximum 1), and a sample with sample rate [+Inf] weighs nothing and
    leaves the quartiles at zero. *)
Lemma timerStats_rounds_weights :
  let w := 6004799503160661 # 18014398509481984 in
  fdiv f1 (FNum 3) = FNum w /\
  timerStats [FNum 1; FNum 2] [FNum w; FNum 1]
    = Ok ([FNum 1; FNum 1; FNum 2; FNum 2; FNum 2;
           FNum (6004799503160661 # 4503599627370496)],
          [FNum 1; FNum 2], [FNum w; FNum 1]) /\
  quantile (1 # 4) [(1, w); (2, 1)] = Some 2 /\
  exactRun [1; 2] [w; 1] = false /\
  timerStats [FNum 2; FNaN; FNum 1] [FNum 1; FNum 1; FNum 1]
    = Ok ([FNum 2; FNum 2; FNaN; FNum 1; FNum 1; FNum 3],
          [FNum 2; FNaN; FNum 1], [FNum 1; FNum 1; FNum 1]) /\
  timerStats [FNum 250] [fdiv f1 (FInf false)]
    = Ok ([FNum 250; FNum 0; FNum 0; FNum 0; FNum 250; FNum 0],
          [FNum 250], [FNum 0]).
Proof. vm_compute. repeat split. Qed.

(** C2 (as amended).  On the empty list [timerStats] returns
    [[NaN, NaN, NaN, NaN, NaN, 0]].  For a non-empty list of observations
    with finite values and finite, strictly positive weights, in a run in
    which no [float64] operation rounds ([exactRun]: the sum of the weights
    in the order of arrival, the running weight in the order of the sorted
    values, and the products with 0.25, 0.5 and 0.75), [timerStats] returns
    [[min, quart1, median, quart3, max, N]]: [N] is the total weight, [min]
    and [max] the least and the greatest value, and each quantile [q] in
    {0.25, 0.5, 0.75} is, after sorting ascending by value, the first value
    whose cumulative weight reaches or crosses [q * N]; the two slices come
    back sorted together by value.  No operation rounds when the weights are
    whole numbers of a total up to [2^51].  One observation of value 250
    injected with sample rate 0.5 gives, at the next tick, min = quartiles =
    median = max = 250 and a count of 2. *)
Theorem timerStats_quantiles :
  (forall cnt : list float64,
     timerStats [] cnt = Ok ([FNaN; FNaN; FNaN; FNaN; FNaN; FNum 0], [], cnt)) /\
  (forall vs ws : list Q,
     vs <> [] -> length vs = length ws ->
     Forall (fun w => 0 < w) ws -> exactRun vs ws = true ->
     let data := map FNum vs in
     let cnt := map FNum ws in
     let obs := combine vs ws in
     let s := sortSort (combine data cnt) in
     exists mn q1 med q3 mx N,
       timerStats data cnt
         = Ok ([FNum mn; FNum q1; FNum med; FNum q3; FNum mx; FNum N],
               map fst s, map snd s) /\
       Permutation s (combine data cnt) /\ Sorted ascending s /\
       In mn vs /\ Forall (fun x => mn <= x) vs /\
       In mx vs /\ Forall (fun x => x <= mx) vs /\
       N == sumQ ws /\
       quantile (1 # 4) obs = Some q1 /\
       quantile (1 # 2) obs = Some med /\
       quantile (3 # 4) obs = Some q3) /\
  (forall vs ws : list Q,
     length vs = length ws -> Forall whole ws -> sumQ ws <= inject_Z (2 ^ 51) ->
     exactRun vs ws = true) /\
  tick (inject create (mkMetric "bar" Wire.Timer (FNum 250) (FNum (1 # 2))))
    = Ok ([FNum 250; FNum 250; FNum 250; FNum 250; FNum 250; FNum 2],
          mkTimer [] [FNum 250] [] [FNum 2]).
Proof.
  split; [|split; [|split]].
  - intros cnt. reflexivity.
  - exact timerStats_observations.
  - exact exactRun_whole.
  - vm_compute. reflexivity.
Qed.

(** Four observations: values 5, 1, 3, 2 with weights 1, 1, 2, 1.  The
    total weight is 5, the quartiles are 2, 3 and 3. *)
Lemma timerStats_quantiles_witness :
  let vs := [5; 1; 3; 2] in
  let ws := [1; 1; 2; 1] in
  exists mn mx N d c,
    timerStats (map FNum vs) (map FNum ws)
      = Ok ([FNum mn; FNum 2; FNum 3; FNum 3; FNum mx; FNum N], d, c) /\
    quantile (1 # 4) (combine vs ws) = Some 2 /\
    quantile (1 # 2) (combine vs ws) = Some 3 /\
    quantile (3 # 4) (combine vs ws) = Some 3 /\
    In mn vs /\ In mx vs /\ N == 5.
Proof.
  intros vs ws.
  destruct timerStats_quantiles as (_ & H & Hwhole & _).
  destruct (H vs ws) as (mn & q1 & med & q3 & mx & N & Hst & _ & _ & Hmn & _ & Hmx & _ & HN & H1 & H2 & H3).
  - discriminate.
  - reflexivity.
  - repeat constructor.
  - apply Hwhole; [reflexivity| |discriminate].
    repeat constructor; [exists 1%Z|exists 1%Z|exists 2%Z|exists 1%Z];
      (split; [reflexivity|reflexivity]).
  - assert (E1 : q1 = 2) by (vm_compute in H1; congruence).
    assert (E2 : med = 3) by (vm_compute in H2; congruence).
    assert (E3 : q3 = 3) by (vm_compute in H3; congruence).
    subst q1 med q3.
    exists mn, mx, N. eexists _, _. split; [exact Hst|].
    split; [exact H1|]. split; [exact H2|]. split; [exact H3|].
    split; [exact Hmn|]. split; [exact Hmx|]. rewrite HN. reflexivity.
Defined.

End TimerFacts.

(** ** The file-system datastore *)

Module FsDsFacts.
Import GoFacts FsDs.

(** *** Encodings *)

Lemma length_le_bytes (n : nat) (z : Z) : length (le_bytes n z) = n.
Proof. revert z. induction n as [|n IH]; intros z; simpl; [|rewrite IH]; reflexivity. Qed.

Lemma len_put64 (z : Z) : len (put64 z) = 8.
Proof. unfold len, put64. now rewrite length_le_bytes. Qed.

Lemma len_encodeData (vs : list float64bits) : len (encodeData vs) = 8 * len vs.
Proof.
  unfold encodeData. induction vs as [|v vs IH]; [reflexivity|].
  change (flat_map put64 (v :: vs)) with (put64 v ++ flat_map put64 vs).
  rewrite len_app, len_put64, IH, len_cons. lia.
Qed.

Lemma len_encodeIdx (es : list (Z * Z)) : len (encodeIdx es) = 16 * len es.
Proof.
  unfold encodeIdx. induction es as [|e es IH]; [reflexivity|].
  change (flat_map ?f (e :: es)) with (f e ++ flat_map f es).
  cbv beta.
  rewrite !len_app, !len_put64, IH, len_cons. lia.
Qed.

(** *** The skip rule and the index entries *)

Lemma rem60_step (a b : Z) : Z.rem a 60 = 0 -> Z.rem b 60 = 0 -> a < b -> a + 60 <= b.
Proof.
  intros Ha Hb Hlt. apply Z.rem_divide in Ha, Hb; try lia.
  destruct Ha as [x ->], Hb as [y ->]. lia.
Qed.

Lemma last_cons_default {A : Type} (a d : A) (l : list A) : List.last (a :: l) d = List.last l a.
Proof.
  revert a d. induction l as [|b l IH]; intros a d; [reflexivity|].
  change (List.last (a :: b :: l) d) with (List.last (b :: l) d). rewrite IH.
  symmetry. apply IH.
Qed.

Lemma kept_len (lw : Z) (tl : list fsDsRecord) : len (kept lw tl) <= len tl.
Proof.
  revert lw. induction tl as [|r tl IH]; intros lw; simpl; [lia|].
  rewrite len_cons. destruct (_ && _).
  - rewrite len_cons. specialize (IH (ts r)). lia.
  - specialize (IH lw). lia.
Qed.

Lemma gaps_len (lw pos : Z) (rs : list fsDsRecord) : len (gaps lw pos rs) <= len rs.
Proof.
  revert lw pos. induction rs as [|r rs IH]; intros lw pos; simpl; [reflexivity|].
  rewrite len_app, len_cons. specialize (IH (ts r) (pos + fsDsDSize)).
  unfold fsDsDSize in *.
  destruct (ts r >? lw + 60); [rewrite len_cons, len_nil|rewrite len_nil]; lia.
Qed.

(** Every written record has a minute timestamp above its predecessor. *)
Lemma kept_increasing (lw : Z) (tl : list fsDsRecord) :
  StronglySorted Z.lt (lw :: map ts (kept lw tl)) /\
  Forall (fun r => Z.rem (ts r) 60 = 0) (kept lw tl).
Proof.
  revert lw. induction tl as [|r tl IH]; intros lw; simpl.
  - split; repeat constructor.
  - destruct (Z.eqb_spec (Z.rem (ts r) 60) 0) as [Hr|]; simpl; [|apply IH].
    destruct (Z.ltb_spec lw (ts r)) as [Hlt|]; [|apply IH].
    destruct (IH (ts r)) as [Hs Hf]. split; [|constructor; assumption].
    simpl. constructor; [exact Hs|].
    constructor; [exact Hlt|].
    apply StronglySorted_inv in Hs as [_ Hall].
    eapply Forall_impl; [exact Hall|]. simpl. intros; lia.
Qed.

Lemma gaps_aligned (lw pos : Z) (rs : list fsDsRecord) :
  Z.rem pos fsDsDSize = 0 ->
  Forall (fun r => Z.rem (ts r) 60 = 0) rs ->
  Forall (fun e => Z.rem (fst e) 60 = 0 /\ Z.rem (snd e) fsDsDSize = 0) (gaps lw pos rs).
Proof.
  intros Hp Hrs. revert lw pos Hp.
  induction Hrs as [|r rs Hr _ IH]; intros lw pos Hp; simpl; [constructor|].
  apply Forall_app. split.
  - destruct (ts r >? lw + 60); repeat constructor; assumption.
  - apply IH. unfold fsDsDSize in *.
    apply Z.rem_divide in Hp; [|lia]. apply Z.rem_divide; [lia|].
    destruct Hp as [q ->]. exists (q + 1). lia.
Qed.

(** The index entries of the written records are exactly the records that
    skip ahead; their timestamps are timestamps of written records. *)
Lemma gaps_from_records (lw pos : Z) (rs : list fsDsRecord) (e : Z * Z) :
  In e (gaps lw pos rs) -> exists r, In r rs /\ fst e = ts r.
Proof.
  revert lw pos. induction rs as [|r rs IH]; intros lw pos; simpl; [tauto|].
  intros Hin. apply in_app_or in Hin as [Hin|Hin].
  - destruct (ts r >? lw + 60); [|destruct Hin].
    destruct Hin as [<-|[]]. exists r. auto.
  - apply IH in Hin as (r' & Hr' & He). exists r'. auto.
Qed.

(** The loop of [writeTail] computes the written records and their index
    entries. *)
Lemma tailLoop_spec (tl : list fsDsRecord) :
  forall (dsz isz lw : Z) (dbuff : list float64bits) (ibuff : list (Z * Z)),
    Z.rem lw 60 = 0 -> int64_range lw ->
    Forall (fun r => int64_range (ts r)) tl ->
    MinInt64 <= dsz -> dsz + 8 * len tl <= MaxInt64 ->
    MinInt64 <= isz -> isz + 16 * len tl <= MaxInt64 ->
    tailLoop tl dsz isz lw dbuff ibuff =
    (dsz + 8 * len (kept lw tl),
     isz + 16 * len (gaps lw dsz (kept lw tl)),
     List.last (map ts (kept lw tl)) lw,
     dbuff ++ map value (kept lw tl),
     ibuff ++ gaps lw dsz (kept lw tl)).
Proof.
  induction tl as [|r tl IH]; intros dsz isz lw dbuff ibuff Hlw Hlwr Hts Hd0 Hd1 Hi0 Hi1.
  - simpl. unfold len. simpl. rewrite !app_nil_r, !Z.add_0_r. reflexivity.
  - rewrite len_cons in Hd1, Hi1. pose proof (len_nonneg tl) as Hn.
    apply Forall_cons_iff in Hts as [Hr Hts].
    simpl tailLoop. simpl kept.
    destruct (Z.eqb_spec (Z.rem (ts r) 60) 0) as [Hr60|]; simpl negb; simpl andb; cbv iota.
    2:{ apply IH; auto; lia. }
    destruct (Z.geb_spec lw (ts r)) as [Hge|Hlt].
    { destruct (Z.ltb_spec lw (ts r)); [lia|]. apply IH; auto; lia. }
    destruct (Z.ltb_spec lw (ts r)); [|lia].
    pose proof (rem60_step lw (ts r) Hlw Hr60 Hlt) as Hstep.
    unfold int64_range, MinInt64, MaxInt64, fsDsDSize, fsDsISize in *.
    unfold add64, sub64.
    rewrite (wrap64_id (lw + 60)) by (unfold int64_range, MinInt64, MaxInt64; lia).
    rewrite (wrap64_id (dsz + 8)) by (unfold int64_range, MinInt64, MaxInt64; lia).
    rewrite (wrap64_id (dsz + 8 - 8)) by (unfold int64_range, MinInt64, MaxInt64; lia).
    replace (dsz + 8 - 8) with dsz by lia.
    simpl (map ts (_ :: _)). simpl (map value (_ :: _)).
    rewrite last_cons_default. simpl gaps. unfold fsDsDSize.
    rewrite len_cons, len_app.
    destruct (Z.gtb_spec (ts r) (lw + 60)) as [Hgap|Hnext].
    + rewrite (wrap64_id (isz + 16)) by (unfold int64_range, MinInt64, MaxInt64; lia).
      rewrite IH; auto; try (unfold int64_range, MinInt64, MaxInt64; lia).
      rewrite len_cons, len_nil, <- !app_assoc. simpl app.
      replace (dsz + 8 * (1 + len (kept (ts r) tl)))
        with (dsz + 8 + 8 * len (kept (ts r) tl)) by lia.
      replace (isz + 16 * (1 + 0 + len (gaps (ts r) (dsz + 8) (kept (ts r) tl))))
        with (isz + 16 + 16 * len (gaps (ts r) (dsz + 8) (kept (ts r) tl))) by lia.
      reflexivity.
    + assert (Heq : lw + 60 = ts r) by lia. rewrite Heq.
      rewrite IH; auto; try (unfold int64_range, MinInt64, MaxInt64; lia).
      rewrite len_nil, <- !app_assoc. simpl app.
      replace (dsz + 8 * (1 + len (kept (ts r) tl)))
        with (dsz + 8 + 8 * len (kept (ts r) tl)) by lia.
      rewrite Z.add_0_l. reflexivity.
Qed.

Lemma kept_In (lw : Z) (tl : list fsDsRecord) (r : fsDsRecord) :
  In r (kept lw tl) -> In r tl /\ Z.rem (ts r) 60 = 0 /\ lw < ts r.
Proof.
  revert lw. induction tl as [|x tl IH]; intros lw; simpl; [tauto|].
  destruct (Z.eqb_spec (Z.rem (ts x) 60) 0) as [Hx|Hx]; simpl.
  2:{ intros Hin. apply IH in Hin. tauto. }
  destruct (Z.ltb_spec lw (ts x)) as [Hlt|Hge].
  2:{ intros Hin. apply IH in Hin. tauto. }
  intros [<-|Hin]; [auto|]. apply IH in Hin. intuition lia.
Qed.

Lemma last_default_or_In {A : Type} (l : list A) (d : A) :
  List.last l d = d \/ In (List.last l d) l.
Proof.
  revert d. induction l as [|a l IH]; intros d; [now left|].
  rewrite last_cons_default. right. destruct (IH a) as [->|H]; [now left|now right].
Qed.

(** *** Files *)

Lemma append_inv_head (n s t : string) : n +:+ s = n +:+ t -> s = t.
Proof. induction n as [|a n IH]; simpl; [auto|]. intros [= H]. auto. Qed.

Lemma dat_idx_distinct (n : string) : datFile n <> idxFile n.
Proof. unfold datFile, idxFile. intros H. apply append_inv_head in H. discriminate. Qed.

Lemma contents_openCreate (f g : string) (fs : files) :
  contents (openCreate f fs) g = contents fs g.
Proof.
  unfold contents, openCreate. destruct (fs !! f) eqn:Hf; [reflexivity|].
  destruct (decide (f = g)) as [<-|Hne].
  - now rewrite lookup_insert_eq, Hf.
  - now rewrite lookup_insert_ne.
Qed.

Lemma contents_insert_eq (f : string) (bs : list byte) (fs : files) :
  contents (<[f := bs]> fs) f = bs.
Proof. unfold contents. now rewrite lookup_insert_eq. Qed.

Lemma contents_insert_ne (f g : string) (bs : list byte) (fs : files) :
  f <> g -> contents (<[f := bs]> fs) g = contents fs g.
Proof. intros H. unfold contents. now rewrite lookup_insert_ne. Qed.

(** What a successful [openFiles] leaves behind. *)
Lemma openFiles_Ok (st st1 : fsDsStream) (fs fs1 : files) :
  openFiles st fs = (st1, fs1, None) ->
  name st1 = name st /\ tail st1 = tail st /\ valid st1 = true /\
  (forall g, contents fs1 g = contents fs g) /\
  (valid st = true -> st1 = st) /\
  (valid st = false ->
   dsize st1 = len (contents fs (datFile (name st))) /\
   isize st1 = len (contents fs (idxFile (name st))) /\
   Z.rem (dsize st1) fsDsDSize = 0 /\ Z.rem (isize st1) fsDsISize = 0 /\
   int64_range (lastWr st1) /\
   (isize st1 = 0 -> lastWr st1 = lastWrEmpty)).
Proof.
  unfold openFiles.
  set (fs0 := openCreate (idxFile (name st)) (openCreate (datFile (name st)) fs)).
  assert (Hc : forall g, contents fs0 g = contents fs g).
  { intros g. unfold fs0. now rewrite !contents_openCreate. }
  destruct (valid st) eqn:Hv.
  { intros [= <- <-]. repeat split; auto; discriminate. }
  rewrite !Hc.
  destruct (Z.eqb_spec (Z.rem (len (contents fs (idxFile (name st)))) fsDsISize) 0) as [Hi|];
    simpl; [|discriminate].
  destruct (Z.eqb_spec (Z.rem (len (contents fs (datFile (name st)))) fsDsDSize) 0) as [Hd|];
    simpl; [|discriminate].
  destruct (Z.eqb_spec (len (contents fs (idxFile (name st)))) 0) as [Hz|Hnz].
  { intros [= <- <-]. simpl. repeat split; auto; try discriminate.
    all: unfold lastWrEmpty, MinInt64, MaxInt64; vm_compute; discriminate. }
  destruct (readAt _ _ 16) as [d| |]; try discriminate.
  intros [= <- <-]. simpl. repeat split; auto; try discriminate.
  - apply wrap64_range.
  - apply wrap64_range.
  - intros; contradiction.
Qed.

(** A stream opened on an empty (or new) index file is consistent. *)
Lemma openFiles_empty_index (st st1 : fsDsStream) (fs fs1 : files) :
  openFiles st fs = (st1, fs1, None) -> valid st = false ->
  contents fs (idxFile (name st)) = [] ->
  consistent st1 fs1.
Proof.
  intros Hopen Hv Hidx.
  destruct (openFiles_Ok st st1 fs fs1 Hopen)
    as (Hname & _ & _ & Hc & _ & Hinv).
  destruct (Hinv Hv) as (Hd & Hi & Hd8 & Hi16 & Hr & Hlw).
  assert (Hl : lastWr st1 = lastWrEmpty) by (apply Hlw; now rewrite Hi, Hidx).
  unfold consistent. rewrite Hname, !Hc.
  split; [exact Hd|]. split; [exact Hi|]. split; [exact Hd8|]. split; [exact Hi16|].
  split; [now rewrite Hl|exact Hr].
Qed.

(** C8.  A tail write on an opened stream whose bookkeeping agrees with its
    files.  With [K] the tail records that are not skipped (a record is
    skipped when its timestamp is not a multiple of 60 or is not strictly
    greater than the last written timestamp) and [G] the index entries of the
    records of [K] that skip ahead of the expected next minute:
    - the write succeeds, appends the values of [K] to the data file and the
      entries [G] to the index file;
    - afterwards the data-file size is a multiple of 8, the index-file size
      a multiple of 16, and the stream's bookkeeping agrees with the files
      again;
    - every appended index entry has a timestamp divisible by 60 and a
      position divisible by 8;
    - the written timestamps are strictly increasing, starting above the last
      timestamp written before, and [lastWr] ends on the last of them. *)
Theorem writeTail_invariants (st st1 : fsDsStream) (fs fs1 : files) :
  openFiles st fs = (st1, fs1, None) ->
  consistent st1 fs1 ->
  Forall (fun r => int64_range (ts r)) (tail st) ->
  len (contents fs (datFile (name st))) + 8 * len (tail st) <= MaxInt64 ->
  len (contents fs (idxFile (name st))) + 16 * len (tail st) <= MaxInt64 ->
  let K := kept (lastWr st1) (tail st) in
  let G := gaps (lastWr st1) (dsize st1) K in
  exists st' fs',
    writeTail st fs = (st', fs', None) /\
    contents fs' (datFile (name st))
      = contents fs (datFile (name st)) ++ encodeData (map value K) /\
    contents fs' (idxFile (name st))
      = contents fs (idxFile (name st)) ++ encodeIdx G /\
    Z.rem (len (contents fs' (datFile (name st)))) 8 = 0 /\
    Z.rem (len (contents fs' (idxFile (name st)))) 16 = 0 /\
    consistent st' fs' /\
    (forall r, In r K -> In r (tail st) /\ Z.rem (ts r) 60 = 0 /\ lastWr st1 < ts r) /\
    Forall (fun e => Z.rem (fst e) 60 = 0 /\ Z.rem (snd e) 8 = 0) G /\
    StronglySorted Z.lt (lastWr st1 :: map ts K) /\
    lastWr st' = List.last (map ts K) (lastWr st1).
Proof.
  intros Hopen (Hds & His & Hd8 & Hi16 & Hlw60 & Hlwr) Hts Hdfit Hifit K G.
  destruct (openFiles_Ok st st1 fs fs1 Hopen) as (Hname & Htail & Hvalid & Hc & _).
  rewrite Hname, Hc in Hds, His.
  pose proof (len_nonneg (contents fs (datFile (name st)))) as Hdn.
  pose proof (len_nonneg (contents fs (idxFile (name st)))) as Hin.
  unfold writeTail. rewrite Hopen, Htail.
  rewrite (tailLoop_spec (tail st) (dsize st1) (isize st1) (lastWr st1) [] [])
    by (auto; unfold MinInt64, MaxInt64 in *; lia).
  fold K. fold G. simpl app. rewrite Hname, !Hc.
  eexists _, _. split; [reflexivity|].
  assert (HD : contents
                 (<[idxFile (name st) := contents fs (idxFile (name st)) ++ encodeIdx G]>
                    (<[datFile (name st) :=
                         contents fs (datFile (name st)) ++ encodeData (map value K)]> fs1))
                 (datFile (name st))
               = contents fs (datFile (name st)) ++ encodeData (map value K)).
  { rewrite contents_insert_ne by (intros E; symmetry in E; now apply dat_idx_distinct in E).
    apply contents_insert_eq. }
  assert (HI : contents
                 (<[idxFile (name st) := contents fs (idxFile (name st)) ++ encodeIdx G]>
                    (<[datFile (name st) :=
                         contents fs (datFile (name st)) ++ encodeData (map value K)]> fs1))
                 (idxFile (name st))
               = contents fs (idxFile (name st)) ++ encodeIdx G)
    by apply contents_insert_eq.
  assert (HlenD : len (contents fs (datFile (name st)) ++ encodeData (map value K))
                  = dsize st1 + 8 * len K).
  { rewrite len_app, len_encodeData. unfold len at 2. rewrite length_map. fold (len K). lia. }
  assert (HlenI : len (contents fs (idxFile (name st)) ++ encodeIdx G)
                  = isize st1 + 16 * len G).
  { rewrite len_app, len_encodeIdx. lia. }
  assert (Hrem8 : Z.rem (dsize st1 + 8 * len K) 8 = 0).
  { unfold fsDsDSize in Hd8. apply Z.rem_divide in Hd8; [|lia].
    apply Z.rem_divide; [lia|]. destruct Hd8 as [q Hq]. exists (q + len K). lia. }
  assert (Hrem16 : Z.rem (isize st1 + 16 * len G) 16 = 0).
  { unfold fsDsISize in Hi16. apply Z.rem_divide in Hi16; [|lia].
    apply Z.rem_divide; [lia|]. destruct Hi16 as [q Hq]. exists (q + len G). lia. }
  destruct (kept_increasing (lastWr st1) (tail st)) as [Hsorted HK60]. fold K in Hsorted, HK60.
  assert (Hlast : Z.rem (List.last (map ts K) (lastWr st1)) 60 = 0 /\
                  int64_range (List.last (map ts K) (lastWr st1))).
  { destruct (last_default_or_In (map ts K) (lastWr st1)) as [->|Hin']; [auto|].
    apply in_map_iff in Hin' as (r & <- & Hr).
    apply kept_In in Hr as (Hr & Hr60 & _). split; [exact Hr60|].
    rewrite Forall_forall in Hts. apply Hts.
    now apply list_elem_of_In. }
  rewrite HD, HI, HlenD, HlenI.
  repeat split; simpl; rewrite ?Hname, ?HD, ?HI, ?HlenD, ?HlenI; auto; try tauto.
  - apply Hlast.
  - apply Hlast.
  - match goal with H : In _ K |- _ => now apply kept_In in H end.
  - match goal with H : In _ K |- _ => now apply kept_In in H end.
  - match goal with H : In _ K |- _ => now apply kept_In in H end.
  - apply gaps_aligned; auto.
Qed.

(** A new stream with five queued records on an empty directory: the
    records at 90 (not a minute) and 240 (in the past) are skipped, the
    records at 60 and 300 open an index entry. *)
Lemma writeTail_invariants_witness :
  let st := mkStream "s" [mkRec 60 7; mkRec 120 8; mkRec 90 1; mkRec 300 9; mkRec 240 2]
                     false 0 0 0 in
  exists st' fs',
    writeTail st ∅ = (st', fs', None) /\
    contents fs' "s.dat" = encodeData [7; 8; 9] /\
    contents fs' "s.idx" = encodeIdx [(60, 0); (300, 16)] /\
    Z.rem (len (contents fs' "s.dat")) 8 = 0 /\
    Z.rem (len (contents fs' "s.idx")) 16 = 0 /\
    lastWr st' = 300.
Proof.
  intros st.
  destruct (writeTail_invariants st (fst (fst (openFiles st ∅))) ∅
              (snd (fst (openFiles st ∅))))
    as (st' & fs' & HW & HD & HI & H8 & H16 & _ & _ & _ & _ & Hlast).
  - vm_compute. reflexivity.
  - vm_compute. repeat split; try reflexivity; discriminate.
  - repeat constructor; vm_compute; discriminate.
  - vm_compute. discriminate.
  - vm_compute. discriminate.
  - exists st', fs'. split; [exact HW|].
    split; [exact HD|]. split; [exact HI|]. split; [exact H8|]. split; [exact H16|].
    exact Hlast.
Defined.

(** *** [Open] and the checkpoint *)

Lemma length_put64 (z : Z) : length (put64 z) = 8%nat.
Proof. apply length_le_bytes. Qed.

Lemma take_bytes_app (bs rest : list byte) :
  take_bytes (len bs) (bs ++ rest) = Ok (bs, rest).
Proof.
  unfold take_bytes. rewrite len_app. pose proof (len_nonneg rest) as Hr.
  pose proof (len_nonneg bs) as Hb.
  destruct (Z.leb_spec (len bs) 0) as [Hz|Hz].
  - assert (bs = []) as ->.
    { destruct bs as [|x bs]; [reflexivity|].
      rewrite len_cons in Hz. pose proof (len_nonneg bs). lia. }
    reflexivity.
  - destruct (Z.leb_spec (len bs) (len bs + len rest)); [|lia].
    unfold len. rewrite Nat2Z.id, take_app_length, drop_app_length. reflexivity.
Qed.

Lemma take_bytes_put64 (z : Z) (rest : list byte) :
  take_bytes 8 (put64 z ++ rest) = Ok (put64 z, rest).
Proof. rewrite <- (len_put64 z) at 1. apply take_bytes_app. Qed.

(** [loadTails] reads: it touches neither the files nor the flags, and the
    streams it creates have an empty tail. *)
Lemma loadLoop_keeps_disk (k : nat) (ds ds' : FsDatastore) (bs : list byte)
    (r : result unit) :
  loadLoop k ds bs = (ds', r) ->
  disk ds' = disk ds /\ running ds' = running ds /\ isDir ds' = isDir ds.
Proof.
  revert ds bs. induction k as [|k IH]; intros ds bs; simpl.
  - intros [= <- _]. auto.
  - destruct (_ ≫= _) as [[nm bs']|e|].
    + intros H. apply IH in H. simpl in H. exact H.
    + intros [= <- _]. auto.
    + intros [= <- _]. auto.
Qed.







(** *** [Query] *)

(** [Query] returns no record, whatever the stream holds. *)
Lemma Query_returns_no_records (ds : FsDatastore) (n : string) (from until : Z) :
  snd (Query ds n from until) = Ok [] \/ snd (Query ds n from until) = Panic.
Proof.
  unfold Query. destruct (makeSnapshot ds n) as [ds1 [s|e|]]; simpl; auto.
Qed.

(** C1 at a failing input.  After [Open], [Insert("s", {60, 7})] and a
    writer pass, the record is in the data file under the index entry
    [(60, 0)], yet [Query("s", 60, 61)] and [Query("s", 0, 120)] return the
    empty slice; so does [Query] while the record is still in the tail. *)
Theorem Query_after_insert_is_empty :
  let ds1 := fst (Open NewFsDatastore) in
  let ds2 := fst (Insert ds1 "s" (mkRecord 60 7)) in
  let ds3 := drain 10 ds2 (-1) in
  contents (disk ds3) "s.dat" = put64 7 /\
  contents (disk ds3) "s.idx" = put64 60 ++ put64 0 /\
  snd (Query ds3 "s" 60 61) = Ok [] /\
  snd (Query ds3 "s" 0 120) = Ok [] /\
  snd (Query ds2 "s" 0 120) = Ok [].
Proof. vm_compute. repeat split. Qed.

(** *** [LatestBefore] *)

(** The scan of the tail returns the position of the last writable tail
    record at or below [t0]. *)
Lemma findTailLoop_spec (tl : list fsDsRecord) :
  forall (t0 lw k i : Z),
    (findTailLoop tl t0 lw k i = k /\
     forall r, In r (kept lw tl) -> t0 < ts r) \/
    (exists (j : nat) (r : fsDsRecord),
       findTailLoop tl t0 lw k i = i + Z.of_nat j /\
       nth_error tl j = Some r /\ In r (kept lw tl) /\ ts r <= t0 /\
       forall r', In r' (kept lw tl) -> ts r' <= t0 -> ts r' <= ts r).
Proof.
  induction tl as [|x tl IH]; intros t0 lw k i; simpl.
  - left. split; [reflexivity|tauto].
  - destruct (Z.eqb_spec (Z.rem (ts x) 60) 0) as [Hx|Hx]; simpl.
    2:{ destruct (IH t0 lw k (i + 1)) as [H|(j & r & Hf & Hn & Hin & Hle & Hmax)];
          [left; exact H|right].
        exists (S j), r. rewrite Hf. repeat split; auto. lia. }
    destruct (Z.geb_spec lw (ts x)) as [Hge|Hlt].
    { destruct (Z.ltb_spec lw (ts x)); [lia|].
      destruct (IH t0 lw k (i + 1)) as [H'|(j & r & Hf & Hn & Hin & Hle & Hmax)];
        [left; exact H'|right].
      exists (S j), r. rewrite Hf. repeat split; auto. lia. }
    destruct (Z.ltb_spec lw (ts x)); [|lia].
    destruct (Z.leb_spec (ts x) t0) as [Hle0|Hgt0].
    + right.
      destruct (IH t0 (ts x) i (i + 1)) as [[Hf Hall]|(j & r & Hf & Hn & Hin & Hle & Hmax)].
      * exists 0%nat, x. rewrite Hf. repeat split; simpl; auto; try lia.
        intros r' [<-|Hr'] Hr't; [lia|]. apply Hall in Hr'. lia.
      * exists (S j), r. rewrite Hf. repeat split; simpl; auto; try lia.
        intros r' [<-|Hr'] Hr't; [|auto].
        apply kept_In in Hin. lia.
    + left. split; [reflexivity|].
      intros r [<-|Hr]; [lia|]. apply kept_In in Hr. lia.
Qed.

(** C3 at a failing input.  With the records [(60, 7)], [(120, 8)] and
    [(180, 9)] of stream ["s"] written to disk (one index entry [(60, 0)]),
    [LatestBefore("s", 119)] returns [(180, 9)]: a timestamp above the bound
    [60], although the stream holds [(60, 7)].  The same records still in
    the tail give the right answer [(60, 7)]. *)
Theorem LatestBefore_disk_overshoots :
  let ds1 := fst (Open NewFsDatastore) in
  let ds2 := fst (Insert ds1 "s" (mkRecord 60 7)) in
  let ds3 := fst (Insert ds2 "s" (mkRecord 120 8)) in
  let ds4 := fst (Insert ds3 "s" (mkRecord 180 9)) in
  let ds5 := drain 10 ds4 (-1) in
  contents (disk ds5) "s.dat" = encodeData [7; 8; 9] /\
  contents (disk ds5) "s.idx" = encodeIdx [(60, 0)] /\
  sub64 119 (Z.rem 119 60) = 60 /\
  snd (LatestBefore ds5 "s" 119) = Ok (mkRecord 180 9) /\
  snd (LatestBefore ds5 "s" 60) = Ok (mkRecord 180 9) /\
  snd (LatestBefore ds4 "s" 119) = Ok (mkRecord 60 7).
Proof. vm_compute. repeat split. Qed.

End FsDsFacts.

(** ** The server read API *)

Module SrvFacts.
Import GoFacts Srv.

(** *** State-passing inversion *)

Lemma M_bind_Ok {S A B : Type} (m : M S A) (k : A -> M S B) (s s' : S) (b : B) :
  (m ≫= k) s = (s', Ok b) ->
  exists a s1, m s = (s1, Ok a) /\ k a s1 = (s', Ok b).
Proof.
  unfold mbind, M_bind. destruct (m s) as [s1 [a|e|]]; try discriminate. eauto.
Qed.

Lemma M_bind_run {S A B : Type} (m : M S A) (k : A -> M S B) (s s1 : S) (a : A) :
  m s = (s1, Ok a) -> (m ≫= k) s = k a s1.
Proof. unfold mbind, M_bind. now intros ->. Qed.

Lemma lift_Ok {S A : Type} (r : result A) (s s' : S) (a : A) :
  lift r s = (s', Ok a) -> r = Ok a /\ s' = s.
Proof. unfold lift. now intros [= -> ->]. Qed.

(** *** Alignment of the initial timestamp of a watcher *)

(** The values for which the [int64] arithmetic of [watchTs] is exact. *)
Definition smallInt (z : Z) : Prop := - 2 ^ 61 <= z <= 2 ^ 61.

Lemma rem_mod_same (x g : Z) : 0 < g -> (Z.rem x g + g) mod g = x mod g.
Proof.
  intros Hg. pose proof (Z.quot_rem' x g) as E.
  assert (H : Z.rem x g + g = x + (1 - Z.quot x g) * g).
  { rewrite E at 2. ring. }
  rewrite H. apply Z_mod_plus_full.
Qed.

Lemma watchTs_exact (lt offs gran : Z) :
  smallInt lt -> smallInt offs -> 1 <= gran -> smallInt gran ->
  watchTs lt offs gran = lt - (lt - offs) mod gran.
Proof.
  unfold smallInt, watchTs, sub64, add64. intros Hl Ho Hg Hg'.
  rewrite (wrap64_id (lt - offs)) by (unfold int64_range, MinInt64, MaxInt64; lia).
  pose proof (Z.rem_bound_abs (lt - offs) gran ltac:(lia)) as Hr.
  assert (Hb : - gran < Z.rem (lt - offs) gran < gran) by lia.
  rewrite (wrap64_id (Z.rem (lt - offs) gran + gran))
    by (unfold int64_range, MinInt64, MaxInt64; lia).
  rewrite Z.rem_mod_nonneg by lia.
  rewrite rem_mod_same by lia.
  pose proof (Z.mod_pos_bound (lt - offs) gran ltac:(lia)).
  apply wrap64_id. unfold int64_range, MinInt64, MaxInt64. lia.
Qed.

Lemma watchTs_aligned (lt offs gran : Z) :
  smallInt lt -> smallInt offs -> 1 <= gran -> smallInt gran ->
  let Ts := watchTs lt offs gran in
  Ts <= lt /\ Z.rem (Ts - offs) gran = 0 /\
  forall t, t <= lt -> Z.rem (t - offs) gran = 0 -> t <= Ts.
Proof.
  intros Hl Ho Hg Hg' Ts. unfold Ts. rewrite watchTs_exact by assumption.
  pose proof (Z.mod_pos_bound (lt - offs) gran ltac:(lia)) as Hm.
  pose proof (Z.div_mod (lt - offs) gran ltac:(lia)) as Hd.
  split; [lia|split].
  - replace (lt - (lt - offs) mod gran - offs) with ((lt - offs) / gran * gran) by lia.
    apply Z.rem_mul. lia.
  - intros t Ht Hrem.
    apply Z.rem_divide in Hrem; [|lia]. destruct Hrem as [q Hq].
    assert (q <= (lt - offs) / gran).
    { apply Z.div_le_lower_bound; lia. }
    nia.
Qed.

Section WithServer.

Context {D : Type} `{DS : Datastore D} `{K : Kinds}.

(** What a successful [Watch] went through. *)
Lemma Watch_Ok (n : string) (chs : list string) (offs gran : Z)
    (srv srv' : Server D) (w : Watcher) :
  Watch n chs offs gran srv = (srv', Ok w) ->
  Z.rem offs 60 = 0 /\ 1 <= gran /\ Z.rem gran 60 = 0 /\
  exists t me srv1,
    metricTypeByChannels chs = Ok t /\
    getMetricEntry t n srv = (srv1, Ok me) /\
    w_Ts w = watchTs (lastTick me) offs gran /\
    w_offs w = offs /\ w_gran w = gran.
Proof.
  unfold Watch.
  destruct (Z.eqb_spec (Z.rem offs 60) 0) as [Ho|]; simpl; [|discriminate].
  destruct (Z.ltb_spec gran 1) as [|Hg1]; [discriminate|].
  destruct (Z.eqb_spec (Z.rem gran 60) 0) as [Hg|]; simpl; [|discriminate].
  intros H. repeat (split; [assumption|]).
  apply M_bind_Ok in H as (t & s0 & Ht & H). apply lift_Ok in Ht as [Ht ->].
  apply M_bind_Ok in H as (me & srv1 & Hme & H).
  apply M_bind_Ok in H as ([aggr1 ins] & s2 & Hinit & H).
  destruct (feedAggregator aggr1 ins _ gran) as [aggr2 ins2].
  apply M_bind_Ok in H as (u & s3 & Hmod & H).
  injection H as _ <-. simpl.
  exists t, me, srv1. auto.
Qed.

(** C5.  A successful [Watch(name, channels, offs, gran)] has [offs] a
    multiple of 60 and [gran] a positive multiple of 60, and its watcher
    starts at [Ts = last_tick - (((last_tick - offs) % gran + gran) % gran)],
    [last_tick] being the entry's.  For timestamps on which the [int64]
    arithmetic is exact, [Ts] is the greatest [t <= last_tick] with
    [(t - offs) % gran == 0], also when [last_tick] is below [offs]. *)
Theorem Watch_initial_Ts (n : string) (chs : list string) (offs gran : Z)
    (srv srv' : Server D) (w : Watcher) :
  Watch n chs offs gran srv = (srv', Ok w) ->
  exists t me srv1,
    metricTypeByChannels chs = Ok t /\
    getMetricEntry t n srv = (srv1, Ok me) /\
    Z.rem offs 60 = 0 /\ 1 <= gran /\ Z.rem gran 60 = 0 /\
    w_Ts w = sub64 (lastTick me)
               (Z.rem (add64 (Z.rem (sub64 (lastTick me) offs) gran) gran) gran) /\
    (smallInt (lastTick me) -> smallInt offs -> smallInt gran ->
     w_Ts w <= lastTick me /\
     Z.rem (w_Ts w - offs) gran = 0 /\
     forall t', t' <= lastTick me -> Z.rem (t' - offs) gran = 0 -> t' <= w_Ts w).
Proof.
  intros H. apply Watch_Ok in H as (Ho & Hg & Hg60 & t & me & srv1 & Ht & Hme & HTs & _).
  exists t, me, srv1. do 5 (split; [assumption|]).
  split; [exact HTs|].
  intros Hl Hs Hgs. rewrite HTs. now apply watchTs_aligned.
Qed.

(** *** Entry lookup *)

Lemma getMetricEntry_found (t : MetricType) (n : string)
    (srv srv1 : Server D) (me0 me : metricEntry) :
  metrics srv t !! n = Some me0 ->
  getMetricEntry t n srv = (srv1, Ok me) -> srv1 = srv /\ me = me0.
Proof.
  intros Hfound. unfold getMetricEntry.
  destruct (CheckMetricName n); [discriminate|].
  intros H. apply M_bind_Ok in H as (r & s0 & Hr & H).
  injection Hr as <- <-. destruct (running srv); simpl in H; [|discriminate].
  apply M_bind_Ok in H as (ms & s0 & Hms & H). injection Hms as <- <-.
  rewrite Hfound in H. injection H as <- <-. auto.
Qed.

Lemma getMetricEntry_created (t : MetricType) (n : string)
    (srv srv1 : Server D) (me : metricEntry) :
  metrics srv t !! n = None ->
  getMetricEntry t n srv = (srv1, Ok me) ->
  exists s0 defs,
    channelDefaults t n (loop 0 (len (mt_channels t))) (srvLastTick srv) srv
      = (s0, Ok defs) /\
    srv1 = setEntry me s0 /\
    liveLog me = map (fun def => replicate (Z.to_nat LiveLogSize) def) defs /\
    livePtr me = 0 /\ lastTick me = srvLastTick srv.
Proof.
  intros Hnone. unfold getMetricEntry.
  destruct (CheckMetricName n); [discriminate|].
  intros H. apply M_bind_Ok in H as (r & s0 & Hr & H).
  injection Hr as <- <-. destruct (running srv); simpl in H; [|discriminate].
  apply M_bind_Ok in H as (ms & s0 & Hms & H). injection Hms as <- <-.
  rewrite Hnone in H.
  apply M_bind_Ok in H as (me1 & s1 & Hc & H).
  apply M_bind_Ok in H as (u & s2 & Hmod & H).
  injection Hmod as <- _. injection H as <- <-.
  unfold createMetricEntry in Hc.
  apply M_bind_Ok in Hc as (lt & s0 & Hlt & Hc). injection Hlt as <- <-.
  apply M_bind_Ok in Hc as (defs & s3 & Hd & Hc). injection Hc as <- <-.
  exists s3, defs. simpl. auto.
Qed.

(** *** Calls that touch the datastore only *)

Definition sameButDs (s s' : Server D) : Prop := s' = setDs (Ds s') s.

Lemma sameButDs_refl (s : Server D) : sameButDs s s.
Proof. destruct s. reflexivity. Qed.

Lemma sameButDs_trans (s1 s2 s3 : Server D) :
  sameButDs s1 s2 -> sameButDs s2 s3 -> sameButDs s1 s3.
Proof. unfold sameButDs. intros -> ->. reflexivity. Qed.

Lemma sameButDs_setDs (d : D) (s : Server D) : sameButDs s (setDs d s).
Proof. reflexivity. Qed.

Lemma callDs_frame {A : Type} (f : D -> D * A) (s s' : Server D) (r : result A) :
  callDs f s = (s', r) -> sameButDs s s'.
Proof. unfold callDs. destruct (f (Ds s)). intros [= <- _]. reflexivity. Qed.

Lemma getChannelDefault_frame (t : MetricType) (n : string) (i ts : Z)
    (s s' : Server D) (r : result float64) :
  getChannelDefault t n i ts s = (s', r) -> sameButDs s s'.
Proof.
  unfold getChannelDefault, mbind, M_bind, lift, gets, mret, M_ret, panic.
  destruct (index (mt_defaults t) i); try (intros [= <- _]; apply sameButDs_refl).
  destruct (index (mt_persist t) i) as [[|]| |];
    try (intros [= <- _]; apply sameButDs_refl).
  destruct (index (mt_channels t) i); try (intros [= <- _]; apply sameButDs_refl).
  destruct (callDs _ s) as [s1 [[rec|e|]|e|]] eqn:Hc;
    intros [= <- _]; exact (callDs_frame _ _ _ _ Hc).
Qed.

Lemma channelDefaults_frame (t : MetricType) (n : string) (idxs : list Z) (ts : Z)
    (s s' : Server D) (r : result (list float64)) :
  channelDefaults t n idxs ts s = (s', r) -> sameButDs s s'.
Proof.
  revert s s' r. induction idxs as [|i idxs IH]; intros s s' r; simpl.
  - intros [= <- _]. apply sameButDs_refl.
  - unfold mbind at 1, M_bind at 1.
    destruct (getChannelDefault t n i ts s) as [s1 [d|e|]] eqn:Hd;
      try (intros [= <- _]; exact (getChannelDefault_frame _ _ _ _ _ _ _ Hd)).
    unfold mbind at 1, M_bind at 1.
    destruct (channelDefaults t n idxs ts s1) as [s2 [ds|e|]] eqn:Hds;
      intros [= <- _];
      exact (sameButDs_trans _ _ _ (getChannelDefault_frame _ _ _ _ _ _ _ Hd)
               (IH _ _ _ Hds)).
Qed.

(** *** Entry lookup *)

(** What a successful [getMetricEntry] does: the entry was there, or it is
    a fresh one, registered after the datastore was asked for the
    defaults. *)
Lemma getMetricEntry_Ok (t : MetricType) (n : string) (s s' : Server D)
    (me : metricEntry) :
  getMetricEntry t n s = (s', Ok me) ->
  CheckMetricName n = None /\ running s = true /\
  ((metrics s t !! n = Some me /\ s' = s) \/
   (metrics s t !! n = None /\ typ me = t /\ name me = n /\
    exists s0 defs,
      channelDefaults t n (loop 0 (len (mt_channels t))) (srvLastTick s) s
        = (s0, Ok defs) /\
      sameButDs s s0 /\ s' = setEntry me s0 /\
      me = mkEntry (metric_init (mt_create t) defs) t n false false 0
             (map (fun def => replicate (Z.to_nat LiveLogSize) def) defs)
             0 (srvLastTick s) [])).
Proof.
  unfold getMetricEntry.
  destruct (CheckMetricName n); [discriminate|].
  intros H. apply M_bind_Ok in H as (r & s0 & Hr & H).
  injection Hr as <- <-. destruct (running s) eqn:Hrun; simpl in H; [|discriminate].
  apply M_bind_Ok in H as (ms & s0 & Hms & H). injection Hms as <- <-.
  split; [reflexivity|]. split; [reflexivity|].
  destruct (metrics s t !! n) as [me0|] eqn:Hl.
  - injection H as <- <-. left. auto.
  - right. split; [reflexivity|].
    apply M_bind_Ok in H as (me1 & s1 & Hc & H).
    apply M_bind_Ok in H as (u & s2 & Hmod & H).
    injection Hmod as <- _. injection H as <- <-.
    unfold createMetricEntry in Hc.
    apply M_bind_Ok in Hc as (lt & s0 & Hlt & Hc). injection Hlt as <- <-.
    apply M_bind_Ok in Hc as (defs & s3 & Hd & Hc). injection Hc as <- <-.
    simpl. split; [reflexivity|]. split; [reflexivity|].
    exists s3, defs. repeat split; auto.
    exact (channelDefaults_frame _ _ _ _ _ _ _ Hd).
Qed.

Lemma lookup_setEntry (me : metricEntry) (s : Server D) (t : MetricType) (n : string) :
  metrics (setEntry me s) t !! n
  = if decide (t = typ me /\ n = name me) then Some me else metrics s t !! n.
Proof.
  unfold setEntry. simpl.
  destruct (decide (t = typ me)) as [->|Ht].
  - destruct (decide (n = name me)) as [->|Hn].
    + rewrite lookup_insert_eq. destruct (decide _) as [_|[]]; auto.
    + rewrite lookup_insert_ne by congruence.
      destruct (decide _) as [[_ ?]|_]; [contradiction|reflexivity].
  - destruct (decide _) as [[? _]|_]; [contradiction|reflexivity].
Qed.

Lemma sameButDs_metrics (s s' : Server D) : sameButDs s s' -> metrics s' = metrics s.
Proof. intros ->. reflexivity. Qed.

Lemma sameButDs_fields (s s' : Server D) :
  sameButDs s s' ->
  Prefix s' = Prefix s /\ running s' = running s /\ stopping s' = stopping s /\
  srvLastTick s' = srvLastTick s.
Proof. intros ->. simpl. auto. Qed.

Lemma getMetricEntry_registered (t : MetricType) (n : string) (s s' : Server D)
    (me : metricEntry) :
  getMetricEntry t n s = (s', Ok me) ->
  metrics s' t !! n = Some me /\
  (forall t' n', (t', n') <> (t, n) -> metrics s' t' !! n' = metrics s t' !! n') /\
  running s' = true /\ stopping s' = stopping s /\ Prefix s' = Prefix s /\
  srvLastTick s' = srvLastTick s.
Proof.
  intros H. apply getMetricEntry_Ok in H as (_ & Hrun & [[Hl ->]|Hnew]).
  - auto 10.
  - destruct Hnew as (Hl & Ht & Hn & s0 & defs & _ & Hf & -> & _).
    pose proof (sameButDs_metrics _ _ Hf) as Hm.
    destruct (sameButDs_fields _ _ Hf) as (Hp & Hr & Hs & Hlt).
    split; [|split].
    + rewrite lookup_setEntry, Ht, Hn. destruct (decide _) as [_|[]]; auto.
    + intros t' n' Hne. rewrite lookup_setEntry, Ht, Hn, Hm.
      destruct (decide _) as [[-> ->]|_]; [congruence|reflexivity].
    + simpl. rewrite Hr, Hs, Hp, Hlt. auto.
Qed.

Lemma getMetricEntry_present (t : MetricType) (n : string) (s : Server D)
    (me : metricEntry) :
  CheckMetricName n = None -> running s = true -> metrics s t !! n = Some me ->
  getMetricEntry t n s = (s, Ok me).
Proof.
  intros Hn Hr Hl. unfold getMetricEntry. rewrite Hn.
  unfold mbind, M_bind, gets. rewrite Hr. simpl. rewrite Hl. reflexivity.
Qed.

(** *** [Log] *)

Lemma logRows_length (k : nat) (aggr : aggregator) (ins : list (list Rec))
    (ts gran : Z) : length (logRows k aggr ins ts gran) = k.
Proof.
  revert aggr ins ts. induction k as [|k IH]; intros aggr ins ts; simpl; [reflexivity|].
  destruct (feedAggregator aggr ins ts gran) as [aggr1 ins1]. simpl. now rewrite IH.
Qed.

Lemma clampLength_min (lt from length gran : Z) :
  clampLength lt from length gran = Z.min length (Z.quot (sub64 lt from) gran).
Proof.
  unfold clampLength. destruct (Z.gtb_spec length (Z.quot (sub64 lt from) gran)); lia.
Qed.

(** [Log] past its validation and the entry lookup. *)
Lemma Log_run (n : string) (chs : list string) (from length gran : Z)
    (srv srv1 : Server D) (t : MetricType) (me : metricEntry) :
  Z.rem from 60 = 0 -> 1 <= gran -> Z.rem gran 60 = 0 -> 0 <= length ->
  metricTypeByChannels chs = Ok t ->
  getMetricEntry t n srv = (srv1, Ok me) ->
  Log n chs from length gran srv =
  (let l := clampLength (lastTick me) from length gran in
   if l <=? 0 then (srv1, Ok [])
   else
     (initAggregator (mt_aggregator t chs) n t from (add64 from (mul64 gran l))
      ≫= fun '(aggr, ins) => mret (logRows (Z.to_nat l) aggr ins from gran)) srv1).
Proof.
  intros Hf Hg Hg60 Hl Ht Hme. unfold Log.
  rewrite Hf, Hg60. simpl.
  destruct (Z.ltb_spec gran 1); [lia|].
  destruct (Z.ltb_spec length 0); [lia|].
  rewrite Ht.
  rewrite (M_bind_run (lift (Ok t)) _ srv srv t) by reflexivity.
  rewrite (M_bind_run _ _ srv srv1 me Hme).
  cbv zeta. destruct (clampLength (lastTick me) from length gran <=? 0); reflexivity.
Qed.

(** C6 (as amended).  For a call [Log(name, channels, from, length, gran)]
    that passes validation, with [me] the metric entry the lookup returns and
    [srv1] the server after the lookup:
    - when the clamped length [min(length, (last_tick - from) / gran)] is at most
      zero, in particular when [length = 0], [Log] returns the empty matrix
      and leaves the server, datastore included, as the entry lookup left it
      (so no [Query] is issued);
    - every matrix [Log] returns has [L] rows with [L <= length] and
      [L <= max(0, (last_tick - from) / gran)];
    - the lookup of an entry that exists does not touch the server or the
      datastore. *)
Theorem Log_length_clamped (n : string) (chs : list string) (from length gran : Z)
    (srv srv1 : Server D) (t : MetricType) (me : metricEntry) :
  Z.rem from 60 = 0 -> 1 <= gran -> Z.rem gran 60 = 0 -> 0 <= length ->
  metricTypeByChannels chs = Ok t ->
  getMetricEntry t n srv = (srv1, Ok me) ->
  let maxLength := Z.quot (sub64 (lastTick me) from) gran in
  (Z.min length maxLength <= 0 ->
   Log n chs from length gran srv = (srv1, Ok [])) /\
  (forall srv' rows,
     Log n chs from length gran srv = (srv', Ok rows) ->
     len rows = Z.max 0 (Z.min length maxLength) /\
     len rows <= length /\
     len rows <= Z.max 0 maxLength /\
     (int64_range (lastTick me - from) ->
      len rows <= Z.max 0 (Z.quot (lastTick me - from) gran))) /\
  (forall me0, metrics srv t !! n = Some me0 -> srv1 = srv).
Proof.
  intros Hf Hg Hg60 Hl Ht Hme maxLength.
  pose proof (Log_run n chs from length gran srv srv1 t me Hf Hg Hg60 Hl Ht Hme) as Hrun.
  cbv zeta in Hrun. rewrite clampLength_min in Hrun. fold maxLength in Hrun.
  split; [|split].
  - intros Hle. rewrite Hrun.
    destruct (Z.leb_spec (Z.min length maxLength) 0); [reflexivity|lia].
  - intros srv' rows HLog. rewrite Hrun in HLog.
    assert (Hlen : len rows = Z.max 0 (Z.min length maxLength)).
    { destruct (Z.leb_spec (Z.min length maxLength) 0) as [Hle|Hgt].
      - injection HLog as _ <-. rewrite len_nil. lia.
      - apply M_bind_Ok in HLog as ([aggr ins] & s2 & _ & HLog).
        injection HLog as _ <-. unfold len. rewrite logRows_length. lia. }
    rewrite Hlen. repeat split; try lia.
    intros Hrange. unfold maxLength, sub64. rewrite wrap64_id by exact Hrange. lia.
  - intros me0 Hfound. now destruct (getMetricEntry_found t n srv srv1 me0 me Hfound Hme).
Qed.

(** *** [LiveLog] *)

Lemma nth_error_countFrom (lo : Z) (k i : nat) :
  (i < k)%nat -> nth_error (countFrom lo k) i = Some (lo + Z.of_nat i).
Proof.
  revert lo i. induction k as [|k IH]; intros lo i Hi; [lia|].
  destruct i as [|i]; simpl.
  - f_equal. lia.
  - rewrite IH by lia. f_equal. lia.
Qed.

Lemma length_countFrom (lo : Z) (k : nat) : length (countFrom lo k) = k.
Proof. revert lo. induction k as [|k IH]; intros lo; simpl; [|rewrite IH]; reflexivity. Qed.

Lemma In_countFrom (lo : Z) (k : nat) (x : Z) :
  In x (countFrom lo k) -> lo <= x < lo + Z.of_nat k.
Proof.
  revert lo. induction k as [|k IH]; intros lo; simpl; [tauto|].
  intros [<-|Hin]; [lia|]. apply IH in Hin. lia.
Qed.

Lemma nth_replicate (k i : nat) (d : float64) :
  (i < k)%nat -> nth i (replicate k d) f0 = d.
Proof.
  revert i. induction k as [|k IH]; intros i Hi; [lia|].
  destruct i; simpl; [reflexivity|]. apply IH. lia.
Qed.

(** The ring copy of [LiveLog] for a cursor in [0, 600]: row [k] is ring
    position [(ptr + k) mod 600]. *)
Lemma ring_copy (logs : list (list float64)) (ptr k : Z) :
  0 <= ptr <= LiveLogSize -> 0 <= k < LiveLogSize ->
  nth_error (map (liveRow logs) (loop ptr LiveLogSize)
             ++ map (liveRow logs) (loop 0 ptr)) (Z.to_nat k)
  = Some (liveRow logs ((ptr + k) mod LiveLogSize)).
Proof.
  unfold LiveLogSize, loop. intros Hp Hk.
  destruct (Z.lt_ge_cases k (600 - ptr)) as [Hlt|Hge].
  - rewrite nth_error_app1 by (rewrite length_map, length_countFrom; lia).
    rewrite nth_error_map, nth_error_countFrom by lia. simpl.
    rewrite Z2Nat.id by lia. rewrite Z.mod_small by lia. reflexivity.
  - rewrite nth_error_app2 by (rewrite length_map, length_countFrom; lia).
    rewrite length_map, length_countFrom.
    rewrite nth_error_map, nth_error_countFrom by lia. simpl.
    do 2 f_equal.
    replace (ptr + k) with ((ptr + k - 600) + 1 * 600) by lia.
    rewrite Z.mod_add by lia. rewrite Z.mod_small by lia. lia.
Qed.

Lemma ring_copy_length (logs : list (list float64)) (ptr : Z) :
  0 <= ptr <= LiveLogSize ->
  len (map (liveRow logs) (loop ptr LiveLogSize)
       ++ map (liveRow logs) (loop 0 ptr)) = LiveLogSize.
Proof.
  unfold LiveLogSize, loop, len. intros Hp.
  rewrite length_app, !length_map, !length_countFrom. lia.
Qed.

Lemma selectLogs_spec (me : metricEntry) (t : MetricType) (chs : list string)
    (logs : list (list float64)) :
  selectLogs me t chs = Ok logs ->
  Forall2 (fun c log => index (liveLog me) (getChannelIndex t c) = Ok log) chs logs.
Proof.
  revert logs. induction chs as [|c chs IH]; intros logs; simpl.
  - intros [= <-]. constructor.
  - destruct (index (liveLog me) (getChannelIndex t c)) as [log| |] eqn:Hi;
      try discriminate.
    simpl. destruct (selectLogs me t chs) as [logs'| |]; try discriminate.
    simpl. intros [= <-]. constructor; auto.
Qed.

Lemma LiveLog_run (n : string) (chs : list string) (srv srv1 : Server D)
    (t : MetricType) (me : metricEntry) :
  metricTypeByChannels chs = Ok t ->
  getMetricEntry t n srv = (srv1, Ok me) ->
  LiveLog n chs srv =
  (match selectLogs me t chs with
   | Ok logs =>
       if (livePtr me <? 0) || (livePtr me >? LiveLogSize) then (srv1, Panic)
       else (srv1, Ok (map (liveRow logs) (loop (livePtr me) LiveLogSize)
                       ++ map (liveRow logs) (loop 0 (livePtr me)),
                       sub64 (lastTick me) LiveLogSize))
   | Err e => (srv1, Err e)
   | Panic => (srv1, Panic)
   end).
Proof.
  intros Ht Hme. unfold LiveLog. rewrite Ht.
  rewrite (M_bind_run (lift (Ok t)) _ srv srv t) by reflexivity.
  rewrite (M_bind_run _ _ srv srv1 me Hme).
  unfold mbind, M_bind, lift.
  destruct (selectLogs me t chs) as [logs| |]; try reflexivity.
  destruct ((livePtr me <? 0) || (livePtr me >? LiveLogSize)); reflexivity.
Qed.

Lemma indexOf_range (n : string) (l : list string) (i : Z) :
  indexOf n l i = -1 \/ i <= indexOf n l i < i + len l.
Proof.
  revert i. induction l as [|x l IH]; intros i; simpl; [now left|].
  rewrite len_cons. pose proof (len_nonneg l).
  destruct (String.eqb x n); [right; lia|].
  destruct (IH (i + 1)) as [->|?]; [now left|right; lia].
Qed.

(** A channel set accepted by [metricTypeByChannels] is non-empty and made
    of channels of the kind it returns. *)
Lemma metricTypeByChannels_Ok (chs : list string) (t : MetricType) :
  metricTypeByChannels chs = Ok t ->
  chs <> [] /\
  Forall (fun c => 0 <= getChannelIndex t c < len (mt_channels t)) chs.
Proof.
  unfold metricTypeByChannels.
  destruct (Z.eqb_spec (len chs) 0) as [|Hne]; [discriminate|].
  destruct (unique chs); simpl negb; cbv iota; [|discriminate].
  destruct (List.find (fun t0 => forallb (hasChannel t0) chs) allTypes) as [t'|] eqn:Hfind.
  2:{ intros H. match type of H with (if ?b then _ else _) = _ => destruct b end;
      discriminate. }
  intros [= ->]. apply find_some in Hfind as [_ Hall].
  split; [intros ->; now apply Hne|].
  apply Forall_forall. intros c Hc.
  rewrite forallb_forall in Hall. apply list_elem_of_In in Hc.
  specialize (Hall c Hc). unfold hasChannel in Hall.
  unfold getChannelIndex in *.
  destruct (indexOf_range c (mt_channels t) 0) as [E|E]; [|lia].
  rewrite E in Hall. discriminate.
Qed.

Lemma selectLogs_total (me : metricEntry) (t : MetricType) (chs : list string) :
  Forall (fun c => 0 <= getChannelIndex t c < len (liveLog me)) chs ->
  exists logs, selectLogs me t chs = Ok logs.
Proof.
  induction 1 as [|c chs Hc _ [logs IH]]; simpl; [eauto|].
  destruct (index_in_range (liveLog me) (getChannelIndex t c) Hc) as [log [-> _]].
  rewrite IH. simpl. eauto.
Qed.

Lemma channelDefaults_length (t : MetricType) (n : string) (idxs : list Z) (ts : Z)
    (srv s0 : Server D) (defs : list float64) :
  channelDefaults t n idxs ts srv = (s0, Ok defs) -> length defs = length idxs.
Proof.
  revert srv s0 defs. induction idxs as [|i idxs IH]; intros srv s0 defs; simpl.
  - intros [= _ <-]. reflexivity.
  - intros H. apply M_bind_Ok in H as (d & s1 & _ & H).
    apply M_bind_Ok in H as (ds & s2 & Hds & H).
    injection H as _ <-. simpl. f_equal. eapply IH; eauto.
Qed.

(** *** Channel defaults *)

Lemma index_cons_succ {A : Type} (x : A) (l : list A) (i : Z) :
  0 <= i -> index (x :: l) (i + 1) = index l i.
Proof.
  intros Hi. unfold index.
  destruct (Z.leb_spec 0 (i + 1)); [|lia]. destruct (Z.leb_spec 0 i); [|lia].
  replace (Z.to_nat (i + 1)) with (S (Z.to_nat i)) by lia. reflexivity.
Qed.

(** A channel index that is not [-1] is the position of the name. *)
Lemma indexOf_found (c : string) (l : list string) :
  forall i0, 0 <= i0 -> indexOf c l i0 <> -1 -> index l (indexOf c l i0 - i0) = Ok c.
Proof.
  induction l as [|x l IH]; intros i0 H0 Hne; simpl in *; [congruence|].
  destruct (String.eqb x c) eqn:E.
  - apply String.eqb_eq in E. subst. rewrite Z.sub_diag. reflexivity.
  - destruct (indexOf_range c l (i0 + 1)) as [Hm|Hr]; [congruence|].
    replace (indexOf c l (i0 + 1) - i0) with ((indexOf c l (i0 + 1) - (i0 + 1)) + 1) by lia.
    rewrite index_cons_succ by lia. apply IH; [lia|exact Hne].
Qed.

Lemma Forall2_nth_error {A B : Type} (P : A -> B -> Prop) (l : list A) (k : list B) :
  Forall2 P l k ->
  forall (i : nat) (a : A) (b : B),
    nth_error l i = Some a -> nth_error k i = Some b -> P a b.
Proof.
  induction 1 as [|x y l k Hxy _ IH]; intros i a b Ha Hb.
  - destruct i; discriminate.
  - destruct i as [|i]; simpl in Ha, Hb.
    + injection Ha as <-. injection Hb as <-. exact Hxy.
    + eapply IH; eauto.
Qed.

Section Defaults.

(** A datastore whose reads at time [ts] answer [ans key] for the stream
    [key], in every state [stable] that the reads lead to. *)
Variable stable : D -> Prop.
Variable ans : string -> result Rec.
Variable ts : Z.
Hypothesis stable_read :
  forall d key, stable d ->
    stable (fst (LatestBefore d key ts)) /\ snd (LatestBefore d key ts) = ans key.

Lemma getChannelDefault_stable (t : MetricType) (n : string) (i : Z)
    (s s' : Server D) (v : float64) :
  stable (Ds s) -> getChannelDefault t n i ts s = (s', Ok v) ->
  stable (Ds s') /\ Prefix s' = Prefix s /\
  forall c, getChannelIndex t c = i -> i <> -1 ->
    defaultOf ans (Prefix s) t n c = Ok v.
Proof.
  intros Hst H. unfold getChannelDefault in H.
  apply M_bind_Ok in H as (def & s0 & Hdef & H). apply lift_Ok in Hdef as [Hdef ->].
  apply M_bind_Ok in H as (p & s0 & Hp & H). apply lift_Ok in Hp as [Hp ->].
  destruct p.
  - apply M_bind_Ok in H as (ch & s0 & Hch & H). apply lift_Ok in Hch as [Hch ->].
    apply M_bind_Ok in H as (pre & s0 & Hpre & H). injection Hpre as <- <-.
    apply M_bind_Ok in H as (r & s1 & Hr & H).
    unfold callDs in Hr.
    destruct (stable_read (Ds s) (Prefix s +:+ n +:+ ":" +:+ ch) Hst) as [Hst1 Hans].
    destruct (LatestBefore (Ds s) (Prefix s +:+ n +:+ ":" +:+ ch) ts) as [d r0].
    simpl in Hst1, Hans. injection Hr as <- <-.
    assert (Hv : match ans (Prefix s +:+ n +:+ ":" +:+ ch) with
                 | Ok rec => Ok (Go.Value rec)
                 | Err _ => Ok def
                 | Panic => Panic
                 end = Ok v /\ s' = setDs d s).
    { rewrite <- Hans. destruct r0 as [rec|e|]; try discriminate;
        injection H as <- <-; auto. }
    destruct Hv as [Hv ->]. split; [exact Hst1|]. split; [reflexivity|].
    intros c Hc Hne. unfold defaultOf. rewrite Hc, Hdef, Hp. simpl.
    assert (ch = c) as ->; [|exact Hv].
    unfold getChannelIndex in Hc.
    pose proof (indexOf_found c (mt_channels t) 0 ltac:(lia)) as Hf.
    rewrite Hc, Z.sub_0_r in Hf. specialize (Hf Hne). congruence.
  - injection H as <- <-. split; [exact Hst|]. split; [reflexivity|].
    intros c Hc _. unfold defaultOf. rewrite Hc, Hdef, Hp. reflexivity.
Qed.

Lemma channelDefaults_stable (t : MetricType) (n : string) (idxs : list Z) :
  forall (s s' : Server D) (defs : list float64),
    stable (Ds s) -> channelDefaults t n idxs ts s = (s', Ok defs) ->
    stable (Ds s') /\ Prefix s' = Prefix s /\
    Forall2 (fun i v => forall c, getChannelIndex t c = i -> i <> -1 ->
                          defaultOf ans (Prefix s) t n c = Ok v) idxs defs.
Proof.
  induction idxs as [|i idxs IH]; intros s s' defs Hst H; simpl in H.
  - injection H as <- <-. auto.
  - apply M_bind_Ok in H as (d & s1 & Hd & H).
    apply M_bind_Ok in H as (ds & s2 & Hds & H). injection H as <- <-.
    destruct (getChannelDefault_stable t n i s s1 d Hst Hd) as (Hst1 & Hp1 & Hv).
    destruct (IH s1 s2 ds Hst1 Hds) as (Hst2 & Hp2 & Hvs).
    split; [exact Hst2|]. split; [congruence|].
    constructor; [exact Hv|]. rewrite <- Hp1. exact Hvs.
Qed.

End Defaults.

(** A ring that holds one value per channel, in every slot. *)
Definition uniform (defs : list float64) : list (list float64) :=
  map (fun def => replicate (Z.to_nat LiveLogSize) def) defs.

Lemma liveRow_uniform (t : MetricType) (defs : list float64) (chs : list string)
    (logs : list (list float64)) (i : Z) :
  Forall2 (fun c log => index (uniform defs) (getChannelIndex t c) = Ok log) chs logs ->
  0 <= i < LiveLogSize ->
  Forall2 (fun c v => index defs (getChannelIndex t c) = Ok v) chs (liveRow logs i).
Proof.
  intros Hlogs Hi.
  induction Hlogs as [|c log chs' logs' Hc _ IH]; simpl; constructor; [|exact IH].
  apply index_Ok in Hc as [Hr Hc]. unfold uniform in Hc, Hr.
  rewrite nth_error_map in Hc.
  destruct (nth_error defs (Z.to_nat (getChannelIndex t c))) as [d|] eqn:Hd;
    [|discriminate].
  cbv beta iota delta [option_map] in Hc.
  assert (Hlog : log = replicate (Z.to_nat LiveLogSize) d) by congruence.
  rewrite Hlog, nth_replicate by (unfold LiveLogSize in *; lia).
  destruct (index_in_range defs (getChannelIndex t c)) as [d' [Hidx Hd']].
  { unfold len in *. rewrite length_map in Hr. lia. }
  rewrite Hidx. congruence.
Qed.

Lemma zip_insert_uniform (p : nat) (defs : list float64) :
  zip_with (fun live d => <[p := d]> live) (uniform defs) defs = uniform defs.
Proof.
  unfold uniform. induction defs as [|d defs IH]; [reflexivity|].
  cbn [map zip_with]. rewrite IH. f_equal. apply insert_replicate.
Qed.

(** A tick that writes the defaults leaves such a ring as it is. *)
Lemma updateLiveLog_uniform (me me' : metricEntry) (defs : list float64) (ts : Z) :
  liveLog me = uniform defs -> updateLiveLog me defs ts = Ok me' ->
  liveLog me' = uniform defs.
Proof.
  intros Hlive. unfold updateLiveLog. destruct (_ || _); [discriminate|].
  intros [= <-]. cbn [liveLog]. rewrite Hlive. apply zip_insert_uniform.
Qed.

(** C7.  For a valid channel set and an entry whose ring is in order (one
    ring per channel of the kind, cursor in [0, 600)), or no entry yet,
    [LiveLog(name, channels)] returns a matrix of exactly 600 rows in
    chronological order, row [k] holding
    [live_log[c][(live_ptr + k) mod 600]] for the requested channels [c],
    together with the start timestamp [last_tick - 600].  For a metric
    without an entry (never written, never read) every row holds the channel
    defaults the new entry is created with: for each requested channel the
    static default of the kind, or, for a channel that persists, the value
    of the latest record the datastore returns for it.  The entry is then
    registered: the same call again returns the same matrix.  As long as
    the ring of an entry holds the defaults in every slot, which remains so
    under ticks that write the defaults, every row holds them. *)
Theorem LiveLog_chronological (n : string) (chs : list string)
    (srv srv1 : Server D) (t : MetricType) (me : metricEntry) :
  metricTypeByChannels chs = Ok t ->
  getMetricEntry t n srv = (srv1, Ok me) ->
  metrics srv t !! n = None \/
    (len (liveLog me) = len (mt_channels t) /\ 0 <= livePtr me < 600) ->
  exists logs rows,
    LiveLog n chs srv = (srv1, Ok (rows, sub64 (lastTick me) 600)) /\
    Forall2 (fun c log => index (liveLog me) (getChannelIndex t c) = Ok log) chs logs /\
    len rows = 600 /\
    (forall k, 0 <= k < 600 ->
       nth_error rows (Z.to_nat k)
       = Some (map (fun log => nth (Z.to_nat ((livePtr me + k) mod 600)) log f0) logs)) /\
    (metrics srv t !! n = None ->
     exists s0 defs,
       channelDefaults t n (loop 0 (len (mt_channels t))) (srvLastTick srv) srv
         = (s0, Ok defs) /\
       lastTick me = srvLastTick srv /\
       forall row, In row rows ->
         Forall2 (fun c v => index defs (getChannelIndex t c) = Ok v) chs row) /\
    (metrics srv t !! n = None ->
     forall (stable : D -> Prop) (ans : string -> result Rec),
       stable (Ds srv) ->
       (forall d key, stable d ->
          stable (fst (LatestBefore d key (srvLastTick srv))) /\
          snd (LatestBefore d key (srvLastTick srv)) = ans key) ->
       forall row, In row rows ->
         Forall2 (fun c v => defaultOf ans (Prefix srv) t n c = Ok v) chs row) /\
    (forall defs, liveLog me = uniform defs ->
       (forall row, In row rows ->
          Forall2 (fun c v => index defs (getChannelIndex t c) = Ok v) chs row) /\
       (forall ts me', updateLiveLog me defs ts = Ok me' -> liveLog me' = uniform defs)) /\
    LiveLog n chs srv1 = (srv1, Ok (rows, sub64 (lastTick me) 600)).
Proof.
  intros Ht Hme Hentry.
  assert (Hring : len (liveLog me) = len (mt_channels t) /\ 0 <= livePtr me < 600).
  { destruct Hentry as [Hnone|H]; [|exact H].
    destruct (getMetricEntry_created t n srv srv1 me Hnone Hme)
      as (s0 & defs & Hdefs & _ & Hlive & Hptr & _).
    apply channelDefaults_length in Hdefs.
    rewrite Hlive, Hptr. unfold len, loop in *.
    rewrite length_map, Hdefs, length_countFrom. lia. }
  destruct Hring as [Hlen Hptr].
  destruct (metricTypeByChannels_Ok chs t Ht) as [_ Hchs].
  pose proof Hchs as Hchs0.
  rewrite <- Hlen in Hchs.
  destruct (selectLogs_total me t chs Hchs) as [logs Hsel].
  pose proof (selectLogs_spec me t chs logs Hsel) as Hlogs.
  set (rows := map (liveRow logs) (loop (livePtr me) LiveLogSize)
               ++ map (liveRow logs) (loop 0 (livePtr me))).
  assert (Hrun : forall s s', getMetricEntry t n s = (s', Ok me) ->
            LiveLog n chs s = (s', Ok (rows, sub64 (lastTick me) 600))).
  { intros s s' Hs. rewrite (LiveLog_run n chs s s' t me Ht Hs), Hsel.
    destruct (Z.ltb_spec (livePtr me) 0); [lia|].
    destruct (Z.gtb_spec (livePtr me) LiveLogSize); [unfold LiveLogSize in *; lia|].
    reflexivity. }
  assert (Hrow : forall row, In row rows ->
            exists i, 0 <= i < LiveLogSize /\ row = liveRow logs i).
  { intros row Hin. unfold rows in Hin. apply in_app_or in Hin.
    destruct Hin as [Hin|Hin]; apply in_map_iff in Hin as (i & <- & Hi);
      apply In_countFrom in Hi; exists i; (split; [|reflexivity]);
      unfold LiveLogSize in *; lia. }
  assert (Huni : forall defs, liveLog me = uniform defs ->
            forall row, In row rows ->
              Forall2 (fun c v => index defs (getChannelIndex t c) = Ok v) chs row).
  { intros defs Hlive row Hin. destruct (Hrow row Hin) as (i & Hi & ->).
    apply (liveRow_uniform t defs chs logs i); [|exact Hi].
    rewrite <- Hlive. exact Hlogs. }
  exists logs, rows.
  split; [exact (Hrun srv srv1 Hme)|].
  split; [exact Hlogs|].
  split; [apply ring_copy_length; unfold LiveLogSize; lia|].
  split.
  { intros k Hk. apply (ring_copy logs (livePtr me) k); unfold LiveLogSize in *; lia. }
  split.
  { intros Hnone.
    destruct (getMetricEntry_created t n srv srv1 me Hnone Hme)
      as (s0 & defs & Hdefs & _ & Hlive & Hp0 & Hlt).
    exists s0, defs. split; [exact Hdefs|]. split; [exact Hlt|].
    apply Huni. exact Hlive. }
  split.
  { intros Hnone stable ans Hst Hread row Hin.
    destruct (getMetricEntry_created t n srv srv1 me Hnone Hme)
      as (s0 & defs & Hdefs & _ & Hlive & _ & _).
    destruct (channelDefaults_stable stable ans (srvLastTick srv) Hread t n _ _ _ _ Hst Hdefs)
      as (_ & _ & Hall).
    pose proof (Huni defs Hlive row Hin) as Hrowdefs.
    clear -Hrowdefs Hall Hchs0.
    induction Hrowdefs as [|c v chs' row' Hv _ IH]; constructor.
    - apply Forall_cons_iff in Hchs0 as [Hc _].
      apply index_Ok in Hv as [_ Hv].
      apply (Forall2_nth_error _ _ _ Hall (Z.to_nat (getChannelIndex t c))
               (getChannelIndex t c) v); [|exact Hv| |lia].
      + unfold loop. rewrite nth_error_countFrom by lia. f_equal. lia.
      + reflexivity.
    - apply IH. now apply Forall_cons_iff in Hchs0. }
  split.
  { intros defs Hlive. split; [now apply Huni|].
    intros ts me' Hup. exact (updateLiveLog_uniform me me' defs ts Hlive Hup). }
  apply Hrun.
  pose proof (getMetricEntry_registered t n srv srv1 me Hme) as (Hl & _ & Hr & _).
  apply getMetricEntry_Ok in Hme as (Hname & _).
  now apply getMetricEntry_present.
Qed.

(** *** The ring after a tick *)

Definition ringOk (me : metricEntry) : Prop :=
  0 <= livePtr me < LiveLogSize /\
  Forall (fun live => length live = Z.to_nat LiveLogSize) (liveLog me).

Lemma zip_insert_nth (ptr : nat) (logs : list (list float64)) (data : list float64)
    (c : nat) (log : list float64) (d : float64) :
  Forall (fun live => (ptr < length live)%nat) logs ->
  nth_error (zip_with (fun live x => <[ptr := x]> live) logs data) c = Some log ->
  nth_error data c = Some d ->
  nth ptr log f0 = d.
Proof.
  intros Hlen. revert data c.
  induction Hlen as [|live logs Hl _ IH]; intros data c; [destruct c; discriminate|].
  destruct data as [|x data]; [destruct c; discriminate|].
  destruct c as [|c]; simpl.
  - intros [= <-] [= <-]. apply nth_lookup_Some. now apply list_lookup_insert_eq.
  - apply IH.
Qed.

(** After [updateLiveLog] the ring is well formed again and the sample just
    written sits at ring position [(live_ptr + 599) mod 600], which [LiveLog]
    copies into its last row. *)
Lemma updateLiveLog_newest_last (me me' : metricEntry) (data : list float64) (ts : Z) :
  ringOk me -> updateLiveLog me data ts = Ok me' ->
  ringOk me' /\ lastTick me' = ts /\
  forall (c : nat) (log : list float64) (d : float64),
    nth_error (liveLog me') c = Some log -> nth_error data c = Some d ->
    nth (Z.to_nat ((livePtr me' + 599) mod 600)) log f0 = d.
Proof.
  unfold ringOk, LiveLogSize. intros [Hp Hlogs]. unfold updateLiveLog.
  destruct (_ || _); [discriminate|]. intros [= <-]. simpl.
  unfold add64. rewrite wrap64_id by (unfold int64_range, MinInt64, MaxInt64; lia).
  unfold LiveLogSize. rewrite Z.rem_mod_nonneg by lia.
  pose proof (Z.mod_pos_bound (livePtr me + 1) 600 ltac:(lia)).
  repeat split; try lia.
  - clear Hp. revert data. induction Hlogs as [|live logs Hl _ IH]; intros data; simpl.
    + constructor.
    + destruct data; constructor; [now rewrite length_insert|apply IH].
  - intros c log d Hlog Hd.
    assert (Hq : ((livePtr me + 1) mod 600 + 599) mod 600 = livePtr me).
    { rewrite Z.add_mod_idemp_l by lia.
      replace (livePtr me + 1 + 599) with (livePtr me + 1 * 600) by lia.
      rewrite Z.mod_add by lia. apply Z.mod_small. lia. }
    rewrite Hq.
    apply (zip_insert_nth (Z.to_nat (livePtr me)) (liveLog me) data c log d);
      [|exact Hlog|exact Hd].
    eapply Forall_impl; [exact Hlogs|]. simpl. intros live ->. lia.
Qed.

End WithServer.

End SrvFacts.

(** *** The read API on the recording datastore *)

Module SrvRuns.
Import GoFacts Srv SrvFacts Inst.

#[local] Open Scope string_scope.

(** [Watch("c", ["count"], 0, 120)] at tick 1000 starts at 960. *)
Lemma Watch_initial_Ts_witness :
  let w := mkWatcher 960 [0] (Some ([0], [FNum 0])) 120 0 in
  snd (Watch "c" ["count"] 0 120 (emptyServer 1000)) = Ok w /\
  w_Ts w <= 1000 /\ Z.rem (w_Ts w - 0) 120 = 0 /\
  forall t', t' <= 1000 -> Z.rem (t' - 0) 120 = 0 -> t' <= w_Ts w.
Proof.
  intros w.
  assert (E : Watch "c" ["count"] 0 120 (emptyServer 1000)
              = (fst (Watch "c" ["count"] 0 120 (emptyServer 1000)), Ok w))
    by (vm_compute; reflexivity).
  split; [now rewrite E|].
  destruct (Watch_initial_Ts _ _ _ _ _ _ _ E)
    as (t & me & srv1 & Ht & Hme & _ & _ & _ & _ & Hal).
  assert (t = Counter) by (vm_compute in Ht; congruence). subst t.
  destruct (getMetricEntry_created Counter "c" (emptyServer 1000) srv1 me)
    as (_ & _ & _ & _ & _ & _ & Hlt); [reflexivity|exact Hme|].
  rewrite Hlt in Hal. apply Hal; unfold smallInt; simpl; lia.
Defined.

(** Counterexample to C5 as stated.  With [offs = -9223372036854775800]
    (a multiple of 60 in the [int64] range), [gran = 60] and
    [last_tick = 1000] the subtraction [last_tick - offs] wraps around and
    [Watch] starts at 976, which is not a boundary; the greatest boundary up
    to 1000 is 960. *)
Lemma Watch_initial_Ts_wraps :
  let offs := -9223372036854775800 in
  Z.rem offs 60 = 0 /\ int64_range offs /\
  (exists w, snd (Watch "c" ["count"] offs 60 (emptyServer 1000)) = Ok w /\
             w_Ts w = 976) /\
  sub64 1000 offs = -9223372036854774816 /\
  Z.rem (976 - offs) 60 <> 0 /\
  Z.rem (960 - offs) 60 = 0 /\ 960 <= 1000 /\
  forall t, t <= 1000 -> Z.rem (t - offs) 60 = 0 -> t <= 960.
Proof.
  intros offs.
  split; [reflexivity|].
  split; [unfold int64_range; vm_compute; split; discriminate|].
  split; [eexists; split; vm_compute; reflexivity|].
  split; [reflexivity|].
  split; [vm_compute; discriminate|]. split; [reflexivity|]. split; [lia|].
  intros t Ht Hrem. unfold offs in Hrem.
  apply Z.rem_divide in Hrem; [|lia]. destruct Hrem as [q Hq]. lia.
Qed.

(** Counterexample to C6 as stated: [Log("c", ["count"], 0, 0, 60)] on a
    server without an entry for ["c"] passes validation and returns the
    empty matrix, yet the datastore has been consulted: creating the entry
    looked up the latest persisted [count]. *)
Lemma Log_zero_length_consults_datastore :
  Ds (emptyServer 1000) = [] /\
  snd (Log "c" ["count"] 0 0 60 (emptyServer 1000)) = Ok [] /\
  Ds (fst (Log "c" ["count"] 0 0 60 (emptyServer 1000)))
    = [CallLatestBefore "c:count" 1000].
Proof. vm_compute. repeat split. Qed.

(** [Log] at tick 1000 from 0 with granularity 120: a request for 100 rows
    is clamped to 8, a request for 0 rows returns at once. *)
Lemma Log_length_clamped_witness :
  exists srv1 me,
    getMetricEntry Counter "c" (emptyServer 1000) = (srv1, Ok me) /\
    Log "c" ["count"] 0 0 120 (emptyServer 1000) = (srv1, Ok []) /\
    forall srv' rows,
      Log "c" ["count"] 0 100 120 (emptyServer 1000) = (srv', Ok rows) ->
      len rows = 8.
Proof.
  destruct (getMetricEntry Counter "c" (emptyServer 1000)) as [srv1 [me| |]] eqn:Hme;
    try (exfalso; vm_compute in Hme; discriminate).
  destruct (getMetricEntry_created Counter "c" (emptyServer 1000) srv1 me)
    as (_ & _ & _ & _ & _ & _ & Hlt); [reflexivity|exact Hme|].
  simpl in Hlt.
  exists srv1, me. split; [reflexivity|]. split.
  - apply (Log_length_clamped "c" ["count"] 0 0 120 (emptyServer 1000) srv1 Counter me);
      try reflexivity; try lia; exact Hme.
  - intros srv' rows HLog.
    destruct (Log_length_clamped "c" ["count"] 0 100 120 (emptyServer 1000) srv1
                Counter me) as (_ & Hrows & _);
      try reflexivity; try lia; try exact Hme.
    destruct (Hrows srv' rows HLog) as (Hlen & _).
    rewrite Hlen, Hlt. reflexivity.
Defined.

(** [LiveLog("g", ["value"])] on a gauge that has never been written: 600
    rows holding the gauge default 0, starting at [last_tick - 600].  On a
    datastore whose latest record of ["baz:value"] holds 7,
    [LiveLog("baz", ["value"])] returns 600 rows holding 7, and so does the
    same call again. *)
Lemma LiveLog_chronological_witness :
  (exists srv' rows,
     LiveLog "g" ["value"] (emptyServer 1000) = (srv', Ok (rows, 400)) /\
     len rows = 600 /\
     forall row, In row rows -> row = [f0]) /\
  (exists srv' rows,
     LiveLog "baz" ["value"] (serverOn [("baz:value", mkRecord 960 (FNum 7))] 1000)
       = (srv', Ok (rows, 400)) /\
     LiveLog "baz" ["value"] srv' = (srv', Ok (rows, 400)) /\
     forall row, In row rows -> row = [FNum 7]).
Proof.
  split.
  - destruct (getMetricEntry Gauge "g" (emptyServer 1000)) as [srv1 [me| |]] eqn:Hme;
      try (exfalso; vm_compute in Hme; discriminate).
    destruct (LiveLog_chronological "g" ["value"] (emptyServer 1000) srv1 Gauge me
                eq_refl Hme (or_introl eq_refl))
      as (logs & rows & HL & _ & Hlen & _ & Hdef & Hpin & _).
    destruct (Hdef eq_refl) as (s0 & defs & _ & Hlt & _).
    rewrite Hlt in HL.
    exists srv1, rows. split; [exact HL|]. split; [exact Hlen|].
    intros row Hin.
    pose proof (Hpin eq_refl (fun _ => True) (fun _ => Err ErrNoData) I
                  (fun d key _ => conj I eq_refl) row Hin) as Hrows.
    inversion Hrows as [|c v chs' row' Hv Hnil]; subst.
    inversion Hnil; subst. vm_compute in Hv. injection Hv as <-. reflexivity.
  - set (tbl := [("baz:value", mkRecord 960 (FNum 7))]).
    destruct (getMetricEntry Gauge "baz" (serverOn tbl 1000)) as [srv1 [me| |]] eqn:Hme;
      try (exfalso; vm_compute in Hme; discriminate).
    destruct (LiveLog_chronological "baz" ["value"] (serverOn tbl 1000) srv1 Gauge me
                eq_refl Hme (or_introl eq_refl))
      as (logs & rows & HL & _ & _ & _ & Hdef & Hpin & _ & Hagain).
    destruct (Hdef eq_refl) as (s0 & defs & _ & Hlt & _).
    rewrite Hlt in HL, Hagain.
    exists srv1, rows. split; [exact HL|]. split; [exact Hagain|].
    intros row Hin.
    assert (Hread : forall (d : list (string * Rec)) (key : string), d = tbl ->
              fst (LatestBefore d key (srvLastTick (serverOn tbl 1000))) = tbl /\
              snd (LatestBefore d key (srvLastTick (serverOn tbl 1000))) = latestIn tbl key).
    { intros d key ->. split; reflexivity. }
    pose proof (Hpin eq_refl (fun d => d = tbl) (latestIn tbl) eq_refl Hread row Hin)
      as Hrows.
    inversion Hrows as [|c v chs' row' Hv Hnil]; subst.
    inversion Hnil; subst. vm_compute in Hv. injection Hv as <-. reflexivity.
Defined.

End SrvRuns.

(** ** The wire parser: what a successful parse implies, and name errors *)

Module WireInv.
Import GoFacts WireFacts.

(** The first loop stops at the first [':']: the bytes before it are name
    bytes. *)
Lemma scanName_colon (m : list byte) (i n : Z) :
  0 <= i -> scanName m i = inr n ->
  n = -1 \/
  exists nm rest, m = nm ++ colon :: rest /\ Forall nameByte nm /\ n = i + len nm.
Proof.
  revert i. induction m as [|ch m IH]; intros i Hi; simpl.
  - intros [= <-]. now left.
  - destruct (byte_is colon ch) eqn:Hc.
    + intros [= <-]. right. apply byte_is_true in Hc as ->.
      exists [], m. rewrite len_nil. repeat split; [constructor|lia].
    + destruct (byte_is slash ch) eqn:Hs; [discriminate|].
      destruct (byte_is nul ch) eqn:Hn; [discriminate|]. simpl.
      intros H. apply IH in H as [->|(nm & rest & -> & Hnm & ->)]; [now left| |lia].
      right. exists (ch :: nm), rest. rewrite len_cons. repeat split; [|lia].
      constructor; [|exact Hnm].
      apply byte_is_false in Hc, Hs, Hn. now repeat split.
Qed.

(** The first loop fails exactly on a ['/'] or a NUL that no [':'] precedes. *)
Lemma scanName_invalid (m : list byte) (i : Z) (e : Error) :
  scanName m i = inl e <->
  e = ErrNameInvalid /\
  exists pre c rest, m = pre ++ c :: rest /\ Forall nameByte pre /\ (c = slash \/ c = nul).
Proof.
  revert i. induction m as [|ch m IH]; intros i; simpl.
  - split; [discriminate|]. intros (_ & pre & c & rest & H & _). now destruct pre.
  - destruct (byte_is colon ch) eqn:Hc.
    + split; [discriminate|]. intros (_ & pre & c & rest & H & Hpre & Hcc).
      apply byte_is_true in Hc as ->. exfalso.
      destruct pre as [|p pre]; simpl in H; injection H as <- _.
      * destruct Hcc; discriminate.
      * apply Forall_cons_iff in Hpre as [[Hp _] _]. now apply Hp.
    + destruct (byte_is slash ch) eqn:Hs; simpl.
      { apply byte_is_true in Hs as ->. split.
        - intros [= <-]. split; [reflexivity|]. exists [], slash, m. auto. 
        - intros [-> _]. reflexivity. }
      destruct (byte_is nul ch) eqn:Hn; simpl.
      { apply byte_is_true in Hn as ->. split.
        - intros [= <-]. split; [reflexivity|]. exists [], nul, m. auto.
        - intros [-> _]. reflexivity. }
      rewrite IH. apply byte_is_false in Hc, Hs, Hn. split.
      * intros (-> & pre & c & rest & -> & Hpre & Hcc). split; [reflexivity|].
        exists (ch :: pre), c, rest. split; [reflexivity|]. split; [|exact Hcc].
        constructor; [now repeat split|exact Hpre].
      * intros (-> & pre & c & rest & H & Hpre & Hcc). split; [reflexivity|].
        destruct pre as [|p pre]; simpl in H; injection H as <- ->.
        { destruct Hcc; congruence. }
        exists pre, c, rest. apply Forall_cons_iff in Hpre as [_ Hpre]. auto.
Qed.

(** The later loops stop at the first ['|']. *)
Lemma scanBar_bar (m : list byte) (i : Z) :
  0 <= i ->
  (scanBar m i = -1 /\ ~ In bar m) \/
  exists v rest, m = v ++ bar :: rest /\ ~ In bar v /\ scanBar m i = i + len v.
Proof.
  revert i. induction m as [|ch m IH]; intros i Hi; simpl.
  - left. tauto.
  - destruct (byte_is bar ch) eqn:Hb.
    + right. apply byte_is_true in Hb as ->. exists [], m.
      rewrite len_nil. repeat split; [tauto|lia].
    + apply byte_is_false in Hb.
      destruct (IH (i + 1)) as [[H1 H2]|(v & rest & -> & Hv & ->)]; [lia| |].
      * left. split; [exact H1|]. intros [?|?]; [congruence|tauto].
      * right. exists (ch :: v), rest. rewrite len_cons. repeat split; [|lia].
        intros [?|?]; [congruence|tauto].
Qed.

Lemma index_0 {A : Type} (s : list A) (a : A) :
  index s 0 = Ok a -> exists s', s = a :: s'.
Proof.
  intros H. apply index_Ok in H as [_ H]. destruct s; [discriminate|].
  simpl in H. injection H as ->. eauto.
Qed.

Lemma index_1 {A : Type} (s : list A) (a : A) :
  index s 1 = Ok a -> exists x s', s = x :: a :: s'.
Proof.
  intros H. apply index_Ok in H as [_ H].
  destruct s as [|x [|y s]]; try discriminate.
  simpl in H. injection H as ->. eauto.
Qed.

(** The [switch] accepts exactly the type letters. *)
Lemma parseType_letters (m : list byte) (n : Z) (t : MetricType) :
  parseType m n = Ok (Some t) ->
  n = len (typeLetters t) /\ exists rest, m = typeLetters t ++ rest.
Proof.
  unfold parseType.
  destruct (Z.eqb_spec n 1) as [->|_].
  - destruct (index m 0) as [c| |] eqn:Hc; try discriminate.
    apply index_0 in Hc as [rest ->]. rewrite bind_Ok.
    destruct (byte_is "c" c) eqn:H1.
    { intros [= <-]. apply byte_is_true in H1 as ->. split; [reflexivity|]. now exists rest. }
    destruct (byte_is "g" c) eqn:H2.
    { intros [= <-]. apply byte_is_true in H2 as ->. split; [reflexivity|]. now exists rest. }
    destruct (byte_is "a" c) eqn:H3; [|discriminate].
    intros [= <-]. apply byte_is_true in H3 as ->. split; [reflexivity|]. now exists rest.
  - destruct (Z.eqb_spec n 2) as [->|_]; [|discriminate].
    destruct (index m 0) as [c0| |] eqn:Hc0; try discriminate. rewrite bind_Ok.
    destruct (byte_is "m" c0) eqn:H1; [|discriminate].
    destruct (index m 1) as [c1| |] eqn:Hc1; try discriminate. rewrite bind_Ok.
    destruct (byte_is "s" c1) eqn:H2; [|discriminate].
    intros [= <-]. apply byte_is_true in H1 as ->. apply byte_is_true in H2 as ->.
    apply index_1 in Hc1 as (x & rest & ->).
    apply index_0 in Hc0 as (? & [= ->]). split; [reflexivity|]. now exists rest.
Qed.

Lemma nth_error_after {A : Type} (v l : list A) (k : Z) :
  0 <= k -> nth_error (v ++ l) (Z.to_nat (len v + k)) = nth_error l (Z.to_nat k).
Proof.
  intros Hk. unfold len. rewrite nth_error_app2 by lia. f_equal. lia.
Qed.

Lemma skipn_after {A : Type} (v l : list A) (k : Z) :
  0 <= k -> skipn (Z.to_nat (len v + k)) (v ++ l) = skipn (Z.to_nat k) l.
Proof.
  intros Hk. unfold len.
  replace (Z.to_nat (Z.of_nat (length v) + k)) with (length v + Z.to_nat k)%nat by lia.
  induction v as [|a v IH]; [reflexivity|exact IH].
Qed.

Lemma app_same_length {A : Type} (a b c d : list A) :
  a ++ b = c ++ d -> len a = len c -> a = c /\ b = d.
Proof.
  intros H Hl. unfold len in Hl. apply app_inj_1 in H; [exact H|lia].
Qed.

Section Inversion.

Variable ParseFloat : list byte -> option float64.

(** A sample-rate suffix that is accepted: ['@'] follows the bar, and the
    rest of the line parses as a float that is not [<= 0]. *)
Lemma parseRate_Ok (v rest : list byte) (b : byte) (sr : float64) :
  parseRate ParseFloat (v ++ b :: rest) (len v) = Ok sr ->
  exists RATE,
    rest = at_sign :: RATE /\ ParseFloat RATE = Some sr /\ fle sr f0 = false.
Proof.
  unfold parseRate. rewrite len_app, len_cons.
  pose proof (len_nonneg v). pose proof (len_nonneg rest).
  destruct (Z.eqb_spec (len v) (len v + (1 + len rest))); [lia|].
  destruct (Z.eqb_spec (len v) (len v + (1 + len rest) - 1)); [discriminate|].
  destruct rest as [|c RATE]; [rewrite len_nil in *; lia|].
  assert (Hc : index (v ++ b :: c :: RATE) (len v + 1) = Ok c).
  { unfold index. destruct (Z.leb_spec 0 (len v + 1)); [|lia].
    rewrite nth_error_after by lia. reflexivity. }
  rewrite Hc, bind_Ok.
  destruct (byte_is at_sign c) eqn:Hat; simpl; [|discriminate].
  apply byte_is_true in Hat as ->.
  rewrite slice_from_in_range
    by (rewrite len_app, !len_cons; pose proof (len_nonneg RATE); lia).
  rewrite bind_Ok. rewrite skipn_after by lia.
  change (Z.to_nat 2) with 2%nat. simpl skipn. rewrite ?skipn_O.
  destruct (ParseFloat RATE) as [s|] eqn:Hs; [|discriminate].
  destruct (fle s f0) eqn:Hle; [discriminate|].
  intros H1. change (Ok s = Ok sr) in H1. injection H1 as <-. eauto.
Qed.

(** X1.  What a successful [ParseMetric] implies.  The line is
    [NAME ':' VALUE '|' TYPE] followed by nothing or by ['|' '@' RATE]:
    [NAME] is non-empty and holds no [':'], ['/'] or NUL, [VALUE] is
    non-empty, holds no ['|'] and is what [strconv.ParseFloat] turned into
    the value, [TYPE] is the letters of the returned kind, and [RATE], the
    whole rest of the line, parsed as a sample rate that is not [<= 0] (a NaN
    passes that test).  Without the rate part the sample rate is 1. *)
Theorem ParseMetric_sound (m : list byte) (met : Metric) :
  ParseMetric ParseFloat m = Ok met ->
  exists NAME VALUE rest,
    m = NAME ++ colon :: VALUE ++ bar :: typeLetters (Type_ met) ++ rest /\
    NAME <> [] /\ Forall nameByte NAME /\ Name met = string_of_list_byte NAME /\
    VALUE <> [] /\ ~ In bar VALUE /\ ParseFloat VALUE = Some (Value met) /\
    ((rest = [] /\ SampleRate met = f1) \/
     exists RATE,
       rest = bar :: at_sign :: RATE /\
       ParseFloat RATE = Some (SampleRate met) /\ fle (SampleRate met) f0 = false).
Proof.
  unfold ParseMetric.
  destruct (Z.eqb_spec (len m) 0) as [|Hlen]; [discriminate|].
  destruct (scanName m 0) as [e|n] eqn:Hscan; [discriminate|].
  destruct (Z.eqb_spec n 0) as [|Hn0]; [discriminate|].
  destruct (Z.eqb_spec n (-1)) as [|Hn1]; [discriminate|].
  destruct (Z.eqb_spec n (len m - 1)) as [|Hn2]; [discriminate|].
  simpl orb. cbv iota.
  apply scanName_colon in Hscan as [?|(NAME & m1 & -> & Hname & ->)]; [contradiction| |lia].
  rewrite Z.add_0_l in *.
  pose proof (len_nonneg NAME) as HN. pose proof (len_nonneg m1) as HM1.
  rewrite len_app, len_cons in Hn2.
  rewrite slice_to_in_range, bind_Ok by (rewrite len_app, len_cons; lia).
  rewrite slice_from_in_range, bind_Ok by (rewrite len_app, len_cons; lia).
  rewrite firstn_len_app, skipn_len_app.
  destruct (scanBar_bar m1 0) as [[Hb _]|(VALUE & m2 & -> & Hvalue & Hb)]; [lia| |];
    rewrite Hb.
  { simpl. discriminate. }
  rewrite Z.add_0_l.
  pose proof (len_nonneg VALUE) as HV. pose proof (len_nonneg m2) as HM2.
  destruct (Z.eqb_spec (len VALUE) 0) as [|Hv0]; [discriminate|].
  destruct (Z.eqb_spec (len VALUE) (-1)) as [|_]; [lia|].
  rewrite len_app, len_cons.
  destruct (Z.eqb_spec (len VALUE) (len VALUE + (1 + len m2) - 1)) as [|Hv2]; [discriminate|].
  simpl orb. cbv iota.
  rewrite slice_to_in_range, bind_Ok by (rewrite len_app, len_cons; lia).
  rewrite firstn_len_app.
  destruct (ParseFloat VALUE) as [value|] eqn:Hpf; [|discriminate].
  rewrite slice_from_in_range, bind_Ok by (rewrite len_app, len_cons; lia).
  rewrite skipn_len_app. cbv zeta.
  destruct (parseType m2 _) as [[t|]| |] eqn:Hty; try discriminate.
  rewrite bind_Ok.
  destruct (parseRate ParseFloat m2 _) as [sr| |] eqn:Hsr; try discriminate.
  rewrite bind_Ok. intros [= <-]. simpl.
  apply parseType_letters in Hty as (Hn & tail & ->).
  exists NAME, VALUE, tail.
  assert (HNAME : NAME <> []) by (intros ->; now rewrite len_nil in Hn0).
  assert (HVALUE : VALUE <> []) by (intros ->; now rewrite len_nil in Hv0).
  split; [|repeat split; auto].
  - reflexivity.
  - destruct (scanBar_bar (typeLetters t ++ tail) 0) as [[Hb2 Hnb]|(v & rest & Hm2 & Hv & Hb2)];
      [lia| |]; rewrite Hb2 in Hn, Hsr.
    + simpl in Hn, Hsr. left.
      rewrite len_app in Hn.
      assert (tail = []).
      { destruct tail; [reflexivity|]. rewrite len_cons in Hn.
        pose proof (len_nonneg tail). lia. }
      subst tail. rewrite app_nil_r in *.
      unfold parseRate in Hsr. rewrite Z.eqb_refl in Hsr. injection Hsr as <-. auto.
    + rewrite Z.add_0_l in *.
      destruct (Z.eqb_spec (len v) (-1)); [pose proof (len_nonneg v); lia|].
      right.
      assert (Hsplit : typeLetters t = v /\ tail = bar :: rest).
      { apply app_same_length; [exact Hm2|lia]. }
      destruct Hsplit as [Hv' ->]. rewrite Hm2 in Hsr.
      apply parseRate_Ok in Hsr as (RATE & -> & HR & Hle). eauto.
Qed.

(** An error of [ParseMetric] is decided by the first stage that fails. *)
Lemma ParseMetric_error_stage (m : list byte) (e : Error) :
  ParseMetric ParseFloat m = Err e ->
  (e = ErrNoName /\ (m = [] \/ exists rest, m = colon :: rest)) \/
  scanName m 0 = inl e \/
  In e [ErrNoValue; ErrNoType; ErrValueInvalid; ErrTypeInvalid;
        ErrNoSampling; ErrSamplingInvalid].
Proof.
  unfold ParseMetric.
  destruct (Z.eqb_spec (len m) 0) as [Hlen|Hlen].
  { intros [= <-]. left. split; [reflexivity|]. left.
    destruct m; [reflexivity|]. rewrite len_cons in Hlen. pose proof (len_nonneg m). lia. }
  destruct (scanName m 0) as [e'|n] eqn:Hscan.
  { intros [= <-]. right. now left. }
  destruct (Z.eqb_spec n 0) as [Hn0|Hn0].
  { intros [= <-]. left. split; [reflexivity|]. right.
    apply scanName_colon in Hscan as [?|(nm & rest & -> & _ & Hn)]; [lia| |lia].
    destruct nm; [now exists rest|]. rewrite len_cons in Hn. pose proof (len_nonneg nm). lia. }
  destruct ((n =? -1) || (n =? len m - 1)).
  { intros [= <-]. right. right. simpl. tauto. }
  destruct (slice_to m n) as [name|?|] eqn:H1; try discriminate.
  { rewrite bind_Ok.
    destruct (slice_from m (n + 1)) as [m1|?|] eqn:H2; try discriminate.
    { rewrite bind_Ok. cbv zeta.
      destruct (scanBar m1 0 =? 0). { intros [= <-]. right. right. simpl. tauto. }
      destruct ((scanBar m1 0 =? -1) || (scanBar m1 0 =? len m1 - 1)).
      { intros [= <-]. right. right. simpl. tauto. }
      destruct (slice_to m1 (scanBar m1 0)) as [vs|?|] eqn:H3; try discriminate.
      { rewrite bind_Ok.
        destruct (ParseFloat vs) as [value|].
        2:{ intros [= <-]. right. right. simpl. tauto. }
        destruct (slice_from m1 (scanBar m1 0 + 1)) as [m2|?|] eqn:H4; try discriminate.
        { rewrite bind_Ok.
          set (n2 := if scanBar m2 0 =? -1 then len m2 else scanBar m2 0).
          destruct (parseType m2 n2) as [[t|]|?|] eqn:H5; try discriminate.
          - rewrite bind_Ok.
            destruct (parseRate ParseFloat m2 n2) as [sr|e'|] eqn:H6; try discriminate.
            intros [= <-]. right. right.
            unfold parseRate in H6.
            destruct (n2 =? len m2); [discriminate|].
            destruct (n2 =? len m2 - 1); [injection H6 as <-; simpl; tauto|].
            destruct (index m2 (n2 + 1)) as [c|?|] eqn:H7; try discriminate.
            { rewrite bind_Ok in H6.
              destruct (byte_is at_sign c); simpl in H6;
                [|injection H6 as <-; simpl; tauto].
              destruct (slice_from m2 (n2 + 2)) as [rs|?|] eqn:H8; try discriminate.
              - rewrite bind_Ok in H6.
                destruct (ParseFloat rs) as [x|]; [|injection H6 as <-; simpl; tauto].
                destruct (fle x f0); [injection H6 as <-; simpl; tauto|discriminate].
              - unfold slice_from in H8. destruct (_ && _); discriminate. }
            unfold index in H7. destruct (0 <=? _); [|discriminate].
            destruct (nth_error _ _); discriminate.
          - rewrite bind_Ok. intros [= <-]. right. right. simpl. tauto.
          - exfalso. unfold parseType in H5.
            destruct (n2 =? 1).
            { destruct (index m2 0) as [c|?|] eqn:H7; try discriminate.
              unfold index in H7. destruct (0 <=? _); [|discriminate].
              destruct (nth_error _ _); discriminate. }
            destruct (n2 =? 2); [|discriminate].
            destruct (index m2 0) as [c|?|] eqn:H7; try discriminate.
            { rewrite bind_Ok in H5. destruct (byte_is _ c); [|discriminate].
              destruct (index m2 1) as [c1|?|] eqn:H8; try discriminate.
              unfold index in H8. destruct (0 <=? _); [|discriminate].
              destruct (nth_error _ _); discriminate. }
            unfold index in H7. destruct (0 <=? _); [|discriminate].
            destruct (nth_error _ _); discriminate. }
        unfold slice_from in H4. destruct (_ && _); discriminate. }
      unfold slice_to in H3. destruct (_ && _); discriminate. }
    unfold slice_from in H2. destruct (_ && _); discriminate. }
  unfold slice_to in H1. destruct (_ && _); discriminate.
Qed.

(** X2.  The two name errors.  [ParseMetric] answers "Name missing" exactly
    on the empty line and on a line that starts with [':'], and "Invalid
    characters in name" exactly when a ['/'] or a NUL comes before any
    [':'], whether or not a [':'] follows; a ['/'] or NUL after the first
    [':'] is never a name error. *)
Theorem ParseMetric_name_errors (m : list byte) :
  (ParseMetric ParseFloat m = Err ErrNoName <->
   m = [] \/ exists rest, m = colon :: rest) /\
  (ParseMetric ParseFloat m = Err ErrNameInvalid <->
   exists pre c rest,
     m = pre ++ c :: rest /\ Forall nameByte pre /\ (c = slash \/ c = nul)).
Proof.
  split; split.
  - intros H. apply ParseMetric_error_stage in H as [[_ H]|[H|H]]; [exact H| |].
    + apply scanName_inl in H. discriminate.
    + simpl in H. repeat (destruct H as [H|H]; [discriminate|]). contradiction.
  - intros [->|[rest ->]]; [reflexivity|].
    unfold ParseMetric. rewrite len_cons.
    destruct (Z.eqb_spec (1 + len rest) 0); [reflexivity|]. reflexivity.
  - intros H. apply ParseMetric_error_stage in H as [[H _]|[H|H]].
    + discriminate.
    + now apply scanName_invalid in H.
    + simpl in H. repeat (destruct H as [H|H]; [discriminate|]). contradiction.
  - intros (pre & c & rest & -> & Hpre & Hc).
    assert (Hs : scanName (pre ++ c :: rest) 0 = inl ErrNameInvalid).
    { apply scanName_invalid. split; [reflexivity|]. now exists pre, c, rest. }
    unfold ParseMetric. rewrite Hs, len_app, len_cons.
    pose proof (len_nonneg pre). pose proof (len_nonneg rest).
    destruct (Z.eqb_spec (len pre + (1 + len rest)) 0); [lia|reflexivity].
Qed.

End Inversion.

(** The line ["bar:250|ms|@2"], read with the decimal stand-in for
    [strconv.ParseFloat]. *)
Lemma ParseMetric_sound_witness :
  exists NAME VALUE rest,
    list_byte_of_string "bar:250|ms|@2"
      = NAME ++ colon :: VALUE ++ bar :: typeLetters Timer ++ rest /\
    NAME <> [] /\ Forall nameByte NAME /\
    parseUint VALUE = Some (FNum 250) /\
    exists RATE, rest = bar :: at_sign :: RATE /\ parseUint RATE = Some (FNum 2).
Proof.
  destruct (ParseMetric_sound parseUint (list_byte_of_string "bar:250|ms|@2")
              (mkMetric "bar" Timer (FNum 250) (FNum 2)))
    as (NAME & VALUE & rest & H1 & H2 & H3 & _ & _ & _ & H4 & H5).
  - vm_compute. reflexivity.
  - exists NAME, VALUE, rest. simpl in H1, H4, H5.
    split; [exact H1|]. split; [exact H2|]. split; [exact H3|]. split; [exact H4|].
    destruct H5 as [[_ H5]|(RATE & H5 & H6 & _)]; [discriminate|].
    exists RATE. split; [exact H5|exact H6].
Defined.

End WireInv.

(** ** Splitting a datagram into lines *)

Module LinesFacts.
Import GoFacts WireFacts Lines.

(** The scan without positions: [cur] is the slice [msg[j+1:i]] collected
    so far. *)
Fixpoint collect (cur rest : list byte) : list (list byte) :=
  match rest with
  | [] => match cur with [] => [] | _ => [cur] end
  | ch :: rest' =>
      if negb (byte_is newline ch) || (len cur =? 0)
      then collect (cur ++ [ch]) rest'
      else cur :: collect [] rest'
  end.

Lemma slice_mid (pre cur rest : list byte) :
  slice (pre ++ cur ++ rest) (len pre) (len pre + len cur) = Ok cur.
Proof.
  unfold slice. pose proof (len_nonneg pre). pose proof (len_nonneg cur).
  pose proof (len_nonneg rest). rewrite !len_app.
  destruct (Z.leb_spec 0 (len pre)); [|lia].
  destruct (Z.leb_spec (len pre) (len pre + len cur)); [|lia].
  destruct (Z.leb_spec (len pre + len cur) (len pre + (len cur + len rest))); [|lia].
  simpl. f_equal.
  replace (Z.to_nat (len pre)) with (length pre) by (unfold len; lia).
  replace (Z.to_nat (len pre + len cur - len pre)) with (length cur) by (unfold len; lia).
  rewrite drop_app_length. apply take_app_length.
Qed.

(** The loop of [InjectBytes] never slices out of range, and hands out the
    slices that [collect] lists. *)
Lemma scan_collect (rest : list byte) :
  forall (pre cur : list byte),
    scan (pre ++ cur ++ rest) rest (len pre + len cur) (len pre - 1)
    = Ok (collect cur rest).
Proof.
  induction rest as [|ch rest IH]; intros pre cur; simpl.
  - pose proof (len_nonneg cur).
    destruct (Z.eqb_spec (len pre + len cur) (len pre - 1 + 1)) as [E|E].
    + destruct cur; [reflexivity|]. rewrite len_cons in E. pose proof (len_nonneg cur). lia.
    + replace (len pre - 1 + 1) with (len pre) by lia.
      rewrite slice_mid, bind_Ok.
      destruct cur; [rewrite len_nil in E; lia|reflexivity].
  - pose proof (len_nonneg cur).
    replace (len pre + len cur =? len pre - 1 + 1) with (len cur =? 0)
      by (destruct (Z.eqb_spec (len cur) 0), (Z.eqb_spec (len pre + len cur) (len pre - 1 + 1));
          try reflexivity; lia).
    destruct (negb (byte_is newline ch) || (len cur =? 0)) eqn:Hc.
    + replace (pre ++ cur ++ ch :: rest) with (pre ++ (cur ++ [ch]) ++ rest)
        by (rewrite <- !app_assoc; reflexivity).
      replace (len pre + len cur + 1) with (len pre + len (cur ++ [ch]))
        by (rewrite len_app, len_cons, len_nil; lia).
      apply IH.
    + replace (len pre - 1 + 1) with (len pre) by lia.
      rewrite slice_mid, bind_Ok.
      assert (E : scan (pre ++ cur ++ ch :: rest) rest (len pre + len cur + 1)
                    (len pre + len cur) = Ok (collect [] rest)).
      { pose proof (IH (pre ++ cur ++ [ch]) []) as IH'.
        assert (Hl : len (pre ++ cur ++ [ch]) = len pre + len cur + 1)
          by (rewrite !len_app, len_cons, len_nil; lia).
        rewrite Hl in IH'. change (len (@nil byte)) with 0 in IH'.
        replace ((pre ++ cur ++ [ch]) ++ [] ++ rest) with (pre ++ cur ++ ch :: rest) in IH'
          by (rewrite <- !app_assoc; reflexivity).
        replace (len pre + len cur + 1 + 0) with (len pre + len cur + 1) in IH' by lia.
        replace (len pre + len cur + 1 - 1) with (len pre + len cur) in IH' by lia.
        exact IH'. }
      rewrite E, bind_Ok. reflexivity.
Qed.

Lemma lines_collect (msg : list byte) : lines msg = Ok (collect [] msg).
Proof.
  unfold lines. apply (scan_collect msg [] []).
Qed.

(** A line: non-empty, without a newline. *)
Definition isLine (l : list byte) : Prop := l <> [] /\ ~ In newline l.

Lemma collect_line (l : list byte) :
  ~ In newline l -> forall cur rest, collect cur (l ++ rest) = collect (cur ++ l) rest.
Proof.
  induction l as [|ch l IH]; intros Hl cur rest.
  - simpl. now rewrite app_nil_r.
  - assert (Hch : byte_is newline ch = false).
    { apply byte_is_false. intros ->. apply Hl. now left. }
    change (collect cur ((ch :: l) ++ rest))
      with (if negb (byte_is newline ch) || (len cur =? 0)
            then collect (cur ++ [ch]) (l ++ rest) else cur :: collect [] (l ++ rest)).
    rewrite Hch. simpl negb. simpl orb. cbv iota.
    rewrite IH by (intros ?; apply Hl; now right).
    now rewrite <- app_assoc.
Qed.

Lemma collect_newline (cur rest : list byte) :
  cur <> [] -> collect cur (newline :: rest) = cur :: collect [] rest.
Proof.
  intros Hc.
  change (collect cur (newline :: rest))
    with (if negb (byte_is newline newline) || (len cur =? 0)
          then collect (cur ++ [newline]) rest else cur :: collect [] rest).
  assert (Hn : byte_is newline newline = true) by now apply byte_is_true.
  rewrite Hn. simpl negb. simpl orb.
  destruct (Z.eqb_spec (len cur) 0) as [E|_]; [|reflexivity].
  destruct cur; [congruence|]. rewrite len_cons in E. pose proof (len_nonneg cur). lia.
Qed.

Lemma collect_lines (ls : list (list byte)) :
  Forall isLine ls ->
  collect [] (joinLines ls) = ls /\
  (ls <> [] -> collect [] (joinLines ls ++ [newline]) = ls).
Proof.
  induction ls as [|l ls IH]; intros Hls.
  - split; [reflexivity|congruence].
  - apply Forall_cons_iff in Hls as [[Hne Hnl] Hls]. specialize (IH Hls) as [IH1 IH2].
    destruct ls as [|l2 ls].
    + simpl joinLines. split.
      * rewrite <- (app_nil_r l) at 1. rewrite collect_line by exact Hnl.
        simpl. destruct l; [congruence|reflexivity].
      * intros _. rewrite collect_line by exact Hnl. simpl app at 1.
        rewrite collect_newline by exact Hne. reflexivity.
    + change (joinLines (l :: l2 :: ls)) with (l ++ newline :: joinLines (l2 :: ls)).
      split.
      * rewrite collect_line by exact Hnl. simpl app at 1.
        rewrite collect_newline by exact Hne. now rewrite IH1.
      * intros _. rewrite <- app_assoc. rewrite collect_line by exact Hnl.
        simpl app at 1. rewrite <- app_comm_cons.
        rewrite collect_newline by exact Hne. rewrite IH2 by discriminate. reflexivity.
Qed.

(** X3.  A datagram made of lines (non-empty, newline-free) separated by
    single newlines, with or without a final newline, is cut into exactly
    these lines, in order: these are the slices [InjectBytes] hands to
    [ParseMetric]. *)
Theorem lines_of_joined (ls : list (list byte)) :
  Forall isLine ls ->
  lines (joinLines ls) = Ok ls /\
  (ls <> [] -> lines (joinLines ls ++ [newline]) = Ok ls).
Proof.
  intros Hls. destruct (collect_lines ls Hls) as [H1 H2]. split.
  - rewrite lines_collect. now rewrite H1.
  - intros Hne. rewrite lines_collect. now rewrite H2.
Qed.

(** Three metrics in one datagram, closed by a newline. *)
Lemma lines_of_joined_witness :
  lines (list_byte_of_string "a:1|c" ++ newline :: list_byte_of_string "b:2|g"
         ++ newline :: list_byte_of_string "c:3|ms" ++ [newline])
  = Ok [list_byte_of_string "a:1|c"; list_byte_of_string "b:2|g";
        list_byte_of_string "c:3|ms"].
Proof.
  assert (H : Forall isLine [list_byte_of_string "a:1|c"; list_byte_of_string "b:2|g";
                             list_byte_of_string "c:3|ms"]).
  { repeat constructor; try discriminate;
      (intros Hin; simpl in Hin; repeat (destruct Hin as [Hin|Hin]; [discriminate|]);
       exact Hin). }
  destruct (lines_of_joined _ H) as [_ H2].
  exact (H2 ltac:(discriminate)).
Defined.

Lemma collect_decompose (rest : list byte) :
  forall cur : list byte,
    ~ In newline (List.tl cur) ->
    Forall (fun s => s <> [] /\ ~ In newline (List.tl s)) (collect cur rest) /\
    (cur ++ rest = joinLines (collect cur rest) \/
     (collect cur rest <> [] /\
      cur ++ rest = joinLines (collect cur rest) ++ [newline])).
Proof.
  induction rest as [|ch rest IH]; intros cur Hcur.
  - simpl. destruct cur as [|c cur].
    + split; [constructor|]. now left.
    + split; [repeat constructor; [discriminate|exact Hcur]|].
      left. now rewrite app_nil_r.
  - simpl collect.
    destruct (negb (byte_is newline ch) || (len cur =? 0)) eqn:Hc.
    + replace (cur ++ ch :: rest) with ((cur ++ [ch]) ++ rest)
        by (rewrite <- app_assoc; reflexivity).
      apply IH. destruct cur as [|c cur]; [simpl; tauto|].
      simpl. intros Hin. apply in_app_or in Hin as [Hin|[Heq|[]]]; [now apply Hcur|].
      apply orb_true_iff in Hc as [Hc|Hc].
      * apply negb_true_iff, byte_is_false in Hc. congruence.
      * rewrite len_cons in Hc. pose proof (len_nonneg cur). lia.
    + apply orb_false_iff in Hc as [Hnl Hlen].
      apply negb_false_iff, byte_is_true in Hnl. subst ch.
      assert (Hne : cur <> []) by (intros ->; discriminate).
      destruct (IH [] (fun H => H)) as [Hall Hj]. simpl app in Hj.
      split; [constructor; [now split|exact Hall]|].
      destruct (collect [] rest) as [|s segs] eqn:Hsegs.
      * right. split; [discriminate|].
        destruct Hj as [->|[Hx _]]; [reflexivity|congruence].
      * change (joinLines (cur :: s :: segs)) with (cur ++ newline :: joinLines (s :: segs)).
        destruct Hj as [->|[_ ->]].
        -- now left.
        -- right. split; [discriminate|]. now rewrite <- app_assoc.
Qed.

(** X4.  On every datagram the scan of [InjectBytes] stays within the
    slice bounds and cuts the datagram into non-empty slices which, joined
    by single newlines and followed by at most one more newline, give the
    datagram back.  A slice holds no newline except possibly as its first
    byte: an empty line is not skipped, its newline is glued to the line
    that follows (or forms a slice of its own). *)
Theorem lines_decompose (msg : list byte) :
  exists segs,
    lines msg = Ok segs /\
    Forall (fun s => s <> [] /\ ~ In newline (List.tl s)) segs /\
    (msg = joinLines segs \/ (segs <> [] /\ msg = joinLines segs ++ [newline])).
Proof.
  exists (collect [] msg). split; [apply lines_collect|].
  apply (collect_decompose msg [] (fun H => H)).
Qed.

End LinesFacts.

(** ** The quantile timer: safety, accounting and rank of the quantiles *)

Module TimerMore.
Import GoFacts Timer TimerFacts.

(** *** The sort on arbitrary floats *)

Lemma bubble_perm (x : float64 * float64) (rl : list (float64 * float64)) :
  Permutation (bubble x rl) (x :: rl).
Proof.
  induction rl as [|y rl IH]; simpl; [reflexivity|].
  destruct (Less x y); [|reflexivity].
  rewrite IH. apply perm_swap.
Qed.

Lemma sortSort_perm (l : list (float64 * float64)) : Permutation (sortSort l) l.
Proof.
  unfold sortSort. rewrite <- Permutation_rev.
  assert (H : forall acc, Permutation (fold_left (fun rl x => bubble x rl) l acc)
                            (rev l ++ acc)).
  { induction l as [|x l IH]; intros acc; simpl; [reflexivity|].
    rewrite IH, bubble_perm, <- app_assoc. simpl.
    apply Permutation_app_head. reflexivity. }
  rewrite H, app_nil_r. symmetry. apply Permutation_rev.
Qed.

Lemma combine_fst_snd {A B : Type} (s : list (A * B)) :
  combine (map fst s) (map snd s) = s.
Proof.
  induction s as [|[a b] s IH]; simpl; [reflexivity|now rewrite IH].
Qed.

Lemma combine_app_same {A B : Type} (a a' : list A) (b b' : list B) :
  length a = length b -> combine (a ++ a') (b ++ b') = combine a b ++ combine a' b'.
Proof.
  revert b. induction a as [|x a IH]; intros [|y b] H; simpl in *; try discriminate.
  - reflexivity.
  - f_equal. apply IH. lia.
Qed.

(** The buffers of a timer: the observations since the last tick and those
    since the last flush. *)
Definition pending (m : timerMetric) : list (float64 * float64) :=
  combine (tickData m) (tickCnt m).

Definition minute (m : timerMetric) : list (float64 * float64) :=
  combine (data m) (cnt m).

(** Every value has its weight. *)
Definition paired (m : timerMetric) : Prop :=
  length (tickData m) = length (tickCnt m) /\ length (data m) = length (cnt m).

(** On slices of equal length [timerStats] returns a vector of six numbers
    and the two slices sorted together. *)
Lemma timerStats_paired (d c : list float64) :
  length d = length c ->
  exists stats d' c',
    timerStats d c = Ok (stats, d', c') /\ length stats = 6%nat /\
    length d' = length c' /\ Permutation (combine d' c') (combine d c).
Proof.
  intros Hl. unfold timerStats.
  destruct (Z.eqb_spec (len d) 0) as [E|E].
  { exists [FNaN; FNaN; FNaN; FNaN; FNaN; f0], d, c. auto. }
  assert (Hlen : len c = len d) by (unfold len; now rewrite Hl).
  rewrite Hlen, Z.ltb_irrefl.
  set (s := sortSort (combine d c)).
  assert (Hp : Permutation s (combine d c)) by apply sortSort_perm.
  assert (Hs : length s = length d).
  { rewrite (Permutation_length Hp), length_combine. lia. }
  destruct (statsLoop s (totalWeight c) f0 (f0, f0, f0)) as [[quart1 median] quart3].
  pose proof (len_nonneg d) as Hd.
  destruct (index_in_range (map fst s) 0) as [d0 [H0 _]].
  { unfold len in *. rewrite length_map. lia. }
  destruct (index_in_range (map fst s) (len d - 1)) as [dl [H1 _]].
  { unfold len in *. rewrite length_map. lia. }
  rewrite H0. simpl mbind. rewrite H1. simpl mbind.
  rewrite skipn_all2 by lia. rewrite app_nil_r.
  eexists _, _, _. split; [reflexivity|].
  split; [reflexivity|]. split; [now rewrite !length_map|].
  now rewrite combine_fst_snd.
Qed.

(** The states a timer goes through. *)
Inductive reachable : timerMetric -> Prop :=
| reach_create : reachable create
| reach_inject (m : timerMetric) (x : Metric) :
    reachable m -> reachable (inject m x)
| reach_tick (m m' : timerMetric) (stats : list float64) :
    reachable m -> tick m = Ok (stats, m') -> reachable m'
| reach_flush (m m' : timerMetric) (stats : list float64) :
    reachable m -> flush m = Ok (stats, m') -> reachable m'.

Lemma tick_Ok (m m' : timerMetric) (stats : list float64) :
  tick m = Ok (stats, m') ->
  exists td tc,
    timerStats (tickData m) (tickCnt m) = Ok (stats, td, tc) /\
    m' = mkTimer [] (data m ++ td) [] (cnt m ++ tc).
Proof.
  unfold tick. destruct (timerStats _ _) as [[[st td] tc]| |]; try discriminate.
  intros H. change (Ok (st, mkTimer [] (data m ++ td) [] (cnt m ++ tc)) = Ok (stats, m')) in H.
  injection H as <- <-. eauto.
Qed.

Lemma flush_Ok (m m' : timerMetric) (stats : list float64) :
  flush m = Ok (stats, m') ->
  exists d c,
    timerStats (data m) (cnt m) = Ok (stats, d, c) /\
    m' = mkTimer (tickData m) [] (tickCnt m) [].
Proof.
  unfold flush. destruct (timerStats _ _) as [[[st d] c]| |]; try discriminate.
  intros H. change (Ok (st, mkTimer (tickData m) [] (tickCnt m) []) = Ok (stats, m')) in H.
  injection H as <- <-. eauto.
Qed.

Lemma reachable_paired (m : timerMetric) : reachable m -> paired m.
Proof.
  induction 1 as [|m x _ [IH1 IH2]|m m' stats _ [IH1 IH2] Ht|m m' stats _ [IH1 IH2] Hf].
  - split; reflexivity.
  - split; [|exact IH2]. simpl. rewrite !length_app. simpl. lia.
  - apply tick_Ok in Ht as (td & tc & Hst & ->).
    destruct (timerStats_paired _ _ IH1) as (st & td' & tc' & Hst' & _ & Hl & _).
    rewrite Hst in Hst'. injection Hst' as _ <- <-.
    split; [reflexivity|]. simpl. rewrite !length_app. lia.
  - apply flush_Ok in Hf as (d & c & _ & ->). split; [exact IH1|reflexivity].
Qed.

(** X5.  A timer that is created and then driven by [inject], [tick] and
    [flush] never panics: whatever the values and sample rates (NaN and
    infinities included), [tick] and [flush] return a vector of six
    statistics. *)
Theorem timer_never_panics (m : timerMetric) :
  reachable m ->
  (exists stats m', tick m = Ok (stats, m') /\ length stats = 6%nat) /\
  (exists stats m', flush m = Ok (stats, m') /\ length stats = 6%nat).
Proof.
  intros Hr. destruct (reachable_paired m Hr) as [H1 H2]. split.
  - destruct (timerStats_paired _ _ H1) as (st & td & tc & Hst & Hl & _).
    unfold tick. rewrite Hst. eexists _, _. split; [reflexivity|exact Hl].
  - destruct (timerStats_paired _ _ H2) as (st & d & c & Hst & Hl & _).
    unfold flush. rewrite Hst. eexists _, _. split; [reflexivity|exact Hl].
Qed.

(** A sample with sample rate zero (weight [+Inf]) and a NaN sample. *)
Lemma timer_never_panics_witness :
  let m := inject (inject create (mkMetric "t" Wire.Timer (FNum 1) (FNum 0)))
                  (mkMetric "t" Wire.Timer FNaN (FNum 1)) in
  (exists stats m', tick m = Ok (stats, m') /\ length stats = 6%nat) /\
  (exists stats m', flush m = Ok (stats, m') /\ length stats = 6%nat).
Proof.
  intros m. apply timer_never_panics.
  unfold m. apply reach_inject, reach_inject, reach_create.
Defined.

(** X6.  No observation is lost or counted twice.  [tick] empties the
    buffer of the second and moves exactly its observations, reordered by
    the sort, behind those of the minute; [flush] empties the buffer of the
    minute and leaves the observations of the running second alone. *)
Theorem tick_flush_accounting (m : timerMetric) :
  reachable m ->
  (forall stats m', tick m = Ok (stats, m') ->
     pending m' = [] /\ Permutation (minute m') (minute m ++ pending m)) /\
  (forall stats m', flush m = Ok (stats, m') ->
     minute m' = [] /\ pending m' = pending m).
Proof.
  intros Hr. destruct (reachable_paired m Hr) as [H1 H2]. split.
  - intros stats m' Ht. apply tick_Ok in Ht as (td & tc & Hst & ->).
    destruct (timerStats_paired _ _ H1) as (st & td' & tc' & Hst' & _ & Hl & Hp).
    rewrite Hst in Hst'. injection Hst' as _ <- <-.
    split; [reflexivity|]. unfold minute, pending. simpl.
    rewrite combine_app_same by exact H2.
    apply Permutation_app_head. exact Hp.
  - intros stats m' Hf. apply flush_Ok in Hf as (d & c & _ & ->).
    split; reflexivity.
Qed.

Lemma tick_flush_accounting_witness :
  let m := inject (inject create (mkMetric "t" Wire.Timer (FNum 7) (FNum 1)))
                  (mkMetric "t" Wire.Timer (FNum 3) (FNum (1 # 2))) in
  reachable m /\
  exists stats m',
    tick m = Ok (stats, m') /\
    pending m' = [] /\ Permutation (minute m') [(FNum 7, FNum 1); (FNum 3, FNum 2)].
Proof.
  intros m.
  assert (Hr : reachable m) by (unfold m; apply reach_inject, reach_inject, reach_create).
  split; [exact Hr|].
  destruct (tick m) as [[stats m']| |] eqn:Ht;
    try (exfalso; vm_compute in Ht; discriminate).
  exists stats, m'. split; [reflexivity|].
  destruct (tick_flush_accounting m Hr) as [H _].
  exact (H stats m' Ht).
Defined.

(** *** Rank of the quantiles *)

#[local] Open Scope Q_scope.

(** Total weight of the observations whose value is at most [v]. *)
Definition weightLe (v : Q) (obs : list (Q * Q)) : Q :=
  sumQ (map snd (List.filter (fun p => Qle_bool (fst p) v) obs)).

(** [x] has rank [q] among the observations [obs] of total weight [N]: it is
    the least observed value such that the observations up to it weigh at
    least [q * N]. *)
Definition rank (obs : list (Q * Q)) (N q x : Q) : Prop :=
  In x (map fst obs) /\
  N * q <= weightLe x obs /\
  forall u, In u (map fst obs) -> u < x -> weightLe u obs < N * q.

Lemma sumQ_app (a b : list Q) : sumQ (a ++ b) == sumQ a + sumQ b.
Proof.
  induction a as [|x a IH]; simpl; [lra|]. rewrite IH. lra.
Qed.

Lemma weightLe_app (v : Q) (a b : list (Q * Q)) :
  weightLe v (a ++ b) == weightLe v a + weightLe v b.
Proof.
  unfold weightLe. rewrite List.filter_app, map_app. apply sumQ_app.
Qed.

Lemma weightLe_cons (v : Q) (p : Q * Q) (b : list (Q * Q)) :
  weightLe v (p :: b) == (if Qle_bool (fst p) v then snd p else 0) + weightLe v b.
Proof.
  unfold weightLe. simpl. destruct (Qle_bool (fst p) v); simpl; lra.
Qed.

Lemma weightLe_all (v : Q) (s : list (Q * Q)) :
  Forall (fun p => fst p <= v) s -> weightLe v s == sumQ (map snd s).
Proof.
  induction 1 as [|p s Hp _ IH]; [reflexivity|].
  rewrite weightLe_cons, IH. apply Qle_bool_iff in Hp. rewrite Hp. simpl. lra.
Qed.

Lemma weightLe_none (v : Q) (s : list (Q * Q)) :
  Forall (fun p => v < fst p) s -> weightLe v s == 0.
Proof.
  induction 1 as [|p s Hp _ IH]; [reflexivity|].
  rewrite weightLe_cons, IH. apply Qle_bool_false in Hp. rewrite Hp. lra.
Qed.

Lemma weightLe_bounds (v : Q) (s : list (Q * Q)) :
  Forall (fun p => 0 < snd p) s -> 0 <= weightLe v s /\ weightLe v s <= sumQ (map snd s).
Proof.
  induction 1 as [|p s Hp _ [IH1 IH2]]; [unfold weightLe; simpl; lra|].
  rewrite weightLe_cons. simpl. destruct (Qle_bool (fst p) v); lra.
Qed.

Lemma weightLe_perm (v : Q) (a b : list (Q * Q)) :
  Permutation a b -> weightLe v a == weightLe v b.
Proof.
  induction 1 as [|x l1 l2 _ IH|x y l|l1 l2 l3 _ IH1 _ IH2].
  - reflexivity.
  - rewrite !weightLe_cons, IH. reflexivity.
  - rewrite !weightLe_cons. lra.
  - now rewrite IH1.
Qed.

Lemma sorted_around (a b : list (Q * Q)) (x : Q * Q) :
  StronglySorted ascQ (a ++ x :: b) ->
  Forall (fun p => fst p <= fst x) a /\ Forall (fun p => fst x <= fst p) b.
Proof.
  induction a as [|y a IH]; simpl; intros H.
  - apply StronglySorted_inv in H as [_ H]. split; [constructor|exact H].
  - apply StronglySorted_inv in H as [Hs Hy]. destruct (IH Hs) as [H1 H2].
    split; [|exact H2]. constructor; [|exact H1].
    rewrite Forall_forall in Hy. apply (Hy x). apply list_elem_of_In, in_elt.
Qed.

(** Where the scan for the first value reaching the threshold stops. *)
Lemma firstReaching_split (t : Q) (s : list (Q * Q)) :
  forall (m x : Q),
    firstReaching t m s = Some x ->
    exists s1 w s2,
      s = s1 ++ (x, w) :: s2 /\
      (s1 <> [] -> m + sumQ (map snd s1) < t) /\ t <= m + sumQ (map snd s1) + w.
Proof.
  induction s as [|[d c] s IH]; intros m x; [discriminate|].
  cbn [firstReaching]. destruct (Qle_bool t (m + c)) eqn:E.
  - intros [= <-]. exists [], c, s. apply Qle_bool_iff in E.
    repeat split; [congruence|simpl; lra].
  - intros H. apply IH in H as (s1 & w & s2 & -> & H1 & H2).
    apply Qle_bool_false in E.
    exists ((d, c) :: s1), w, s2. repeat split.
    + intros _. simpl. destruct s1 as [|p s1]; [simpl; lra|].
      specialize (H1 ltac:(discriminate)). lra.
    + simpl. lra.
Qed.

(** On observations sorted by value the first value whose cumulative weight
    reaches [t] has the rank that [t] stands for. *)
Lemma rank_sorted (t : Q) (sq : list (Q * Q)) (x : Q) :
  StronglySorted ascQ sq -> Forall (fun p => 0 < snd p) sq -> 0 < t ->
  firstReaching t 0 sq = Some x ->
  In x (map fst sq) /\ t <= weightLe x sq /\
  forall u, In u (map fst sq) -> u < x -> weightLe u sq < t.
Proof.
  intros Hs Hpos Ht H.
  apply firstReaching_split in H as (s1 & w & s2 & -> & H1 & H2).
  destruct (sorted_around _ _ _ Hs) as [Ha Hb]. simpl in Ha, Hb.
  apply Forall_app in Hpos as [Hp1 Hp2].
  apply Forall_cons_iff in Hp2 as [Hw Hp2]. simpl in Hw.
  split; [|split].
  - rewrite map_app. apply in_or_app. right. now left.
  - rewrite weightLe_app, weightLe_cons, (weightLe_all x s1 Ha). simpl.
    rewrite (proj2 (Qle_bool_iff x x) (Qle_refl x)).
    destruct (weightLe_bounds x s2 Hp2). lra.
  - intros u _ Hu.
    rewrite weightLe_app, weightLe_cons. simpl.
    rewrite (proj2 (Qle_bool_false x u) Hu).
    rewrite (weightLe_none u s2).
    2:{ eapply Forall_impl; [exact Hb|]. simpl. intros p Hp. lra. }
    destruct (weightLe_bounds u s1 Hp1) as [_ Hle].
    destruct s1 as [|p s1].
    + unfold weightLe. simpl. lra.
    + specialize (H1 ltac:(discriminate)). lra.
Qed.

Lemma rank_perm (a b : list (Q * Q)) (N q x : Q) :
  Permutation a b -> rank a N q x -> rank b N q x.
Proof.
  intros Hp (H1 & H2 & H3). split; [|split].
  - eapply Permutation_in; [apply Permutation_map; exact Hp|exact H1].
  - now rewrite <- (weightLe_perm x a b Hp).
  - intros u Hu Hlt. rewrite <- (weightLe_perm u a b Hp). apply H3; [|exact Hlt].
    eapply Permutation_in; [apply Permutation_map; symmetry; exact Hp|exact Hu].
Qed.

(** The quantile of the specification has the rank of [q]. *)
Lemma quantile_rank (q x : Q) (vs ws : list Q) :
  length vs = length ws -> Forall (fun w => 0 < w) ws -> 0 < sumQ ws -> 0 < q ->
  quantile q (combine vs ws) = Some x ->
  rank (combine vs ws) (sumQ ws) q x.
Proof.
  intros Hl Hpos HN Hq H. unfold quantile in H.
  rewrite map_snd_combine in H by exact Hl.
  destruct (sortQ_spec (combine vs ws)) as [Hsorted Hperm].
  assert (Hspos : Forall (fun p : Q * Q => 0 < snd p) (sortQ (combine vs ws))).
  { eapply Permutation_Forall; [symmetry; exact Hperm|]. now apply combine_pos. }
  apply rank_sorted in H; [|exact Hsorted|exact Hspos|].
  - eapply rank_perm; [exact Hperm|]. exact H.
  - rewrite <- (Qmult_0_l q). apply Qmult_lt_compat_r; assumption.
Qed.

(** The statistics vector on observations with finite values and strictly
    positive weights, in a run that does not round. *)
Lemma timerStats_ranked (vs ws : list Q) :
  vs <> [] -> length vs = length ws -> Forall (fun w => 0 < w) ws ->
  exactRun vs ws = true ->
  let obs := combine vs ws in
  let N := sumQ ws in
  exists mn q1 med q3 mx n d c,
    timerStats (map FNum vs) (map FNum ws)
      = Ok ([FNum mn; FNum q1; FNum med; FNum q3; FNum mx; FNum n], d, c) /\
    n == N /\ 0 < N /\
    In mn vs /\ Forall (fun x => mn <= x) vs /\
    In mx vs /\ Forall (fun x => x <= mx) vs /\
    rank obs N (1 # 4) q1 /\ rank obs N (1 # 2) med /\ rank obs N (3 # 4) q3.
Proof.
  intros Hne Hl Hpos Hex obs N.
  destruct (timerStats_observations vs ws Hne Hl Hpos Hex)
    as (mn & q1 & med & q3 & mx & n & Hst & _ & _ & Hmn & Hmin & Hmx & Hmax & Hn
        & H1 & H2 & H3).
  assert (HN : 0 < N).
  { apply sumQ_pos; [|exact Hpos].
    intros ->. destruct vs; [congruence|discriminate]. }
  exists mn, q1, med, q3, mx, n. eexists _, _.
  split; [exact Hst|]. split; [exact Hn|]. split; [exact HN|].
  split; [exact Hmn|]. split; [exact Hmin|]. split; [exact Hmx|]. split; [exact Hmax|].
  split; [|split]; apply quantile_rank; auto; reflexivity.
Qed.

(** X7.  The quantiles by rank.  For observations with finite values and
    strictly positive weights of total [N], in a run of [timerStats] in
    which no [float64] operation rounds, each quantile [q] in
    {1/4, 1/2, 3/4} returned is the least observed value [x] such that the
    observations with a value up to [x] weigh at least [q * N].  In such a
    run the quantiles depend on the observations only, not on the order in
    which they arrive or in which the sort leaves equal values. *)
Theorem timerStats_rank (vs ws : list Q) :
  vs <> [] -> length vs = length ws -> Forall (fun w => 0 < w) ws ->
  exactRun vs ws = true ->
  let obs := combine vs ws in
  let N := sumQ ws in
  exists mn q1 med q3 mx n d c,
    timerStats (map FNum vs) (map FNum ws)
      = Ok ([FNum mn; FNum q1; FNum med; FNum q3; FNum mx; FNum n], d, c) /\
    n == N /\
    rank obs N (1 # 4) q1 /\ rank obs N (1 # 2) med /\ rank obs N (3 # 4) q3.
Proof.
  intros Hne Hl Hpos Hex obs N.
  destruct (timerStats_ranked vs ws Hne Hl Hpos Hex)
    as (mn & q1 & med & q3 & mx & n & d & c & Hst & Hn & _ & _ & _ & _ & _ & R1 & R2 & R3).
  exists mn, q1, med, q3, mx, n, d, c. auto.
Qed.

(** Values 5, 1, 3, 2 with weights 1, 1, 2, 1: the total weight is 5 and
    the median is 3. *)
Lemma timerStats_rank_witness :
  exists mn q1 med q3 mx n d c,
    timerStats (map FNum [5; 1; 3; 2]) (map FNum [1; 1; 2; 1])
      = Ok ([FNum mn; FNum q1; FNum med; FNum q3; FNum mx; FNum n], d, c) /\
    n == 5 /\
    rank (combine [5; 1; 3; 2] [1; 1; 2; 1]) 5 (1 # 2) med.
Proof.
  destruct (timerStats_rank [5; 1; 3; 2] [1; 1; 2; 1])
    as (mn & q1 & med & q3 & mx & n & d & c & Hst & Hn & _ & R2 & _).
  - discriminate.
  - reflexivity.
  - repeat constructor.
  - vm_compute. reflexivity.
  - exists mn, q1, med, q3, mx, n, d, c.
    split; [exact Hst|]. split; [exact Hn|]. exact R2.
Defined.

(** X8.  The statistics are ordered: for observations with finite values
    and strictly positive weights, in a run of [timerStats] in which no
    [float64] operation rounds, [min <= quart1 <= median <= quart3 <= max]. *)
Theorem timerStats_ordered (vs ws : list Q) :
  vs <> [] -> length vs = length ws -> Forall (fun w => 0 < w) ws ->
  exactRun vs ws = true ->
  exists mn q1 med q3 mx N d c,
    timerStats (map FNum vs) (map FNum ws) = Ok ([mn; q1; med; q3; mx; N], d, c) /\
    fle mn q1 = true /\ fle q1 med = true /\ fle med q3 = true /\ fle q3 mx = true.
Proof.
  intros Hne Hl Hw Hex.
  destruct (timerStats_ranked vs ws Hne Hl Hw Hex) as
    (mn & q1 & med & q3 & mx & n & d & c & Hst & _ & HN & _ & Hmin & _ & Hmax & R1 & R2 & R3).
  exists (FNum mn), (FNum q1), (FNum med), (FNum q3), (FNum mx). eexists _, d, c.
  split; [exact Hst|].
  destruct R1 as (I1 & L1 & M1), R2 as (I2 & L2 & M2), R3 as (I3 & L3 & M3).
  set (N := sumQ ws) in *.
  assert (Hin : forall x, In x (map fst (combine vs ws)) -> In x vs).
  { intros x Hx. now rewrite map_fst_combine in Hx. }
  rewrite Forall_forall in Hmin, Hmax.
  simpl. repeat split; apply Qle_bool_iff.
  - apply Hmin, list_elem_of_In, Hin, I1.
  - destruct (Qlt_le_dec med q1) as [Hlt|Hle]; [|exact Hle].
    specialize (M1 med I2 Hlt). lra.
  - destruct (Qlt_le_dec q3 med) as [Hlt|Hle]; [|exact Hle].
    specialize (M2 q3 I3 Hlt). lra.
  - apply Hmax, list_elem_of_In, Hin, I3.
Qed.

Lemma timerStats_ordered_witness :
  exists mn q1 med q3 mx N d c,
    timerStats (map FNum [5; 1; 3; 2]) (map FNum [1; 1; 2; 1])
      = Ok ([mn; q1; med; q3; mx; N], d, c) /\
    fle mn q1 = true /\ fle q1 med = true /\ fle med q3 = true /\ fle q3 mx = true.
Proof.
  apply timerStats_ordered.
  - discriminate.
  - reflexivity.
  - repeat constructor.
  - vm_compute. reflexivity.
Defined.

End TimerMore.

(** ** The datastore: checkpoint, stored series, index search, writer *)

Module FsDsMore.
Import GoFacts WireFacts FsDs FsDsFacts.

(** *** Little-endian encoding *)

Lemma Z_of_byte_of_Z (z : Z) : Z_of_byte (byte_of_Z z) = z mod 256.
Proof.
  unfold Z_of_byte, byte_of_Z.
  pose proof (Z.mod_pos_bound z 256 ltac:(lia)) as Hb.
  destruct (Byte.of_N (Z.to_N (z mod 256))) as [b|] eqn:E.
  - apply Byte.to_of_N in E. rewrite E. lia.
  - apply Byte.of_N_None_iff in E. lia.
Qed.

Lemma le_value_le_bytes (n : nat) (z : Z) :
  le_value (le_bytes n z) = z mod 256 ^ Z.of_nat n.
Proof.
  revert z. induction n as [|n IH]; intros z.
  - simpl. now rewrite Z.mod_1_r.
  - cbn [le_bytes le_value]. rewrite Z_of_byte_of_Z, IH.
    rewrite Nat2Z.inj_succ, Z.pow_succ_r by lia.
    rewrite Z.rem_mul_r by lia. reflexivity.
Qed.

Lemma getUint64_put64 (z : Z) : 0 <= z < 2 ^ 64 -> getUint64 (put64 z) = z.
Proof.
  intros H. unfold getUint64, put64. rewrite le_value_le_bytes.
  change (256 ^ Z.of_nat 8) with (2 ^ 64). now apply Z.mod_small.
Qed.

Lemma getInt64_put64 (z : Z) : int64_range z -> getInt64 (put64 z) = z.
Proof.
  intros H. unfold getInt64, put64. rewrite le_value_le_bytes.
  change (256 ^ Z.of_nat 8) with (2 ^ 64).
  unfold wrap64. rewrite Zplus_mod_idemp_l.
  unfold int64_range, MinInt64, MaxInt64 in H. rewrite Z.mod_small; lia.
Qed.

Lemma firstn_put64 (z : Z) (rest : list byte) : firstn 8 (put64 z ++ rest) = put64 z.
Proof. rewrite <- (length_put64 z) at 1. apply take_app_length. Qed.

Lemma skipn_put64 (z : Z) (rest : list byte) : skipn 8 (put64 z ++ rest) = rest.
Proof. rewrite <- (length_put64 z) at 1. apply drop_app_length. Qed.

(** *** The tail checkpoint *)

Lemma len_encodeTail (tl : list fsDsRecord) : len (encodeTail tl) = 16 * len tl.
Proof.
  induction tl as [|r tl IH]; [reflexivity|].
  unfold encodeTail in *. cbn [flat_map]. rewrite !len_app, IH, !len_put64, len_cons. lia.
Qed.

(** What the checkpoint gives back of a stream: its name. *)
Definition reloaded (n : string) : fsDsStream := mkStream n [] false 0 0 0.

(** A stream whose name and tail [make] accepts on reading. *)
Definition fitsStream (p : string * fsDsStream) : Prop :=
  len (list_byte_of_string (fst p)) <= maxAlloc /\
  16 * len (tail (snd p)) <= maxAlloc.

Definition loadAll (sts : list (string * fsDsStream)) (ds : FsDatastore) : FsDatastore :=
  fold_left (fun d p => createStream d (fst p) []) sts ds.

Lemma makeOk_fits (size n : Z) : 0 <= n -> size * n <= maxAlloc -> makeOk size n = true.
Proof.
  intros H0 H1. unfold makeOk.
  destruct (Z.leb_spec 0 n); [|lia]. destruct (Z.leb_spec (size * n) maxAlloc); [|lia].
  reflexivity.
Qed.

(** Reading one stream of the checkpoint: an empty tail is read, a tail
    with records panics. *)
Lemma loadLoop_stream (k : nat) (n : string) (st : fsDsStream) (ds : FsDatastore)
    (rest : list byte) :
  fitsStream (n, st) ->
  loadLoop (S k) ds (encodeStream (n, st) ++ rest)
  = if len (tail st) =? 0 then loadLoop k (createStream ds n []) rest
    else (ds, Panic).
Proof.
  intros (Hn & Ht). simpl in Hn, Ht.
  cbn [loadLoop]. unfold encodeStream. cbn [fst snd].
  rewrite <- !app_assoc.
  pose proof (len_nonneg (list_byte_of_string n)) as Hn0.
  pose proof (len_nonneg (tail st)) as Ht0.
  assert (H48 : maxAlloc < MaxInt64) by (vm_compute; reflexivity).
  rewrite take_bytes_put64, bind_Ok.
  rewrite take_bytes_put64, bind_Ok.
  rewrite !getInt64_put64 by (unfold int64_range, MinInt64, MaxInt64 in *; lia).
  rewrite (makeOk_fits 1 (len (list_byte_of_string n))) by lia.
  cbn [negb]. rewrite take_bytes_app, bind_Ok.
  rewrite (makeOk_fits 16 (len (tail st))) by lia.
  cbn [negb]. rewrite <- len_encodeTail. rewrite take_bytes_app, bind_Ok.
  destruct (Z.eqb_spec (len (tail st)) 0) as [E|E].
  - rewrite E. change (0 <? 0) with false. cbv iota.
    rewrite string_of_list_byte_of_string. reflexivity.
  - destruct (Z.ltb_spec 0 (len (tail st))); [reflexivity|lia].
Qed.

Lemma loadLoop_empty (sts : list (string * fsDsStream)) :
  Forall fitsStream sts -> Forall (fun p => tail (snd p) = []) sts ->
  forall (ds : FsDatastore) (rest : list byte),
    loadLoop (length sts) ds (flat_map encodeStream sts ++ rest)
    = (loadAll sts ds, Ok tt).
Proof.
  induction 1 as [|[n st] sts Hfit _ IH]; intros Hemp ds rest; [reflexivity|].
  apply Forall_cons_iff in Hemp as [He Hemp]. simpl in He.
  cbn [length flat_map]. rewrite <- app_assoc.
  rewrite loadLoop_stream by exact Hfit. rewrite He. cbn [len length Z.of_nat Z.eqb].
  unfold loadAll. cbn [fold_left fst]. apply (IH Hemp).
Qed.

Lemma loadLoop_records (sts : list (string * fsDsStream)) :
  Forall fitsStream sts -> Exists (fun p => tail (snd p) <> []) sts ->
  forall (ds : FsDatastore) (rest : list byte),
    snd (loadLoop (length sts) ds (flat_map encodeStream sts ++ rest)) = Panic.
Proof.
  induction 1 as [|[n st] sts Hfit _ IH]; intros Hex ds rest.
  - inversion Hex.
  - cbn [length flat_map]. rewrite <- app_assoc.
    rewrite loadLoop_stream by exact Hfit.
    destruct (Z.eqb_spec (len (tail st)) 0) as [E|E]; [|reflexivity].
    apply IH. apply Exists_cons in Hex as [Hhd|Htl]; [|exact Htl].
    simpl in Hhd. destruct (tail st); [congruence|]. rewrite len_cons in E.
    pose proof (len_nonneg l). lia.
Qed.

Lemma loadAll_fields (sts : list (string * fsDsStream)) (ds : FsDatastore) :
  isDir (loadAll sts ds) = isDir ds /\ disk (loadAll sts ds) = disk ds /\
  running (loadAll sts ds) = running ds /\
  queue (loadAll sts ds) = queue ds ++ map fst sts.
Proof.
  revert ds. induction sts as [|p sts IH]; intros ds; simpl.
  - now rewrite app_nil_r.
  - destruct (IH (createStream ds (fst p) [])) as (H1 & H2 & H3 & H4).
    unfold loadAll in *. rewrite H1, H2, H3, H4. simpl. now rewrite <- app_assoc.
Qed.

Lemma loadAll_other (sts : list (string * fsDsStream)) (n : string) :
  ~ In n (map fst sts) ->
  forall ds, streams (loadAll sts ds) !! n = streams ds !! n.
Proof.
  induction sts as [|p sts IH]; intros Hn ds; [reflexivity|].
  simpl in Hn. unfold loadAll in *. simpl. rewrite IH by tauto.
  simpl. apply lookup_insert_ne. tauto.
Qed.

Lemma loadAll_found (sts : list (string * fsDsStream)) (n : string) (st : fsDsStream) :
  NoDup (map fst sts) -> In (n, st) sts ->
  forall ds, streams (loadAll sts ds) !! n = Some (reloaded n).
Proof.
  induction sts as [|p sts IH]; intros Hnd Hin ds; [destruct Hin|].
  simpl in Hnd. apply NoDup_cons in Hnd as [Hp Hnd].
  destruct Hin as [->|Hin].
  - unfold loadAll. simpl. fold (loadAll sts (createStream ds n [])).
    rewrite loadAll_other by (intros H; apply Hp, list_elem_of_In; exact H).
    simpl. apply lookup_insert_eq.
  - unfold loadAll. simpl. now apply IH.
Qed.

Lemma NoDup_stream_names (m : gmap string fsDsStream) :
  NoDup (map fst (map_to_list m)).
Proof. exact (NoDup_fst_map_to_list m). Qed.

(** A datastore whose streams the checkpoint can hold and [loadTails] can
    allocate. *)
Definition fitsCheckpoint (ds : FsDatastore) : Prop :=
  len (map_to_list (streams ds)) <= MaxInt64 /\
  Forall fitsStream (map_to_list (streams ds)).

(** The checkpoint that [Close] leaves is read by the next [Open]. *)
Lemma Close_Open_run (ds : FsDatastore) :
  running ds = true -> isDir ds = true -> fitsCheckpoint ds ->
  let sts := map_to_list (streams ds) in
  let ds0 := mkDs true (<[tailFile := put64 (len sts) ++ flat_map encodeStream sts]> (disk ds))
                  ∅ [] false in
  Open (fst (Close ds))
  = match loadLoop (length sts) ds0 (flat_map encodeStream sts) with
    | (ds2, Ok _) => (mkDs (isDir ds2) (disk ds2) (streams ds2) (queue ds2) true, Ok tt)
    | (ds2, r) => (ds2, r)
    end.
Proof.
  intros Hrun Hdir (Hcnt & Hfit) sts ds0. fold sts in Hcnt.
  unfold Close. rewrite Hrun. cbn [negb fst].
  unfold Open. cbn [running isDir disk queue saveTails]. rewrite Hdir. cbn [negb].
  unfold loadTails. cbn [disk]. rewrite lookup_insert_eq. fold sts.
  rewrite take_bytes_put64.
  rewrite getInt64_put64.
  2:{ pose proof (len_nonneg sts). unfold int64_range, MinInt64, MaxInt64 in *. lia. }
  replace (Z.to_nat (len sts)) with (length sts) by (unfold len; lia).
  reflexivity.
Qed.

(** X9.  The checkpoint round trip.  [Close] writes the names and the tails
    of all loaded streams to [tail_data].  When every tail is empty, the
    next [Open] reads the checkpoint back: the datastore runs again, every
    stream is loaded under its name with an empty tail, as a stream whose
    files have not been looked at yet, the streams are queued for the
    writer, and no other file is touched.  When some stream has records in
    its tail, the next [Open] panics on reading them back, and the datastore
    is not running. *)
Theorem Close_Open_roundtrip (ds : FsDatastore) :
  running ds = true -> isDir ds = true -> fitsCheckpoint ds ->
  ((forall n st, streams ds !! n = Some st -> tail st = []) ->
   exists ds2,
     Open (fst (Close ds)) = (ds2, Ok tt) /\
     running ds2 = true /\
     (forall n, streams ds2 !! n = (fun _ => reloaded n) <$> streams ds !! n) /\
     queue ds2 = map fst (map_to_list (streams ds)) /\
     (forall f, f <> tailFile -> disk ds2 !! f = disk ds !! f)) /\
  ((exists n st, streams ds !! n = Some st /\ tail st <> []) ->
   snd (Open (fst (Close ds))) = Panic /\
   running (fst (Open (fst (Close ds)))) = false).
Proof.
  intros Hrun Hdir Hfits.
  pose proof (Close_Open_run ds Hrun Hdir Hfits) as HO. cbv zeta in HO.
  destruct Hfits as (Hcnt & Hfit).
  set (sts := map_to_list (streams ds)) in *.
  set (ds0 := mkDs true _ ∅ [] false) in HO.
  split.
  - intros Hemp.
    assert (He : Forall (fun p => tail (snd p) = []) sts).
    { apply Forall_forall. intros [n st] Hin. simpl.
      apply elem_of_map_to_list in Hin. exact (Hemp n st Hin). }
    rewrite <- (app_nil_r (flat_map encodeStream sts)) in HO.
    rewrite (loadLoop_empty sts Hfit He) in HO.
    destruct (loadAll_fields sts ds0) as (H1 & H2 & H3 & H4).
    eexists. split; [exact HO|]. cbn [running streams queue disk].
    split; [reflexivity|]. split; [|split].
    + intros n. destruct (streams ds !! n) as [st|] eqn:E; simpl.
      * apply (loadAll_found sts n st).
        -- apply NoDup_stream_names.
        -- apply list_elem_of_In, elem_of_map_to_list. exact E.
      * rewrite loadAll_other; [reflexivity|].
        intros Hin. apply in_map_iff in Hin as ([n' st] & Hn & Hin). simpl in Hn. subst n'.
        apply list_elem_of_In, elem_of_map_to_list in Hin. congruence.
    + rewrite H4. reflexivity.
    + intros f Hf. rewrite H2. unfold ds0. cbn [disk].
      apply lookup_insert_ne. congruence.
  - intros (n & st & Hst & Htl).
    assert (Hex : Exists (fun p => tail (snd p) <> []) sts).
    { apply Exists_exists. exists (n, st). split; [|exact Htl].
      apply elem_of_map_to_list. exact Hst. }
    pose proof (loadLoop_records sts Hfit Hex ds0 []) as Hp.
    rewrite app_nil_r in Hp.
    destruct (loadLoop (length sts) ds0 (flat_map encodeStream sts)) as [ds2 r] eqn:Hl.
    simpl in Hp. subst r. rewrite HO. split; [reflexivity|].
    apply loadLoop_keeps_disk in Hl as (_ & Hr & _). exact Hr.
Qed.

(** A running datastore in which the writer has just written the record
    [(60, 7)] of stream ["s"], whose tail is empty again: the round trip
    brings the stream back.  With the record still in the tail, the next
    [Open] panics. *)
Lemma Close_Open_roundtrip_witness :
  let ds := fst (Insert (fst (Open NewFsDatastore)) "s" (mkRecord 60 7)) in
  let ds' := drain 1 ds (-1) in
  (exists ds2,
     Open (fst (Close ds')) = (ds2, Ok tt) /\
     streams ds2 !! "s" = Some (mkStream "s" [] false 0 0 0)) /\
  snd (Open (fst (Close ds))) = Panic.
Proof.
  intros ds ds'.
  assert (E : map_to_list (streams ds) = [("s", mkStream "s" [mkRec 60 7] false 0 0 0)])
    by (vm_compute; reflexivity).
  assert (E' : map_to_list (streams ds')
               = [("s", mkStream "s" [] true 60 8 16)])
    by (vm_compute; reflexivity).
  split.
  - destruct (Close_Open_roundtrip ds') as [H _].
    + reflexivity.
    + reflexivity.
    + unfold fitsCheckpoint. rewrite E'. split; [vm_compute; discriminate|].
      repeat constructor; simpl; vm_compute; discriminate.
    + destruct H as (ds2 & H1 & _ & H2 & _).
      * intros n st Hst. apply elem_of_map_to_list in Hst. rewrite E' in Hst.
        apply list_elem_of_In in Hst. destruct Hst as [[= <- <-]|[]]. reflexivity.
      * exists ds2. split; [exact H1|]. rewrite H2.
        replace (streams ds' !! "s") with (Some (mkStream "s" [] true 60 8 16))
          by (vm_compute; reflexivity).
        reflexivity.
  - destruct (Close_Open_roundtrip ds) as [_ H].
    + reflexivity.
    + reflexivity.
    + unfold fitsCheckpoint. rewrite E. split; [vm_compute; discriminate|].
      repeat constructor; simpl; vm_compute; discriminate.
    + apply H. exists "s", (mkStream "s" [mkRec 60 7] false 0 0 0).
      split; [vm_compute; reflexivity|discriminate].
Defined.

(** *** The series that the files of a stream hold *)

(** A record as the server inserts it: a Unix time that is not negative and
    the 64 bits of a value. *)
Definition plain (r : fsDsRecord) : Prop :=
  0 <= ts r <= MaxInt64 /\ 0 <= value r < 2 ^ 64.

(** A series: minute records with strictly increasing timestamps. *)
Definition series (rs : list fsDsRecord) : Prop :=
  StronglySorted Z.lt (map ts rs) /\
  Forall (fun r => Z.rem (ts r) 60 = 0 /\ plain r) rs.

(** The timestamp of the last record, [lastWrEmpty] for no record. *)
Definition lastTs (rs : list fsDsRecord) : Z := List.last (map ts rs) lastWrEmpty.

(** The files [n.dat] and [n.idx] hold the series [rs]: the values in
    order, and one index entry for the first record of every run of
    consecutive minutes. *)
Definition stored (rs : list fsDsRecord) (n : string) (fs : files) : Prop :=
  contents fs (datFile n) = encodeData (map value rs) /\
  contents fs (idxFile n) = encodeIdx (gaps lastWrEmpty 0 rs).

(** The bookkeeping of a stream that has looked at its files agrees with
    the series they hold. *)
Definition tracked (rs : list fsDsRecord) (st : fsDsStream) : Prop :=
  valid st = true ->
  dsize st = 8 * len rs /\
  isize st = 16 * len (gaps lastWrEmpty 0 rs) /\
  lastWr st = lastTs rs.

Lemma lastWrEmpty_value : lastWrEmpty = -9223372036854775800.
Proof. reflexivity. Qed.

Lemma encodeIdx_app (a b : list (Z * Z)) : encodeIdx (a ++ b) = encodeIdx a ++ encodeIdx b.
Proof. unfold encodeIdx. apply flat_map_app. Qed.

Lemma encodeData_app (a b : list float64bits) :
  encodeData (a ++ b) = encodeData a ++ encodeData b.
Proof. unfold encodeData. apply flat_map_app. Qed.

Lemma readAt_mid (a b c : list byte) :
  readAt (a ++ b ++ c) (len a) (length b) = Ok b.
Proof.
  unfold readAt. pose proof (len_nonneg a).
  destruct (Z.ltb_spec (len a) 0); [lia|].
  unfold len. rewrite Nat2Z.id, drop_app_length, take_app_length, Nat.eqb_refl.
  reflexivity.
Qed.

Lemma gaps_app (a b : list fsDsRecord) :
  forall lw pos,
    gaps lw pos (a ++ b)
    = gaps lw pos a ++ gaps (List.last (map ts a) lw) (pos + 8 * len a) b.
Proof.
  induction a as [|r a IH]; intros lw pos.
  - simpl. change (len (@nil fsDsRecord)) with 0. now replace (pos + 8 * 0) with pos by lia.
  - cbn [app gaps map]. rewrite IH, last_cons_default, len_cons, <- app_assoc.
    unfold fsDsDSize. do 3 f_equal. lia.
Qed.

Lemma kept_app (a b : list fsDsRecord) :
  forall lw, kept lw (a ++ b) = kept lw a ++ kept (List.last (map ts (kept lw a)) lw) b.
Proof.
  induction a as [|r a IH]; intros lw; [reflexivity|].
  cbn [app kept]. destruct ((Z.rem (ts r) 60 =? 0) && (lw <? ts r)).
  - cbn [app map]. rewrite last_cons_default. now rewrite IH.
  - apply IH.
Qed.

Lemma sorted_last_max (l : list Z) :
  StronglySorted Z.lt l -> forall d x, In x l -> x <= List.last l d.
Proof.
  induction 1 as [|a l Hs IH Ha]; intros d x; [intros []|].
  rewrite last_cons_default. intros [<-|Hx].
  - destruct (last_default_or_In l a) as [E|Hin]; [lia|].
    rewrite Forall_forall in Ha. apply list_elem_of_In, Ha in Hin. lia.
  - now apply IH.
Qed.

Lemma sorted_app_lt (a b : list Z) :
  StronglySorted Z.lt a -> StronglySorted Z.lt b ->
  (forall x y, In x a -> In y b -> x < y) -> StronglySorted Z.lt (a ++ b).
Proof.
  induction 1 as [|x a Hs IH Hx]; intros Hb Hab; [exact Hb|].
  simpl. constructor.
  - apply IH; [exact Hb|]. intros u v Hu Hv. apply Hab; [now right|exact Hv].
  - apply Forall_app. split; [exact Hx|].
    apply Forall_forall. intros y Hy. apply Hab; [now left|now apply list_elem_of_In].
Qed.

Lemma last_In {A : Type} (l : list A) (d : A) : l <> [] -> In (List.last l d) l.
Proof.
  intros Hne. destruct l as [|a l]; [congruence|].
  rewrite last_cons_default.
  destruct (last_default_or_In l a) as [E|Hin]; [rewrite E; now left|now right].
Qed.

Lemma lastTs_In (rs : list fsDsRecord) :
  rs <> [] -> exists r, In r rs /\ lastTs rs = ts r.
Proof.
  intros Hne. unfold lastTs.
  assert (Hm : map ts rs <> []) by (destruct rs; [congruence|discriminate]).
  apply (last_In _ lastWrEmpty) in Hm. apply in_map_iff in Hm as (r & Hr & Hin). eauto.
Qed.

Lemma lastTs_range (rs : list fsDsRecord) :
  series rs -> Z.rem (lastTs rs) 60 = 0 /\ int64_range (lastTs rs) /\
               (rs <> [] -> 0 <= lastTs rs).
Proof.
  intros [_ Hall]. destruct rs as [|r0 rs].
  - split; [reflexivity|]. split; [vm_compute; split; discriminate|congruence].
  - destruct (lastTs_In (r0 :: rs) ltac:(discriminate)) as (r & Hin & ->).
    rewrite Forall_forall in Hall.
    apply list_elem_of_In, Hall in Hin. destruct Hin as (H60 & (H0 & H1) & _).
    split; [exact H60|]. split; [|intros _; exact H0].
    unfold int64_range, MinInt64, MaxInt64 in *. lia.
Qed.

(** The series grows by the tail records that [writeTail] keeps. *)
Lemma series_kept (rs tl : list fsDsRecord) :
  series rs -> Forall plain tl -> series (rs ++ kept (lastTs rs) tl).
Proof.
  intros [Hs Hall] Htl.
  destruct (kept_increasing (lastTs rs) tl) as [Hk Hk60].
  apply StronglySorted_inv in Hk as [Hk Hlt].
  split.
  - rewrite map_app. apply sorted_app_lt; [exact Hs|exact Hk|].
    intros x y Hx Hy.
    pose proof (sorted_last_max (map ts rs) Hs lastWrEmpty x Hx) as Hmax.
    fold (lastTs rs) in Hmax.
    rewrite Forall_forall in Hlt. apply list_elem_of_In, Hlt in Hy. lia.
  - apply Forall_app. split; [exact Hall|].
    apply Forall_forall. intros r Hr. rewrite Forall_forall in Hk60, Htl.
    split; [now apply Hk60|]. apply Htl.
    apply list_elem_of_In in Hr. apply kept_In in Hr as [Hr _]. now apply list_elem_of_In.
Qed.

Lemma last_app_default {A : Type} (a b : list A) :
  forall d, List.last (a ++ b) d = List.last b (List.last a d).
Proof.
  induction a as [|x a IH]; intros d; [reflexivity|].
  rewrite <- app_comm_cons, !last_cons_default. apply IH.
Qed.

Lemma lastTs_app (rs ks : list fsDsRecord) :
  lastTs (rs ++ ks) = List.last (map ts ks) (lastTs rs).
Proof. unfold lastTs. rewrite map_app. apply last_app_default. Qed.

(** The last index entry opens the run that the last record closes. *)
Lemma gaps_last_run (rs : list fsDsRecord) :
  forall lw pos t p k,
    StronglySorted Z.lt (lw :: map ts rs) -> Z.rem lw 60 = 0 ->
    Forall (fun r => Z.rem (ts r) 60 = 0) rs ->
    pos - p = 8 * k -> 1 <= k -> lw = t + 60 * (k - 1) ->
    exists t' p' k',
      List.last (gaps lw pos rs) (t, p) = (t', p') /\
      pos + 8 * len rs - p' = 8 * k' /\ 1 <= k' /\
      List.last (map ts rs) lw = t' + 60 * (k' - 1) /\
      ((t', p') = (t, p) \/ In (t', p') (gaps lw pos rs)).
Proof.
  induction rs as [|r rs IH]; intros lw pos t p k Hs Hlw H60 Hp Hk Ht.
  - exists t, p, k. simpl. change (len (@nil fsDsRecord)) with 0.
    repeat split; auto; lia.
  - apply Forall_cons_iff in H60 as [Hr H60].
    simpl map in Hs. apply StronglySorted_inv in Hs as [Hs Hlt].
    assert (Hlr : lw < ts r) by (apply Forall_cons_iff in Hlt; tauto).
    pose proof (rem60_step lw (ts r) Hlw Hr Hlr) as Hstep.
    cbn [gaps map]. rewrite last_cons_default, len_cons. unfold fsDsDSize.
    destruct (Z.gtb_spec (ts r) (lw + 60)) as [Hgap|Hnext].
    + cbn [app]. rewrite last_cons_default.
      destruct (IH (ts r) (pos + 8) (ts r) pos 1) as (t' & p' & k' & H1 & H2 & H3 & H4 & H5);
        auto; try lia.
      exists t', p', k'. split; [exact H1|]. split; [lia|]. split; [exact H3|].
      split; [exact H4|]. right. destruct H5 as [H5|H5]; [left; now symmetry|now right].
    + cbn [app].
      destruct (IH (ts r) (pos + 8) t p (k + 1)) as (t' & p' & k' & H1 & H2 & H3 & H4 & H5);
        auto; try lia.
      exists t', p', k'. split; [exact H1|]. split; [lia|]. auto.
Qed.

Lemma gaps_positions (rs : list fsDsRecord) :
  forall lw pos e, In e (gaps lw pos rs) ->
    exists j, 0 <= j < len rs /\ snd e = pos + 8 * j.
Proof.
  induction rs as [|r rs IH]; intros lw pos e; [intros []|].
  cbn [gaps]. rewrite len_cons. pose proof (len_nonneg rs). unfold fsDsDSize.
  intros Hin. apply in_app_or in Hin as [Hin|Hin].
  - destruct (ts r >? lw + 60); [|destruct Hin].
    destruct Hin as [<-|[]]. exists 0. simpl. lia.
  - apply IH in Hin as (j & Hj & ->). exists (j + 1). lia.
Qed.

(** The last index entry of a stored series that is not empty. *)
Lemma stored_last_entry (rs : list fsDsRecord) :
  series rs -> rs <> [] ->
  exists G t p k,
    gaps lastWrEmpty 0 rs = G ++ [(t, p)] /\
    8 * len rs - p = 8 * k /\ 1 <= k /\ lastTs rs = t + 60 * (k - 1) /\
    0 <= t <= MaxInt64 /\ Z.rem t 60 = 0 /\ 0 <= p /\ Z.rem p 8 = 0.
Proof.
  intros [Hs Hall] Hne. destruct rs as [|r0 rs]; [congruence|].
  apply Forall_cons_iff in Hall as [(H60 & (H0 & H1) & _) Hall].
  assert (Hgap : (ts r0 >? lastWrEmpty + 60) = true).
  { rewrite lastWrEmpty_value. apply Z.gtb_lt. lia. }
  assert (HG : gaps lastWrEmpty 0 (r0 :: rs) = (ts r0, 0) :: gaps (ts r0) 8 rs).
  { cbn [gaps]. rewrite Hgap. reflexivity. }
  destruct (gaps_last_run rs (ts r0) 8 (ts r0) 0 1)
    as (t & p & k & H2 & H3 & H4 & H5 & H6); auto; try lia.
  { eapply Forall_impl; [exact Hall|]. simpl. tauto. }
  exists (removelast ((ts r0, 0) :: gaps (ts r0) 8 rs)), t, p, k.
  split.
  { rewrite HG. rewrite <- H2, <- (last_cons_default (ts r0, 0) (0, 0)).
    apply app_removelast_last. discriminate. }
  rewrite len_cons. split; [lia|]. split; [exact H4|].
  split; [unfold lastTs; simpl map; rewrite last_cons_default; exact H5|].
  destruct H6 as [[= -> ->]|Hin].
  - repeat split; auto; lia.
  - destruct (gaps_from_records _ _ _ _ Hin) as (r & Hr & Ht). simpl in Ht. subst t.
    destruct (gaps_positions _ _ _ _ Hin) as (j & Hj & Hpj). simpl in Hpj. subst p.
    rewrite Forall_forall in Hall. apply list_elem_of_In, Hall in Hr.
    destruct Hr as (Hr60 & (Hr0 & Hr1) & _).
    repeat split; auto; try lia.
    apply Z.rem_divide; [lia|]. exists (1 + j). lia.
Qed.

Lemma rem_mul_l (a b : Z) : b <> 0 -> Z.rem (b * a) b = 0.
Proof. intros Hb. rewrite Z.mul_comm. now apply Z.rem_mul. Qed.

(** [openFiles] on a stream whose files hold a series: the stream ends up
    valid with the sizes of the files and the last timestamp of the series,
    whether it trusted its bookkeeping or read the files again. *)
Lemma openFiles_stored (rs : list fsDsRecord) (st : fsDsStream) (fs : files) :
  series rs -> stored rs (name st) fs -> tracked rs st ->
  16 * len rs <= MaxInt64 ->
  exists fs1,
    openFiles st fs
    = (mkStream (name st) (tail st) true (lastTs rs) (8 * len rs)
                (16 * len (gaps lastWrEmpty 0 rs)), fs1, None) /\
    forall g, contents fs1 g = contents fs g.
Proof.
  intros Hser [Hdat Hidx] Htr Hfit. unfold openFiles.
  set (fs0 := openCreate (idxFile (name st)) (openCreate (datFile (name st)) fs)).
  assert (Hc : forall g, contents fs0 g = contents fs g).
  { intros g. unfold fs0. now rewrite !contents_openCreate. }
  exists fs0. split; [|exact Hc].
  destruct (valid st) eqn:Hv.
  { destruct (Htr Hv) as (H1 & H2 & H3). rewrite <- H1, <- H2, <- H3, <- Hv.
    now destruct st. }
  rewrite !Hc, Hdat, Hidx, len_encodeData, len_encodeIdx.
  assert (Hlm : len (map value rs) = len rs) by (unfold len; now rewrite length_map).
  rewrite Hlm.
  set (G := gaps lastWrEmpty 0 rs) in *.
  unfold fsDsISize, fsDsDSize.
  rewrite !rem_mul_l by lia. simpl negb. simpl orb. cbv iota.
  assert (Hcase : rs = [] \/ rs <> []) by (destruct rs; [now left|right; discriminate]).
  destruct Hcase as [Hnil|Hne].
  { subst rs. reflexivity. }
  destruct (stored_last_entry rs Hser Hne)
    as (G' & t & p & k & HG & Hk8 & Hk1 & Hlast & Ht & Ht60 & Hp0 & Hp8).
  fold G in HG. rewrite HG.
  pose proof (len_nonneg G') as HG0. pose proof (len_nonneg rs) as Hrs0.
  assert (HlenG : len (G' ++ [(t, p)]) = len G' + 1)
    by (rewrite len_app, len_cons, len_nil; lia).
  rewrite HlenG.
  destruct (Z.eqb_spec (16 * (len G' + 1)) 0); [lia|].
  assert (Hread : readAt (encodeIdx (G' ++ [(t, p)])) (16 * (len G' + 1) - 16) 16
                  = Ok (put64 t ++ put64 p)).
  { rewrite encodeIdx_app. unfold encodeIdx at 2. cbn [flat_map fst snd].
    replace (16 * (len G' + 1) - 16) with (len (encodeIdx G'))
      by (rewrite len_encodeIdx; lia).
    replace 16%nat with (length (put64 t ++ put64 p))
      by (rewrite length_app, !length_put64; reflexivity).
    apply readAt_mid. }
  rewrite Hread.
  rewrite firstn_put64, skipn_put64.
  assert (Hgl : len G <= len rs) by apply gaps_len.
  rewrite HG, HlenG in Hgl.
  rewrite !getInt64_put64 by (unfold int64_range, MinInt64, MaxInt64 in *; lia).
  assert (Hlw : add64 t (mul64 60 (sub64 (Z.quot (sub64 (8 * len rs) p) 8) 1))
                = lastTs rs).
  { destruct (lastTs_range rs Hser) as (_ & Hr & _).
    unfold int64_range, MinInt64, MaxInt64 in Hr, Ht, Hfit.
    unfold add64, sub64, mul64.
    rewrite (wrap64_id (8 * len rs - p))
      by (unfold int64_range, MinInt64, MaxInt64; lia).
    rewrite Hk8.
    replace (Z.quot (8 * k) 8) with k by (rewrite (Z.mul_comm 8 k), Z.quot_mul; lia).
    rewrite (wrap64_id (k - 1)) by (unfold int64_range, MinInt64, MaxInt64; lia).
    rewrite (wrap64_id (60 * (k - 1)))
      by (unfold int64_range, MinInt64, MaxInt64; lia).
    rewrite wrap64_id by (unfold int64_range, MinInt64, MaxInt64; lia).
    lia. }
  rewrite Hlw. reflexivity.
Qed.

(** A stream with another tail. *)
Definition withTail (st : fsDsStream) (tl : list fsDsRecord) : fsDsStream :=
  mkStream (name st) tl (valid st) (lastWr st) (dsize st) (isize st).

(** [writeTail] on a stream whose files hold the series [rs]. *)
Lemma writeTail_stored (rs : list fsDsRecord) (st : fsDsStream) (fs : files) :
  series rs -> stored rs (name st) fs -> tracked rs st ->
  Forall plain (tail st) ->
  16 * (len rs + len (tail st)) <= MaxInt64 ->
  let rs' := rs ++ kept (lastTs rs) (tail st) in
  exists fs',
    writeTail st fs
    = (mkStream (name st) (tail st) true (lastTs rs') (8 * len rs')
                (16 * len (gaps lastWrEmpty 0 rs')), fs', None) /\
    stored rs' (name st) fs' /\
    (forall g, g <> datFile (name st) -> g <> idxFile (name st) ->
       contents fs' g = contents fs g).
Proof.
  intros Hser Hst Htr Hpl Hfit rs'.
  pose proof (len_nonneg rs) as Hrs0. pose proof (len_nonneg (tail st)) as Htl0.
  destruct (openFiles_stored rs st fs Hser Hst Htr ltac:(lia)) as (fs1 & Hopen & Hc).
  destruct Hst as [Hdat Hidx].
  destruct (lastTs_range rs Hser) as (Hl60 & Hlr & _).
  pose proof (gaps_len lastWrEmpty 0 rs) as HG.
  pose proof (len_nonneg (gaps lastWrEmpty 0 rs)) as HG0.
  unfold writeTail. rewrite Hopen. cbn [tail dsize isize lastWr name valid].
  rewrite tailLoop_spec; auto; try (unfold MinInt64, MaxInt64 in *; lia).
  2:{ eapply Forall_impl; [exact Hpl|]. intros r [Hr _].
      unfold int64_range, MinInt64, MaxInt64 in *. lia. }
  cbn [app]. rewrite !Hc, Hdat, Hidx.
  set (K := kept (lastTs rs) (tail st)).
  assert (HD : encodeData (map value rs) ++ encodeData (map value K)
               = encodeData (map value rs')).
  { unfold rs'. now rewrite map_app, encodeData_app. }
  assert (HI : encodeIdx (gaps lastWrEmpty 0 rs)
                 ++ encodeIdx (gaps (lastTs rs) (8 * len rs) K)
               = encodeIdx (gaps lastWrEmpty 0 rs')).
  { unfold rs'. rewrite gaps_app, encodeIdx_app. reflexivity. }
  rewrite HD, HI.
  assert (E1 : List.last (map ts K) (lastTs rs) = lastTs rs')
    by (unfold rs'; fold K; now rewrite lastTs_app).
  assert (E2 : 8 * len rs + 8 * len K = 8 * len rs')
    by (unfold rs'; fold K; rewrite len_app; lia).
  assert (E3 : 16 * len (gaps lastWrEmpty 0 rs)
                 + 16 * len (gaps (lastTs rs) (8 * len rs) K)
               = 16 * len (gaps lastWrEmpty 0 rs')).
  { unfold rs'. fold K. rewrite gaps_app, len_app, Z.add_0_l. unfold lastTs. lia. }
  rewrite E1, E2, E3.
  eexists. split; [|split].
  - reflexivity.
  - split.
    + rewrite contents_insert_ne by (intros E; symmetry in E; now apply dat_idx_distinct in E).
      apply contents_insert_eq.
    + apply contents_insert_eq.
  - intros g Hg1 Hg2. rewrite !contents_insert_ne by congruence. apply Hc.
Qed.

(** X10.  The files of a stream always hold a series.  When [n.dat] and
    [n.idx] hold a series [rs] (minute records with strictly increasing
    timestamps, one index entry per run of consecutive minutes) and the
    stream either has not looked at its files yet or keeps the sizes and
    last timestamp of [rs], [writeTail] succeeds and the files hold the
    series [rs] followed by the tail records it keeps: those on a minute
    and strictly later than every record written before.  Nothing already
    in the files is rewritten and no other file changes. *)
Theorem writeTail_keeps_series (rs : list fsDsRecord) (st : fsDsStream) (fs : files) :
  series rs -> stored rs (name st) fs -> tracked rs st ->
  Forall plain (tail st) ->
  16 * (len rs + len (tail st)) <= MaxInt64 ->
  let rs' := rs ++ kept (lastTs rs) (tail st) in
  exists st' fs',
    writeTail st fs = (st', fs', None) /\
    series rs' /\ stored rs' (name st) fs' /\ tracked rs' st' /\
    name st' = name st /\ valid st' = true /\
    (forall g, g <> datFile (name st) -> g <> idxFile (name st) ->
       contents fs' g = contents fs g).
Proof.
  intros Hser Hst Htr Hpl Hfit rs'.
  destruct (writeTail_stored rs st fs Hser Hst Htr Hpl Hfit) as (fs' & Hw & Hst' & Hother).
  eexists _, fs'. split; [exact Hw|].
  split; [now apply series_kept|]. split; [exact Hst'|].
  split; [intros _; cbn; auto|]. auto.
Qed.

(** A new stream on an empty directory with five queued records: those at
    90 (not a minute) and at 240 (in the past) are dropped. *)
Lemma writeTail_keeps_series_witness :
  let st := mkStream "s" [mkRec 60 7; mkRec 120 8; mkRec 90 1; mkRec 300 9; mkRec 240 2]
                     false 0 0 0 in
  exists st' fs',
    writeTail st ∅ = (st', fs', None) /\
    stored [mkRec 60 7; mkRec 120 8; mkRec 300 9] "s" fs'.
Proof.
  intros st.
  destruct (writeTail_keeps_series [] st ∅) as (st' & fs' & Hw & _ & Hs & _).
  - split; constructor.
  - split; reflexivity.
  - intros H. discriminate H.
  - repeat constructor; vm_compute; discriminate.
  - vm_compute. discriminate.
  - exists st', fs'. split; [exact Hw|exact Hs].
Defined.

(** X11.  Batching does not matter.  Writing the records [a] and then, in
    a second pass, the records [b] leaves every file, and the bookkeeping of
    the stream, exactly as writing [a ++ b] in one pass does. *)
Theorem writeTail_batches (rs a b : list fsDsRecord) (st : fsDsStream) (fs : files) :
  series rs -> stored rs (name st) fs -> tracked rs st ->
  Forall plain a -> Forall plain b ->
  16 * (len rs + len a + len b) <= MaxInt64 ->
  exists st1 fs1 st2 fs2 st3 fs3,
    writeTail (withTail st a) fs = (st1, fs1, None) /\
    writeTail (withTail st1 b) fs1 = (st2, fs2, None) /\
    writeTail (withTail st (a ++ b)) fs = (st3, fs3, None) /\
    (forall g, contents fs2 g = contents fs3 g) /\
    lastWr st2 = lastWr st3 /\ dsize st2 = dsize st3 /\ isize st2 = isize st3.
Proof.
  intros Hser Hst Htr Ha Hb Hfit.
  pose proof (len_nonneg rs) as Hrs0. pose proof (len_nonneg a) as Ha0.
  pose proof (len_nonneg b) as Hb0.
  destruct (writeTail_stored rs (withTail st a) fs) as (fs1 & Hw1 & Hst1 & Ho1); auto.
  { cbn. lia. }
  cbn [withTail name tail] in Hw1, Hst1, Ho1.
  set (Ka := kept (lastTs rs) a) in *.
  set (st1 := mkStream (name st) a true (lastTs (rs ++ Ka)) (8 * len (rs ++ Ka))
                       (16 * len (gaps lastWrEmpty 0 (rs ++ Ka)))) in *.
  pose proof (kept_len (lastTs rs) a) as HKa. fold Ka in HKa.
  destruct (writeTail_stored (rs ++ Ka) (withTail st1 b) fs1) as (fs2 & Hw2 & Hst2 & Ho2).
  { now apply series_kept. }
  { exact Hst1. }
  { intros _. cbn. auto. }
  { exact Hb. }
  { cbn. rewrite len_app. lia. }
  cbn [withTail st1 name tail] in Hw2, Hst2, Ho2.
  destruct (writeTail_stored rs (withTail st (a ++ b)) fs) as (fs3 & Hw3 & Hst3 & Ho3); auto.
  { cbn. apply Forall_app. now split. }
  { cbn. rewrite len_app. lia. }
  cbn [withTail name tail] in Hw3, Hst3, Ho3.
  assert (E : (rs ++ Ka) ++ kept (lastTs (rs ++ Ka)) b = rs ++ kept (lastTs rs) (a ++ b)).
  { rewrite kept_app, <- app_assoc. fold Ka. now rewrite lastTs_app. }
  rewrite E in Hw2, Hst2.
  eexists _, fs1, _, fs2, _, fs3.
  split; [exact Hw1|]. split; [exact Hw2|]. split; [exact Hw3|].
  split; [|cbn; auto].
  intros g. destruct Hst2 as [D2 I2], Hst3 as [D3 I3].
  destruct (string_dec g (datFile (name st))) as [->|Hd]; [congruence|].
  destruct (string_dec g (idxFile (name st))) as [->|Hi]; [congruence|].
  rewrite Ho2, Ho1, Ho3 by assumption. reflexivity.
Qed.

Lemma writeTail_batches_witness :
  let st := mkStream "s" [] false 0 0 0 in
  exists st1 fs1 st2 fs2 st3 fs3,
    writeTail (withTail st [mkRec 60 7; mkRec 120 8]) ∅ = (st1, fs1, None) /\
    writeTail (withTail st1 [mkRec 60 1; mkRec 300 9]) fs1 = (st2, fs2, None) /\
    writeTail (withTail st [mkRec 60 7; mkRec 120 8; mkRec 60 1; mkRec 300 9]) ∅
      = (st3, fs3, None) /\
    (forall g, contents fs2 g = contents fs3 g).
Proof.
  intros st.
  destruct (writeTail_batches [] [mkRec 60 7; mkRec 120 8] [mkRec 60 1; mkRec 300 9] st ∅)
    as (st1 & fs1 & st2 & fs2 & st3 & fs3 & H1 & H2 & H3 & H4 & _).
  - split; constructor.
  - split; reflexivity.
  - intros H. discriminate H.
  - repeat constructor; vm_compute; discriminate.
  - repeat constructor; vm_compute; discriminate.
  - vm_compute. discriminate.
  - exists st1, fs1, st2, fs2, st3, fs3. auto.
Defined.

(** *** The search in the index *)

(** An index entry as [readIdxEntry] accepts it. *)
Definition entryOk (e : Z * Z) : Prop :=
  Z.rem (fst e) 60 = 0 /\ Z.rem (snd e) 8 = 0 /\
  int64_range (fst e) /\ int64_range (snd e).

(** A snapshot whose index file holds the entries [es], in increasing order
    of their timestamps. *)
Definition indexed (es : list (Z * Z)) (s : fsDsSnapshot) : Prop :=
  s_idx s = encodeIdx es /\ s_isize s = 16 * len es /\
  Forall entryOk es /\ StronglySorted Z.lt (map fst es) /\
  16 * len es <= MaxInt64.

Definition entryAt (es : list (Z * Z)) (i : Z) : Z * Z := nth (Z.to_nat i) es (0, 0).

Lemma entryAt_nth_error (es : list (Z * Z)) (i : Z) :
  0 <= i < len es -> nth_error es (Z.to_nat i) = Some (entryAt es i).
Proof.
  intros Hi. unfold entryAt. apply nth_error_nth'. unfold len in Hi. lia.
Qed.

Lemma entryAt_sorted (es : list (Z * Z)) (i j : Z) :
  StronglySorted Z.lt (map fst es) -> 0 <= i -> i < j -> j < len es ->
  fst (entryAt es i) < fst (entryAt es j).
Proof.
  intros Hs Hi Hij Hj.
  apply (TimerFacts.StronglySorted_nth Z.lt (map fst es) Hs (Z.to_nat i) (Z.to_nat j)); [lia| |].
  - rewrite nth_error_map, entryAt_nth_error by lia. reflexivity.
  - rewrite nth_error_map, entryAt_nth_error by lia. reflexivity.
Qed.

Lemma readIdxEntry_at (es : list (Z * Z)) (s : fsDsSnapshot) (i : Z) :
  indexed es s -> 0 <= i < len es -> readIdxEntry s i = Ok (entryAt es i).
Proof.
  intros (Hidx & _ & Hok & _ & Hfit) Hi.
  pose proof (entryAt_nth_error es i Hi) as Hn.
  destruct (nth_error_split es (Z.to_nat i) Hn) as (l1 & l2 & Hes & Hl1).
  destruct (entryAt es i) as [t p] eqn:He.
  assert (Hin : In (t, p) es) by (rewrite Hes; apply in_elt).
  rewrite Forall_forall in Hok. apply list_elem_of_In, Hok in Hin.
  destruct Hin as (H60 & H8 & Ht & Hp). simpl in H60, H8, Ht, Hp.
  unfold readIdxEntry. rewrite Hidx.
  assert (Hoff : mul64 i fsDsISize = len (encodeIdx l1)).
  { unfold mul64, fsDsISize. rewrite len_encodeIdx.
    rewrite wrap64_id by (unfold int64_range, MinInt64, MaxInt64 in *; lia).
    unfold len. lia. }
  rewrite Hoff.
  assert (Henc : encodeIdx es = encodeIdx l1 ++ (put64 t ++ put64 p) ++ encodeIdx l2).
  { rewrite Hes, encodeIdx_app. reflexivity. }
  rewrite Henc.
  replace 16%nat with (length (put64 t ++ put64 p))
    by (rewrite length_app, !length_put64; reflexivity).
  rewrite readAt_mid, bind_Ok.
  rewrite firstn_put64, skipn_put64, !getInt64_put64 by assumption.
  unfold fsDsDSize. rewrite H60, H8. reflexivity.
Qed.

(** The loop of [findIdx] keeps the answer between [i] and [j] and ends
    within [j - i + 1] iterations. *)
Lemma findIdxLoop_spec (es : list (Z * Z)) (s : fsDsSnapshot) (t0 : Z) :
  indexed es s ->
  forall (fuel : nat) (i j : Z),
    0 <= i <= j -> j < len es -> (Z.to_nat (j - i) < fuel)%nat ->
    fst (entryAt es i) <= t0 ->
    (j + 1 < len es -> t0 < fst (entryAt es (j + 1))) ->
    exists k,
      findIdxLoop fuel s t0 i j = Ok k /\ i <= k <= j /\
      fst (entryAt es k) <= t0 /\
      (k + 1 < len es -> t0 < fst (entryAt es (k + 1))).
Proof.
  intros Hind. pose proof Hind as (_ & _ & _ & Hs & Hfit).
  induction fuel as [|fuel IH]; intros i j Hij Hj Hfuel Hi Hnext; [lia|].
  cbn [findIdxLoop].
  destruct (Z.ltb_spec i j) as [Hlt|Hge].
  2:{ exists i. assert (i = j) by lia. subst j. auto with zarith. }
  unfold add64. rewrite wrap64_id
    by (unfold int64_range, MinInt64, MaxInt64 in *; lia).
  rewrite Z.quot_div_nonneg by lia.
  set (k := (i + j) / 2).
  assert (Hk : i <= k < j).
  { unfold k. pose proof (Z.div_mod (i + j) 2 ltac:(lia)).
    pose proof (Z.mod_pos_bound (i + j) 2 ltac:(lia)). lia. }
  rewrite (readIdxEntry_at es s k Hind) by lia.
  destruct (entryAt es k) as [t p] eqn:Hek. rewrite bind_Ok.
  assert (Htk : fst (entryAt es k) = t) by now rewrite Hek.
  destruct (Z.eqb_spec t t0) as [Heq|Hne].
  { destruct (IH k k) as (r & Hr & Hr1 & Hr2 & Hr3); try lia.
    - intros _. subst t0. rewrite <- Htk. apply entryAt_sorted; auto; lia.
    - exists r. split; [exact Hr|]. split; [lia|auto]. }
  destruct (Z.gtb_spec t t0) as [Hgt|Hle].
  { assert (Hik : i < k).
    { destruct (Z.eq_dec i k) as [E|]; [|lia]. subst k. rewrite <- E in Htk. lia. }
    unfold sub64. rewrite wrap64_id
      by (unfold int64_range, MinInt64, MaxInt64 in *; lia).
    destruct (IH i (k - 1)) as (r & Hr & Hr1 & Hr2 & Hr3); try lia.
    - intros _. replace (k - 1 + 1) with k by lia. lia.
    - exists r. split; [exact Hr|]. split; [lia|auto]. }
  destruct (Z.eqb_spec i k) as [Eik|Nik]; cbn [negb].
  - assert (Hj1 : j = i + 1).
    { unfold k in Eik. pose proof (Z.div_mod (i + j) 2 ltac:(lia)).
      pose proof (Z.mod_pos_bound (i + j) 2 ltac:(lia)). lia. }
    rewrite (readIdxEntry_at es s j Hind) by lia.
    destruct (entryAt es j) as [x px] eqn:Hej. rewrite bind_Ok.
    assert (Hxj : fst (entryAt es j) = x) by now rewrite Hej.
    destruct (Z.gtb_spec x t0) as [Hx|Hx].
    + destruct (IH i i) as (r & Hr & Hr1 & Hr2 & Hr3); try lia.
      * intros _. rewrite <- Hj1. lia.
      * exists r. split; [exact Hr|]. split; [lia|auto].
    + destruct (IH j j) as (r & Hr & Hr1 & Hr2 & Hr3); try lia.
      exists r. split; [exact Hr|]. split; [lia|auto].
  - destruct (IH k j) as (r & Hr & Hr1 & Hr2 & Hr3); try lia.
    exists r. split; [exact Hr|]. split; [lia|auto].
Qed.

(** The result of [findIdx] on an index with increasing timestamps. *)
Lemma findIdx_spec (es : list (Z * Z)) (s : fsDsSnapshot) (t0 : Z) :
  indexed es s ->
  exists k,
    findIdx s t0 = Ok k /\ -1 <= k < len es /\
    forall (i : nat) (e : Z * Z),
      nth_error es i = Some e -> (Z.of_nat i <= k <-> fst e <= t0).
Proof.
  intros Hind. pose proof Hind as (_ & Hsz & _ & Hs & Hfit).
  pose proof (len_nonneg es) as Hn.
  assert (Hchar : forall k, -1 <= k < len es ->
            (0 <= k -> fst (entryAt es k) <= t0) ->
            (k + 1 < len es -> t0 < fst (entryAt es (k + 1))) ->
            forall (i : nat) (e : Z * Z),
              nth_error es i = Some e -> (Z.of_nat i <= k <-> fst e <= t0)).
  { intros k Hk Hlo Hhi i e He.
    assert (Hi : 0 <= Z.of_nat i < len es).
    { assert (i < length es)%nat by (apply nth_error_Some; congruence).
      unfold len. lia. }
    assert (Hei : entryAt es (Z.of_nat i) = e).
    { pose proof (entryAt_nth_error es (Z.of_nat i) Hi) as H.
      rewrite Nat2Z.id in H. congruence. }
    rewrite <- Hei. split.
    - intros Hle. destruct (Z.eq_dec (Z.of_nat i) k) as [->|]; [apply Hlo; lia|].
      pose proof (entryAt_sorted es (Z.of_nat i) k Hs). specialize (Hlo ltac:(lia)). lia.
    - intros Hle. destruct (Z_le_gt_dec (Z.of_nat i) k) as [|Hgt]; [assumption|].
      exfalso. specialize (Hhi ltac:(lia)).
      destruct (Z.eq_dec (Z.of_nat i) (k + 1)) as [E|]; [rewrite E in Hle; lia|].
      pose proof (entryAt_sorted es (k + 1) (Z.of_nat i) Hs). lia. }
  unfold findIdx. rewrite Hsz.
  destruct (Z.eqb_spec (16 * len es) 0) as [Hz|Hnz].
  { exists (-1). split; [reflexivity|]. split; [lia|].
    apply Hchar; lia. }
  rewrite (readIdxEntry_at es s 0 Hind) by lia.
  destruct (entryAt es 0) as [first p0] eqn:H0. rewrite bind_Ok.
  destruct (Z.gtb_spec first t0) as [Hgt|Hle].
  { exists (-1). split; [reflexivity|]. split; [lia|].
    apply Hchar; [lia|lia|]. intros _. change (-1 + 1) with 0. rewrite H0. simpl. lia. }
  unfold fsDsISize, sub64.
  replace (Z.quot (16 * len es) 16) with (len es)
    by (rewrite (Z.mul_comm 16), Z.quot_mul; lia).
  rewrite wrap64_id by (unfold int64_range, MinInt64, MaxInt64 in *; lia).
  destruct (findIdxLoop_spec es s t0 Hind (S (Z.to_nat (len es - 1))) 0 (len es - 1))
    as (k & Hk & Hk1 & Hk2 & Hk3); try lia.
  { rewrite H0. exact Hle. }
  exists k. split; [exact Hk|]. split; [lia|].
  apply Hchar; auto; lia.
Qed.

(** X12.  The binary search of [findIdx].  On an index file that holds
    entries with strictly increasing timestamps, [findIdx(ts)] ends without
    an error and returns the position of the last entry whose timestamp is
    at most [ts]: an entry is at or before the returned position exactly
    when its timestamp is at most [ts], and the result is [-1] when no entry
    is. *)
Theorem findIdx_search (es : list (Z * Z)) (s : fsDsSnapshot) (t0 : Z) :
  indexed es s ->
  exists k,
    findIdx s t0 = Ok k /\ -1 <= k < len es /\
    forall (i : nat) (e : Z * Z),
      nth_error es i = Some e -> (Z.of_nat i <= k <-> fst e <= t0).
Proof. exact (findIdx_spec es s t0). Qed.

(** Three index entries, searched for minute 360. *)
Lemma findIdx_search_witness :
  let es := [(60, 0); (300, 16); (600, 24)] in
  let s := mkSnapshot [] [] (encodeIdx es) 0 0 48 in
  findIdx s 360 = Ok 1.
Proof.
  intros es s.
  destruct (findIdx_search es s 360) as (k & Hk & Hr & Hc).
  - split; [reflexivity|]. split; [reflexivity|]. split; [|split].
    + repeat constructor; vm_compute; discriminate.
    + repeat constructor.
    + vm_compute. discriminate.
  - pose proof (proj2 (Hc 1%nat (300, 16) eq_refl)) as H1.
    pose proof (proj1 (Hc 2%nat (600, 24) eq_refl)) as H2.
    simpl in H1, H2.
    assert (k = 1) by lia. subst k. exact Hk.
Defined.

(** *** [LatestBefore] *)

Lemma gaps_sorted (rs : list fsDsRecord) :
  forall lw pos,
    StronglySorted Z.lt (map ts rs) -> StronglySorted Z.lt (map fst (gaps lw pos rs)).
Proof.
  induction rs as [|r rs IH]; intros lw pos Hs; [constructor|].
  simpl map in Hs. apply StronglySorted_inv in Hs as [Hs Hlt].
  cbn [gaps]. rewrite map_app. apply sorted_app_lt.
  - destruct (ts r >? lw + 60); repeat constructor.
  - now apply IH.
  - intros x y Hx Hy.
    assert (x = ts r).
    { destruct (ts r >? lw + 60); [|destruct Hx]. destruct Hx as [<-|[]]. reflexivity. }
    subst x. apply in_map_iff in Hy as (e & <- & He).
    apply gaps_from_records in He as (r' & Hr' & ->).
    rewrite Forall_forall in Hlt. apply Hlt, list_elem_of_In, in_map, Hr'.
Qed.

Lemma gaps_entryOk (rs : list fsDsRecord) :
  series rs -> 16 * len rs <= MaxInt64 -> Forall entryOk (gaps lastWrEmpty 0 rs).
Proof.
  intros [_ Hall] Hfit. apply Forall_forall. intros e He.
  apply list_elem_of_In in He.
  assert (Hal : Forall (fun e => Z.rem (fst e) 60 = 0 /\ Z.rem (snd e) fsDsDSize = 0)
                        (gaps lastWrEmpty 0 rs)).
  { apply gaps_aligned; [reflexivity|].
    eapply Forall_impl; [exact Hall|]. simpl. tauto. }
  rewrite Forall_forall in Hal.
  destruct (Hal e ltac:(now apply list_elem_of_In)) as [H60 H8].
  destruct (gaps_from_records _ _ _ _ He) as (r & Hr & Ht).
  destruct (gaps_positions _ _ _ _ He) as (j & Hj & Hp).
  rewrite Forall_forall in Hall. apply list_elem_of_In, Hall in Hr.
  destruct Hr as (_ & (Hr0 & Hr1) & _).
  repeat split; auto; unfold MinInt64, MaxInt64 in *; lia.
Qed.

(** The snapshot of a stream whose files hold the series [rs]. *)
Lemma snapshot_indexed (rs : list fsDsRecord) (tl : list fsDsRecord) :
  series rs -> 16 * len rs <= MaxInt64 ->
  indexed (gaps lastWrEmpty 0 rs)
    (mkSnapshot tl (encodeData (map value rs)) (encodeIdx (gaps lastWrEmpty 0 rs))
                (lastTs rs) (8 * len rs) (16 * len (gaps lastWrEmpty 0 rs))).
Proof.
  intros Hser Hfit. split; [reflexivity|]. split; [reflexivity|].
  split; [now apply gaps_entryOk|]. split; [apply gaps_sorted, Hser|].
  pose proof (gaps_len lastWrEmpty 0 rs). lia.
Qed.

Lemma makeSnapshot_run (ds : FsDatastore) (n : string) (st st1 : fsDsStream) (fs1 : files) :
  running ds = true -> streams ds !! n = Some st ->
  openFiles st (disk ds) = (st1, fs1, None) ->
  makeSnapshot ds n
  = (putStream ds st1 fs1,
     Ok (mkSnapshot (tail st1) (contents fs1 (datFile (name st1)))
                    (contents fs1 (idxFile (name st1)))
                    (lastWr st1) (dsize st1) (isize st1))).
Proof.
  intros Hrun Hst Hopen. unfold makeSnapshot, getStream.
  rewrite Hrun, Hst. cbn [negb]. rewrite Hst.
  unfold makeSnapshotSt. rewrite Hopen. reflexivity.
Qed.

(** The bound of [LatestBefore]: [ts - ts%60]. *)
Definition minuteOf (t : Z) : Z := sub64 t (Z.rem t 60).

(** The tail path of [LatestBefore]. *)
Lemma LatestBefore_tail_run (ds : FsDatastore) (n : string) (t : Z)
    (st st1 : fsDsStream) (fs1 : files) :
  running ds = true -> streams ds !! n = Some st ->
  openFiles st (disk ds) = (st1, fs1, None) ->
  (exists r, In r (kept (lastWr st1) (tail st)) /\ ts r <= minuteOf t) ->
  exists r,
    snd (LatestBefore ds n t) = Ok (mkRecord (ts r) (value r)) /\
    In r (kept (lastWr st1) (tail st)) /\ ts r <= minuteOf t /\
    forall r', In r' (kept (lastWr st1) (tail st)) -> ts r' <= minuteOf t ->
      ts r' <= ts r.
Proof.
  intros Hrun Hst Hopen (r0 & Hr0 & Hle0).
  destruct (openFiles_Ok st st1 (disk ds) fs1 Hopen) as (_ & Htail & _).
  unfold LatestBefore. rewrite (makeSnapshot_run ds n st st1 fs1 Hrun Hst Hopen).
  cbn [snd]. fold (minuteOf t). unfold findTail. cbn [s_tail s_lastWr]. rewrite Htail.
  destruct (findTailLoop_spec (tail st) (minuteOf t) (lastWr st1) (-1) 0)
    as [[_ Hnone]|(j & r & Hf & Hn & Hin & Hle & Hmax)].
  { apply Hnone in Hr0. lia. }
  rewrite Hf. rewrite Z.add_0_l.
  destruct (Z.eqb_spec (Z.of_nat j) (-1)); [lia|]. cbn [negb].
  assert (Hi : index (tail st) (Z.of_nat j) = Ok r).
  { unfold index. destruct (Z.leb_spec 0 (Z.of_nat j)); [|lia].
    now rewrite Nat2Z.id, Hn. }
  rewrite Hi, bind_Ok. exists r. auto.
Qed.

(** X13.  [LatestBefore] answered from the tail.  When the tail of a
    loaded stream holds a record that the writer will keep (on a minute,
    later than everything written) at or before the bound [ts - ts%60],
    [LatestBefore(name, ts)] returns the latest such record of the tail,
    without reading the data file. *)
Theorem LatestBefore_tail (ds : FsDatastore) (n : string) (t : Z)
    (st st1 : fsDsStream) (fs1 : files) :
  running ds = true -> streams ds !! n = Some st ->
  openFiles st (disk ds) = (st1, fs1, None) ->
  (exists r, In r (kept (lastWr st1) (tail st)) /\ ts r <= minuteOf t) ->
  exists r,
    snd (LatestBefore ds n t) = Ok (mkRecord (ts r) (value r)) /\
    In r (kept (lastWr st1) (tail st)) /\ ts r <= minuteOf t /\
    forall r', In r' (kept (lastWr st1) (tail st)) -> ts r' <= minuteOf t ->
      ts r' <= ts r.
Proof. exact (LatestBefore_tail_run ds n t st st1 fs1). Qed.

(** Three records waiting in the tail, asked at second 150. *)
Lemma LatestBefore_tail_witness :
  let ds1 := fst (Open NewFsDatastore) in
  let ds2 := fst (Insert ds1 "s" (mkRecord 60 7)) in
  let ds3 := fst (Insert ds2 "s" (mkRecord 120 8)) in
  let ds4 := fst (Insert ds3 "s" (mkRecord 180 9)) in
  exists r,
    snd (LatestBefore ds4 "s" 150) = Ok (mkRecord (ts r) (value r)) /\ ts r <= 120 /\
    (In (mkRec 120 8) (kept lastWrEmpty [mkRec 60 7; mkRec 120 8; mkRec 180 9]) ->
     120 <= ts r).
Proof.
  intros ds1 ds2 ds3 ds4.
  destruct (LatestBefore_tail ds4 "s" 150
              (mkStream "s" [mkRec 60 7; mkRec 120 8; mkRec 180 9] false 0 0 0)
              (mkStream "s" [mkRec 60 7; mkRec 120 8; mkRec 180 9] true lastWrEmpty 0 0)
              (<["s.idx" := []]> (<["s.dat" := []]> ∅)))
    as (r & Hr & _ & Hle & Hmax).
  - reflexivity.
  - vm_compute. reflexivity.
  - vm_compute. reflexivity.
  - exists (mkRec 60 7). split; [now left|]. vm_compute. discriminate.
  - exists r. split; [exact Hr|]. split; [exact Hle|].
    intros Hin. apply (Hmax (mkRec 120 8) Hin). vm_compute. discriminate.
Defined.

(** A stream that is not loaded is loaded with an empty tail before the
    snapshot is made. *)
Lemma makeSnapshot_create (ds : FsDatastore) (n : string) :
  running ds = true -> streams ds !! n = None ->
  makeSnapshot ds n = makeSnapshot (createStream ds n []) n.
Proof.
  intros Hrun Hnone.
  assert (E : streams (createStream ds n []) !! n = Some (mkStream n [] false 0 0 0))
    by (cbn; apply lookup_insert_eq).
  assert (R : running (createStream ds n []) = true) by exact Hrun.
  unfold makeSnapshot, getStream. rewrite Hrun, R, Hnone, E. cbn [negb]. rewrite E.
  reflexivity.
Qed.

(** The disk path of [LatestBefore] at or after the last stored record. *)
Lemma LatestBefore_stored_run (rs0 : list fsDsRecord) (rl : fsDsRecord)
    (ds : FsDatastore) (n : string) (t : Z) (st : fsDsStream) :
  let rs := rs0 ++ [rl] in
  running ds = true -> streams ds !! n = Some st -> name st = n ->
  tracked rs st ->
  (forall r, In r (kept (lastTs rs) (tail st)) -> minuteOf t < ts r) ->
  series rs -> stored rs n (disk ds) -> 16 * len rs <= MaxInt64 ->
  ts rl <= minuteOf t ->
  snd (LatestBefore ds n t) = Ok (mkRecord (ts rl) (value rl)).
Proof.
  intros rs Hrun Hst Hname Htr Htail Hser Hstored Hfit Hle.
  rewrite <- Hname in Hstored.
  destruct (openFiles_stored rs st (disk ds) Hser Hstored Htr Hfit) as (fs1 & Hopen & Hc).
  destruct Hstored as [Hdat Hidx].
  unfold LatestBefore. rewrite (makeSnapshot_run ds n st _ fs1 Hrun Hst Hopen).
  cbn [snd name tail lastWr dsize isize]. fold (minuteOf t).
  rewrite !Hc, Hdat, Hidx.
  set (G := gaps lastWrEmpty 0 rs).
  set (s := mkSnapshot (tail st) (encodeData (map value rs)) (encodeIdx G)
                       (lastTs rs) (8 * len rs) (16 * len G)).
  assert (Hind : indexed G s) by now apply snapshot_indexed.
  (* nothing in the tail *)
  assert (Hft : findTail s (minuteOf t) = -1).
  { unfold findTail. cbn [s s_tail s_lastWr].
    destruct (findTailLoop_spec (tail st) (minuteOf t) (lastTs rs) (-1) 0)
      as [[Hf _]|(j & r & _ & _ & Hin & Hr & _)]; [exact Hf|].
    apply Htail in Hin. lia. }
  rewrite Hft. cbn [Z.eqb negb].
  (* the last index entry *)
  assert (Hne : rs <> []) by (unfold rs; destruct rs0; discriminate).
  destruct (stored_last_entry rs Hser Hne)
    as (G' & t' & p' & k' & HG & Hk8 & Hk1 & Hlast & Ht' & Ht60 & Hp0 & Hp8).
  fold G in HG.
  assert (HlastTs : lastTs rs = ts rl) by (unfold rs; now rewrite lastTs_app).
  pose proof (len_nonneg G') as HG0. pose proof (len_nonneg rs) as Hrs0.
  assert (HlenG : len G = len G' + 1)
    by (rewrite HG, len_app, len_cons, len_nil; lia).
  assert (Hnth : nth_error G (length G') = Some (t', p')).
  { rewrite HG, nth_error_app2, Nat.sub_diag by lia. reflexivity. }
  destruct (findIdx_spec G s (minuteOf t) Hind) as (k & Hk & Hkr & Hchar).
  rewrite Hk, bind_Ok.
  assert (Hkeq : k = len G').
  { pose proof (proj2 (Hchar _ _ Hnth)) as H. simpl in H.
    specialize (H ltac:(lia)). unfold len in *. lia. }
  subst k.
  destruct (Z.eqb_spec (len G') (-1)); [lia|].
  assert (Hentry : entryAt G (len G') = (t', p')).
  { pose proof (entryAt_nth_error G (len G') ltac:(lia)) as H.
    unfold len in H at 1. rewrite Nat2Z.id in H. congruence. }
  rewrite (readIdxEntry_at G s (len G') Hind) by lia.
  rewrite Hentry, bind_Ok.
  cbn [s s_isize s_dsize s_dat]. unfold fsDsISize, fsDsDSize, sub64.
  replace (Z.quot (16 * len G) 16) with (len G)
    by (rewrite (Z.mul_comm 16), Z.quot_mul; lia).
  pose proof (gaps_len lastWrEmpty 0 rs) as HGl. fold G in HGl.
  rewrite (wrap64_id (len G - 1))
    by (unfold int64_range, MinInt64, MaxInt64 in *; lia).
  destruct (Z.eqb_spec (len G') (len G - 1)); [|lia].
  assert (Hlen : len rs = len rs0 + 1)
    by (unfold rs; rewrite len_app, len_cons, len_nil; lia).
  pose proof (len_nonneg rs0) as Hrs00.
  rewrite bind_Ok.
  rewrite (wrap64_id (8 * len rs - 8))
    by (unfold int64_range, MinInt64, MaxInt64 in *; lia).
  assert (Hread : readAt (encodeData (map value rs)) (8 * len rs - 8) 8
                  = Ok (put64 (value rl))).
  { unfold rs. rewrite map_app, encodeData_app.
    replace (encodeData (map value [rl])) with (put64 (value rl) ++ [])
      by reflexivity.
    replace (8 * len (rs0 ++ [rl]) - 8) with (len (encodeData (map value rs0))).
    2:{ fold rs. rewrite len_encodeData. unfold len at 1. rewrite length_map.
        fold (len rs0). lia. }
    rewrite <- (length_put64 (value rl)) at 1. apply readAt_mid. }
  rewrite Hread, bind_Ok.
  assert (Hrl : plain rl).
  { destruct Hser as [_ Hall]. rewrite Forall_forall in Hall.
    apply (Hall rl). apply list_elem_of_In. unfold rs. apply in_or_app. right. now left. }
  rewrite getUint64_put64 by apply Hrl.
  destruct (lastTs_range rs Hser) as (_ & Hr & _).
  unfold int64_range, MinInt64, MaxInt64 in Hr, Ht', Hfit.
  rewrite (wrap64_id (8 * len rs - 8 - p'))
    by (unfold int64_range, MinInt64, MaxInt64; lia).
  replace (8 * len rs - 8 - p') with ((k' - 1) * 8) by lia.
  rewrite Z.quot_mul by lia.
  unfold add64, mul64.
  rewrite (wrap64_id (60 * (k' - 1)))
    by (unfold int64_range, MinInt64, MaxInt64; lia).
  rewrite wrap64_id by (unfold int64_range, MinInt64, MaxInt64; lia).
  rewrite <- Hlast, HlastTs. reflexivity.
Qed.

(** X14.  [LatestBefore] at or after the last write.  When the files of
    a stream hold a series whose last record is [rl], the stream is not
    loaded or agrees with its files, and its tail holds nothing the writer
    would keep at or before the bound, [LatestBefore(name, ts)] with
    [rl.ts <= ts - ts%60] returns [rl]: the index search ends on the last
    entry and the record is read from the end of the data file. *)
Theorem LatestBefore_newest_stored (rs0 : list fsDsRecord) (rl : fsDsRecord)
    (ds : FsDatastore) (n : string) (t : Z) :
  let rs := rs0 ++ [rl] in
  running ds = true ->
  match streams ds !! n with
  | None => True
  | Some st =>
      name st = n /\ tracked rs st /\
      forall r, In r (kept (lastTs rs) (tail st)) -> minuteOf t < ts r
  end ->
  series rs -> stored rs n (disk ds) -> 16 * len rs <= MaxInt64 ->
  ts rl <= minuteOf t ->
  snd (LatestBefore ds n t) = Ok (mkRecord (ts rl) (value rl)).
Proof.
  intros rs Hrun Hst Hser Hstored Hfit Hle.
  destruct (streams ds !! n) as [st|] eqn:E.
  - destruct Hst as (Hname & Htr & Htail).
    now apply (LatestBefore_stored_run rs0 rl ds n t st).
  - assert (HL : LatestBefore ds n t = LatestBefore (createStream ds n []) n t).
    { unfold LatestBefore. now rewrite makeSnapshot_create. }
    rewrite HL.
    apply (LatestBefore_stored_run rs0 rl (createStream ds n []) n t
             (mkStream n [] false 0 0 0)); auto.
    + cbn. apply lookup_insert_eq.
    + intros H. discriminate H.
    + intros r [].
Qed.

(** The records at 60, 120 and 180 written to disk, asked at second 200. *)
Lemma LatestBefore_newest_stored_witness :
  let ds1 := fst (Open NewFsDatastore) in
  let ds2 := fst (Insert ds1 "s" (mkRecord 60 7)) in
  let ds3 := fst (Insert ds2 "s" (mkRecord 120 8)) in
  let ds4 := fst (Insert ds3 "s" (mkRecord 180 9)) in
  let ds5 := drain 10 ds4 (-1) in
  snd (LatestBefore ds5 "s" 200) = Ok (mkRecord 180 9).
Proof.
  intros ds1 ds2 ds3 ds4 ds5.
  apply (LatestBefore_newest_stored [mkRec 60 7; mkRec 120 8] (mkRec 180 9) ds5 "s" 200).
  - reflexivity.
  - assert (E : streams ds5 !! "s" = None) by (vm_compute; reflexivity).
    rewrite E. exact I.
  - split; [repeat constructor|repeat constructor; vm_compute; discriminate].
  - split; vm_compute; reflexivity.
  - vm_compute. discriminate.
  - vm_compute. discriminate.
Defined.

(** *** Insert, write, look up *)

Lemma kept_series (tl : list fsDsRecord) :
  forall lw, StronglySorted Z.lt (lw :: map ts tl) ->
    Forall (fun r => Z.rem (ts r) 60 = 0) tl -> kept lw tl = tl.
Proof.
  induction tl as [|r tl IH]; intros lw Hs H60; [reflexivity|].
  apply Forall_cons_iff in H60 as [Hr H60].
  simpl map in Hs. apply StronglySorted_inv in Hs as [Hs Hlt].
  assert (Hlr : lw < ts r) by (apply Forall_cons_iff in Hlt; tauto).
  cbn [kept]. rewrite Hr. cbn [Z.eqb andb].
  destruct (Z.ltb_spec lw (ts r)); [|lia].
  f_equal. now apply IH.
Qed.

Lemma series_from_empty (rs : list fsDsRecord) :
  series rs -> kept lastWrEmpty rs = rs.
Proof.
  intros [Hs Hall]. apply kept_series.
  - constructor; [exact Hs|]. apply Forall_forall. intros x Hx.
    apply list_elem_of_In, in_map_iff in Hx as (r & <- & Hr).
    rewrite Forall_forall in Hall. apply list_elem_of_In, Hall in Hr.
    destruct Hr as (_ & (H0 & _) & _). rewrite lastWrEmpty_value. lia.
  - eapply Forall_impl; [exact Hall|]. simpl. tauto.
Qed.

(** A run of [Insert] calls on one stream. *)
Definition insertAll (ds : FsDatastore) (n : string) (rs : list fsDsRecord)
  : FsDatastore :=
  fold_left (fun d r => fst (Insert d n (mkRecord (ts r) (value r)))) rs ds.

Lemma insertAll_cons (ds : FsDatastore) (n : string) (r : fsDsRecord)
    (rs : list fsDsRecord) :
  insertAll ds n (r :: rs) = insertAll (fst (Insert ds n (mkRecord (ts r) (value r)))) n rs.
Proof. reflexivity. Qed.

Lemma insertAll_loaded (rs : list fsDsRecord) :
  forall (ds : FsDatastore) (n : string) (st : fsDsStream),
    running ds = true -> streams ds !! n = Some st -> name st = n ->
    insertAll ds n rs
    = mkDs (isDir ds) (disk ds)
           (<[n := mkStream n (tail st ++ rs) (valid st) (lastWr st) (dsize st) (isize st)]>
              (streams ds))
           (queue ds) (running ds).
Proof.
  induction rs as [|r rs IH]; intros ds n st Hrun Hst Hname.
  - simpl. rewrite app_nil_r. destruct ds as [d f sts q rn]. cbn in *. f_equal.
    symmetry. apply insert_id. rewrite Hst. f_equal. destruct st; cbn in *. now subst.
  - rewrite insertAll_cons.
    assert (HI : fst (Insert ds n (mkRecord (ts r) (value r)))
                 = mkDs (isDir ds) (disk ds)
                        (<[n := mkStream n (tail st ++ [r]) (valid st) (lastWr st)
                                         (dsize st) (isize st)]> (streams ds))
                        (queue ds) (running ds)).
    { unfold Insert, getStream. rewrite Hrun, Hst. cbn [negb]. rewrite Hst.
      cbn [fst]. unfold putStream. cbn [name Go.Ts Go.Value]. rewrite Hname, Hrun.
      destruct r. reflexivity. }
    rewrite HI.
    rewrite (IH _ n (mkStream n (tail st ++ [r]) (valid st) (lastWr st) (dsize st) (isize st)));
      [|exact Hrun|cbn; apply lookup_insert_eq|reflexivity].
    cbn. rewrite insert_insert_eq, <- app_assoc. reflexivity.
Qed.

Lemma Insert_new (ds : FsDatastore) (n : string) (r : fsDsRecord) :
  running ds = true -> streams ds !! n = None ->
  fst (Insert ds n (mkRecord (ts r) (value r)))
  = mkDs (isDir ds) (disk ds) (<[n := mkStream n [r] false 0 0 0]> (streams ds))
         (queue ds ++ [n]) true.
Proof.
  intros Hrun Hnone. unfold Insert, getStream. rewrite Hrun, Hnone. cbn [negb].
  unfold createStream. cbn [streams]. rewrite lookup_insert_eq.
  cbn [fst]. unfold putStream.
  cbn [name tail valid lastWr dsize isize isDir disk streams queue running Go.Ts Go.Value app].
  rewrite insert_insert_eq, Hrun. destruct r. reflexivity.
Qed.

Lemma insertAll_new (rs : list fsDsRecord) (n : string) :
  rs <> [] ->
  insertAll (fst (Open NewFsDatastore)) n rs
  = mkDs true ∅ (<[n := mkStream n rs false 0 0 0]> ∅) [n] true.
Proof.
  intros Hne. destruct rs as [|r0 rs]; [congruence|].
  assert (H0 : fst (Open NewFsDatastore) = mkDs true ∅ ∅ [] true) by reflexivity.
  rewrite H0, insertAll_cons.
  rewrite Insert_new by (try reflexivity; apply lookup_empty).
  rewrite (insertAll_loaded rs _ n (mkStream n [r0] false 0 0 0));
    [|reflexivity|apply lookup_insert_eq|reflexivity].
  cbn [isDir disk streams queue running tail valid lastWr dsize isize app].
  rewrite insert_insert_eq. reflexivity.
Qed.

(** X15.  Insert, write, look up.  On a datastore opened on an empty
    directory, the records of a series inserted into a stream wait in its
    tail; one pass of the writer stores exactly this series in the files of
    the stream and empties the tail, and from then on [LatestBefore(name,
    ts)] with a bound at or after the last record returns that record. *)
Theorem insert_write_lookup (rs0 : list fsDsRecord) (rl : fsDsRecord)
    (n : string) (t : Z) :
  let rs := rs0 ++ [rl] in
  series rs -> 16 * len rs <= MaxInt64 -> ts rl <= minuteOf t ->
  let ds := insertAll (fst (Open NewFsDatastore)) n rs in
  exists ds',
    writeStep ds (-1) = Some (ds', 0) /\
    stored rs n (disk ds') /\
    (exists st, streams ds' !! n = Some st /\ tail st = []) /\
    snd (LatestBefore ds' n t) = Ok (mkRecord (ts rl) (value rl)).
Proof.
  intros rs Hser Hfit Hle ds.
  assert (Hne : rs <> []) by (unfold rs; destruct rs0; discriminate).
  assert (Hds : ds = mkDs true ∅ (<[n := mkStream n rs false 0 0 0]> ∅) [n] true)
    by (unfold ds; now apply insertAll_new).
  set (st := mkStream n rs false 0 0 0).
  assert (Hpl : Forall plain rs).
  { destruct Hser as [_ Hall]. eapply Forall_impl; [exact Hall|]. simpl. tauto. }
  destruct (writeTail_stored [] st ∅) as (fs' & Hw & Hst & _).
  { split; constructor. }
  { split; reflexivity. }
  { intros H. discriminate H. }
  { exact Hpl. }
  { cbn. change (len (@nil fsDsRecord)) with 0. lia. }
  cbn [app name tail st] in Hw, Hst.
  change (lastTs []) with lastWrEmpty in Hw, Hst.
  rewrite (series_from_empty rs Hser) in Hw, Hst.
  assert (Hstep : writeStep ds (-1)
                  = Some (mkDs true fs'
                            (<[n := mkStream n [] true (lastTs rs) (8 * len rs)
                                             (16 * len (gaps lastWrEmpty 0 rs))]>
                               (<[n := st]> ∅)) [n] true, 0)).
  { rewrite Hds. unfold writeStep. cbn [running queue negb streams disk].
    change (len [n]) with 1. change (1 =? 0) with false. cbv iota.
    change (-1 + 1 >=? 1) with false. cbv iota.
    change (Z.to_nat (-1 + 1)) with 0%nat. change ([n] !! 0%nat) with (Some n).
    cbn [mbind option_bind]. rewrite lookup_insert_eq. cbn [mbind option_bind tail].
    destruct (Z.eqb_spec (len rs) 0) as [E|_].
    { exfalso. destruct rs as [|r rs']; [congruence|]. rewrite len_cons in E.
      pose proof (len_nonneg rs'). lia. }
    fold st. rewrite Hw. unfold putStream.
    cbn [name tail valid lastWr dsize isize isDir disk streams queue running].
    reflexivity. }
  eexists. split; [exact Hstep|]. cbn [disk streams].
  split; [exact Hst|]. split.
  { eexists. split; [apply lookup_insert_eq|reflexivity]. }
  apply (LatestBefore_stored_run rs0 rl _ n t
           (mkStream n [] true (lastTs rs) (8 * len rs) (16 * len (gaps lastWrEmpty 0 rs))));
    auto.
  - cbn. apply lookup_insert_eq.
  - intros _. cbn. auto.
  - intros r [].
Qed.

Lemma insert_write_lookup_witness :
  let ds := insertAll (fst (Open NewFsDatastore)) "s"
              [mkRec 60 7; mkRec 120 8; mkRec 300 9] in
  exists ds',
    writeStep ds (-1) = Some (ds', 0) /\
    stored [mkRec 60 7; mkRec 120 8; mkRec 300 9] "s" (disk ds') /\
    snd (LatestBefore ds' "s" 359) = Ok (mkRecord 300 9).
Proof.
  intros ds.
  destruct (insert_write_lookup [mkRec 60 7; mkRec 120 8] (mkRec 300 9) "s" 359)
    as (ds' & H1 & H2 & _ & H3).
  - split; [repeat constructor|repeat constructor; vm_compute; discriminate].
  - vm_compute. discriminate.
  - vm_compute. discriminate.
  - exists ds'. auto.
Defined.

(** *** Edge cases *)

(** X16.  [LatestBefore] on a stream nobody has written.  On a running
    datastore, for a name that is neither loaded nor has files, the call
    answers "No data"; as a side effect it creates the two files, empty,
    loads the stream and queues it for the writer. *)
Theorem LatestBefore_unknown (ds : FsDatastore) (n : string) (t : Z) :
  running ds = true -> streams ds !! n = None ->
  disk ds !! datFile n = None -> disk ds !! idxFile n = None ->
  LatestBefore ds n t
  = (mkDs (isDir ds) (<[idxFile n := []]> (<[datFile n := []]> (disk ds)))
          (<[n := mkStream n [] true lastWrEmpty 0 0]> (streams ds))
          (queue ds ++ [n]) true,
     Err ErrNoData).
Proof.
  intros Hrun Hnone Hdat Hidx.
  assert (Hidx' : <[datFile n := []]> (disk ds) !! idxFile n = None).
  { rewrite lookup_insert_ne; [exact Hidx|apply dat_idx_distinct]. }
  assert (Hopen : openFiles (mkStream n [] false 0 0 0) (disk ds)
                  = (mkStream n [] true lastWrEmpty 0 0,
                     <[idxFile n := []]> (<[datFile n := []]> (disk ds)), None)).
  { unfold openFiles. cbn [name valid tail lastWr]. cbv zeta.
    set (fs0 := openCreate (idxFile n) (openCreate (datFile n) (disk ds))).
    assert (Hfs0 : fs0 = <[idxFile n := []]> (<[datFile n := []]> (disk ds))).
    { unfold fs0. unfold openCreate at 2. rewrite Hdat. unfold openCreate.
      now rewrite Hidx'. }
    assert (Hc1 : contents fs0 (datFile n) = []).
    { unfold fs0. rewrite !contents_openCreate. unfold contents. now rewrite Hdat. }
    assert (Hc2 : contents fs0 (idxFile n) = []).
    { unfold fs0. rewrite !contents_openCreate. unfold contents. now rewrite Hidx. }
    rewrite Hc1, Hc2, Hfs0. reflexivity. }
  unfold LatestBefore. rewrite makeSnapshot_create by assumption.
  rewrite (makeSnapshot_run (createStream ds n []) n (mkStream n [] false 0 0 0) _ _
             Hrun ltac:(cbn; apply lookup_insert_eq) Hopen).
  cbn [name tail lastWr dsize isize].
  unfold findTail, findIdx. cbn [s_tail s_isize findTailLoop Z.eqb negb].
  rewrite bind_Ok. cbn [Z.eqb].
  unfold putStream, createStream.
  cbn [name isDir disk streams queue running]. rewrite insert_insert_eq, Hrun.
  reflexivity.
Qed.

Lemma LatestBefore_unknown_witness :
  snd (LatestBefore (fst (Open NewFsDatastore)) "cpu:count" 1000) = Err ErrNoData /\
  disk (fst (LatestBefore (fst (Open NewFsDatastore)) "cpu:count" 1000))
  = <["cpu:count.idx" := []]> (<["cpu:count.dat" := []]> ∅).
Proof.
  rewrite (LatestBefore_unknown (fst (Open NewFsDatastore)) "cpu:count" 1000);
    [|reflexivity|apply lookup_empty|apply lookup_empty|apply lookup_empty].
  split; reflexivity.
Defined.

(** X17.  A datastore that is not running.  [Insert], [LatestBefore] and
    [Close] answer "Datastore not running" and change nothing, and the
    writer does not move; [Query], whose test of the snapshot is inverted,
    dereferences the nil snapshot instead: it panics. *)
Theorem not_running (ds : FsDatastore) (n : string) (r : Record_ float64bits)
    (t from until k : Z) :
  running ds = false ->
  Insert ds n r = (ds, Some ErrNotRunning) /\
  LatestBefore ds n t = (ds, Err ErrNotRunning) /\
  Close ds = (ds, Some ErrNotRunning) /\
  Query ds n from until = (ds, Panic) /\
  writeStep ds k = None.
Proof.
  intros Hrun.
  unfold Insert, LatestBefore, Close, Query, makeSnapshot, getStream, writeStep.
  rewrite Hrun. auto.
Qed.

Lemma not_running_witness :
  Query NewFsDatastore "s" 0 60 = (NewFsDatastore, Panic) /\
  LatestBefore (fst (Close (fst (Open NewFsDatastore)))) "s" 60
  = (fst (Close (fst (Open NewFsDatastore))), Err ErrNotRunning).
Proof.
  split.
  - apply (not_running NewFsDatastore "s" (mkRecord 0 0) 0 0 60 0 eq_refl).
  - apply (not_running (fst (Close (fst (Open NewFsDatastore)))) "s" (mkRecord 0 0)
             60 0 0 0 eq_refl).
Defined.

(** *** The writer's queue *)

(** Every loaded stream is queued once, under its own name. *)
Definition queued (ds : FsDatastore) : Prop :=
  NoDup (queue ds) /\
  (forall n, n ∈ queue ds <-> is_Some (streams ds !! n)) /\
  (forall n st, streams ds !! n = Some st -> name st = n).

Lemma openFiles_name (st : fsDsStream) (fs : files) :
  name (fst (fst (openFiles st fs))) = name st /\
  tail (fst (fst (openFiles st fs))) = tail st.
Proof.
  unfold openFiles. destruct (valid st); [auto|]. cbv zeta.
  destruct (_ || _); [auto|]. destruct (_ =? 0); [auto|].
  destruct (readAt _ _ _); auto.
Qed.

Lemma writeTail_name (st : fsDsStream) (fs : files) :
  name (fst (fst (writeTail st fs))) = name st.
Proof.
  unfold writeTail. pose proof (openFiles_name st fs) as [Hn _].
  destruct (openFiles st fs) as [[st1 fs1] [e|]]; [exact Hn|].
  destruct (tailLoop _ _ _ _ _ _) as [[[[dsz isz] lw] dbuff] ibuff]. exact Hn.
Qed.

Lemma getStream_queued (ds : FsDatastore) (n : string) :
  queued ds -> running ds = true ->
  exists ds1 st,
    getStream ds n = (ds1, Some st) /\ queued ds1 /\ name st = n /\
    streams ds1 !! n = Some st /\ disk ds1 = disk ds /\ running ds1 = true.
Proof.
  intros (Hnd & Hq & Hnm) Hrun. unfold getStream. rewrite Hrun. cbn [negb].
  destruct (streams ds !! n) as [st|] eqn:E.
  - exists ds, st. rewrite E. repeat split; auto; try (now apply Hq); try (now apply Hnm).
  - exists (createStream ds n []), (mkStream n [] false 0 0 0).
    assert (El : streams (createStream ds n []) !! n = Some (mkStream n [] false 0 0 0))
      by (cbn; apply lookup_insert_eq).
    rewrite El. split; [reflexivity|]. split; [|auto].
    unfold createStream, queued. cbn [queue streams].
    split; [|split].
    + apply NoDup_app. split; [exact Hnd|]. split; [|apply NoDup_singleton].
      intros x Hx Hx'. apply list_elem_of_singleton in Hx'. subst x.
      apply Hq in Hx. rewrite E in Hx. now destruct Hx.
    + intros m. rewrite elem_of_app, list_elem_of_singleton, Hq.
      destruct (decide (m = n)) as [->|Hne].
      * rewrite lookup_insert_eq. split; [eauto|now right].
      * rewrite lookup_insert_ne by congruence. split; [intros [H|H]; [exact H|congruence]|now left].
    + intros m st. destruct (decide (m = n)) as [->|Hne].
      * rewrite lookup_insert_eq. now intros [= <-].
      * rewrite lookup_insert_ne by congruence. apply Hnm.
Qed.

Lemma putStream_queued (ds : FsDatastore) (st : fsDsStream) (fs : files) :
  queued ds -> is_Some (streams ds !! name st) -> queued (putStream ds st fs).
Proof.
  intros (Hnd & Hq & Hnm) Hs. unfold putStream, queued. cbn [queue streams].
  split; [exact Hnd|]. split.
  - intros m. rewrite Hq. destruct (decide (m = name st)) as [->|Hne].
    + rewrite lookup_insert_eq. split; eauto.
    + now rewrite lookup_insert_ne by congruence.
  - intros m st'. destruct (decide (m = name st)) as [->|Hne].
    + rewrite lookup_insert_eq. now intros [= <-].
    + rewrite lookup_insert_ne by congruence. apply Hnm.
Qed.

Lemma makeSnapshot_queued (ds : FsDatastore) (n : string) :
  queued ds -> queued (fst (makeSnapshot ds n)).
Proof.
  intros Hq. unfold makeSnapshot.
  destruct (running ds) eqn:Hrun.
  - destruct (getStream_queued ds n Hq Hrun) as (ds1 & st & -> & Hq1 & Hn & Hs & _).
    unfold makeSnapshotSt. pose proof (openFiles_name st (disk ds1)) as [Hname _].
    destruct (openFiles st (disk ds1)) as [[st1 fs1] [e|]]; cbn [fst] in *;
      apply putStream_queued; auto; rewrite Hname, Hn, Hs; eauto.
  - unfold getStream. rewrite Hrun. exact Hq.
Qed.

(** Removing position [i] of the queue by moving the last stream there. *)
Lemma swap_remove (q : list string) (i : nat) (x lst : string) :
  NoDup q -> q !! i = Some x -> q !! (length q - 1)%nat = Some lst ->
  let q' := take (length q - 1) (<[i := lst]> q) in
  NoDup q' /\ forall y, y ∈ q' <-> y ∈ q /\ y <> x.
Proof.
  intros Hnd Hi Hl q'.
  destruct (list_elem_of_split_length q i x Hi) as (a & b & Hq & Hla).
  destruct b as [|b0 b] using rev_ind.
  - (* the removed stream is the last one *)
    assert (Hlen : (length q - 1)%nat = i)
      by (rewrite Hq, length_app; simpl; lia).
    rewrite Hlen in Hl. assert (lst = x) by congruence. subst lst.
    assert (Hq' : q' = a).
    { unfold q'. rewrite list_insert_id by exact Hi. rewrite Hlen, Hq, Hla.
      apply take_app_length. }
    rewrite Hq'. rewrite Hq in Hnd. apply NoDup_app in Hnd as (Ha & Hax & _).
    split; [exact Ha|]. intros y. rewrite Hq, elem_of_app, list_elem_of_singleton.
    split.
    + intros Hy. split; [now left|]. intros ->. apply (Hax x Hy). now left.
    + intros [[Hy|Hy] Hne]; [exact Hy|congruence].
  - clear IHb.
    assert (Hlen : (length q - 1)%nat = length (a ++ x :: b)).
    { rewrite Hq, !length_app. simpl. rewrite length_app. simpl. lia. }
    assert (Hlst : lst = b0).
    { rewrite Hlen, Hq in Hl.
      replace (a ++ x :: b ++ [b0]) with ((a ++ x :: b) ++ [b0]) in Hl
        by (rewrite <- app_assoc; reflexivity).
      rewrite lookup_app_r, Nat.sub_diag in Hl by lia. simpl in Hl. congruence. }
    subst lst.
    assert (Hq' : q' = a ++ b0 :: b).
    { unfold q'. rewrite Hlen, Hq.
      replace (a ++ x :: b ++ [b0]) with ((a ++ x :: b) ++ [b0])
        by (rewrite <- app_assoc; reflexivity).
      rewrite insert_app_l by (rewrite length_app; simpl; lia).
      rewrite <- (length_insert (a ++ x :: b) i b0) at 1.
      rewrite take_app_length.
      rewrite Hla, insert_app_r_alt, Nat.sub_diag by lia. reflexivity. }
    rewrite Hq'. rewrite Hq in Hnd.
    assert (Hperm : a ++ x :: b ++ [b0] ≡ₚ x :: (a ++ b0 :: b)).
    { rewrite <- Permutation_middle. apply perm_skip.
      apply Permutation_app_head. rewrite Permutation_app_comm. reflexivity. }
    rewrite Hperm in Hnd. apply NoDup_cons in Hnd as [Hx Hnd].
    split; [exact Hnd|]. intros y. rewrite Hq, Hperm, elem_of_cons.
    split.
    + intros Hy. split; [now right|]. intros ->. contradiction.
    + intros [[->|Hy] Hne]; [congruence|exact Hy].
Qed.

(** X18.  The writer's queue and the map of loaded streams stay in step.
    On a datastore where every loaded stream is queued exactly once under
    its own name, this remains so after [Insert], [LatestBefore], [Query]
    and every pass of the writer; and a running writer with a non-empty queue always finds the stream it picks:
    it either writes its tail or, the tail being empty, unloads it. *)
Theorem queue_in_step (ds : FsDatastore) :
  queued ds ->
  (forall n r, queued (fst (Insert ds n r))) /\
  (forall n t, queued (fst (LatestBefore ds n t))) /\
  (forall n from until, queued (fst (Query ds n from until))) /\
  (forall k ds' k', writeStep ds k = Some (ds', k') -> queued ds') /\
  (forall k, running ds = true -> queue ds <> [] -> -1 <= k ->
     exists ds' k', writeStep ds k = Some (ds', k')).
Proof.
  intros Hq. split; [|split; [|split; [|split]]].
  - intros n r. unfold Insert. destruct (running ds) eqn:Hrun.
    + destruct (getStream_queued ds n Hq Hrun) as (ds1 & st & -> & Hq1 & Hn & Hs & _).
      cbn [fst]. apply putStream_queued; [exact Hq1|]. cbn [name]. rewrite Hn, Hs. eauto.
    + unfold getStream. rewrite Hrun. exact Hq.
  - intros n t. unfold LatestBefore.
    pose proof (makeSnapshot_queued ds n Hq) as H.
    destruct (makeSnapshot ds n) as [ds1 [s|e|]]; exact H.
  - intros n from until. unfold Query.
    pose proof (makeSnapshot_queued ds n Hq) as H.
    destruct (makeSnapshot ds n) as [ds1 [s|e|]]; exact H.
  - intros k ds' k'. unfold writeStep.
    destruct (running ds); cbn [negb]; [|discriminate].
    destruct (len (queue ds) =? 0); [discriminate|].
    set (i := if k + 1 >=? len (queue ds) then 0 else k + 1).
    destruct (queue ds !! Z.to_nat i) as [nm|] eqn:Hnm; [|discriminate].
    cbn [mbind option_bind].
    destruct (streams ds !! nm) as [st|] eqn:Hst; [|discriminate].
    cbn [mbind option_bind].
    pose proof Hq as (Hnd & Hin & Hname).
    pose proof (Hname nm st Hst) as Hn.
    destruct (len (tail st) =? 0).
    + destruct (queue ds !! Z.to_nat (len (queue ds) - 1)) as [lst|] eqn:Hlst;
        [|discriminate].
      cbn [mbind option_bind]. intros [= <- _].
      replace (Z.to_nat (len (queue ds) - 1)) with (length (queue ds) - 1)%nat in *
        by (unfold len; lia).
      destruct (swap_remove (queue ds) (Z.to_nat i) nm lst Hnd Hnm Hlst) as [Hnd' Hin'].
      unfold queued. cbn [queue streams]. split; [exact Hnd'|]. split.
      * intros m. rewrite Hin', Hin, Hn.
        destruct (decide (m = nm)) as [->|Hne].
        -- rewrite lookup_delete_eq. split; [tauto|]. intros [? H]. discriminate H.
        -- rewrite lookup_delete_ne by congruence. tauto.
      * intros m st'. rewrite Hn. destruct (decide (m = nm)) as [->|Hne].
        -- rewrite lookup_delete_eq. discriminate.
        -- rewrite lookup_delete_ne by congruence. apply Hname.
    + pose proof (writeTail_name st (disk ds)) as Hwn.
      destruct (writeTail st (disk ds)) as [[st1 fs1] err]. cbn [fst] in Hwn.
      intros [= <- _]. apply putStream_queued; [exact Hq|].
      cbn [name]. rewrite Hwn, Hn, Hst. eauto.
  - intros k Hrun Hne Hk. unfold writeStep. rewrite Hrun. cbn [negb].
    pose proof (len_nonneg (queue ds)) as Hl.
    destruct (Z.eqb_spec (len (queue ds)) 0) as [E|E].
    { destruct (queue ds); [congruence|]. unfold len in E. simpl in E. lia. }
    set (i := if k + 1 >=? len (queue ds) then 0 else k + 1).
    assert (Hi : 0 <= i < len (queue ds)).
    { unfold i. destruct (Z.geb_spec (k + 1) (len (queue ds))); lia. }
    destruct Hq as (Hnd & Hin & Hname).
    destruct (queue ds !! Z.to_nat i) as [nm|] eqn:Hnm.
    2:{ apply lookup_ge_None in Hnm. unfold len in Hi. lia. }
    cbn [mbind option_bind].
    assert (Hs : is_Some (streams ds !! nm)).
    { apply Hin. eapply list_elem_of_lookup_2. exact Hnm. }
    destruct Hs as [st Hst]. rewrite Hst. cbn [mbind option_bind].
    destruct (len (tail st) =? 0).
    + destruct (queue ds !! Z.to_nat (len (queue ds) - 1)) as [lst|] eqn:Hlst.
      2:{ apply lookup_ge_None in Hlst. unfold len in *. lia. }
      cbn [mbind option_bind]. eauto.
    + destruct (writeTail st (disk ds)) as [[st1 fs1] err]. eauto.
Qed.

Lemma queue_in_step_witness :
  let ds := fst (Insert (fst (Open NewFsDatastore)) "s" (mkRecord 60 7)) in
  queued (fst (LatestBefore ds "t" 60)) /\
  exists ds' k', writeStep ds (-1) = Some (ds', k').
Proof.
  intros ds.
  assert (Hq : queued ds).
  { assert (E : ds = mkDs true ∅ (<["s" := mkStream "s" [mkRec 60 7] false 0 0 0]> ∅)
                          ["s"] true) by (vm_compute; reflexivity).
    rewrite E. split; [|split]; cbn [queue streams].
    - apply NoDup_singleton.
    - intros n. rewrite list_elem_of_singleton. destruct (decide (n = "s")) as [->|Hne].
      + rewrite lookup_insert_eq. split; eauto.
      + rewrite lookup_insert_ne by congruence. rewrite lookup_empty.
        split; [congruence|]. intros [? H]. discriminate H.
    - intros n st. destruct (decide (n = "s")) as [->|Hne].
      + rewrite lookup_insert_eq. now intros [= <-].
      + rewrite lookup_insert_ne by congruence. rewrite lookup_empty. discriminate. }
  destruct (queue_in_step ds Hq) as (_ & H2 & _ & _ & H5).
  split; [apply H2|].
  apply H5; [reflexivity|discriminate|lia].
Defined.

(** X19.  Records queued for a stream with a damaged file are lost.  When
    the writer picks a stream that has not looked at its files yet and the
    index file has a size that is no multiple of 16, or the data file a size
    that is no multiple of 8, [writeTail] fails and the writer goes on: the
    tail is emptied all the same, the stream stays loaded and is marked
    invalid, and no file content changes. *)
Theorem writer_drops_tail (ds : FsDatastore) (k : Z) (nm : string) (st : fsDsStream) :
  running ds = true ->
  queue ds !! Z.to_nat (if k + 1 >=? len (queue ds) then 0 else k + 1) = Some nm ->
  streams ds !! nm = Some st -> name st = nm -> valid st = false -> tail st <> [] ->
  Z.rem (len (contents (disk ds) (idxFile nm))) 16 <> 0 \/
  Z.rem (len (contents (disk ds) (datFile nm))) 8 <> 0 ->
  exists ds' k',
    writeStep ds k = Some (ds', k') /\
    (exists st', streams ds' !! nm = Some st' /\ tail st' = [] /\ valid st' = false) /\
    (forall g, contents (disk ds') g = contents (disk ds) g).
Proof.
  intros Hrun Hq Hst Hname Hv Htl Hbad.
  unfold writeStep. rewrite Hrun. cbn [negb].
  destruct (Z.eqb_spec (len (queue ds)) 0) as [E|_].
  { exfalso. destruct (queue ds); [|unfold len in E; simpl in E; lia].
    rewrite lookup_nil in Hq. discriminate. }
  rewrite Hq. cbn [mbind option_bind]. rewrite Hst. cbn [mbind option_bind].
  destruct (Z.eqb_spec (len (tail st)) 0) as [E|_].
  { exfalso. destruct (tail st); [congruence|]. unfold len in E. simpl in E. lia. }
  set (fs0 := openCreate (idxFile (name st)) (openCreate (datFile (name st)) (disk ds))).
  assert (Hc : forall g, contents fs0 g = contents (disk ds) g).
  { intros g. unfold fs0. now rewrite !contents_openCreate. }
  assert (Hopen : exists dsz isz e,
            openFiles st (disk ds)
            = (mkStream (name st) (tail st) false (lastWr st) dsz isz, fs0, Some e)).
  { unfold openFiles. rewrite Hv. cbv zeta. fold fs0. rewrite !Hc, Hname.
    unfold fsDsISize, fsDsDSize.
    destruct (Z.eqb_spec (Z.rem (len (contents (disk ds) (idxFile nm))) 16) 0) as [Hi|Hi];
      cbn [negb orb]; [|eauto].
    destruct (Z.eqb_spec (Z.rem (len (contents (disk ds) (datFile nm))) 8) 0) as [Hd|Hd];
      cbn [negb]; [|eauto].
    destruct Hbad; contradiction. }
  destruct Hopen as (dsz & isz & e & Hopen).
  unfold writeTail. rewrite Hopen. cbn [name valid lastWr dsize isize].
  eexists _, _. split; [reflexivity|]. unfold putStream. cbn [streams disk name].
  split; [|exact Hc].
  rewrite Hname, lookup_insert_eq. eexists. split; [reflexivity|]. auto.
Qed.

(** An index file of three bytes. *)
Lemma writer_drops_tail_witness :
  let ds := mkDs true (<["s.idx" := [byte_of_Z 1; byte_of_Z 2; byte_of_Z 3]]> ∅)
                 (<["s" := mkStream "s" [mkRec 60 7] false 0 0 0]> ∅) ["s"] true in
  exists ds' k',
    writeStep ds (-1) = Some (ds', k') /\
    (exists st', streams ds' !! "s" = Some st' /\ tail st' = [] /\ valid st' = false) /\
    contents (disk ds') "s.dat" = [].
Proof.
  intros ds.
  destruct (writer_drops_tail ds (-1) "s" (mkStream "s" [mkRec 60 7] false 0 0 0))
    as (ds' & k' & H1 & H2 & H3).
  - reflexivity.
  - reflexivity.
  - vm_compute. reflexivity.
  - reflexivity.
  - reflexivity.
  - discriminate.
  - left. vm_compute. discriminate.
  - exists ds', k'. split; [exact H1|]. split; [exact H2|].
    rewrite H3. vm_compute. reflexivity.
Defined.

End FsDsMore.

(** ** The goroutine of a watcher *)

Module RunFacts.
Import Go Run.

Lemma received_snoc (tr : list event) (e : event) :
  received (tr ++ [e]) = received tr ++ match e with Recv d => [d] | _ => [] end.
Proof. unfold received. rewrite flat_map_app. simpl. now rewrite app_nil_r. Qed.

Lemma sent_snoc (tr : list event) (e : event) :
  sent (tr ++ [e]) = sent tr ++ match e with Send d => [d] | _ => [] end.
Proof. unfold sent. rewrite flat_map_app. simpl. now rewrite app_nil_r. Qed.

Lemma run_buffer (tr : list event) (s : state) :
  run tr s -> received tr = sent tr ++ buff s.
Proof.
  induction 1 as [|tr s s' e _ IH Hstep]; [reflexivity|].
  rewrite received_snoc, sent_snoc.
  destruct Hstep; simpl in *; rewrite IH, ?app_nil_r, <- ?app_assoc; reflexivity.
Qed.

Lemma run_closed (tr : list event) (s : state) :
  run tr s -> outClosed s = true -> inOpen s = false /\ buff s = [].
Proof. intros Hrun. destruct Hrun as [|tr s s' e _ Hstep]; [discriminate|].
  destruct Hstep; simpl; try discriminate. auto.
Qed.

Lemma run_input_closed (tr : list event) (s : state) :
  run tr s -> inOpen s = false -> In RecvClosed tr.
Proof.
  induction 1 as [|tr s s' e _ IH Hstep]; [discriminate|].
  intros Hin. apply in_or_app.
  destruct Hstep; simpl in *; auto; discriminate.
Qed.

(** X20.  [Watcher.run] is a first-in first-out buffer between [w.in] and
    [w.out]: at any point of a run, the vectors received so far are the
    vectors sent so far, in the same order, followed by the buffer.  The
    output is closed only after the input was closed, and then every vector
    received has been sent. *)
Theorem Watcher_run_fifo (tr : list event) (s : state) :
  run tr s ->
  received tr = sent tr ++ buff s /\
  (outClosed s = true -> In RecvClosed tr /\ sent tr = received tr).
Proof.
  intros Hrun. split; [exact (run_buffer tr s Hrun)|].
  intros Hc. destruct (run_closed tr s Hrun Hc) as [Hin Hb]. split.
  - exact (run_input_closed tr s Hrun Hin).
  - rewrite (run_buffer tr s Hrun), Hb, app_nil_r. reflexivity.
Qed.

Lemma Watcher_run_fifo_witness :
  let a := [f0] in
  let b := [f1] in
  let tr := [Recv a; Recv b; Send a; RecvClosed; Send b; CloseOut] in
  run tr (mkRun false [] true) /\
  received tr = sent tr ++ [] /\
  (true = true -> In RecvClosed tr /\ sent tr = received tr).
Proof.
  intros a b tr.
  assert (Hrun : run tr (mkRun false [] true)).
  { apply (run_step [Recv a; Recv b; Send a; RecvClosed; Send b]
             (mkRun false [] false)); [|constructor].
    apply (run_step [Recv a; Recv b; Send a; RecvClosed]
             (mkRun false [b] false)); [|constructor].
    apply (run_step [Recv a; Recv b; Send a] (mkRun true [b] false)); [|constructor].
    apply (run_step [Recv a; Recv b] (mkRun true [a; b] false)); [|constructor].
    apply (run_step [Recv a] (mkRun true [a] false) (mkRun true ([a] ++ [b]) false));
      [|constructor].
    apply (run_step [] (mkRun true [] false) (mkRun true ([] ++ [a]) false));
      constructor. }
  split; [exact Hrun|].
  exact (Watcher_run_fifo tr (mkRun false [] true) Hrun).
Defined.

End RunFacts.

(** ** Injection, the clock and the idle entries *)

Module SrvMore.
Import GoFacts Srv SrvOps SrvFacts.

Section WithOps.

Context {D : Type} `{DS : Datastore D} `{K : Kinds} `{MO : !MetricOps K}.

(** *** Entry lookup *)

Lemma lookup_deleteEntry (me : metricEntry) (s : Server D) (t : MetricType)
    (n : string) :
  metrics (deleteEntry me s) t !! n
  = if decide (t = typ me /\ n = name me) then None else metrics s t !! n.
Proof.
  unfold deleteEntry. simpl.
  destruct (decide (t = typ me)) as [->|Ht].
  - destruct (decide (n = name me)) as [->|Hn].
    + rewrite lookup_delete_eq. destruct (decide _) as [_|[]]; auto.
    + rewrite lookup_delete_ne by congruence.
      destruct (decide _) as [[_ ?]|_]; [contradiction|reflexivity].
  - destruct (decide _) as [[? _]|_]; [contradiction|reflexivity].
Qed.

(** X21.  [getMetricEntry] registers the entry it returns under the kind
    and the name it was asked for, and leaves every other entry alone; a
    second call then finds the same entry and changes nothing, so that the
    datastore is asked for the defaults only when the entry is created. *)
Theorem getMetricEntry_again (t : MetricType) (n : string) (s s' : Server D)
    (me : metricEntry) :
  getMetricEntry t n s = (s', Ok me) ->
  metrics s' t !! n = Some me /\
  (forall t' n', (t', n') <> (t, n) -> metrics s' t' !! n' = metrics s t' !! n') /\
  getMetricEntry t n s' = (s', Ok me).
Proof.
  intros H. pose proof (getMetricEntry_registered t n s s' me H)
    as (Hl & Hothers & Hrun & _).
  split; [exact Hl|]. split; [exact Hothers|].
  apply getMetricEntry_Ok in H as (Hname & _).
  now apply getMetricEntry_present.
Qed.

(** *** Injection *)

(** Every entry is registered under its own kind and name. *)
Definition keyed (s : Server D) : Prop :=
  forall t n me, metrics s t !! n = Some me -> typ me = t /\ name me = n.

Lemma getMetricEntry_key (t : MetricType) (n : string) (s s' : Server D)
    (me : metricEntry) :
  keyed s -> getMetricEntry t n s = (s', Ok me) -> typ me = t /\ name me = n.
Proof.
  intros Hk H. apply getMetricEntry_Ok in H as (_ & _ & [[Hl _]|Hnew]).
  - exact (Hk t n me Hl).
  - destruct Hnew as (_ & Ht & Hn & _). auto.
Qed.

Lemma getChannelDefault_no_Err (t : MetricType) (n : string) (i ts : Z)
    (s s' : Server D) (e : Error) :
  getChannelDefault t n i ts s <> (s', Err e).
Proof.
  unfold getChannelDefault.
  unfold mbind, M_bind, lift, gets, mret, M_ret, panic, index, callDs.
  intros Hg.
  repeat (match type of Hg with
          | context [if ?b then _ else _] => destruct b
          | context [match nth_error ?l ?i with _ => _ end] =>
              destruct (nth_error l i)
          | context [LatestBefore ?d ?k ?x] =>
              destruct (LatestBefore d k x) as [? [?|?|]]
          end; try discriminate).
Qed.

Lemma channelDefaults_no_Err (t : MetricType) (n : string) (idxs : list Z) (ts : Z)
    (s s' : Server D) (e : Error) :
  channelDefaults t n idxs ts s <> (s', Err e).
Proof.
  revert s s' e. induction idxs as [|i idxs IH]; intros s s' e; simpl.
  - discriminate.
  - unfold mbind at 1, M_bind at 1.
    destruct (getChannelDefault t n i ts s) as [s2 [d|e2|]] eqn:Hg.
    + unfold mbind at 1, M_bind at 1.
      destruct (channelDefaults t n idxs ts s2) as [s3 [ds|e3|]] eqn:Hds;
        try discriminate.
      now apply IH in Hds.
    + now apply getChannelDefault_no_Err in Hg.
    + discriminate.
Qed.

Lemma getMetricEntry_Err (t : MetricType) (n : string) (s s' : Server D) (e : Error) :
  getMetricEntry t n s = (s', Err e) -> s' = s.
Proof.
  unfold getMetricEntry.
  destruct (CheckMetricName n); [now intros [= <- _]|].
  unfold mbind, M_bind, gets, fail, mret, M_ret, modify.
  destruct (running s); simpl; [|now intros [= <- _]].
  destruct (metrics s t !! n); [discriminate|].
  unfold createMetricEntry, mbind, M_bind, gets, mret, M_ret.
  destruct (channelDefaults _ _ _ _ s) as [s1 [defs|e1|]] eqn:Hd; try discriminate.
  now apply channelDefaults_no_Err in Hd.
Qed.

(** X22.  [Inject] either refuses the metric and leaves the server as it
    was, or marks the entry of the metric's kind and name as having received
    input, both for the current minute and for the current tick, and
    touches no other entry.  It succeeds only on a running server. *)
Theorem Inject_outcome (m : Metric) (s s' : Server D) (r : result unit) :
  keyed s -> Inject m s = (s', r) ->
  (forall e, r = Err e -> s' = s) /\
  (r = Ok tt ->
   running s = true /\
   (exists me, metrics s' (Type_ m) !! Name m = Some me /\
               recvdInput me = true /\ recvdInputTick me = true) /\
   forall t n, (t, n) <> (Type_ m, Name m) ->
     metrics s' t !! n = metrics s t !! n).
Proof.
  intros Hk. unfold Inject.
  destruct (fle (SampleRate m) f0).
  { intros [= <- <-]. split; [auto|discriminate]. }
  destruct (CheckMetricName (Name m)) as [e0|].
  { intros [= <- <-]. split; [auto|discriminate]. }
  unfold mbind, M_bind.
  destruct (getMetricEntry (Type_ m) (Name m) s) as [s1 [me|e1|]] eqn:Hme.
  - unfold modify. intros [= <- <-]. split; [discriminate|]. intros _.
    destruct (getMetricEntry_key _ _ _ _ _ Hk Hme) as [Ht Hn].
    pose proof (getMetricEntry_registered _ _ _ _ _ Hme)
      as (_ & Hothers & _).
    apply getMetricEntry_Ok in Hme as (_ & Hrun & _).
    split; [exact Hrun|]. split.
    + eexists. rewrite lookup_setEntry. simpl. rewrite Ht, Hn.
      destruct (decide _) as [_|[]]; auto.
    + intros t n Hne. rewrite lookup_setEntry. simpl. rewrite Ht, Hn.
      destruct (decide _) as [[-> ->]|_]; [congruence|]. now apply Hothers.
  - intros [= <- <-]. split; [|discriminate].
    intros e [= <-]. exact (getMetricEntry_Err _ _ _ _ _ Hme).
  - intros [= <- <-]. split; discriminate.
Qed.

(** *** Well-formed servers *)

Section Contract.

(** [kindOf t m]: [m] is a state of a metric of kind [t]. *)
Variable kindOf : MetricType -> metric -> Prop.

(** What the clock relies on: [tick] and [flush] report one value for
    every channel of the kind. *)
Definition reportsChannels (f : metric -> list float64 * metric) : Prop :=
  forall t m, kindOf t m ->
    length (fst (f m)) = length (mt_channels t) /\ kindOf t (snd (f m)).

(** A watcher reads channels of the kind, and has a granularity when it
    aggregates. *)
Definition watcherOk (t : MetricType) (w : Watcher) : Prop :=
  Forall (fun j => 0 <= j < len (mt_channels t)) (w_chs w) /\
  (w_aggr w <> None -> w_gran w <> 0).

Definition entryOk (me : metricEntry) : Prop :=
  kindOf (typ me) (me_metric me) /\ ringOk me /\
  length (liveLog me) = length (mt_channels (typ me)) /\
  Forall (watcherOk (typ me)) (watchers me).

Definition serverOk (s : Server D) : Prop :=
  forall t n me, metrics s t !! n = Some me ->
    typ me = t /\ name me = n /\ entryOk me.

Lemma serverOk_keyed (s : Server D) : serverOk s -> keyed s.
Proof. intros H t n me Hl. destruct (H t n me Hl) as (? & ? & _). auto. Qed.

Lemma updateIdle_ok (me : metricEntry) : entryOk me -> entryOk (updateIdle me).
Proof. unfold updateIdle. destruct (recvdInputTick me); exact id. Qed.

Lemma mapM_index_run (data : list float64) (js : list Z) :
  Forall (fun j => 0 <= j < len data) js ->
  exists vs, mapM (index data) js = Ok vs.
Proof.
  induction 1 as [|j js Hj _ [vs IH]]; simpl; [eauto|].
  destruct (index_in_range data j Hj) as [v [-> _]]. simpl. rewrite IH. simpl. eauto.
Qed.

Lemma liveData_run (t : MetricType) (data : list float64) (ws : list Watcher) :
  length data = length (mt_channels t) ->
  Forall (watcherOk t) ws ->
  exists r, mapM (liveData data) ws = Ok r.
Proof.
  intros Hlen. induction 1 as [|w ws [Hchs _] _ [r IH]]; simpl; [eauto|].
  assert (Hw : exists v, liveData data w = Ok v).
  { unfold liveData. destruct (w_aggr w); [eauto|].
    apply mapM_index_run. unfold len in *. now rewrite Hlen. }
  destruct Hw as [v ->]. simpl. rewrite IH. simpl. eauto.
Qed.

Lemma tickLiveLog_run (me : metricEntry) (ts : Z) :
  reportsChannels metric_tick -> entryOk me ->
  exists me',
    tickLiveLog me ts = Ok me' /\ entryOk me' /\
    typ me' = typ me /\ name me' = name me /\
    recvdInput me' = recvdInput me /\ recvdInputTick me' = recvdInputTick me /\
    idleTicks me' = idleTicks me /\ watchers me' = watchers me /\
    lastTick me' = ts.
Proof.
  intros Htick (Hk & Hring & Hlen & Hws). unfold tickLiveLog.
  destruct (Htick _ _ Hk) as [Hd Hk'].
  destruct (metric_tick (me_metric me)) as [data m]. simpl in Hd, Hk'.
  assert (Hring' : ringOk (setMetric me m)) by exact Hring.
  destruct (liveData_run (typ me) data (watchers me) Hd Hws) as [r Hfan].
  rewrite Hfan.
  destruct (updateLiveLog (setMetric me m) data ts) as [me'|e|] eqn:Hu.
  - destruct (updateLiveLog_newest_last _ _ _ _ Hring' Hu) as (Hr & Hlt & _).
    exists me'. split; [reflexivity|].
    unfold updateLiveLog in Hu. destruct (_ || _); [discriminate|].
    injection Hu as Hu. rewrite <- Hu in *. simpl in *.
    split; [|auto 10].
    split; [exact Hk'|]. split; [exact Hr|]. split; [|exact Hws].
    simpl. rewrite length_zip_with. lia.
  - unfold updateLiveLog in Hu. destruct (_ || _); discriminate.
  - exfalso. unfold updateLiveLog in Hu. simpl in Hu.
    destruct Hring as [Hp _]. unfold LiveLogSize in *.
    destruct (Z.ltb_spec (len data) (len (liveLog me))); [unfold len in *; lia|].
    destruct (Z.ltb_spec (livePtr me) 0); [lia|].
    destruct (Z.geb_spec (livePtr me) 600); [lia|].
    rewrite andb_false_r in Hu. discriminate.
Qed.

Lemma tickMetric_run (me : metricEntry) (s : Server D) :
  reportsChannels metric_tick -> entryOk me ->
  exists me',
    tickMetric me s = (setEntry me' s, Ok tt) /\ entryOk me' /\
    typ me' = typ me /\ name me' = name me /\
    recvdInput me' = recvdInput me /\ recvdInputTick me' = false /\
    idleTicks me' = idleTicks (updateIdle me) /\ watchers me' = watchers me /\
    lastTick me' = srvLastTick s.
Proof.
  intros Htick Hok.
  destruct (tickLiveLog_run (updateIdle me) (srvLastTick s) Htick (updateIdle_ok me Hok))
    as (me' & Hrun & Hok' & Ht & Hn & Hri & Hrt & Hi & Hw & Hlt).
  exists me'. unfold tickMetric, mbind, M_bind, gets, lift, modify.
  rewrite Hrun. split; [reflexivity|]. split; [exact Hok'|].
  rewrite Ht, Hn, Hri, Hrt, Hi, Hw, Hlt.
  unfold updateIdle. destruct (recvdInputTick me) eqn:E; simpl; auto 10.
Qed.

Lemma setDs_same (s : Server D) : setDs (Ds s) s = s.
Proof. destruct s. reflexivity. Qed.

Lemma insertChannels_run (pre nm : string) (chs : list string) (data : list float64)
    (i ts : Z) (s : Server D) :
  0 <= i -> i + len chs <= len data ->
  exists d, insertChannels pre nm chs data i ts s = (setDs d s, Ok tt).
Proof.
  revert i s. induction chs as [|c chs IH]; intros i s Hi Hlen; simpl.
  - exists (Ds s). now rewrite setDs_same.
  - rewrite len_cons in Hlen. pose proof (len_nonneg chs).
    destruct (index_in_range data i ltac:(lia)) as [v [Hv _]].
    unfold mbind at 1, M_bind at 1, lift at 1. rewrite Hv.
    unfold mbind at 1, M_bind at 1, callDs at 1.
    destruct (Insert (Ds s) _ _) as [d e].
    destruct (IH (i + 1) (setDs d s) ltac:(lia) ltac:(lia)) as [d' Hd'].
    exists d'. rewrite Hd'. reflexivity.
Qed.

Lemma feedWatchers_run (t : MetricType) (data : list float64) (ws : list Watcher) :
  length data = length (mt_channels t) ->
  Forall (watcherOk t) ws ->
  exists ws', mapM (feedWatcher data) ws = Ok ws' /\
              Forall (watcherOk t) ws' /\ length ws' = length ws.
Proof.
  intros Hlen. induction 1 as [|w ws Hw _ (ws' & IH & Hws' & Hl)]; simpl.
  - exists []. auto.
  - assert (Hf : exists w', feedWatcher data w = Ok w' /\ watcherOk t w').
    { unfold feedWatcher. pose proof Hw as [Hchs Hg].
      destruct (w_aggr w) as [a|] eqn:Ha; [|exists w; auto].
      destruct (mapM_index_run data (w_chs w)) as [vs Hvs].
      { unfold len in *. now rewrite Hlen. }
      rewrite Hvs. simpl.
      destruct (Z.eqb_spec (w_gran w) 0) as [E|E]; [now destruct Hg|].
      eexists. split; [reflexivity|]. split; simpl; auto. }
    destruct Hf as (w' & -> & Hw'). simpl. rewrite IH. simpl.
    exists (w' :: ws'). repeat split; auto. simpl. now rewrite Hl.
Qed.

Lemma flushMetric_run (me : metricEntry) (s : Server D) :
  reportsChannels metric_tick -> reportsChannels metric_flush -> entryOk me ->
  exists me' d,
    flushMetric me s = (setEntry me' (setDs d s), Ok tt) /\ entryOk me' /\
    typ me' = typ me /\ name me' = name me /\
    recvdInput me' = false /\ recvdInputTick me' = recvdInputTick me /\
    idleTicks me' = idleTicks me /\ length (watchers me') = length (watchers me) /\
    lastTick me' = srvLastTick s.
Proof.
  intros Htick Hflush Hok.
  destruct (tickLiveLog_run me (srvLastTick s) Htick Hok)
    as (me1 & Hrun & (Hk1 & Hr1 & Hl1 & Hw1) & Ht & Hn & Hri & Hrt & Hi & Hw & Hlt).
  unfold flushMetric, mbind at 1, M_bind at 1, gets at 1.
  unfold mbind at 1, M_bind at 1, lift at 1. rewrite Hrun.
  destruct (Hflush _ _ Hk1) as [Hd Hk2].
  destruct (metric_flush (me_metric me1)) as [data m]. simpl in Hd, Hk2.
  destruct (feedWatchers_run (typ me1) data (watchers me1) Hd Hw1)
    as (ws & Hws & Hwsok & Hwslen).
  assert (Hins : exists d,
    (if recvdInput me1
     then pre ← gets Prefix;
          insertChannels pre (name me1) (mt_channels (typ me1)) data 0 (srvLastTick s)
     else mret tt) s = (setDs d s, Ok tt)).
  { destruct (recvdInput me1).
    - unfold mbind, M_bind, gets. apply insertChannels_run; unfold len; lia.
    - exists (Ds s). now rewrite setDs_same. }
  destruct Hins as [d Hins].
  unfold mbind at 1, M_bind at 1. rewrite Hins.
  unfold mbind, M_bind, lift, modify. rewrite Hws.
  eexists. exists d. split; [reflexivity|]. simpl.
  rewrite <- Hw, Hwslen.
  split; [exact (conj Hk2 (conj Hr1 (conj Hl1 Hwsok)))|auto 10].
Qed.

(** *** Walking the entries *)

Definition keyOf (me : metricEntry) : MetricType * string := (typ me, name me).

(** What a step of a walk does with the entry [me] it visits, whatever the
    server around it: it succeeds and changes nothing but, possibly, the
    datastore and the slot of [me], which holds [o] afterwards ([None]: the
    entry is gone); [P] relates [me], the clock and [o]. *)
Definition visits (P : metricEntry -> Z -> option metricEntry -> Prop)
    (f : metricEntry -> M (Server D) unit) : Prop :=
  forall me s, entryOk me ->
    exists s' o,
      f me s = (s', Ok tt) /\
      (Prefix s' = Prefix s /\ running s' = running s /\
       stopping s' = stopping s /\ srvLastTick s' = srvLastTick s) /\
      (forall t n, metrics s' t !! n
                   = if decide (t = typ me /\ n = name me) then o
                     else metrics s t !! n) /\
      P me (srvLastTick s) o /\
      (forall me', o = Some me' ->
         entryOk me' /\ typ me' = typ me /\ name me' = name me).

Definition ticked (me : metricEntry) (lt : Z) (o : option metricEntry) : Prop :=
  exists me', o = Some me' /\
    recvdInput me' = recvdInput me /\ recvdInputTick me' = false /\
    idleTicks me' = idleTicks (updateIdle me) /\ watchers me' = watchers me /\
    lastTick me' = lt.

Definition flushed (me : metricEntry) (lt : Z) (o : option metricEntry) : Prop :=
  if recvdInput me || negb (len (watchers me) =? 0) then
    exists me', o = Some me' /\
      recvdInput me' = false /\ recvdInputTick me' = false /\
      idleTicks me' = idleTicks (updateIdle me) /\
      length (watchers me') = length (watchers me) /\ lastTick me' = lt
  else if idleTicks (updateIdle me) >? LiveLogSize then o = None
  else o = Some (updateIdle me).

Lemma tickMetric_visits :
  reportsChannels metric_tick -> visits ticked tickMetric.
Proof.
  intros Htick me s Hok.
  destruct (tickMetric_run me s Htick Hok)
    as (me' & Hrun & Hok' & Ht & Hn & Hri & Hrt & Hi & Hw & Hlt).
  exists (setEntry me' s), (Some me'). split; [exact Hrun|].
  split; [simpl; auto|]. split; [|split].
  - intros t n. rewrite lookup_setEntry, Ht, Hn. reflexivity.
  - exists me'. auto 10.
  - intros me0 [= <-]. auto.
Qed.

Lemma updateIdle_fields (me : metricEntry) :
  typ (updateIdle me) = typ me /\ name (updateIdle me) = name me /\
  recvdInput (updateIdle me) = recvdInput me /\
  recvdInputTick (updateIdle me) = false /\
  watchers (updateIdle me) = watchers me.
Proof. unfold updateIdle. destruct (recvdInputTick me) eqn:E; simpl; auto. Qed.

Lemma flushOrDelete_visits :
  reportsChannels metric_tick -> reportsChannels metric_flush ->
  visits flushed flushOrDelete.
Proof.
  intros Htick Hflush me s Hok.
  destruct (updateIdle_fields me) as (Ht1 & Hn1 & Hri1 & Hrt1 & Hw1).
  unfold flushOrDelete, flushed. rewrite Hri1, Hw1.
  destruct (recvdInput me || negb (len (watchers me) =? 0)).
  - destruct (flushMetric_run (updateIdle me) s Htick Hflush (updateIdle_ok me Hok))
      as (me' & d & Hrun & Hok' & Ht & Hn & Hri & Hrt & Hi & Hw & Hlt).
    exists (setEntry me' (setDs d s)), (Some me'). split; [exact Hrun|].
    split; [simpl; auto|]. split; [|split].
    + intros t n. rewrite lookup_setEntry, Ht, Hn, Ht1, Hn1. reflexivity.
    + exists me'. rewrite Hrt, Hrt1, Hw, Hw1. auto 10.
    + intros me0 [= <-]. rewrite Ht, Hn. auto.
  - destruct (idleTicks (updateIdle me) >? LiveLogSize).
    + exists (deleteEntry (updateIdle me) s), None. split; [reflexivity|].
      split; [simpl; auto|]. split; [|split].
      * intros t n. rewrite lookup_deleteEntry, Ht1, Hn1. reflexivity.
      * reflexivity.
      * discriminate.
    + exists (setEntry (updateIdle me) s), (Some (updateIdle me)).
      split; [reflexivity|]. split; [simpl; auto|]. split; [|split].
      * intros t n. rewrite lookup_setEntry, Ht1, Hn1. reflexivity.
      * reflexivity.
      * intros me0 [= <-]. split; [now apply updateIdle_ok|auto].
Qed.

Lemma forEach_visits (P : metricEntry -> Z -> option metricEntry -> Prop)
    (f : metricEntry -> M (Server D) unit) (l : list metricEntry) (s : Server D) :
  visits P f -> Forall entryOk l -> List.NoDup (map keyOf l) -> serverOk s ->
  exists s',
    forEach f l s = (s', Ok tt) /\
    (Prefix s' = Prefix s /\ running s' = running s /\
     stopping s' = stopping s /\ srvLastTick s' = srvLastTick s) /\
    serverOk s' /\
    (forall me, In me l -> P me (srvLastTick s) (metrics s' (typ me) !! name me)) /\
    (forall t n, ~ In (t, n) (map keyOf l) -> metrics s' t !! n = metrics s t !! n).
Proof.
  intros Hf Hl. revert s. induction Hl as [|me l Hme _ IH]; intros s Hnd Hs.
  - exists s. split; [reflexivity|]. split; [auto|]. split; [exact Hs|].
    split; [intros me0 []|reflexivity].
  - simpl in Hnd. apply List.NoDup_cons_iff in Hnd as [Hnotin Hnd].
    destruct (Hf me s Hme) as (s1 & o & Hrun & (Hp1 & Hr1 & Hst1 & Hlt1) & Hm1 & HP & Ho).
    assert (Hs1 : serverOk s1).
    { intros t n me0. rewrite Hm1. destruct (decide _) as [[-> ->]|_].
      - intros ->. destruct (Ho me0 eq_refl) as (? & ? & ?). auto.
      - apply Hs. }
    destruct (IH s1 Hnd Hs1)
      as (s' & Hrun' & (Hp' & Hr' & Hst' & Hlt') & Hs' & Hin' & Hout').
    exists s'. split.
    { simpl. unfold mbind, M_bind. rewrite Hrun. exact Hrun'. }
    split; [repeat split; congruence|]. split; [exact Hs'|]. split.
    + intros me0 [<-|Hin].
      * rewrite (Hout' (typ me) (name me) Hnotin), Hm1.
        destruct (decide _) as [_|[]]; auto.
      * rewrite <- Hlt1. now apply Hin'.
    + intros t n Hnot. simpl in Hnot.
      rewrite Hout' by tauto. rewrite Hm1.
      destruct (decide _) as [[-> ->]|_]; [|reflexivity].
      exfalso. apply Hnot. now left.
Qed.

Lemma In_entries (s : Server D) (me : metricEntry) :
  In me (entries s) <-> exists t n, metrics s t !! n = Some me.
Proof.
  unfold entries. rewrite in_flat_map. split.
  - intros (t & _ & Hin). apply in_map_iff in Hin as ([n me0] & Heq & Hin).
    simpl in Heq. subst me0. exists t, n.
    apply list_elem_of_In in Hin. now apply elem_of_map_to_list in Hin.
  - intros (t & n & Hl). exists t. split.
    + unfold allTypes. destruct t; simpl; auto.
    + apply in_map_iff. exists (n, me). split; [reflexivity|].
      apply list_elem_of_In. now apply elem_of_map_to_list.
Qed.

Lemma keys_of_kind (s : Server D) (t : MetricType) :
  keyed s ->
  map keyOf (map snd (map_to_list (metrics s t)))
  = map (fun n => (t, n)) (map fst (map_to_list (metrics s t))).
Proof.
  intros Hk. rewrite !map_map. apply map_ext_in. intros [n me] Hin. simpl.
  apply list_elem_of_In in Hin. apply elem_of_map_to_list in Hin.
  destruct (Hk t n me Hin) as [<- <-]. reflexivity.
Qed.

Lemma keys_NoDup (s : Server D) : keyed s -> List.NoDup (map keyOf (entries s)).
Proof.
  intros Hk. unfold entries.
  assert (Hone : forall t,
    List.NoDup (map keyOf (map snd (map_to_list (metrics s t))))).
  { intros t. rewrite keys_of_kind by exact Hk.
    apply Finite.Injective_map_NoDup; [intros a b [= ->]; reflexivity|].
    apply NoDup_ListNoDup. exact (NoDup_fst_map_to_list (metrics s t)). }
  assert (Hkind : forall t x,
    In x (map keyOf (map snd (map_to_list (metrics s t)))) -> fst x = t).
  { intros t x. rewrite keys_of_kind by exact Hk.
    intros Hin. apply in_map_iff in Hin as (n & <- & _). reflexivity. }
  unfold allTypes. simpl. rewrite app_nil_r, !map_app.
  apply List.NoDup_app; [apply Hone| |].
  - apply List.NoDup_app; [apply Hone| |].
    + apply List.NoDup_app; [apply Hone|apply Hone|].
      intros x H1 H2. apply Hkind in H1, H2. congruence.
    + intros x H1 H2. apply in_app_or in H2 as [H2|H2];
        apply Hkind in H1, H2; congruence.
  - intros x H1 H2. apply Hkind in H1.
    repeat (apply in_app_or in H2 as [H2|H2]); apply Hkind in H2; congruence.
Qed.

Lemma walk_run (P : metricEntry -> Z -> option metricEntry -> Prop)
    (f : metricEntry -> M (Server D) unit) (l : list metricEntry) (s : Server D) :
  visits P f -> Permutation l (entries s) -> serverOk s ->
  exists s',
    forEach f l s = (s', Ok tt) /\
    (Prefix s' = Prefix s /\ running s' = running s /\
     stopping s' = stopping s /\ srvLastTick s' = srvLastTick s) /\
    serverOk s' /\
    (forall t n me, metrics s t !! n = Some me ->
       P me (srvLastTick s) (metrics s' t !! n)) /\
    (forall t n, metrics s t !! n = None -> metrics s' t !! n = None).
Proof.
  intros Hf Hperm Hs.
  assert (Hall : Forall entryOk l).
  { apply Forall_forall. intros me Hin. apply list_elem_of_In in Hin.
    apply (Permutation_in _ Hperm) in Hin.
    apply In_entries in Hin as (t & n & Hl). now apply (Hs t n me). }
  assert (Hnd : List.NoDup (map keyOf l)).
  { apply (Permutation_NoDup (l := map keyOf (entries s))).
    - apply Permutation_map. now apply Permutation_sym.
    - apply keys_NoDup. now apply serverOk_keyed. }
  destruct (forEach_visits P f l s Hf Hall Hnd Hs)
    as (s' & Hrun & Hframe & Hs' & Hin & Hout).
  exists s'. split; [exact Hrun|]. split; [exact Hframe|]. split; [exact Hs'|].
  split.
  - intros t n me Hl. destruct (Hs t n me Hl) as (Ht & Hn & _).
    rewrite <- Ht, <- Hn. apply Hin.
    apply (Permutation_in _ (Permutation_sym Hperm)).
    apply In_entries. eauto.
  - intros t n Hl. rewrite Hout; [exact Hl|].
    intros Hin'. apply in_map_iff in Hin' as (me & Hkey & Hin').
    apply (Permutation_in _ Hperm) in Hin'.
    apply In_entries in Hin' as (t' & n' & Hl').
    destruct (Hs t' n' me Hl') as (Ht & Hn & _).
    unfold keyOf in Hkey. injection Hkey as <- <-. congruence.
Qed.

(** *** The clock *)

(** The first multiple of 60 after [lt]. *)
Definition nextMinute (lt : Z) : Z := 60 * (lt / 60) + 60.

Lemma rem60 (x : Z) : Z.rem x 60 = 0 <-> x mod 60 = 0.
Proof. rewrite Z.rem_divide, Z.mod_divide by lia. tauto. Qed.

Lemma nextMinute_gt (lt : Z) : lt < nextMinute lt.
Proof. unfold nextMinute. pose proof (Z.mod_pos_bound lt 60). pose proof (Z.div_mod lt 60). lia. Qed.

Lemma nextMinute_same (lt : Z) :
  (lt + 1) mod 60 <> 0 -> nextMinute (lt + 1) = nextMinute lt.
Proof. unfold nextMinute. intros H. Z.to_euclidean_division_equations. lia. Qed.

Lemma nextMinute_reached (lt : Z) : (lt + 1) mod 60 = 0 -> lt + 1 = nextMinute lt.
Proof. unfold nextMinute. intros H. Z.to_euclidean_division_equations. lia. Qed.

(** Whether an entry that stays idle from clock [lt] on, with idle count
    [k] then, has been removed by clock [lt']: a minute boundary has been
    passed at which the count exceeded 600. *)
Definition expires (lt k lt' : Z) : bool :=
  let b := 60 * (lt' / 60) in (lt <? b) && (LiveLogSize <? k + (b - lt)).

Lemma expires_not_yet (lt k lt' : Z) : lt' <= lt -> expires lt k lt' = false.
Proof.
  unfold expires. intros H. destruct (Z.ltb_spec lt (60 * (lt' / 60))); [|reflexivity].
  exfalso. Z.to_euclidean_division_equations. lia.
Qed.

Lemma expires_tick (lt k lt' : Z) :
  (lt + 1) mod 60 <> 0 -> expires (lt + 1) (k + 1) lt' = expires lt k lt'.
Proof.
  unfold expires, LiveLogSize. intros H.
  destruct (Z.ltb_spec (lt + 1) (60 * (lt' / 60)));
    destruct (Z.ltb_spec lt (60 * (lt' / 60)));
    destruct (Z.ltb_spec 600 (k + 1 + (60 * (lt' / 60) - (lt + 1))));
    destruct (Z.ltb_spec 600 (k + (60 * (lt' / 60) - lt)));
    try reflexivity; exfalso; Z.to_euclidean_division_equations; lia.
Qed.

Lemma expires_flush_removed (lt k lt' : Z) :
  (lt + 1) mod 60 = 0 -> 600 < k + 1 -> lt + 1 <= lt' -> expires lt k lt' = true.
Proof.
  unfold expires, LiveLogSize. intros H Hk Hlt.
  destruct (Z.ltb_spec lt (60 * (lt' / 60)));
    destruct (Z.ltb_spec 600 (k + (60 * (lt' / 60) - lt)));
    try reflexivity; exfalso; Z.to_euclidean_division_equations; lia.
Qed.

Lemma expires_flush_kept (lt k lt' : Z) :
  (lt + 1) mod 60 = 0 -> k + 1 <= 600 -> lt + 1 <= lt' ->
  expires lt k lt' = expires (lt + 1) (k + 1) lt'.
Proof.
  unfold expires, LiveLogSize. intros H Hk Hlt.
  destruct (Z.ltb_spec (lt + 1) (60 * (lt' / 60)));
    destruct (Z.ltb_spec lt (60 * (lt' / 60)));
    destruct (Z.ltb_spec 600 (k + 1 + (60 * (lt' / 60) - (lt + 1))));
    destruct (Z.ltb_spec 600 (k + (60 * (lt' / 60) - lt)));
    try reflexivity; exfalso; Z.to_euclidean_division_equations; lia.
Qed.

(** An entry without input and without watchers. *)
Definition idleEntry (me : metricEntry) : Prop :=
  recvdInput me = false /\ recvdInputTick me = false /\ watchers me = [].

Lemma updateIdle_idle (me : metricEntry) :
  idleEntry me -> 0 <= idleTicks me < MaxInt64 ->
  idleEntry (updateIdle me) /\ idleTicks (updateIdle me) = idleTicks me + 1.
Proof.
  intros (Hri & Hrt & Hw) Hk. unfold updateIdle, idleEntry. rewrite Hrt. simpl.
  repeat split; auto.
  apply wrap64_id. unfold int64_range, MinInt64, MaxInt64 in *. lia.
Qed.

(** Where an idle entry of [s] is in [s']. *)
Definition tracked (s s' : Server D) : Prop :=
  forall t n me,
    metrics s t !! n = Some me -> idleEntry me ->
    0 <= idleTicks me -> idleTicks me + (srvLastTick s' - srvLastTick s) <= MaxInt64 ->
    if expires (srvLastTick s) (idleTicks me) (srvLastTick s')
    then metrics s' t !! n = None
    else exists me', metrics s' t !! n = Some me' /\ idleEntry me' /\
           idleTicks me' = idleTicks me + (srvLastTick s' - srvLastTick s).

Section Walk.

Variable walk : Server D -> list metricEntry.

Hypothesis walk_all : forall s, Permutation (walk s) (entries s).

Lemma handleLoop_run (fuel : nat) (ts : Z) (s : Server D) :
  reportsChannels metric_tick -> reportsChannels metric_flush ->
  serverOk s -> ts <= MaxInt64 -> MinInt64 <= srvLastTick s ->
  ts - srvLastTick s <= Z.of_nat fuel ->
  exists s' b,
    handleLoop walk fuel ts s = (s', Ok b) /\ serverOk s' /\
    (Prefix s' = Prefix s /\ running s' = running s /\ stopping s' = stopping s) /\
    (forall t n, metrics s t !! n = None -> metrics s' t !! n = None) /\
    tracked s s' /\
    if stopping s && (nextMinute (srvLastTick s) <=? ts)
    then b = true /\ srvLastTick s' = nextMinute (srvLastTick s)
    else b = false /\ srvLastTick s' = Z.max (srvLastTick s) ts.
Proof.
  intros Htick Hflush. revert s.
  induction fuel as [|fuel IH]; intros s Hs Hts Hlt Hfuel;
    cbn [handleLoop]; unfold mbind at 1, M_bind at 1, gets at 1;
    pose proof (nextMinute_gt (srvLastTick s)) as Hnext;
    destruct (Z.ltb_spec (srvLastTick s) ts) as [Hlt'|Hge]; try lia.
  1, 3: exists s, false; split; [reflexivity|]; split; [exact Hs|];
    split; [auto|]; split; [auto|]; split;
    [intros t n me Hl Hidle Hk0 Hk1;
     rewrite expires_not_yet by lia; exists me;
     split; [exact Hl|split; [exact Hidle|lia]]
    |destruct (Z.leb_spec (nextMinute (srvLastTick s)) ts); [lia|];
     rewrite andb_false_r; split; [reflexivity|lia]].
  unfold mbind at 1, M_bind at 1, modify at 1.
  assert (Hadd : add64 (srvLastTick s) 1 = srvLastTick s + 1).
  { apply wrap64_id. unfold int64_range, MinInt64, MaxInt64 in *. lia. }
  rewrite Hadd.
  set (s1 := setLastTick (srvLastTick s + 1) s).
  assert (Hs1 : serverOk s1) by exact Hs.
  destruct (Z.eqb_spec (Z.rem (srvLastTick s + 1) 60) 0) as [Hrem|Hrem];
    cbv beta iota delta [negb].
  - (* a minute boundary *)
    apply rem60 in Hrem. pose proof (nextMinute_reached _ Hrem) as Hreach.
    destruct (walk_run flushed flushOrDelete (walk s1) s1
                (flushOrDelete_visits Htick Hflush) (walk_all s1) Hs1)
      as (s2 & Hrun & (Hp2 & Hr2 & Hst2 & Hlt2) & Hs2 & Hall & Hnone).
    unfold mbind at 1, M_bind at 1, flushMetrics at 1. cbv beta. rewrite Hrun.
    unfold mbind at 1, M_bind at 1, gets at 1.
    simpl in Hp2, Hr2, Hst2, Hlt2. rewrite Hst2.
    assert (Hflushed : forall t n me,
      metrics s t !! n = Some me -> idleEntry me -> 0 <= idleTicks me < MaxInt64 ->
      if 600 <? idleTicks me + 1 then metrics s2 t !! n = None
      else metrics s2 t !! n = Some (updateIdle me)).
    { intros t n me Hl Hidle Hk. specialize (Hall t n me Hl).
      destruct (updateIdle_idle me Hidle Hk) as [_ Hk1].
      destruct Hidle as (Hri & Hrt & Hw).
      unfold flushed in Hall. rewrite Hri, Hw, Hk1 in Hall.
      change (false || negb (len (@nil Watcher) =? 0)) with false in Hall.
      cbv iota in Hall. unfold LiveLogSize in Hall.
      now rewrite Z.gtb_ltb in Hall. }
    destruct (stopping s) eqn:Hstop.
    + exists s2, true. split; [reflexivity|]. split; [exact Hs2|].
      split; [rewrite Hst2; auto|]. split; [exact Hnone|]. split.
      * intros t n me Hl Hidle Hk0 Hk1. rewrite Hlt2 in *.
        specialize (Hflushed t n me Hl Hidle ltac:(lia)).
        destruct (Z.ltb_spec 600 (idleTicks me + 1)) as [Hdel|Hkeep].
        -- rewrite expires_flush_removed by lia. exact Hflushed.
        -- rewrite expires_flush_kept, expires_not_yet by lia.
           destruct (updateIdle_idle me Hidle ltac:(lia)) as [Hidle1 Hk2].
           exists (updateIdle me). split; [exact Hflushed|].
           split; [exact Hidle1|lia].
      * destruct (Z.leb_spec (nextMinute (srvLastTick s)) ts); [|lia].
        simpl. split; [reflexivity|lia].
    + destruct (IH s2 Hs2 Hts ltac:(lia) ltac:(lia))
        as (s' & b & Hrun' & Hs' & (Hp' & Hr' & Hst') & Hnone' & Htr' & Hclock).
      rewrite Hst2 in Hclock. simpl in Hclock. rewrite Hlt2 in Hclock.
      destruct Hclock as [-> Hlt3].
      exists s', false. split; [exact Hrun'|]. split; [exact Hs'|].
      split; [repeat split; congruence|]. split; [auto|]. split.
      * intros t n me Hl Hidle Hk0 Hk1.
        specialize (Hflushed t n me Hl Hidle ltac:(lia)).
        destruct (Z.ltb_spec 600 (idleTicks me + 1)) as [Hdel|Hkeep].
        -- rewrite expires_flush_removed by lia. now apply Hnone'.
        -- rewrite expires_flush_kept by lia.
           destruct (updateIdle_idle me Hidle ltac:(lia)) as [Hidle1 Hk2].
           specialize (Htr' t n (updateIdle me) Hflushed Hidle1 ltac:(lia)).
           rewrite Hlt2, Hk2 in Htr'. specialize (Htr' ltac:(lia)).
           destruct (expires _ _ _); [exact Htr'|].
           destruct Htr' as (me' & Hl' & Hidle' & Hk').
           exists me'. split; [exact Hl'|]. split; [exact Hidle'|lia].
      * simpl. split; [reflexivity|lia].
  - (* within the minute *)
    assert (Hmod : (srvLastTick s + 1) mod 60 <> 0) by (intros E; now apply rem60 in E).
    pose proof (nextMinute_same _ Hmod) as Hsame.
    destruct (walk_run ticked tickMetric (walk s1) s1
                (tickMetric_visits Htick) (walk_all s1) Hs1)
      as (s2 & Hrun & (Hp2 & Hr2 & Hst2 & Hlt2) & Hs2 & Hall & Hnone).
    unfold mbind at 1, M_bind at 1, tickMetrics at 1. cbv beta. rewrite Hrun.
    simpl in Hp2, Hr2, Hst2, Hlt2.
    destruct (IH s2 Hs2 Hts ltac:(lia) ltac:(lia))
      as (s' & b & Hrun' & Hs' & (Hp' & Hr' & Hst') & Hnone' & Htr' & Hclock).
    exists s', b. split; [exact Hrun'|]. split; [exact Hs'|].
    split; [repeat split; congruence|]. split; [auto|].
    rewrite Hst2, Hlt2, Hsame in Hclock. split.
    + intros t n me Hl Hidle Hk0 Hk1.
      assert (Hlt3 : srvLastTick s + 1 <= srvLastTick s').
      { destruct (stopping s && (nextMinute (srvLastTick s) <=? ts));
          destruct Hclock as [_ ->]; lia. }
      destruct (Hall t n me Hl) as (me1 & Hl1 & Hri1 & Hrt1 & Hk2 & Hw1 & _).
      destruct (updateIdle_idle me Hidle ltac:(lia)) as [_ Hk3].
      destruct Hidle as (Hri & Hrt & Hw).
      assert (Hidle1 : idleEntry me1) by (repeat split; congruence).
      specialize (Htr' t n me1 Hl1 Hidle1 ltac:(lia)).
      rewrite Hlt2, Hk2, Hk3 in Htr'. specialize (Htr' ltac:(lia)).
      rewrite expires_tick in Htr' by exact Hmod.
      destruct (expires _ _ _); [exact Htr'|].
      destruct Htr' as (me' & Hl' & Hidle' & Hk').
      exists me'. split; [exact Hl'|]. split; [exact Hidle'|lia].
    + destruct (stopping s && (nextMinute (srvLastTick s) <=? ts)).
      * exact Hclock.
      * destruct Hclock as [-> ->]. split; [reflexivity|lia].
Qed.

End Walk.

(** X23.  [handleTick(ts)] on a well-formed server, whose kinds report one
    value per channel, never panics, whatever the order in which the maps
    are walked.  It creates no entry and leaves the server well formed.  It
    moves the clock second by second up to [ts]; a clock that is already
    at or past [ts] stays.  It answers [true] only on a server that is
    stopping, and then the clock stands at the first multiple of 60 after
    the old value instead, provided that this is not after [ts]. *)
Theorem handleTick_clock (walk : Server D -> list metricEntry) (ts : Z)
    (s : Server D) :
  reportsChannels metric_tick -> reportsChannels metric_flush ->
  (forall s0, Permutation (walk s0) (entries s0)) ->
  serverOk s -> int64_range ts -> int64_range (srvLastTick s) ->
  exists s' b,
    handleTick walk ts s = (s', Ok b) /\ serverOk s' /\
    running s' = running s /\ stopping s' = stopping s /\
    (forall t n, metrics s t !! n = None -> metrics s' t !! n = None) /\
    if stopping s && (nextMinute (srvLastTick s) <=? ts)
    then b = true /\ srvLastTick s' = nextMinute (srvLastTick s)
    else b = false /\ srvLastTick s' = Z.max (srvLastTick s) ts.
Proof.
  intros Htick Hflush Hwalk Hs [_ Hts] [Hlt _].
  destruct (handleLoop_run walk Hwalk (Z.to_nat (ts - srvLastTick s)) ts s
              Htick Hflush Hs Hts Hlt ltac:(lia))
    as (s' & b & Hrun & Hs' & (_ & Hr & Hst) & Hnone & _ & Hclock).
  exists s', b. unfold handleTick. auto 10.
Qed.

(** X24.  Idle entries expire.  Take an entry that has no watchers and no
    input, with idle count [k], on a well-formed server at clock [lt], and
    let [handleTick(ts)], [lt <= ts], move the clock to [lt'], which is
    [ts] unless the server is stopping.  The entry is gone when a
    minute boundary in [(lt, lt']] saw its idle count above 600, that is
    when [k + (b - lt) > 600] for [b] the last multiple of 60 up to [lt'],
    provided [lt < b]; otherwise it is still there, idle, with count
    [k + (lt' - lt)].  So an entry is dropped at the first minute boundary
    at which it has been idle for more than 600 seconds. *)
Theorem idle_entry_expires (walk : Server D -> list metricEntry) (ts : Z)
    (s : Server D) (t : MetricType) (n : string) (me : metricEntry) :
  reportsChannels metric_tick -> reportsChannels metric_flush ->
  (forall s0, Permutation (walk s0) (entries s0)) ->
  serverOk s -> int64_range ts -> int64_range (srvLastTick s) ->
  srvLastTick s <= ts ->
  metrics s t !! n = Some me ->
  recvdInput me = false -> recvdInputTick me = false -> watchers me = [] ->
  0 <= idleTicks me -> idleTicks me + (ts - srvLastTick s) <= MaxInt64 ->
  exists s' b,
    handleTick walk ts s = (s', Ok b) /\
    srvLastTick s <= srvLastTick s' <= ts /\
    (stopping s = false -> srvLastTick s' = ts) /\
    let lt := srvLastTick s in
    let lt' := srvLastTick s' in
    let boundary := 60 * (lt' / 60) in
    if (lt <? boundary) && (600 <? idleTicks me + (boundary - lt))
    then metrics s' t !! n = None
    else exists me', metrics s' t !! n = Some me' /\
           recvdInput me' = false /\ recvdInputTick me' = false /\
           watchers me' = [] /\ idleTicks me' = idleTicks me + (lt' - lt).
Proof.
  intros Htick Hflush Hwalk Hs [_ Hts] [Hlt _] Hle Hl Hri Hrt Hw Hk0 Hk1.
  destruct (handleLoop_run walk Hwalk (Z.to_nat (ts - srvLastTick s)) ts s
              Htick Hflush Hs Hts Hlt ltac:(lia))
    as (s' & b & Hrun & _ & _ & _ & Htr & Hclock).
  exists s', b. split; [exact Hrun|].
  assert (Hrange : srvLastTick s <= srvLastTick s' <= ts).
  { pose proof (nextMinute_gt (srvLastTick s)).
    destruct (stopping s); simpl in Hclock;
      [destruct (Z.leb_spec (nextMinute (srvLastTick s)) ts)|];
      destruct Hclock as [_ ->]; lia. }
  split; [exact Hrange|]. split.
  { intros Hst. rewrite Hst in Hclock. simpl in Hclock. lia. }
  specialize (Htr t n me Hl (conj Hri (conj Hrt Hw)) Hk0 ltac:(lia)).
  unfold expires, LiveLogSize in Htr. cbv zeta.
  destruct ((srvLastTick s <? 60 * (srvLastTick s' / 60))
            && (600 <? idleTicks me + (60 * (srvLastTick s' / 60) - srvLastTick s)));
    [exact Htr|].
  destruct Htr as (me' & Hl' & (Hri' & Hrt' & Hw') & Hk'). exists me'. auto 10.
Qed.

(** X25.  [flushMetrics] on a well-formed server never panics and settles
    every entry by its state at the minute boundary, with the idle count
    brought up to date first (zero after a tick with input, one more
    otherwise).  An entry with input since the last flush, or with a
    watcher, is ticked and flushed: it stays, its input flag is cleared and
    its last tick is the clock.  An entry without input and without
    watchers is removed when its idle count exceeds 600; otherwise it stays
    and only its idle count changes: its live log gets no sample for this
    second.  No entry is created. *)
Theorem flushMetrics_settles (walk : Server D -> list metricEntry) (s : Server D) :
  reportsChannels metric_tick -> reportsChannels metric_flush ->
  Permutation (walk s) (entries s) -> serverOk s ->
  exists s',
    flushMetrics walk s = (s', Ok tt) /\
    (forall t n, metrics s t !! n = None -> metrics s' t !! n = None) /\
    forall t n me, metrics s t !! n = Some me ->
      if recvdInput me || negb (len (watchers me) =? 0) then
        exists me', metrics s' t !! n = Some me' /\
          recvdInput me' = false /\ recvdInputTick me' = false /\
          idleTicks me' = idleTicks (updateIdle me) /\
          length (watchers me') = length (watchers me) /\
          lastTick me' = srvLastTick s
      else if idleTicks (updateIdle me) >? LiveLogSize then metrics s' t !! n = None
      else metrics s' t !! n = Some (updateIdle me).
Proof.
  intros Htick Hflush Hwalk Hs.
  destruct (walk_run flushed flushOrDelete (walk s) s
              (flushOrDelete_visits Htick Hflush) Hwalk Hs)
    as (s' & Hrun & _ & _ & Hall & Hnone).
  exists s'. split; [exact Hrun|]. split; [exact Hnone|].
  intros t n me Hl. exact (Hall t n me Hl).
Qed.

(** *** The invariant under the calls of the API *)

Definition initOk : Prop :=
  forall t v, length v = length (mt_channels t) ->
    kindOf t (metric_init (mt_create t) v).

Definition injectOk : Prop :=
  forall t m x, kindOf t m -> kindOf t (metric_inject m x).

Definition aggrOk : Prop :=
  forall t chs, metricTypeByChannels chs = Ok t ->
    Forall (fun j => 0 <= j < len (mt_channels t))
           (aggr_channels (mt_aggregator t chs)).

Lemma serverOk_setEntry (me : metricEntry) (s : Server D) :
  serverOk s -> entryOk me -> serverOk (setEntry me s).
Proof.
  intros Hs Hme t n me0. rewrite lookup_setEntry.
  destruct (decide _) as [[-> ->]|_]; [|apply Hs]. intros [= <-]. auto.
Qed.

Lemma serverOk_sameButDs (s s' : Server D) :
  sameButDs s s' -> serverOk s -> serverOk s'.
Proof. intros ->. exact id. Qed.

Lemma getMetricEntry_ok (t : MetricType) (n : string) (s s' : Server D)
    (me : metricEntry) :
  initOk -> serverOk s -> getMetricEntry t n s = (s', Ok me) ->
  serverOk s' /\ entryOk me.
Proof.
  intros Hinit Hs H. apply getMetricEntry_Ok in H as (_ & _ & [[Hl ->]|Hnew]).
  - split; [exact Hs|]. now apply (Hs t n me).
  - destruct Hnew as (_ & _ & _ & s0 & defs & Hd & Hf & -> & Hme).
    apply channelDefaults_length in Hd.
    assert (Hlen : length defs = length (mt_channels t)).
    { rewrite Hd. unfold loop, len. rewrite length_countFrom. lia. }
    assert (Hok : entryOk me).
    { rewrite Hme. unfold entryOk, ringOk.
      cbn [me_metric typ liveLog livePtr watchers].
      split; [now apply Hinit|].
      split; [|split; [now rewrite length_map|constructor]].
      split; [unfold LiveLogSize; lia|].
      apply Forall_forall. intros live Hin. apply list_elem_of_In in Hin.
      apply in_map_iff in Hin as (d & <- & _). apply length_replicate. }
    split; [|exact Hok].
    apply serverOk_setEntry; [|exact Hok]. exact (serverOk_sameButDs _ _ Hf Hs).
Qed.

Lemma Inject_ok (m : Metric) (s s' : Server D) :
  initOk -> injectOk -> serverOk s -> Inject m s = (s', Ok tt) -> serverOk s'.
Proof.
  intros Hinit Hinj Hs. unfold Inject.
  destruct (fle (SampleRate m) f0); [discriminate|].
  destruct (CheckMetricName (Name m)); [discriminate|].
  intros H. apply M_bind_Ok in H as (me & s1 & Hme & H).
  injection H as <-.
  destruct (getMetricEntry_ok _ _ _ _ _ Hinit Hs Hme) as (Hs1 & Hk & Hr & Hl & Hw).
  apply serverOk_setEntry; [exact Hs1|].
  split; [|split; [|split]]; simpl; auto.
Qed.

Lemma LiveWatch_ok (n : string) (chs : list string) (s s' : Server D) (w : Watcher) :
  initOk -> serverOk s -> LiveWatch n chs s = (s', Ok w) -> serverOk s'.
Proof.
  intros Hinit Hs. unfold LiveWatch.
  intros H. apply M_bind_Ok in H as (t & s0 & Ht & H). apply lift_Ok in Ht as [Ht ->].
  apply M_bind_Ok in H as (me & s1 & Hme & H).
  apply M_bind_Ok in H as (u & s2 & Hmod & H).
  injection H as <- _. injection Hmod as <-.
  destruct (getMetricEntry_ok _ _ _ _ _ Hinit Hs Hme) as (Hs1 & Hk & Hr & Hl & Hw).
  apply serverOk_setEntry; [exact Hs1|].
  split; [|split; [|split]]; simpl; auto.
  apply Forall_app. split; [exact Hw|]. constructor; [|constructor].
  split; simpl; [|congruence].
  destruct (metricTypeByChannels_Ok chs t Ht) as [_ Hchs].
  assert (Hty : typ me = t).
  { apply getMetricEntry_Ok in Hme as (_ & _ & [[Hl0 _]|(_ & Hty & _)]);
      [now destruct (Hs _ _ _ Hl0)|exact Hty]. }
  rewrite Hty. clear - Hchs.
  induction Hchs as [|c chs Hc _ IH]; simpl; constructor; auto.
Qed.

Lemma initInputs_frame (n : string) (t : MetricType) (inChs : list Z) (from until : Z)
    (s s' : Server D) (r : list (list Rec) * list float64) :
  initInputs n t inChs from until s = (s', Ok r) -> sameButDs s s'.
Proof.
  revert s s' r. induction inChs as [|j inChs IH]; intros s s' r; simpl.
  - intros [= <- _]. apply sameButDs_refl.
  - intros H. apply M_bind_Ok in H as (ch & s0 & Hch & H).
    apply lift_Ok in Hch as [_ ->].
    apply M_bind_Ok in H as (pre & s0 & Hpre & H). injection Hpre as <- _.
    apply M_bind_Ok in H as (q & s1 & Hq & H). apply callDs_frame in Hq.
    apply M_bind_Ok in H as (inp & s2 & Hinp & H). apply lift_Ok in Hinp as [_ ->].
    apply M_bind_Ok in H as (def & s3 & Hdef & H).
    apply getChannelDefault_frame in Hdef.
    apply M_bind_Ok in H as ([ins tmp] & s4 & Hrest & H). apply IH in Hrest.
    injection H as <- _.
    exact (sameButDs_trans _ _ _ Hq (sameButDs_trans _ _ _ Hdef Hrest)).
Qed.

Lemma Watch_ok (n : string) (chs : list string) (offs gran : Z) (s s' : Server D)
    (w : Watcher) :
  initOk -> aggrOk -> serverOk s ->
  Watch n chs offs gran s = (s', Ok w) -> serverOk s'.
Proof.
  intros Hinit Haggr Hs. unfold Watch.
  destruct (Z.eqb_spec (Z.rem offs 60) 0) as [Ho|]; simpl; [|discriminate].
  destruct (Z.ltb_spec gran 1) as [|Hg1]; [discriminate|].
  destruct (Z.eqb_spec (Z.rem gran 60) 0) as [Hg|]; simpl; [|discriminate].
  intros H.
  apply M_bind_Ok in H as (t & s0 & Ht & H). apply lift_Ok in Ht as [Ht ->].
  apply M_bind_Ok in H as (me & s1 & Hme & H).
  apply M_bind_Ok in H as ([aggr1 ins] & s2 & Hi & H).
  destruct (feedAggregator aggr1 ins _ gran) as [aggr2 ins2].
  apply M_bind_Ok in H as (u & s3 & Hmod & H).
  injection H as <- _. injection Hmod as <-.
  destruct (getMetricEntry_ok _ _ _ _ _ Hinit Hs Hme) as (Hs1 & Hk & Hr & Hl & Hw).
  unfold initAggregator in Hi.
  apply M_bind_Ok in Hi as ([ins0 tmp] & s4 & Hi & Hret). injection Hret as <- _ _.
  apply initInputs_frame in Hi.
  apply serverOk_setEntry; [exact (serverOk_sameButDs _ _ Hi Hs1)|].
  split; [|split; [|split]]; simpl; auto.
  apply Forall_app. split; [exact Hw|]. constructor; [|constructor].
  split; simpl; [|intros _; lia].
  apply getMetricEntry_Ok in Hme as (_ & _ & [[Hl0 _]|(_ & Hty & _)]).
  - destruct (Hs _ _ _ Hl0) as (-> & _). now apply Haggr.
  - rewrite Hty. now apply Haggr.
Qed.

(** X26.  The calls of the API keep a server well formed: after a
    successful [Inject], [LiveWatch] or [Watch], every entry is still
    registered under its own kind and name, has one ring of 600 samples per
    channel of its kind with the cursor inside, and has watchers that read
    channels of its kind, with a granularity that is not zero when they
    aggregate.  This is what the clock needs in order not to panic. *)
Theorem api_keeps_wellformed (s : Server D) :
  initOk -> injectOk -> aggrOk -> serverOk s ->
  (forall m s', Inject m s = (s', Ok tt) -> serverOk s') /\
  (forall n chs s' w, LiveWatch n chs s = (s', Ok w) -> serverOk s') /\
  (forall n chs offs gran s' w, Watch n chs offs gran s = (s', Ok w) -> serverOk s').
Proof.
  intros Hinit Hinj Haggr Hs. split; [|split].
  - intros m s'. now apply Inject_ok.
  - intros n chs s' w. now apply LiveWatch_ok.
  - intros n chs offs gran s' w. now apply Watch_ok.
Qed.

(** *** The live log after a tick *)

Lemma tickLiveLog_ring (me me' : metricEntry) (ts : Z) :
  tickLiveLog me ts = Ok me' ->
  liveLog me' = zip_with (fun live d => <[Z.to_nat (livePtr me) := d]> live)
                  (liveLog me) (fst (metric_tick (me_metric me))) /\
  livePtr me' = Z.rem (add64 (livePtr me) 1) LiveLogSize.
Proof.
  unfold tickLiveLog. destruct (metric_tick (me_metric me)) as [data m].
  unfold updateLiveLog. destruct (_ || _); [discriminate|]. simpl.
  destruct (mapM _ _); [|discriminate..]. simpl.
  intros [= <-]. simpl. auto.
Qed.

Lemma index_zip_with {A B C : Type} (f : A -> B -> C) (l : list A) (k : list B)
    (i : Z) (a : A) (b : B) :
  index l i = Ok a -> nth_error k (Z.to_nat i) = Some b ->
  index (zip_with f l k) i = Ok (f a b).
Proof.
  intros Ha Hb. apply index_Ok in Ha as [Hr Ha].
  unfold index. destruct (Z.leb_spec 0 i); [|lia].
  assert (E : nth_error (zip_with f l k) (Z.to_nat i) = Some (f a b)).
  { clear Hr. revert k Hb Ha. generalize (Z.to_nat i). clear.
    induction l as [|x l IH]; intros [|j] [|y k]; simpl; try discriminate.
    - now intros [= ->] [= ->].
    - intros H1 H2. now apply IH. }
  now rewrite E.
Qed.

Lemma selectLogs_tick (me me' : metricEntry) (t : MetricType) (chs : list string)
    (data : list float64) (logs : list (list float64)) :
  liveLog me' = zip_with (fun live d => <[Z.to_nat (livePtr me) := d]> live)
                  (liveLog me) data ->
  (length (liveLog me) <= length data)%nat ->
  selectLogs me t chs = Ok logs ->
  selectLogs me' t chs
  = Ok (zip_with (fun log c =>
                    <[Z.to_nat (livePtr me)
                      := nth (Z.to_nat (getChannelIndex t c)) data f0]> log)
                 logs chs).
Proof.
  intros Hlive Hlen. revert logs. induction chs as [|c chs IH]; intros logs; simpl.
  - intros [= <-]. reflexivity.
  - destruct (index (liveLog me) (getChannelIndex t c)) as [log| |] eqn:Hi;
      try discriminate.
    simpl. destruct (selectLogs me t chs) as [logs'| |]; try discriminate.
    simpl. intros [= <-].
    pose proof (index_Ok _ _ _ Hi) as [Hr _].
    assert (Hd : nth_error data (Z.to_nat (getChannelIndex t c))
                 = Some (nth (Z.to_nat (getChannelIndex t c)) data f0)).
    { apply nth_error_nth'. unfold len in Hr. lia. }
    rewrite Hlive, (index_zip_with _ _ _ _ _ _ Hi Hd). simpl.
    rewrite (IH logs' eq_refl). reflexivity.
Qed.

Lemma liveRow_other (p : nat) (d : string -> float64) (logs : list (list float64))
    (chs : list string) (j : Z) :
  length logs = length chs -> Z.to_nat j <> p ->
  liveRow (zip_with (fun log c => <[p := d c]> log) logs chs) j = liveRow logs j.
Proof.
  intros Hlen Hj. revert chs Hlen.
  induction logs as [|log logs IH]; intros [|c chs]; simpl; try discriminate; auto.
  intros [= Hlen]. unfold liveRow in *. simpl. f_equal; [|now apply IH].
  rewrite !nth_lookup. now rewrite list_lookup_insert_ne by congruence.
Qed.

Lemma liveRow_written (p : nat) (d : string -> float64) (logs : list (list float64))
    (chs : list string) :
  length logs = length chs -> Forall (fun log => (p < length log)%nat) logs ->
  liveRow (zip_with (fun log c => <[p := d c]> log) logs chs) (Z.of_nat p)
  = map d chs.
Proof.
  intros Hlen Hall. revert chs Hlen.
  induction Hall as [|log logs Hp _ IH]; intros [|c chs]; simpl; try discriminate; auto.
  intros [= Hlen]. unfold liveRow in *. simpl. f_equal; [|now apply IH].
  rewrite Nat2Z.id. apply nth_lookup_Some. now apply list_lookup_insert_eq.
Qed.

Lemma nth_error_tail {A : Type} (l : list A) (k : nat) :
  nth_error (tl l) k = nth_error l (S k).
Proof. destruct l; [destruct k|]; reflexivity. Qed.

(** X27.  A tick moves the window of [LiveLog] by one second.  When
    [LiveLog(name, channels)] returns [rows] for an entry of a well-formed
    server, [tickMetric] on that entry succeeds, and [LiveLog] then returns
    [rows] without its first row, followed by one new row made of the
    values that the kind's [tick()] reported for the requested channels;
    the start timestamp becomes the clock minus 600. *)
Theorem tick_shifts_LiveLog (n : string) (chs : list string) (t : MetricType)
    (s s1 : Server D) (me : metricEntry) (rows : list (list float64)) (t0 : Z) :
  reportsChannels metric_tick -> serverOk s ->
  metricTypeByChannels chs = Ok t -> metrics s t !! n = Some me ->
  LiveLog n chs s = (s1, Ok (rows, t0)) ->
  exists s',
    s1 = s /\ t0 = sub64 (lastTick me) 600 /\
    tickMetric me s = (s', Ok tt) /\
    LiveLog n chs s'
    = (s', Ok (tl rows
               ++ [map (fun c => nth (Z.to_nat (getChannelIndex t c))
                                     (fst (metric_tick (me_metric me))) f0) chs],
               sub64 (srvLastTick s) 600)).
Proof.
  intros Htick Hs Ht Hl Hlog.
  destruct (Hs t n me Hl) as (Hty & Hnm & Hok).
  (* the first call *)
  assert (Hget : exists me0, getMetricEntry t n s = (s1, Ok me0)).
  { unfold LiveLog in Hlog. rewrite Ht in Hlog.
    rewrite (M_bind_run (lift (Ok t)) _ s s t) in Hlog by reflexivity.
    apply M_bind_Ok in Hlog as (me0 & s0 & Hme0 & Hlog).
    apply M_bind_Ok in Hlog as (lg & s2 & Hlg & Hlog).
    apply lift_Ok in Hlg as [_ ->].
    destruct (_ || _); [discriminate|]. injection Hlog as <- _ _. eauto. }
  destruct Hget as [me0 Hget].
  destruct (getMetricEntry_found t n s s1 me me0 Hl Hget) as [-> ->].
  pose proof (getMetricEntry_Ok _ _ _ _ _ Hget) as (Hname & Hrun & _).
  rewrite (LiveLog_run n chs s s t me Ht Hget) in Hlog.
  destruct (selectLogs me t chs) as [logs| |] eqn:Hsel; try discriminate.
  destruct ((livePtr me <? 0) || (livePtr me >? LiveLogSize)); [discriminate|].
  injection Hlog as <- <-.
  (* the tick *)
  destruct (tickLiveLog_run (updateIdle me) (srvLastTick s) Htick (updateIdle_ok me Hok))
    as (me' & Hring & Hok' & Ht' & Hn' & _ & _ & _ & _ & Hlt').
  destruct (updateIdle_fields me) as (Ht1 & Hn1 & _).
  rewrite Ht1 in Ht'. rewrite Hn1 in Hn'.
  assert (Hrun' : tickMetric me s = (setEntry me' s, Ok tt)).
  { unfold tickMetric, mbind, M_bind, gets, lift, modify. now rewrite Hring. }
  apply tickLiveLog_ring in Hring as [Hlive Hptr].
  assert (Hidle : me_metric (updateIdle me) = me_metric me
                  /\ liveLog (updateIdle me) = liveLog me
                  /\ livePtr (updateIdle me) = livePtr me).
  { unfold updateIdle. destruct (recvdInputTick me); simpl; auto. }
  destruct Hidle as (Em & El & Ep). rewrite Em, El, Ep in Hlive. rewrite Ep in Hptr.
  destruct Hok as (Hk & [Hp Hrings] & Hlen & _).
  destruct (Htick _ _ Hk) as [Hdata _].
  exists (setEntry me' s). split; [reflexivity|]. split; [reflexivity|].
  split; [exact Hrun'|].
  (* the second call *)
  assert (Hget' : getMetricEntry t n (setEntry me' s) = (setEntry me' s, Ok me')).
  { apply getMetricEntry_present; [exact Hname|exact Hrun|].
    rewrite lookup_setEntry, Ht', Hn', Hty, Hnm.
    destruct (decide _) as [_|[]]; auto. }
  rewrite (LiveLog_run n chs _ _ t me' Ht Hget').
  set (d := fun c => nth (Z.to_nat (getChannelIndex t c))
                         (fst (metric_tick (me_metric me))) f0).
  set (logs' := zip_with (fun log c => <[Z.to_nat (livePtr me) := d c]> log) logs chs).
  assert (Hsel' : selectLogs me' t chs = Ok logs')
    by exact (selectLogs_tick me me' t chs _ logs Hlive ltac:(lia) Hsel).
  rewrite Hsel'.
  unfold LiveLogSize in *.
  assert (Hp' : livePtr me' = (livePtr me + 1) mod 600).
  { rewrite Hptr. unfold add64.
    rewrite wrap64_id by (unfold int64_range, MinInt64, MaxInt64; lia).
    apply Z.rem_mod_nonneg; lia. }
  pose proof (Z.mod_pos_bound (livePtr me + 1) 600 ltac:(lia)) as Hb.
  destruct (Z.ltb_spec (livePtr me') 0); [lia|].
  destruct (Z.gtb_spec (livePtr me') 600); [lia|]. simpl orb. cbv iota.
  rewrite Hlt'. do 3 f_equal.
  pose proof (selectLogs_spec me t chs logs Hsel) as Hsp.
  assert (Hll : length logs = length chs) by (symmetry; exact (Forall2_length _ _ _ Hsp)).
  assert (Hlogs : Forall (fun log => (Z.to_nat (livePtr me) < length log)%nat) logs).
  { clear - Hsp Hrings Hp. unfold LiveLogSize in *.
    induction Hsp as [|c log chs logs Hc _ IH]; constructor; [|exact IH].
    apply index_Ok in Hc as [_ Hc]. apply nth_error_In in Hc.
    rewrite Forall_forall in Hrings. apply list_elem_of_In in Hc.
    rewrite (Hrings log Hc). lia. }
  apply nth_error_ext. intros k.
  destruct (Nat.lt_ge_cases k 600%nat) as [Hk600|Hk600].
  - pose proof (ring_copy logs' (livePtr me') (Z.of_nat k)
                  ltac:(unfold LiveLogSize; lia) ltac:(unfold LiveLogSize; lia)) as E.
    rewrite Nat2Z.id in E. unfold LiveLogSize in E. rewrite E.
    assert (Hlenrows : length (map (liveRow logs) (loop (livePtr me) 600)
                               ++ map (liveRow logs) (loop 0 (livePtr me))) = 600%nat).
    { pose proof (ring_copy_length logs (livePtr me)
                    ltac:(unfold LiveLogSize; lia)) as E2.
      unfold len, LiveLogSize in E2. lia. }
    destruct (Nat.eq_dec k 599%nat) as [->|Hk599].
    + rewrite nth_error_app2 by (rewrite length_tl, Hlenrows; lia).
      rewrite length_tl, Hlenrows. simpl. f_equal.
      replace ((livePtr me' + Z.of_nat 599%nat) mod 600) with (Z.of_nat (Z.to_nat (livePtr me))).
      * apply liveRow_written; assumption.
      * rewrite Z2Nat.id by lia. rewrite Hp'.
        rewrite Z.add_mod_idemp_l by lia.
        replace (livePtr me + 1 + Z.of_nat 599%nat) with (livePtr me + 1 * 600) by lia.
        rewrite Z.mod_add by lia. symmetry. apply Z.mod_small. lia.
    + rewrite nth_error_app1 by (rewrite length_tl, Hlenrows; lia).
      rewrite nth_error_tail.
      pose proof (ring_copy logs (livePtr me) (Z.of_nat (S k))
                    ltac:(unfold LiveLogSize; lia) ltac:(unfold LiveLogSize; lia)) as E2.
      rewrite Nat2Z.id in E2. unfold LiveLogSize in E2. rewrite E2. f_equal.
      assert (Hsame : (livePtr me' + Z.of_nat k) mod 600
                      = (livePtr me + Z.of_nat (S k)) mod 600).
      { rewrite Hp', Z.add_mod_idemp_l by lia. f_equal. lia. }
      rewrite Hsame. apply liveRow_other; [assumption|].
      intros Heq. apply (f_equal Z.of_nat) in Heq.
      pose proof (Z.mod_pos_bound (livePtr me + Z.of_nat (S k)) 600 ltac:(lia)).
      rewrite !Z2Nat.id in Heq by lia.
      assert (Hk' : 1 <= Z.of_nat (S k) < 600) by lia.
      revert Heq. generalize (Z.of_nat (S k)) Hk'. clear - Hp. intros x Hx Heq.
      destruct (Z.lt_ge_cases (livePtr me + x) 600).
      * rewrite Z.mod_small in Heq by lia. lia.
      * replace (livePtr me + x) with (livePtr me + x - 600 + 1 * 600) in Heq by lia.
        rewrite Z.mod_add, Z.mod_small in Heq by lia. lia.
  - assert (E1 : nth_error
                   (map (liveRow logs') (loop (livePtr me') 600)
                    ++ map (liveRow logs') (loop 0 (livePtr me'))) k = None).
    { apply nth_error_None.
      pose proof (ring_copy_length logs' (livePtr me')
                    ltac:(unfold LiveLogSize; lia)) as E2.
      unfold len, LiveLogSize in E2. lia. }
    rewrite E1. symmetry. apply nth_error_None.
    rewrite length_app, length_tl. simpl.
    pose proof (ring_copy_length logs (livePtr me) ltac:(unfold LiveLogSize; lia)) as E2.
    unfold len, LiveLogSize in E2. lia.
Qed.

(** *** Datagrams *)

Section Datagram.

Variable ParseFloat : list byte -> option float64.

Lemma injectLines_no_Err (segs : list (list byte)) (s s' : Server D) (e : Error) :
  injectLines ParseFloat segs s <> (s', Err e).
Proof.
  revert s. induction segs as [|seg segs IH]; intros s; simpl; [discriminate|].
  destruct (ParseMetric ParseFloat seg) as [m|e0|]; [|apply IH|discriminate].
  destruct (Inject m s) as [s1 [u|e1|]]; [apply IH|apply IH|discriminate].
Qed.

Lemma injectLines_dropped (l1 l2 : list (list byte)) (bad : list byte) (e : Error)
    (s : Server D) :
  ParseMetric ParseFloat bad = Err e ->
  injectLines ParseFloat (l1 ++ bad :: l2) s = injectLines ParseFloat (l1 ++ l2) s.
Proof.
  intros Hbad. revert s. induction l1 as [|seg l1 IH]; intros s; simpl.
  - now rewrite Hbad.
  - destruct (ParseMetric ParseFloat seg) as [m|e0|]; [|apply IH|reflexivity].
    destruct (Inject m s) as [s1 [u|e1|]]; [apply IH|apply IH|reflexivity].
Qed.

Lemma InjectBytes_lines (ls : list (list byte)) (s : Server D) :
  Forall LinesFacts.isLine ls ->
  InjectBytes ParseFloat (Lines.joinLines ls) s = injectLines ParseFloat ls s.
Proof.
  intros Hls. unfold InjectBytes.
  rewrite LinesFacts.lines_collect, (proj1 (LinesFacts.collect_lines ls Hls)).
  reflexivity.
Qed.

(** X28.  [InjectBytes] reports no error, and a bad line does not disturb
    the others: in a datagram of non-empty lines separated by single
    newlines, a line that [ParseMetric] refuses has no effect at all; the
    server ends up as if the datagram had come without it. *)
Theorem InjectBytes_drops_bad_line (l1 l2 : list (list byte)) (bad : list byte)
    (e : Error) (s : Server D) :
  Forall LinesFacts.isLine (l1 ++ bad :: l2) ->
  ParseMetric ParseFloat bad = Err e ->
  InjectBytes ParseFloat (Lines.joinLines (l1 ++ bad :: l2)) s
  = InjectBytes ParseFloat (Lines.joinLines (l1 ++ l2)) s /\
  forall msg e', snd (InjectBytes ParseFloat msg s) <> Err e'.
Proof.
  intros Hls Hbad. split.
  - assert (Hls' : Forall LinesFacts.isLine (l1 ++ l2)).
    { apply Forall_app in Hls as [H1 H2]. apply Forall_app. split; [exact H1|].
      now apply Forall_cons_1 in H2 as [_ H2]. }
    rewrite (InjectBytes_lines _ s Hls), (InjectBytes_lines _ s Hls').
    now apply (injectLines_dropped l1 l2 bad e).
  - intros msg e'. unfold InjectBytes. rewrite LinesFacts.lines_collect.
    unfold mbind, M_bind, lift.
    destruct (injectLines ParseFloat (LinesFacts.collect [] msg) s) as [s1 r] eqn:E.
    simpl. intros ->. exact (injectLines_no_Err _ _ _ _ E).
Qed.

End Datagram.

End Contract.

End WithOps.

End SrvMore.

(** ** Runs of the server on concrete inputs *)

Module SrvMoreRuns.
Import GoFacts Srv SrvOps SrvFacts SrvMore Inst InstOps.

#[local] Open Scope string_scope.

Lemma specOps_tick : reportsChannels sized metric_tick.
Proof. intros t m H. simpl. auto. Qed.

Lemma specOps_flush : reportsChannels sized metric_flush.
Proof. intros t m H. simpl. auto. Qed.

Lemma sized_init : initOk sized.
Proof. intros t v H. exact H. Qed.

Lemma sized_inject : injectOk sized.
Proof. intros t m x H. unfold sized in *. simpl. now rewrite length_map. Qed.

Lemma spec_aggr : aggrOk.
Proof.
  intros t chs Ht. destruct (metricTypeByChannels_Ok chs t Ht) as [_ Hchs].
  simpl. clear Ht. induction Hchs as [|c chs Hc _ IH]; simpl; constructor; auto.
Qed.

Lemma emptyServer_ok (lt : Z) : serverOk sized (emptyServer lt).
Proof. intros t n me H. simpl in H. rewrite lookup_empty in H. discriminate. Qed.

Lemma injected_run (lt : Z) : Inject hits (emptyServer lt) = (injected lt, Ok tt).
Proof.
  unfold injected. destruct (Inject hits (emptyServer lt)) as [s' r] eqn:E.
  assert (Hr : snd (Inject hits (emptyServer lt)) = Ok tt) by (vm_compute; reflexivity).
  rewrite E in Hr. simpl in Hr. now rewrite Hr.
Qed.

Lemma injected_ok (lt : Z) : serverOk sized (injected lt).
Proof.
  exact (Inject_ok sized hits (emptyServer lt) (injected lt) sized_init sized_inject
           (emptyServer_ok lt) (injected_run lt)).
Qed.

Lemma getMetricEntry_again_witness :
  exists s' me,
    getMetricEntry Counter "hits" (emptyServer 100) = (s', Ok me) /\
    getMetricEntry Counter "hits" s' = (s', Ok me).
Proof.
  destruct (getMetricEntry Counter "hits" (emptyServer 100)) as [s' [me| |]] eqn:Hme;
    try (exfalso; vm_compute in Hme; discriminate).
  exists s', me. split; [reflexivity|].
  exact (proj2 (proj2 (getMetricEntry_again _ _ _ _ _ Hme))).
Defined.

Lemma Inject_outcome_witness :
  keyed (emptyServer 100) /\
  Inject hits (emptyServer 100) = (injected 100, Ok tt) /\
  exists me, metrics (injected 100) Counter !! "hits" = Some me /\
             recvdInput me = true /\ recvdInputTick me = true.
Proof.
  assert (Hk : keyed (emptyServer 100)).
  { intros t n me H. simpl in H. rewrite lookup_empty in H. discriminate. }
  split; [exact Hk|]. split; [exact (injected_run 100)|].
  destruct (Inject_outcome hits _ _ _ Hk (injected_run 100)) as [_ H].
  destruct (H eq_refl) as (_ & Hme & _). exact Hme.
Defined.

Lemma clock_100 : srvLastTick (injected 100) = 100.
Proof. vm_compute. reflexivity. Qed.

(** From clock 100 to 130, across the minute boundary 120. *)
Lemma handleTick_clock_witness :
  serverOk sized (injected 100) /\
  exists s',
    handleTick entries 130 (injected 100) = (s', Ok false) /\
    srvLastTick s' = 130 /\ serverOk sized s'.
Proof.
  pose proof (injected_ok 100) as Hs. split; [exact Hs|].
  destruct (handleTick_clock sized entries 130 (injected 100)
              specOps_tick specOps_flush (fun s => Permutation_refl _) Hs)
    as (s' & b & Hrun & Hs' & _ & _ & _ & Hclock).
  - unfold int64_range, MinInt64, MaxInt64. lia.
  - rewrite clock_100. unfold int64_range, MinInt64, MaxInt64. lia.
  - assert (Hst : stopping (injected 100) = false) by (vm_compute; reflexivity).
    rewrite Hst, clock_100 in Hclock. simpl in Hclock. destruct Hclock as [-> Hlt].
    exists s'. split; [exact Hrun|]. split; [lia|exact Hs'].
Defined.

(** The minute boundary for an entry with input: it is flushed and stays. *)
Lemma flushMetrics_settles_witness :
  exists s' me',
    flushMetrics entries (injected 120) = (s', Ok tt) /\
    metrics s' Counter !! "hits" = Some me' /\
    recvdInput me' = false /\ lastTick me' = 120.
Proof.
  destruct (flushMetrics_settles sized entries (injected 120)
              specOps_tick specOps_flush (Permutation_refl _) (injected_ok 120))
    as (s' & Hrun & _ & Hall).
  destruct (metrics (injected 120) Counter !! "hits") as [me|] eqn:Hl;
    [|exfalso; vm_compute in Hl; discriminate].
  assert (Hin : option_map recvdInput (metrics (injected 120) Counter !! "hits")
                = Some true) by (vm_compute; reflexivity).
  rewrite Hl in Hin. simpl in Hin. injection Hin as Hin.
  specialize (Hall Counter "hits" me Hl). rewrite Hin in Hall. simpl in Hall.
  destruct Hall as (me' & Hl' & Hri & _ & _ & _ & Hlt).
  exists s', me'. split; [exact Hrun|]. split; [exact Hl'|]. split; [exact Hri|].
  rewrite Hlt. vm_compute. reflexivity.
Defined.

Lemma api_keeps_wellformed_witness :
  serverOk sized (emptyServer 100) /\ serverOk sized (injected 100).
Proof.
  split; [exact (emptyServer_ok 100)|].
  destruct (api_keeps_wellformed sized (emptyServer 100) sized_init sized_inject
              spec_aggr (emptyServer_ok 100)) as [H _].
  exact (H hits (injected 100) (injected_run 100)).
Defined.

(** One second after the injection of the value 5: the window moves by one
    row, and the new last row is the value 5. *)
Lemma tick_shifts_LiveLog_witness :
  let s := setLastTick 101 (injected 100) in
  exists me rows s',
    metrics s Counter !! "hits" = Some me /\
    LiveLog "hits" ["count"] s = (s, Ok (rows, -500)) /\
    tickMetric me s = (s', Ok tt) /\
    LiveLog "hits" ["count"] s' = (s', Ok ((tl rows ++ [[FNum 5]])%list, -499)).
Proof.
  intros s.
  assert (Hs : serverOk sized s) by exact (injected_ok 100).
  destruct (metrics s Counter !! "hits") as [me|] eqn:Hl;
    [|exfalso; vm_compute in Hl; discriminate].
  destruct (LiveLog "hits" ["count"] s) as [s1 [[rows t0]| |]] eqn:HL;
    try (exfalso; vm_compute in HL; discriminate).
  destruct (tick_shifts_LiveLog sized "hits" ["count"] Counter s s1 me rows t0
              specOps_tick Hs eq_refl Hl HL)
    as (s' & -> & -> & Htick & HL').
  assert (Hf : option_map (fun e => (lastTick e, me_metric e))
                 (metrics s Counter !! "hits") = Some (100, [FNum 5]))
    by (vm_compute; reflexivity).
  rewrite Hl in Hf. simpl in Hf. injection Hf as Hlt Hm.
  exists me, rows, s'. split; [reflexivity|].
  rewrite Hlt. split; [reflexivity|]. split; [exact Htick|].
  rewrite HL'. simpl metric_tick. rewrite Hm. reflexivity.
Defined.

(** An entry created by a read at clock 0 and never written: it is there
    until the boundary 660, the first at which it has been idle for more
    than 600 seconds. *)
Lemma idle_entry_expires_witness :
  let s := fst (getMetricEntry Gauge "g" (emptyServer 0)) in
  exists s',
    handleTick entries 660 s = (s', Ok false) /\ metrics s' Gauge !! "g" = None.
Proof.
  intros s.
  destruct (getMetricEntry Gauge "g" (emptyServer 0)) as [s0 [me| |]] eqn:Hme;
    try (exfalso; vm_compute in Hme; discriminate).
  simpl in s.
  destruct (getMetricEntry_ok sized Gauge "g" (emptyServer 0) s0 me sized_init
              (emptyServer_ok 0) Hme) as [Hs _].
  destruct (getMetricEntry_registered Gauge "g" (emptyServer 0) s0 me Hme)
    as (Hl & _ & _ & Hst & _ & Hlt).
  destruct (getMetricEntry_Ok Gauge "g" (emptyServer 0) s0 me Hme)
    as (_ & _ & [[Hl0 _]|(_ & _ & _ & s1 & defs & _ & _ & _ & Hfresh)]);
    [vm_compute in Hl0; discriminate|].
  simpl in Hst, Hlt.
  destruct (idle_entry_expires sized entries 660 s0 Gauge "g" me
              specOps_tick specOps_flush (fun s => Permutation_refl _) Hs)
    as (s' & b & Hrun & _ & Hclock & Hout);
    try (rewrite Hfresh; reflexivity);
    try (rewrite Hlt; unfold int64_range, MinInt64, MaxInt64; lia);
    try (rewrite Hfresh; simpl; unfold MaxInt64; lia);
    try exact Hl;
    try (unfold int64_range, MinInt64, MaxInt64; lia).
  specialize (Hclock Hst). cbv zeta in Hout.
  rewrite Hclock, Hlt in Hout. rewrite Hfresh in Hout. simpl in Hout.
  exists s'. split; [|exact Hout].
  assert (Hb : b = false).
  { destruct (handleLoop_run sized entries (fun s => Permutation_refl _)
                (Z.to_nat (660 - srvLastTick s0)) 660 s0 specOps_tick specOps_flush
                Hs ltac:(unfold MaxInt64; lia)
                ltac:(rewrite Hlt; unfold MinInt64; lia) ltac:(lia))
      as (s2 & b2 & Hrun2 & _ & _ & _ & _ & Hc2).
    unfold handleTick in Hrun. rewrite Hrun2 in Hrun. injection Hrun as _ <-.
    rewrite Hst in Hc2. simpl in Hc2. now destruct Hc2. }
  now rewrite <- Hb.
Defined.

(** A datagram of three lines whose second line has no value. *)
Lemma InjectBytes_drops_bad_line_witness :
  InjectBytes parseUint
    (list_byte_of_string "a:1|c" ++ Lines.newline :: list_byte_of_string "junk"
     ++ Lines.newline :: list_byte_of_string "b:2|g")%list (emptyServer 100)
  = InjectBytes parseUint
      (list_byte_of_string "a:1|c" ++ Lines.newline :: list_byte_of_string "b:2|g")%list
      (emptyServer 100).
Proof.
  destruct (ParseMetric parseUint (list_byte_of_string "junk")) as [m|e|] eqn:Hbad;
    try (exfalso; vm_compute in Hbad; discriminate).
  refine (proj1 (InjectBytes_drops_bad_line parseUint
                   [list_byte_of_string "a:1|c"] [list_byte_of_string "b:2|g"]
                   (list_byte_of_string "junk") e (emptyServer 100) _ Hbad)).
  repeat constructor; try discriminate;
    (intros Hin; simpl in Hin; repeat (destruct Hin as [Hin|Hin]; [discriminate|]);
     exact Hin).
Defined.

End SrvMoreRuns.

(** ** Feeding an aggregator from the stored records *)

Module AggrFacts.
Import GoFacts Srv SrvFacts.

Section WithKinds.

Context `{K : Kinds}.

(** Records in the order of their timestamps, as [Query] returns them. *)
Definition ascending (l : list Rec) : Prop :=
  StronglySorted (fun a b => Go.Ts a <= Go.Ts b) l.

(** The value recorded for the minute [m], if there is one. *)
Definition valueAt (l : list Rec) (m : Z) : option float64 :=
  match List.find (fun r => Go.Ts r =? m) l with
  | Some r => Some (Go.Value r)
  | None => None
  end.

(** The values of all the channels at the minute [m], when every channel
    has one. *)
Fixpoint vectorAt (ins : list (list Rec)) (m : Z) : option (list float64) :=
  match ins with
  | [] => Some []
  | l :: ins' =>
      match valueAt l m, vectorAt ins' m with
      | Some x, Some v => Some (x :: v)
      | _, _ => None
      end
  end.

(** The vectors of the complete minutes among [ts+60, ts+120, ...,
    ts+60n], in this order. *)
Fixpoint putsOf (ins : list (list Rec)) (ts : Z) (n : nat) : list (list float64) :=
  match n with
  | O => []
  | S n' =>
      match vectorAt ins (ts + 60) with Some v => [v] | None => [] end
      ++ putsOf ins (ts + 60) n'
  end.

(** The rows of a log computed from the records as they were queried:
    every row aggregates the complete minutes of its interval, on top of
    the aggregator left by the row before. *)
Fixpoint rowsOf (n : nat) (aggr : aggregator) (ins : list (list Rec)) (ts gran : Z)
  : list (list float64) :=
  match n with
  | O => []
  | S n' =>
      let aggr1 := fold_left aggr_put (putsOf ins ts (minutes gran)) aggr in
      aggr_get aggr1 :: rowsOf n' aggr1 ins (ts + gran) gran
  end.

Lemma valueAt_cons (r : Rec) (l : list Rec) (m : Z) :
  valueAt (r :: l) m = if Go.Ts r =? m then Some (Go.Value r) else valueAt l m.
Proof. unfold valueAt. simpl. now destruct (Go.Ts r =? m). Qed.

Lemma valueAt_later (l : list Rec) (m : Z) (b : Z) :
  Forall (fun r => b <= Go.Ts r) l -> m < b -> valueAt l m = None.
Proof.
  induction 1 as [|r l Hr _ IH]; intros Hm; [reflexivity|].
  rewrite valueAt_cons. destruct (Z.eqb_spec (Go.Ts r) m); [lia|auto].
Qed.

Lemma ascending_dropOlder (l : list Rec) (m : Z) :
  ascending l -> ascending (dropOlder l m).
Proof.
  induction 1 as [|r l Hl IH Hr]; simpl; [constructor|].
  destruct (Go.Ts r <? m); [exact IH|]. now constructor.
Qed.

(** On records in order, the loop that drops the older records and then
    looks at the head finds the value of the minute. *)
Lemma dropOlder_head (l : list Rec) (m : Z) :
  ascending l ->
  valueAt l m
  = match dropOlder l m with
    | r :: _ => if Go.Ts r =? m then Some (Go.Value r) else None
    | [] => None
    end.
Proof.
  induction 1 as [|r l Hl IH Hr]; [reflexivity|].
  rewrite valueAt_cons. simpl.
  destruct (Z.ltb_spec (Go.Ts r) m) as [Hlt|Hge].
  - destruct (Z.eqb_spec (Go.Ts r) m); [lia|exact IH].
  - destruct (Z.eqb_spec (Go.Ts r) m) as [|Hne]; [reflexivity|].
    apply (valueAt_later l m (Go.Ts r)); [exact Hr|lia].
Qed.

(** Dropping the records older than [m] loses nothing for the minutes
    from [m] on. *)
Lemma valueAt_dropOlder (l : list Rec) (m m' : Z) :
  m <= m' -> valueAt (dropOlder l m) m' = valueAt l m'.
Proof.
  intros Hm. induction l as [|r l IH]; [reflexivity|]. simpl.
  destruct (Z.ltb_spec (Go.Ts r) m) as [Hlt|Hge]; [|reflexivity].
  rewrite IH, valueAt_cons. destruct (Z.eqb_spec (Go.Ts r) m'); [lia|reflexivity].
Qed.

(** [ins] has the values of [ins0] for the minutes from [a] on. *)
Definition agree (ins0 ins : list (list Rec)) (a : Z) : Prop :=
  Forall2 (fun l0 l => forall m, a <= m -> valueAt l m = valueAt l0 m) ins0 ins.

Lemma agree_refl (ins : list (list Rec)) (a : Z) : agree ins ins a.
Proof. induction ins; constructor; auto. Qed.

Lemma agree_later (ins0 ins : list (list Rec)) (a b : Z) :
  a <= b -> agree ins0 ins a -> agree ins0 ins b.
Proof.
  intros Hab. induction 1 as [|l0 l ins0 ins Hl _ IH]; constructor; [|exact IH].
  intros m Hm. apply Hl. lia.
Qed.

Lemma agree_vectorAt (ins0 ins : list (list Rec)) (a m : Z) :
  agree ins0 ins a -> a <= m -> vectorAt ins m = vectorAt ins0 m.
Proof.
  induction 1 as [|l0 l ins0 ins Hl _ IH]; intros Hm; [reflexivity|].
  simpl. now rewrite Hl, IH.
Qed.

Lemma agree_dropOlder (ins0 ins : list (list Rec)) (a m : Z) :
  agree ins0 ins a -> a <= m ->
  agree ins0 (map (fun l => dropOlder l m) ins) m.
Proof.
  induction 1 as [|l0 l ins0 ins Hl _ IH]; intros Hm; simpl; constructor;
    [|now apply IH].
  intros m' Hm'. rewrite valueAt_dropOlder by lia. apply Hl. lia.
Qed.

Lemma feedChannels_spec (ins : list (list Rec)) (tmp : list float64) (m : Z) :
  Forall ascending ins -> length tmp = length ins ->
  exists tmp1 missing,
    feedChannels ins tmp m = (map (fun l => dropOlder l m) ins, tmp1, missing) /\
    length tmp1 = length ins /\
    match vectorAt ins m with
    | Some v => missing = false /\ tmp1 = v
    | None => missing = true
    end.
Proof.
  intros Hall. revert tmp.
  induction Hall as [|l ins Hl _ IH]; intros [|x tmp]; try discriminate.
  - intros _. exists [], false. simpl. auto.
  - intros [= Hlen]. destruct (IH tmp Hlen) as (tmp1 & missing & Hrun & Hlen1 & Hv).
    cbn [feedChannels map vectorAt]. rewrite Hrun, (dropOlder_head l m Hl).
    destruct (dropOlder l m) as [|r rest] eqn:Hd.
    + exists (x :: tmp1), true. simpl. auto.
    + destruct (Z.eqb_spec (Go.Ts r) m) as [Hr|Hr].
      * exists (Go.Value r :: tmp1), missing. split; [reflexivity|].
        split; [simpl; now rewrite Hlen1|].
        destruct (vectorAt ins m) as [v|]; [|exact Hv].
        destruct Hv as [-> ->]. auto.
      * exists (x :: tmp1), true. simpl. auto.
Qed.

Lemma feedMinutes_spec (n : nat) (aggr : aggregator) (ins0 ins : list (list Rec))
    (tmp : list float64) (ts a : Z) :
  agree ins0 ins a -> a <= ts + 60 ->
  Forall ascending ins -> length tmp = length ins ->
  MinInt64 <= ts -> ts + 60 * Z.of_nat n <= MaxInt64 ->
  exists ins',
    feedMinutes n aggr ins tmp ts
    = (fold_left aggr_put (putsOf ins0 ts n) aggr, ins') /\
    Forall ascending ins' /\ agree ins0 ins' (Z.max a (ts + 60 * Z.of_nat n)).
Proof.
  revert aggr ins tmp ts a.
  induction n as [|n IH]; intros aggr ins tmp ts a Hag Ha Hasc Hlen Hlo Hhi.
  - exists ins. split; [reflexivity|]. split; [exact Hasc|].
    apply (agree_later ins0 ins a); [lia|exact Hag].
  - cbn [feedMinutes putsOf].
    assert (Hadd : add64 ts 60 = ts + 60).
    { apply wrap64_id. unfold int64_range, MinInt64, MaxInt64 in *. lia. }
    rewrite Hadd.
    destruct (feedChannels_spec ins tmp (ts + 60) Hasc Hlen)
      as (tmp1 & missing & Hrun & Hlen1 & Hv).
    rewrite Hrun.
    rewrite (agree_vectorAt ins0 ins a (ts + 60) Hag Ha) in Hv.
    assert (Hasc1 : Forall ascending (map (fun l => dropOlder l (ts + 60)) ins)).
    { apply Forall_forall. intros l Hin. apply list_elem_of_In in Hin.
      apply in_map_iff in Hin as (l1 & <- & Hin).
      apply ascending_dropOlder. rewrite Forall_forall in Hasc.
      apply Hasc. now apply list_elem_of_In. }
    destruct (IH (if missing then aggr else aggr_put aggr tmp1)
                 (map (fun l => dropOlder l (ts + 60)) ins) tmp1 (ts + 60) (ts + 60)
                 (agree_dropOlder ins0 ins a (ts + 60) Hag Ha) ltac:(lia) Hasc1
                 ltac:(now rewrite length_map) ltac:(lia) ltac:(lia))
      as (ins' & Hrun' & Hasc' & Hag').
    exists ins'. split; [|split; [exact Hasc'|]].
    + rewrite Hrun'. f_equal. rewrite fold_left_app. f_equal.
      destruct (vectorAt ins0 (ts + 60)) as [v|].
      * destruct Hv as [-> ->]. reflexivity.
      * rewrite Hv. reflexivity.
    + replace (Z.max a (ts + 60 * Z.of_nat (S n)))
        with (Z.max (ts + 60) (ts + 60 + 60 * Z.of_nat n)) by lia.
      exact Hag'.
Qed.

(** X29.  [feedAggregator(aggr, in, ts, gran)] on records in the order of
    their timestamps puts into the aggregator, minute by minute in
    [ts+60, ts+120, ...], the vector of the channel values recorded at that
    minute, for exactly the minutes at which every channel has a record;
    what a minute with a missing channel leaves in the scratch vector never
    reaches the aggregator. *)
Theorem feedAggregator_puts (aggr : aggregator) (ins : list (list Rec)) (ts gran : Z) :
  Forall ascending ins ->
  MinInt64 <= ts -> ts + 60 * Z.of_nat (minutes gran) <= MaxInt64 ->
  fst (feedAggregator aggr ins ts gran)
  = fold_left aggr_put (putsOf ins ts (minutes gran)) aggr.
Proof.
  intros Hasc Hlo Hhi. unfold feedAggregator.
  destruct (feedMinutes_spec (minutes gran) aggr ins ins
              (replicate (length ins) f0) ts (ts + 60)
              (agree_refl ins _) ltac:(lia) Hasc ltac:(apply length_replicate) Hlo Hhi)
    as (ins' & -> & _). reflexivity.
Qed.

Lemma minutes_bound (gran : Z) :
  0 < gran -> 60 <= 60 * Z.of_nat (minutes gran) < gran + 60.
Proof.
  intros Hg. unfold minutes. rewrite Z2Nat.id by (apply Z.div_pos; lia).
  Z.to_euclidean_division_equations. lia.
Qed.

Lemma logRows_agree (n : nat) (aggr : aggregator) (ins0 ins : list (list Rec))
    (ts gran : Z) :
  agree ins0 ins (ts + 60) -> Forall ascending ins -> 0 < gran ->
  MinInt64 <= ts -> ts + Z.of_nat n * gran + 60 <= MaxInt64 ->
  logRows n aggr ins ts gran = rowsOf n aggr ins0 ts gran.
Proof.
  revert aggr ins ts.
  induction n as [|n IH]; intros aggr ins ts Hag Hasc Hg Hlo Hhi; [reflexivity|].
  cbn [logRows rowsOf]. unfold feedAggregator.
  pose proof (minutes_bound gran Hg) as Hm.
  destruct (feedMinutes_spec (minutes gran) aggr ins0 ins
              (replicate (length ins) f0) ts (ts + 60)
              Hag ltac:(lia) Hasc ltac:(apply length_replicate) Hlo ltac:(nia))
    as (ins' & -> & Hasc' & Hag').
  assert (Hadd : add64 ts gran = ts + gran).
  { apply wrap64_id. unfold int64_range, MinInt64, MaxInt64 in *. nia. }
  rewrite Hadd. f_equal.
  apply IH; try assumption; try nia.
  apply (agree_later ins0 ins' (Z.max (ts + 60) (ts + 60 * Z.of_nat (minutes gran))));
    [lia|exact Hag'].
Qed.

(** X30.  The rows that [Log] computes, with the records trimmed in place
    from one row to the next, are the rows computed from the records as
    they were queried: row [i] is what the aggregator holds after the
    complete minutes of [(ts + i*gran, ts + (i+1)*gran]] (rounded up to
    whole minutes) have been put on top of row [i-1]. *)
Theorem logRows_from_records (n : nat) (aggr : aggregator) (ins : list (list Rec))
    (ts gran : Z) :
  Forall ascending ins -> 0 < gran ->
  MinInt64 <= ts -> ts + Z.of_nat n * gran + 60 <= MaxInt64 ->
  logRows n aggr ins ts gran = rowsOf n aggr ins ts gran.
Proof.
  intros Hasc Hg Hlo Hhi.
  exact (logRows_agree n aggr ins ins ts gran (agree_refl ins _) Hasc Hg Hlo Hhi).
Qed.

End WithKinds.

End AggrFacts.

Module AggrRuns.
Import GoFacts Srv SrvFacts AggrFacts Inst.

(** Two channels; the second has no record at minute 120. *)
Lemma feedAggregator_puts_witness :
  let ins := [[mkRecord 60 (FNum 1); mkRecord 120 (FNum 2); mkRecord 180 (FNum 3)];
              [mkRecord 60 (FNum 10); mkRecord 180 (FNum 30)]] in
  Forall ascending ins /\
  fst (feedAggregator ([0; 1], []) ins 0 120) = ([0; 1], [FNum 1; FNum 10]) /\
  fst (feedAggregator ([0; 1], []) ins 0 180) = ([0; 1], [FNum 3; FNum 30]).
Proof.
  intros ins.
  assert (H : Forall ascending ins) by (repeat constructor; simpl; lia).
  split; [exact H|]. split.
  - rewrite (feedAggregator_puts _ ins 0 120 H);
      [reflexivity|unfold MinInt64; lia|vm_compute; discriminate].
  - rewrite (feedAggregator_puts _ ins 0 180 H);
      [reflexivity|unfold MinInt64; lia|vm_compute; discriminate].
Defined.

(** Two rows of two minutes each over the same records. *)
Lemma logRows_from_records_witness :
  let ins := [[mkRecord 60 (FNum 1); mkRecord 120 (FNum 2); mkRecord 180 (FNum 3)];
              [mkRecord 60 (FNum 10); mkRecord 180 (FNum 30)]] in
  Forall ascending ins /\
  logRows 2 ([0; 1], []) ins 0 120 = [[FNum 1; FNum 10]; [FNum 3; FNum 30]].
Proof.
  intros ins.
  assert (H : Forall ascending ins) by (repeat constructor; simpl; lia).
  split; [exact H|].
  rewrite (logRows_from_records 2 _ ins 0 120 H);
    [reflexivity|lia|unfold MinInt64; lia|unfold MaxInt64; lia].
Defined.

End AggrRuns.
